(** * Reversible constant-modulus arithmetic circuits (Shor / discrete log)

    A shallow embedding of the circuit constructors of [shor/arithmetic]:
    the Takahashi-Tani-Kunihiro adder and the borrowed-qubit incrementer,
    the Haener-Roetteler-Svore carry gate, adder, comparator, modular adder,
    multiplier and exponentiation, Draper's Fourier-space adders, Beauregard's
    modular adder, multiplier and exponentiation, and the Montgomery
    multiplier and exponentiation.

    A circuit is the ordered list of primitive gates that the Python code
    hands to qiskit, each bound to qubit positions, together with the
    registers it declares.  [append] is qiskit's
    [QuantumCircuit.append(sub, qargs)] (qubit [j] of the sub-circuit is wired
    to [qargs[j]]), [inverse] is [QuantumCircuit.inverse()] (reversed order,
    every gate inverted).  Constructors that can raise return a [result].

    Two interpretations of gate lists are given.  [exec] is the action of the
    classical reversible gates (X, CX, CCX, MCT, CSWAP) on computational
    basis states.  [run] extends it to product states in which every qubit is
    either a basis bit or a Fourier cell (|0> + e^{i pi q}|1>)/sqrt 2 with a
    rational phase [q]: the class of states through which the Fourier-space
    circuits of the repository pass on classical inputs.  Rotation angles are
    exact rational multiples of pi (the Python code computes them in floating
    point). *)

From Stdlib Require Import String.
From Stdlib Require Import List ZArith Bool Lia Arith QArith Ascii.
Import ListNotations.
Open Scope nat_scope.

(** ** Python and numpy helpers *)

Inductive exn : Type :=
| ValueError
| IndexError
| CircuitError
| RecursionError.

Inductive result (A : Type) : Type :=
| Ok (a : A)
| Raise (e : exn).
Arguments Ok {A} a.
Arguments Raise {A} e.

Definition bind {A B : Type} (r : result A) (k : A -> result B) : result B :=
  match r with
  | Ok a => k a
  | Raise e => Raise e
  end.

Notation "x <- e ;; k" := (bind e (fun x => k))
  (at level 61, e at next level, right associativity).

(** [range(a, b)] and [reversed(range(a, b))]. *)
Definition range (a b : nat) : list nat := seq a (b - a).
Definition reversed (l : list nat) : list nat := rev l.

(** A Python slice [l[a:b]]. *)
Definition slice {A : Type} (l : list A) (a b : nat) : list A :=
  firstn (b - a) (skipn a l).

(** Python strings of binary digits. *)
Definition str : Type := list ascii.

(** [s[i] == ch]; the sources only index inside the string. *)
Definition chr_eq (s : str) (i : nat) (ch : ascii) : bool :=
  match nth_error s i with
  | Some c => Ascii.eqb c ch
  | None => false
  end.

(** [bin(p)[2:]] for a positive integer, most significant digit first. *)
Fixpoint bin_pos (p : positive) : str :=
  match p with
  | xH => ["1"%char]
  | xO p' => bin_pos p' ++ ["0"%char]
  | xI p' => bin_pos p' ++ ["1"%char]
  end.

Definition bin (z : Z) : str :=
  match z with
  | Zpos p => bin_pos p
  | _ => ["0"%char]
  end.

(** [numpy.binary_repr(num, width)] (numpy 1.x: a width that is too small
    only produces a warning and the full representation is returned). *)
Definition binary_repr (num : Z) (width : nat) : str :=
  match num with
  | Z0 => repeat "0"%char (if width =? 0 then 1 else width)
  | Zpos p =>
      let binary := bin_pos p in
      repeat "0"%char (width - List.length binary) ++ binary
  | Zneg p =>
      let poswidth := List.length (bin_pos p) in
      let poswidth :=
        if (2 ^ Z.of_nat (poswidth - 1) =? Zpos p)%Z then poswidth - 1 else poswidth in
      let twocomp := (2 ^ Z.of_nat (poswidth + 1) + num)%Z in
      let binary := bin twocomp in
      repeat "1"%char (width - List.length binary) ++ binary
  end.

Definition zrange (n : Z) : list Z := map Z.of_nat (seq 0 (Z.to_nat n)).

(** [pow(a, -1, N)] for a modulus [N >= 1]: the inverse of [a] in [0, N), or
    ValueError when [a] is not invertible. *)
Definition pow_inv (a N : Z) : result Z :=
  match find (fun x => Z.eqb ((a * x) mod N) (1 mod N)) (zrange N) with
  | Some x => Ok x
  | None => Raise ValueError
  end.

(** The exact value of the ceiling of [log2 N] for [N >= 1].  The source
    computes [math.ceil(math.log(N, 2))] in floating point, which is not
    this function (at [N = 2^29] the quotient of the two logarithms rounds
    above 29): the constructors that use it take the computed width as the
    parameter [log2c] instead. *)
Definition ceil_log2 (N : Z) : nat := Z.to_nat (Z.log2_up N).

Definition p2 (n : nat) : Z := 2 ^ Z.of_nat n.

(** ** Gates and circuits *)

Inductive gate : Type :=
| GX (q : nat)
| GCX (c t : nat)
| GCCX (c1 c2 t : nat)
| GMCT (cs : list nat) (t : nat)
| GCSWAP (c a b : nat)
| GH (q : nat)
| GP (theta : Q) (q : nat)
| GCP (theta : Q) (c t : nat)
| GQFT (qs : list nat)
| GIQFT (qs : list nat)
| GBarrier.

Record QuantumCircuit : Type := mkCircuit {
  qregs : list (string * nat);
  data : list gate
}.

Definition num_qubits (c : QuantumCircuit) : nat :=
  fold_right (fun r acc => snd r + acc) 0 (qregs c).

Definition remap (f : nat -> nat) (g : gate) : gate :=
  match g with
  | GX q => GX (f q)
  | GCX c t => GCX (f c) (f t)
  | GCCX c1 c2 t => GCCX (f c1) (f c2) (f t)
  | GMCT cs t => GMCT (map f cs) (f t)
  | GCSWAP c a b => GCSWAP (f c) (f a) (f b)
  | GH q => GH (f q)
  | GP th q => GP th (f q)
  | GCP th c t => GCP th (f c) (f t)
  | GQFT qs => GQFT (map f qs)
  | GIQFT qs => GIQFT (map f qs)
  | GBarrier => GBarrier
  end.

Definition wire (qargs : list nat) (j : nat) : nat := nth j qargs 0.

Definition append (sub : list gate) (qargs : list nat) : list gate :=
  map (remap (wire qargs)) sub.

Definition inverse_gate (g : gate) : gate :=
  match g with
  | GP th q => GP (- th) q
  | GCP th c t => GCP (- th) c t
  | GQFT qs => GIQFT qs
  | GIQFT qs => GQFT qs
  | _ => g
  end.

Definition inverse (gs : list gate) : list gate := rev (map inverse_gate gs).

(** [for i in l: circ.append(body(i), ...)] for a body that can raise. *)
Fixpoint for_each (l : list nat) (body : nat -> result (list gate)) : result (list gate) :=
  match l with
  | [] => Ok []
  | i :: r => g <- body i ;; gs <- for_each r body ;; Ok (g ++ gs)
  end.

(** [QFT(n, do_swaps=False)] of qiskit's circuit library, as one gate. *)
Definition QFT (n : nat) : list gate := [GQFT (seq 0 n)].

(** ** Classical semantics *)

Definition bstate : Type := nat -> bool.

Definition upd (s : bstate) (q : nat) (b : bool) : bstate :=
  fun w => if w =? q then b else s w.

Definition exec1 (g : gate) (s : bstate) : bstate :=
  match g with
  | GX q => upd s q (negb (s q))
  | GCX c t => upd s t (xorb (s t) (s c))
  | GCCX c1 c2 t => upd s t (xorb (s t) (s c1 && s c2))
  | GMCT cs t => upd s t (xorb (s t) (forallb s cs))
  | GCSWAP c a b => if s c then upd (upd s a (s b)) b (s a) else s
  | _ => s
  end.

Fixpoint exec (gs : list gate) (s : bstate) : bstate :=
  match gs with
  | [] => s
  | g :: r => exec r (exec1 g s)
  end.

(** The value of a register, least significant qubit first. *)
Fixpoint reg_val (s : bstate) (qs : list nat) : Z :=
  match qs with
  | [] => 0
  | q :: r => (Z.b2z (s q) + 2 * reg_val s r)%Z
  end.

(** ** Semantics on bits and Fourier cells *)

Inductive cell : Type :=
| Bit (b : bool)
| Ph (q : Q).

Definition qstate : Type := nat -> cell.

Definition qupd (s : qstate) (q : nat) (c : cell) : qstate :=
  fun w => if w =? q then c else s w.

(** [Some b] when [q] is an integer of parity [b]. *)
Definition parity_of (q : Q) : option bool :=
  let z := (Qnum q / Zpos (Qden q))%Z in
  if Qeq_bool (inject_Z z) q then Some (Z.odd z) else None.

Definition even_int (q : Q) : bool :=
  match parity_of q with
  | Some false => true
  | _ => false
  end.

Fixpoint all_bits (s : qstate) (qs : list nat) : option (list bool) :=
  match qs with
  | [] => Some []
  | q :: r =>
      match s q, all_bits s r with
      | Bit b, Some bs => Some (b :: bs)
      | _, _ => None
      end
  end.

Fixpoint all_phs (s : qstate) (qs : list nat) : option (list Q) :=
  match qs with
  | [] => Some []
  | q :: r =>
      match s q, all_phs s r with
      | Ph p, Some ps => Some (p :: ps)
      | _, _ => None
      end
  end.

Fixpoint val_of_bits (bs : list bool) : Z :=
  match bs with
  | [] => 0
  | b :: r => (Z.b2z b + 2 * val_of_bits r)%Z
  end.

Fixpoint set_cells (s : qstate) (qs : list nat) (f : nat -> cell) (k : nat) : qstate :=
  match qs with
  | [] => s
  | q :: r => set_cells (qupd s q (f k)) r f (S k)
  end.

(** [b * np.pi / (2 ** k)] as the exact real [b * pi / 2^k], in units of
    pi.  The source computes a double: it is this value up to rounding
    (relative error about [2^-52]) while [b] is small, and the conversion to
    a double raises OverflowError once [k >= 1024] or [b] has more than 1024
    bits.  Neither is represented here: the properties stated of the
    circuits built with it bound the widths and the constants. *)
Definition get_angle (k : nat) (b : Z) : Q := inject_Z b / inject_Z (p2 k).

Fixpoint nodupb (l : list nat) : bool :=
  match l with
  | [] => true
  | x :: r => negb (existsb (Nat.eqb x) r) && nodupb r
  end.

(** The Fourier transform without swaps sends the basis state [v] to the
    product state whose qubit [k] has phase [v * pi / 2^k]. *)
Definition qft (s : qstate) (qs : list nat) : option qstate :=
  match all_bits s qs with
  | Some bs =>
      let v := val_of_bits bs in
      Some (set_cells s qs (fun k => Ph (get_angle k v)) 0)
  | None => None
  end.

(** The inverse transform is defined on the product states that are the
    image of a basis state. *)
Definition iqft (s : qstate) (qs : list nat) : option qstate :=
  match all_phs s qs with
  | Some phs =>
      let n := List.length qs in
      let scaled := (nth (n - 1) phs 0%Q * inject_Z (p2 (n - 1)))%Q in
      let v := ((Qnum scaled / Zpos (Qden scaled)) mod p2 n)%Z in
      if forallb (fun k => even_int (nth k phs 0%Q - get_angle k v)%Q) (seq 0 n)
      then Some (set_cells s qs (fun k => Bit (Z.testbit v (Z.of_nat k))) 0)
      else None
  | None => None
  end.

Definition add_phase (s : qstate) (q : nat) (th : Q) : qstate :=
  match s q with
  | Ph p => qupd s q (Ph (Qred (p + th)))
  | Bit _ => s
  end.

Definition flip (s : qstate) (t : nat) : option qstate :=
  match s t with
  | Bit b => Some (qupd s t (Bit (negb b)))
  | Ph _ => None
  end.

Definition gate_qubits (g : gate) : list nat :=
  match g with
  | GX q | GH q | GP _ q => [q]
  | GCX c t | GCP _ c t => [c; t]
  | GCCX c1 c2 t => [c1; c2; t]
  | GMCT cs t => cs ++ [t]
  | GCSWAP c a b => [c; a; b]
  | GQFT qs | GIQFT qs => qs
  | GBarrier => []
  end.

Definition run1 (g : gate) (s : qstate) : option qstate :=
  if negb (nodupb (gate_qubits g)) then None else
  match g with
  | GX q => flip s q
  | GCX c t =>
      match s c with
      | Bit b => if b then flip s t else Some s
      | Ph _ => None
      end
  | GCCX c1 c2 t =>
      match s c1, s c2 with
      | Bit b1, Bit b2 => if b1 && b2 then flip s t else Some s
      | _, _ => None
      end
  | GMCT cs t =>
      match all_bits s cs with
      | Some bs => if forallb (fun b => b) bs then flip s t else Some s
      | None => None
      end
  | GCSWAP c a b =>
      match s c with
      | Bit b0 => if b0 then Some (qupd (qupd s a (s b)) b (s a)) else Some s
      | Ph _ => None
      end
  | GH q =>
      match s q with
      | Bit b => Some (qupd s q (Ph (if b then 1 else 0)))
      | Ph p =>
          match parity_of p with
          | Some b => Some (qupd s q (Bit b))
          | None => None
          end
      end
  | GP th q => Some (add_phase s q th)
  | GCP th c t =>
      match s c, s t with
      | Bit b, Ph _ => Some (if b then add_phase s t th else s)
      | Ph _, Bit b => Some (if b then add_phase s c th else s)
      | Bit _, Bit _ => Some s
      | Ph _, Ph _ => None
      end
  | GQFT qs => qft s qs
  | GIQFT qs => iqft s qs
  | GBarrier => Some s
  end.

Fixpoint run (gs : list gate) (s : qstate) : option qstate :=
  match gs with
  | [] => Some s
  | g :: r =>
      match run1 g s with
      | Some s' => run r s'
      | None => None
      end
  end.

(** The value of a register of basis bits. *)
Definition read_val (s : qstate) (qs : list nat) : option Z :=
  match all_bits s qs with
  | Some bs => Some (val_of_bits bs)
  | None => None
  end.

(** ** incrementer.py *)

Definition adder_ttk (n : nat) (handle_overflow : bool) : QuantumCircuit :=
  let areg i := i in
  let breg i := n + i in
  mkCircuit
    [("a"%string, n); ("b"%string, if handle_overflow then n + 1 else n)]
    (flat_map (fun i => [GCX (areg i) (breg i)]) (range 1 n)
     ++ (if handle_overflow then [GCX (areg (n - 1)) (breg n)] else [])
     ++ flat_map (fun i => [GCX (areg i) (areg (i + 1))]) (reversed (range 1 (n - 1)))
     ++ flat_map (fun i => [GCCX (breg i) (areg i) (areg (i + 1))]) (range 0 (n - 1))
     ++ (if handle_overflow then [GCCX (breg (n - 1)) (areg (n - 1)) (breg n)] else [])
     ++ flat_map (fun i => [GCX (areg i) (breg i);
                            GCCX (breg (i - 1)) (areg (i - 1)) (areg i)])
          (reversed (range 1 n))
     ++ flat_map (fun i => [GCX (areg i) (areg (i + 1))]) (range 1 (n - 1))
     ++ flat_map (fun i => [GCX (areg i) (breg i)]) (range 0 n)).

Definition cinc (n : nat) : QuantumCircuit :=
  let ctrl := seq 0 1 in
  let xreg := seq 1 n in
  let breg := seq (1 + n) (n + 1) in
  let subtractor := inverse (data (adder_ttk (n + 1) false)) in
  let logical_xreg := ctrl ++ xreg in
  mkCircuit
    [("control"%string, 1); ("x"%string, n); ("borrowed"%string, n + 1)]
    (append subtractor (breg ++ logical_xreg)
     ++ map GX breg
     ++ append subtractor (breg ++ logical_xreg)
     ++ map GX breg
     ++ map GX ctrl).

(** ** hrs_carry.py *)

Section CarrySweeps.
Variable c_bin : str.
Variables areg greg : nat -> nat.

(** Body of the first (downward) loop and of the last (upward) loop, which
    are the same in [carry_gate], [c_carry_gate] and [cc_carry_gate]. *)
Definition carry_fwd_body (i : nat) : list gate :=
  if (i =? 1) && chr_eq c_bin 0 "0" then
    (if chr_eq c_bin i "1" then [GCX (areg i) (greg i); GX (areg i)] else [])
  else if chr_eq c_bin i "1" then
    [GCX (areg i) (greg i); GX (areg i); GCCX (greg (i - 1)) (areg i) (greg i)]
  else [GCCX (greg (i - 1)) (areg i) (greg i)].

(** Body of the two middle loops. *)
Definition carry_mid_body (i : nat) : list gate :=
  if i - 1 =? 0 then [] else [GCCX (greg (i - 1)) (areg i) (greg i)].

Definition carry_bwd_body (i : nat) : list gate :=
  if (i =? 1) && chr_eq c_bin 0 "0" then
    (if chr_eq c_bin i "1" then [GX (areg i); GCX (areg i) (greg i)] else [])
  else if chr_eq c_bin i "1" then
    [GCCX (greg (i - 1)) (areg i) (greg i); GX (areg i); GCX (areg i) (greg i)]
  else [GCCX (greg (i - 1)) (areg i) (greg i)].
End CarrySweeps.

(** [greg = [areg[0]] + list(greg_actual)]. *)
Definition carry_greg (areg greg_actual : nat -> nat) (i : nat) : nat :=
  match i with
  | O => areg 0
  | S j => greg_actual j
  end.

Definition carry_gate (n : nat) (c_bin_rev : str) : result QuantumCircuit :=
  if n <? 2 then Raise CircuitError else
  let areg i := i in
  let greg_actual i := n + i in
  let greg := carry_greg areg greg_actual in
  let c_bin := c_bin_rev in
  Ok (mkCircuit
    [("a"%string, n); ("g"%string, n - 2)]
    ([GCX (greg (n - 2)) (areg (n - 1))]
     ++ flat_map (carry_fwd_body c_bin areg greg) (reversed (range 1 (n - 1)))
     ++ flat_map (carry_mid_body areg greg) (range 1 (n - 1))
     ++ [GCX (greg (n - 2)) (areg (n - 1))]
     ++ (if chr_eq c_bin (n - 1) "1" then [GX (areg (n - 1))] else [])
     ++ flat_map (carry_mid_body areg greg) (reversed (range 1 (n - 1)))
     ++ flat_map (carry_bwd_body c_bin areg greg) (range 1 (n - 1)))).

Definition c_carry_gate (n : nat) (c_bin_rev : str) : result QuantumCircuit :=
  if n <? 2 then Raise CircuitError else
  let c := 0 in
  let areg i := 1 + i in
  let greg_actual i := 1 + n + i in
  let greg := carry_greg areg greg_actual in
  let c_bin := c_bin_rev in
  Ok (mkCircuit
    [("control"%string, 1); ("a"%string, n); ("g"%string, n - 2)]
    ([GCCX c (greg (n - 2)) (areg (n - 1))]
     ++ flat_map (carry_fwd_body c_bin areg greg) (reversed (range 1 (n - 1)))
     ++ flat_map (carry_mid_body areg greg) (range 1 (n - 1))
     ++ [GCCX c (greg (n - 2)) (areg (n - 1))]
     ++ (if chr_eq c_bin (n - 1) "1" then [GCX c (areg (n - 1))] else [])
     ++ flat_map (carry_mid_body areg greg) (reversed (range 1 (n - 1)))
     ++ flat_map (carry_bwd_body c_bin areg greg) (range 1 (n - 1)))).

Definition cc_carry_gate (n : nat) (c_bin_rev : str) : result QuantumCircuit :=
  if n <? 2 then Raise CircuitError else
  let c := seq 0 2 in
  let areg i := 2 + i in
  let greg_actual i := 2 + n + i in
  let greg := carry_greg areg greg_actual in
  let c_bin := c_bin_rev in
  Ok (mkCircuit
    [("control"%string, 2); ("a"%string, n); ("g"%string, n - 2)]
    ([GMCT (c ++ [greg (n - 2)]) (areg (n - 1))]
     ++ flat_map (carry_fwd_body c_bin areg greg) (reversed (range 1 (n - 1)))
     ++ flat_map (carry_mid_body areg greg) (range 1 (n - 1))
     ++ [GMCT (c ++ [greg (n - 2)]) (areg (n - 1))]
     ++ (if chr_eq c_bin (n - 1) "1" then [GCCX (nth 0 c 0) (nth 1 c 0) (areg (n - 1))] else [])
     ++ flat_map (carry_mid_body areg greg) (reversed (range 1 (n - 1)))
     ++ flat_map (carry_bwd_body c_bin areg greg) (range 1 (n - 1)))).

(** ** hrs_adder.py *)

(** The recursion of the Python function is on the halves of the register;
    [fuel] bounds its depth ([c_adder_hrs2] passes the register width). *)
Fixpoint c_divide_and_conquer_adder (fuel n : nat) (xreg : list nat) (o_borrowed : nat)
  (c_bin_rev : str) (control_reg borrowed_extra : nat) : result (list gate) :=
  match fuel with
  | O => Raise RecursionError
  | S fuel' =>
    if n =? 2 then
      Ok ((if chr_eq c_bin_rev 0 "1"
           then [GCCX control_reg (nth 0 xreg 0) (nth 1 xreg 0)] else [])
          ++ (if chr_eq c_bin_rev 0 "1" then [GCX control_reg (nth 0 xreg 0)] else [])
          ++ (if chr_eq c_bin_rev 1 "1" then [GCX control_reg (nth 1 xreg 0)] else []))
    else if n =? 1 then
      Ok (if chr_eq c_bin_rev 0 "1" then [GCX control_reg (nth 0 xreg 0)] else [])
    else
      let nlow := (n + 1) / 2 in
      let nhigh := n - nlow in
      let num_borrowed_needed := nhigh + 1 in
      let borrowed_for_incrementer :=
        if List.length (firstn nlow xreg) <? num_borrowed_needed
        then firstn nlow xreg ++ [borrowed_extra]
        else firstn nlow xreg in
      let inc := append (data (cinc nhigh))
                   ([o_borrowed] ++ skipn nlow xreg ++ borrowed_for_incrementer) in
      let flips := map (fun bit => GCX o_borrowed bit) (skipn nlow xreg) in
      let num_borrowed := nlow - 1 in
      carry_gate1 <- c_carry_gate (nlow + 1) (firstn nlow c_bin_rev ++ ["0"%char]) ;;
      let carry1 := append (data carry_gate1)
                      ([control_reg] ++ firstn nlow xreg ++ [o_borrowed]
                       ++ slice xreg nlow (nlow + num_borrowed)) in
      carry_gate2 <- c_carry_gate (nlow + 1) (firstn nlow c_bin_rev ++ ["0"%char]) ;;
      let carry2 := append (data carry_gate2)
                      ([control_reg] ++ firstn nlow xreg ++ [o_borrowed]
                       ++ slice xreg nlow (nlow + num_borrowed)) in
      low <- c_divide_and_conquer_adder fuel' nlow (firstn nlow xreg) o_borrowed
               (firstn nlow c_bin_rev) control_reg borrowed_extra ;;
      high <- c_divide_and_conquer_adder fuel' nhigh (slice xreg nlow (nlow + nhigh))
                o_borrowed (slice c_bin_rev nlow (nlow + nhigh))
                control_reg borrowed_extra ;;
      Ok (inc ++ flips ++ carry1 ++ inc ++ carry2 ++ flips ++ low ++ high)
  end.

Definition c_adder_hrs2 (n : nat) (c : Z) : result QuantumCircuit :=
  let control := 0 in
  let xreg := seq 1 n in
  let o_borrowed := seq (1 + n) 2 in
  let c_bin := binary_repr c (n + 1) in
  let c_bin := skipn 1 c_bin in
  let c_bin_rev := rev c_bin in
  gates <- c_divide_and_conquer_adder (S n) n xreg (nth 0 o_borrowed 0) c_bin_rev
             control (nth 1 o_borrowed 0) ;;
  Ok (mkCircuit [("c"%string, 1); ("x"%string, n); ("o_b"%string, 2)] gates).

(** ** hrs_mod_add.py *)

Definition c_comp (n : nat) (value : Z) : result QuantumCircuit :=
  if n =? 0 then Raise CircuitError else
  let control := seq 0 1 in
  let inreg := seq 1 n in
  let breg := seq (1 + n) (n - 1) in
  let res := seq (1 + n + (n - 1)) 1 in
  let valuesub := (0 - value)%Z in
  let c_bin := binary_repr valuesub (n + 1) in
  let c_bin_rev := rev c_bin in
  carry <- c_carry_gate (n + 1) c_bin_rev ;;
  Ok (mkCircuit
        [("c"%string, 1); ("in"%string, n); ("b"%string, n - 1); ("res"%string, 1)]
        (append (data carry) (control ++ inreg ++ res ++ breg))).

Definition cc_comp (n : nat) (value : Z) : result QuantumCircuit :=
  if n =? 0 then Raise CircuitError else
  let control := seq 0 2 in
  let inreg := seq 2 n in
  let breg := seq (2 + n) (n - 1) in
  let res := seq (2 + n + (n - 1)) 1 in
  let valuesub := (0 - value)%Z in
  let c_bin := binary_repr valuesub (n + 1) in
  let c_bin_rev := rev c_bin in
  carry <- cc_carry_gate (n + 1) c_bin_rev ;;
  Ok (mkCircuit
        [("c"%string, 2); ("in"%string, n); ("b"%string, n - 1); ("res"%string, 1)]
        (append (data carry) (control ++ inreg ++ res ++ breg))).

(** [greg[i]] for a register: out of range raises. *)
Definition reg_get (reg : list nat) (i : nat) : result nat :=
  match nth_error reg i with
  | Some q => Ok q
  | None => Raise IndexError
  end.

Definition c_carry_add_mod_hrs (n : nat) (a N : Z) : result QuantumCircuit :=
  if n =? 0 then Raise CircuitError else
  let control := 0 in
  let breg := seq 1 n in
  let greg := seq (1 + n) (n - 1) in
  let msbreg := 1 + n + (n - 1) in
  cmp1 <- c_comp n (N - a) ;;
  add1 <- c_adder_hrs2 n a ;;
  g0 <- reg_get greg 0 ;;
  g1 <- reg_get greg 1 ;;
  add2 <- c_adder_hrs2 n (a - N) ;;
  cmp2 <- c_comp n a ;;
  Ok (mkCircuit
        [("c"%string, 1); ("b"%string, n); ("g"%string, n - 1); ("msb"%string, 1)]
        (append (data cmp1) ([control] ++ breg ++ greg ++ [msbreg])
         ++ append (data add1) ([msbreg] ++ breg ++ [g0; g1])
         ++ [GCX control msbreg]
         ++ append (data add2) ([msbreg] ++ breg ++ [g0; g1])
         ++ append (data cmp2) ([control] ++ breg ++ greg ++ [msbreg]))).

Definition cc_carry_add_mod_hrs (n : nat) (a N : Z) : result QuantumCircuit :=
  if n =? 0 then Raise CircuitError else
  let control := seq 0 2 in
  let breg := seq 2 n in
  let greg := seq (2 + n) (n - 1) in
  let msbreg := 2 + n + (n - 1) in
  cmp1 <- cc_comp n (N - a) ;;
  add1 <- c_adder_hrs2 n a ;;
  g0 <- reg_get greg 0 ;;
  g1 <- reg_get greg 1 ;;
  add2 <- c_adder_hrs2 n (a - N) ;;
  cmp2 <- cc_comp n a ;;
  Ok (mkCircuit
        [("c"%string, 2); ("b"%string, n); ("g"%string, n - 1); ("msb"%string, 1)]
        (append (data cmp1) (control ++ breg ++ greg ++ [msbreg])
         ++ append (data add1) ([msbreg] ++ breg ++ [g0; g1])
         ++ [GCCX (nth 0 control 0) (nth 1 control 0) msbreg]
         ++ append (data add2) ([msbreg] ++ breg ++ [g0; g1])
         ++ append (data cmp2) (control ++ breg ++ greg ++ [msbreg]))).

(** ** hrs_mod_mult.py *)

Definition c_mult_hrs_partial (n : nat) (a N : Z) : result QuantumCircuit :=
  let control := 0 in
  let topreg := seq 1 n in
  let botreg := seq (1 + n) n in
  let ancreg := seq (1 + n + n) 1 in
  gates <- for_each (range 0 n) (fun i =>
    let borrowed_qubits := filter (fun qubit => negb (qubit =? nth i topreg 0)) topreg in
    adder <- cc_carry_add_mod_hrs n ((a * 2 ^ Z.of_nat i) mod N)%Z N ;;
    Ok (append (data adder)
          ([control; nth i topreg 0] ++ botreg ++ borrowed_qubits ++ ancreg))) ;;
  Ok (mkCircuit
        [("c"%string, 1); ("x"%string, n); ("res"%string, n); ("anc"%string, 1)]
        gates).

Definition c_mult_hrs (n : nat) (a N : Z) : result QuantumCircuit :=
  let control := 0 in
  let topreg := seq 1 n in
  let botreg := seq (1 + n) n in
  let qubits := seq 0 (1 + n + n + 1) in
  part1 <- c_mult_hrs_partial n a N ;;
  let swaps := flat_map (fun i => [GCSWAP control (nth i topreg 0) (nth i botreg 0)])
                 (range 0 n) in
  ainv <- pow_inv a N ;;
  part2 <- c_mult_hrs_partial n (N - ainv)%Z N ;;
  Ok (mkCircuit
        [("c"%string, 1); ("x"%string, n); ("res"%string, n); ("anc"%string, 1)]
        (append (data part1) qubits ++ swaps ++ append (data part2) qubits)).

(** ** hrs_mod_exp.py *)

Definition mod_exp_hrs (ntop nbot : nat) (a N : Z) : result QuantumCircuit :=
  let top := seq 0 ntop in
  let bot := seq ntop (2 * nbot + 1) in
  gates <- for_each (range 0 ntop) (fun i =>
    mult <- c_mult_hrs nbot ((a ^ (2 ^ Z.of_nat i)) mod N)%Z N ;;
    Ok (append (data mult) ([nth i top 0] ++ bot))) ;;
  Ok (mkCircuit [("top"%string, ntop); ("bot"%string, 2 * nbot + 1)] gates).

(** ** draper_add.py *)

Definition ccp (theta : Q) : QuantumCircuit :=
  let ctrl i := i in
  let q := 2 in
  mkCircuit [("ctrl"%string, 2); ("q"%string, 1)]
    [GCP (theta / 2) (ctrl 1) q;
     GCX (ctrl 0) (ctrl 1);
     GCP (- theta / 2) (ctrl 1) q;
     GCX (ctrl 0) (ctrl 1);
     GCP (theta / 2) (ctrl 0) q].

Definition phi_addition_cc (n : nat) (b factor : Z) : QuantumCircuit :=
  let ctrl := seq 0 2 in
  let reg i := 2 + i in
  mkCircuit [("c"%string, 2); ("r"%string, n)]
    (flat_map (fun k =>
       append (data (ccp (inject_Z factor * get_angle k b))) (ctrl ++ [reg k]))
       (range 0 n)).

Definition phi_addition_controlled_ignorebits (n : nat) (b factor : Z) (ignorebits : nat)
  : QuantumCircuit :=
  let ctrl := 0 in
  let reg i := 1 + i in
  mkCircuit [("c"%string, 1); ("r"%string, n - ignorebits)]
    (flat_map (fun k =>
       if k <? ignorebits then []
       else [GCP (inject_Z factor * get_angle k b) ctrl (reg (k - ignorebits))])
       (range 0 n)).

Definition phi_addition_controlled (n : nat) (b factor : Z) : QuantumCircuit :=
  phi_addition_controlled_ignorebits n b factor 0.

Definition phi_add_builtin (n : nat) (b factor : Z) : QuantumCircuit :=
  let areg i := i in
  mkCircuit [("phi_a"%string, n)]
    (flat_map (fun k => [GP (inject_Z factor * get_angle k b) (areg k)]) (range 0 n)).

(** ** brg_mod_add.py *)

Definition phi_add_mod_N_cc (n : nat) (y N : Z) : QuantumCircuit :=
  let ctrl := seq 0 2 in
  let reg := seq 2 n in
  let aux := 2 + n in
  let iqft := inverse (QFT n) in
  let qft := QFT n in
  mkCircuit [("ctrl"%string, 2); ("a"%string, n); ("aux"%string, 1)]
    (append (data (phi_addition_cc n y 1)) (ctrl ++ reg)
     ++ append (data (phi_add_builtin n N (-1))) reg
     ++ append iqft reg
     ++ [GCX (nth (n - 1) reg 0) aux]
     ++ append qft reg
     ++ append (data (phi_addition_controlled n N 1)) ([aux] ++ reg)
     ++ append (data (phi_addition_cc n y (-1))) (ctrl ++ reg)
     ++ append iqft reg
     ++ [GX (nth (n - 1) reg 0)]
     ++ [GCX (nth (n - 1) reg 0) aux]
     ++ [GX (nth (n - 1) reg 0)]
     ++ append qft reg
     ++ append (data (phi_addition_cc n y 1)) (ctrl ++ reg)).

Definition phi_add_mod_N (n : nat) (y N : Z) : QuantumCircuit :=
  let reg := seq 0 n in
  let aux := n in
  let aux_index := n in
  let iqft := inverse (QFT n) in
  let qft := QFT n in
  mkCircuit [("a"%string, n); ("aux"%string, 1)]
    (append (data (phi_add_builtin n y 1)) reg
     ++ append (data (phi_add_builtin n N (-1))) reg
     ++ append iqft reg
     ++ [GCX (nth (n - 1) reg 0) aux]
     ++ append qft reg
     ++ append (data (phi_addition_controlled n N 1)) ([aux_index] ++ reg)
     ++ append (data (phi_add_builtin n y (-1))) reg
     ++ append iqft reg
     ++ [GX (nth (n - 1) reg 0)]
     ++ [GCX (nth (n - 1) reg 0) aux]
     ++ [GX (nth (n - 1) reg 0)]
     ++ append qft reg
     ++ append (data (phi_add_builtin n y 1)) reg).

(** ** brg_mod_mult.py *)

Definition mult_mod_N_partial_c (y N : Z) (size_x size_b : nat) : QuantumCircuit :=
  let control := 0 in
  let reg_x := seq 1 size_x in
  let reg_b := seq (1 + size_x) size_b in
  let reg_anc := 1 + size_x + size_b in
  mkCircuit
    [("c"%string, 1); ("x"%string, size_x); ("b"%string, size_b); ("anc"%string, 1)]
    (append (QFT size_b) reg_b
     ++ flat_map (fun k =>
          let adder_gate := phi_add_mod_N_cc size_b ((2 ^ Z.of_nat k * y) mod N)%Z N in
          let controls := [control; nth k reg_x 0] in
          append (data adder_gate) (controls ++ reg_b ++ [reg_anc]))
          (range 0 size_x)
     ++ append (inverse (QFT size_b)) reg_b).

(** [log2c N] stands for the width [math.ceil(math.log(N, 2))] that the
    source computes in floating point when no width is requested. *)
Definition mult_mod_N_c (log2c : Z -> nat) (a N : Z) (size_requested : option nat)
  : result QuantumCircuit :=
  let size :=
    match size_requested with
    | None => log2c N
    | Some sz => sz
    end in
  let size_x := size in
  let size_b := size + 1 in
  let control := 0 in
  let reg_x := seq 1 size_x in
  let reg_b := seq (1 + size_x) size_b in
  let qubits := seq 0 (1 + size_x + size_b + 1) in
  let part1 := append (data (mult_mod_N_partial_c a N size_x size_b)) qubits in
  let swaps := flat_map (fun i => [GCSWAP control (nth i reg_x 0) (nth i reg_b 0)])
                 (range 0 size_x) in
  inv_a <- pow_inv a N ;;
  Ok (mkCircuit
        [("c"%string, 1); ("x"%string, size_x); ("b"%string, size_b); ("anc"%string, 1)]
        (part1 ++ swaps
         ++ append (inverse (data (mult_mod_N_partial_c inv_a N size_x size_b))) qubits)).

(** ** brg_mod_exp.py *)

Definition mod_exp_brg (log2c : Z -> nat) (n : nat) (a N : Z) : result QuantumCircuit :=
  let size_input := 2 * log2c N + 3 in
  let x_reg := seq 0 n in
  let input_reg := seq n (size_input - 1) in
  gates <- for_each (range 0 n) (fun i =>
    mulgate <- mult_mod_N_c log2c ((a ^ (2 ^ Z.of_nat i)) mod N)%Z N None ;;
    Ok (append (data mulgate) ([nth i x_reg 0] ++ input_reg))) ;;
  Ok (mkCircuit [("x"%string, n); ("input"%string, size_input - 1)] gates).

(** ** montgomery_mult.py *)

Definition mult_montgomery_partial_c (n : nat) (classical_y_montg p : Z)
  : result QuantumCircuit :=
  let ctrl := 0 in
  let smallreg := seq 1 n in
  let bigreg := seq (1 + n) (n + n + 1) in
  let signbit := skipn (List.length bigreg - 1) bigreg in
  let uncom_qubits := firstn n bigreg ++ skipn (List.length bigreg - 1) bigreg in
  let multiply :=
    append (QFT (n + n + 1)) bigreg
    ++ flat_map (fun i =>
         let summand := ((2 ^ Z.of_nat i * classical_y_montg) mod p)%Z in
         append (data (phi_addition_cc (n + n + 1) summand 1))
                ([ctrl; nth i smallreg 0] ++ bigreg)) (range 0 n) in
  let subtract_by := p in
  let reduce :=
    flat_map (fun i =>
      let qubits := [nth i bigreg 0] ++ skipn (i + 1) bigreg in
      let sub_gate := phi_addition_controlled_ignorebits (n + n + 1 - i) subtract_by (-1) 1 in
      [GH (nth i bigreg 0)] ++ append (data sub_gate) qubits) (range 0 n)
    ++ [GBarrier]
    ++ append (inverse (QFT (n + 1))) (skipn n bigreg)
    ++ append (QFT n) (slice bigreg n (n + n))
    ++ append (data (phi_addition_controlled n p 1)) (signbit ++ slice bigreg n (n + n))
    ++ [GH (nth n bigreg 0)]
    ++ map (fun sb => GCX (nth n bigreg 0) sb) signbit
    ++ [GH (nth n bigreg 0)]
    ++ append (QFT (n + 1)) uncom_qubits in
  pinvbig <- pow_inv p (2 ^ Z.of_nat (n + 1))%Z ;;
  let uncompute :=
    flat_map (fun i =>
      let subtract_by :=
        ((((2 ^ Z.of_nat i * classical_y_montg) mod p) * pinvbig)
           mod 2 ^ Z.of_nat (n + 1))%Z in
      append (data (phi_addition_cc (n + 1) subtract_by (-1)))
             ([ctrl; nth i smallreg 0] ++ uncom_qubits)) (range 0 n)
    ++ append (inverse (QFT n)) (slice bigreg n (n + n))
    ++ append (inverse (QFT (n + 1))) uncom_qubits in
  Ok (mkCircuit
        [("ctrl"%string, 1); ("smallreg"%string, n); ("bigreg"%string, n + n + 1)]
        (multiply ++ reduce ++ uncompute)).

Definition mult_montgomery_c (n : nat) (y p : Z) : result QuantumCircuit :=
  let ctrl := 0 in
  let smallreg := seq 1 n in
  let bigreg := seq (1 + n) (n + n + 1) in
  let qubits := seq 0 (1 + n + (n + n + 1)) in
  let R := (2 ^ Z.of_nat n)%Z in
  let classical_y_montg := ((y * R) mod p)%Z in
  part1 <- mult_montgomery_partial_c n classical_y_montg p ;;
  let swaps := flat_map (fun i => [GCSWAP ctrl (nth i smallreg 0) (nth (n + i) bigreg 0)])
                 (range 0 n) in
  inverse_y <- pow_inv y p ;;
  let inverse_y_montg := ((inverse_y * R) mod p)%Z in
  part2 <- mult_montgomery_partial_c n inverse_y_montg p ;;
  Ok (mkCircuit
        [("ctrl"%string, 1); ("smallreg"%string, n); ("bigreg"%string, n + n + 1)]
        (append (data part1) qubits ++ swaps ++ append (inverse (data part2)) qubits)).

(** ** montgomery_mod_exp.py *)

Definition mod_exp_montgomery (n : nat) (a p : Z) : result QuantumCircuit :=
  let top := seq 0 n in
  let bot := seq n (3 * n + 1) in
  gates <- for_each (range 0 n) (fun i =>
    mult <- mult_montgomery_c n ((a ^ (2 ^ Z.of_nat i)) mod p)%Z p ;;
    Ok (append (data mult) ([nth i top 0] ++ bot))) ;;
  Ok (mkCircuit [("top"%string, n); ("bot"%string, 3 * n + 1)] gates).

(** ** draper_add.py: the adders on basis states *)

Definition add_draper (n : nat) (b factor : Z) : QuantumCircuit :=
  let areg := seq 0 n in
  mkCircuit [("a"%string, n)]
    (append (QFT n) areg
     ++ append (data (phi_add_builtin n b factor)) areg
     ++ append (inverse (QFT n)) areg).

(** The rotation [factor * 2 * np.pi / 2 ** r] is the exact real
    [factor * 2 / 2^r] in units of pi; as for [get_angle], the rounding and
    the overflow of the source's double are not represented. *)
Definition phi_add_builtin_singlegates (n : nat) (b factor : Z) : QuantumCircuit :=
  let areg i := i in
  let b_bin := rev (binary_repr b n) in
  mkCircuit [("phi_a"%string, n)]
    (flat_map (fun k =>
       flat_map (fun i =>
         if chr_eq b_bin i "1"
         then let r := k - i + 1 in
              [GP (inject_Z factor * 2 / inject_Z (2 ^ Z.of_nat r)) (areg k)]
         else []) (range 0 (k + 1)))
       (range 0 n)).

(** ** test_util.py *)

Definition set_input (n : nat) (value_dec : Z) : QuantumCircuit :=
  let value_bin := rev (binary_repr value_dec n) in
  let reg i := i in
  mkCircuit [("r"%string, n)]
    (flat_map (fun i => if chr_eq value_bin i "1" then [GX (reg i)] else [])
       (range 0 n)).

(** ** me_hrs.py, me_montgomery.py, me_output.py *)

(** [for x in range(1, p): if g**x % p == 1: return x]; [None] when the loop
    ends. *)
Definition get_order (g p : Z) : option Z :=
  find (fun x => ((g ^ x) mod p =? 1)%Z) (map Z.of_nat (range 1 (Z.to_nat p))).

(** ** Specification vocabulary *)

(** Equality of basis states, qubit by qubit. *)
Definition beq (s1 s2 : bstate) : Prop := forall w, s1 w = s2 w.

(** Writing the low bits of [v] into a register. *)
Fixpoint set_reg (qs : list nat) (v : Z) (s : bstate) : bstate :=
  match qs with
  | [] => s
  | q :: r => upd (set_reg r (v / 2) s) q (Z.odd v)
  end.

Fixpoint index_of (w : nat) (qs : list nat) : option nat :=
  match qs with
  | [] => None
  | q :: r => if w =? q then Some 0 else option_map S (index_of w r)
  end.

(** The state seen by a sub-circuit wired to [qargs], and the state of the
    parent once the sub-circuit has run. *)
Definition gather (qargs : list nat) (s : bstate) : bstate :=
  fun j => s (wire qargs j).

Definition scatter (qargs : list nat) (t s : bstate) : bstate :=
  fun w =>
    match index_of w qargs with
    | Some j => t j
    | None => s w
    end.

(** All qubits of a gate are below [k]. *)
Definition gate_in (k : nat) (g : gate) : Prop :=
  Forall (fun q => q < k) (gate_qubits g).

Definition gates_in (k : nat) (gs : list gate) : Prop := Forall (gate_in k) gs.

(** A gate acts on pairwise different qubits (qiskit rejects the others). *)
Definition gate_wf (g : gate) : Prop := nodupb (gate_qubits g) = true.

Definition gates_wf (gs : list gate) : Prop := Forall gate_wf gs.

(** Value of the bits [f 0 .. f (n-1)], least significant first. *)
Fixpoint val (f : nat -> bool) (n : nat) : Z :=
  match n with
  | O => 0
  | S k => (val f k + Z.b2z (f k) * p2 k)%Z
  end.

Definition maj (a b c : bool) : bool := (a && b) || (a && c) || (b && c).

(** Carry into position [i] of the sum of the bit strings [a] and [b]. *)
Fixpoint carry (a b : nat -> bool) (i : nat) : bool :=
  match i with
  | O => false
  | S j => maj (a j) (b j) (carry a b j)
  end.

(** Bit [i] of a digit string, least significant digit first. *)
Definition str_bit (s : str) (i : nat) : bool := chr_eq s i "1".

(** A string of binary digits. *)
Definition is_bin (s : str) : Prop :=
  Forall (fun c => c = "0"%char \/ c = "1"%char) s.

(** A state given by the bits of two adjacent [n]-qubit registers at
    positions [0 .. n-1] and [n .. 2n-1]. *)
Definition mk2 (n : nat) (a b : nat -> bool) (s : bstate) : bstate :=
  fun w => if w <? n then a w else if w <? n + n then b (w - n) else s w.

(** Bit [j] of the sum of the bit strings [a] and [b]. *)
Definition sum_bit (a b : nat -> bool) (j : nat) : bool :=
  xorb (xorb (a j) (b j)) (carry a b j).

(** A state given by the bits [a 0 .. a (n-1)] of the [a] register of a carry
    gate at offset [off] and the bits [g 1 .. g (n-2)] of its borrowed
    register. *)
Definition mkc (off n : nat) (a g : nat -> bool) (s : bstate) : bstate :=
  fun w =>
    if (off <=? w) && (w <? off + n) then a (w - off)
    else if (off + n <=? w) && (w <? off + n + (n - 2)) then g (w - (off + n) + 1)
    else s w.

(** The carry that enters position [i] of the upward sweep: the low carry
    itself below position 1, the borrowed qubit above. *)
Definition carry_in (K a g : nat -> bool) (i : nat) : bool :=
  if i =? 1 then a 0 && K 0 else g (i - 1).

(** A gate does not mention qubit [q]. *)
Definition gate_avoids (q : nat) (g : gate) : Prop := ~ In q (gate_qubits g).

(** The digit character of a bit. *)
Definition digit (b : bool) : ascii := if b then "1"%char else "0"%char.

(** All qubits of the gates satisfy [P]. *)
Definition gates_on (P : nat -> Prop) (gs : list gate) : Prop :=
  Forall (fun g => Forall P (gate_qubits g)) gs.

(** The data of a constructed circuit (no gates when construction raised). *)
Definition get_data (r : result QuantumCircuit) : list gate :=
  match r with
  | Ok c => data c
  | Raise _ => []
  end.

(** The basis state whose first qubits hold the listed bits (the others 0). *)
Definition st_of_list (l : list bool) : bstate := fun w => nth w l false.

(** The [i]-th iteration of the loop of [c_mult_hrs_partial]. *)
Definition hrs_mult_step (n : nat) (a N : Z) (i : nat) : list gate :=
  append (get_data (cc_carry_add_mod_hrs n ((a * 2 ^ Z.of_nat i) mod N)%Z N))
    ([0; nth i (seq 1 n) 0] ++ seq (1 + n) n
     ++ filter (fun qubit => negb (qubit =? nth i (seq 1 n) 0)) (seq 1 n)
     ++ seq (1 + n + n) 1).

(** The [i]-th iteration of the loop of [mod_exp_hrs]. *)
Definition hrs_exp_step (ntop nbot : nat) (a N : Z) (i : nat) : list gate :=
  append (get_data (c_mult_hrs nbot ((a ^ (2 ^ Z.of_nat i)) mod N)%Z N))
    ([nth i (seq 0 ntop) 0] ++ seq ntop (2 * nbot + 1)).

(** ** Vocabulary of the Fourier-space circuits *)

(** Two phases (in units of pi) that differ by a multiple of 2 pi. *)
Definition peq (p q : Q) : Prop := exists m : Z, (p - q == inject_Z (2 * m))%Q.

(** A cell in the phase state of angle [q]. *)
Definition is_phase (c : cell) (q : Q) : Prop :=
  match c with
  | Ph p => peq p q
  | Bit _ => False
  end.

(** The register [qs] holds the Fourier transform of [v]: qubit [k] has the
    phase [v * pi / 2^k]. *)
Definition fourier (s : qstate) (qs : list nat) (v : Z) : Prop :=
  forall k, k < List.length qs -> is_phase (s (nth k qs 0)) (get_angle k v).

(** The register [qs] holds the bits of [v], least significant first. *)
Definition basis (s : qstate) (qs : list nat) (v : Z) : Prop :=
  forall k, k < List.length qs -> s (nth k qs 0) = Bit (Z.testbit v (Z.of_nat k)).

(** The cells outside [qs] are those of [s0]. *)
Definition same_outside (qs : list nat) (s0 s : qstate) : Prop :=
  forall w, ~ In w qs -> s w = s0 w.

(** Every state that satisfies [P] is run to a state that satisfies [R]. *)
Definition runs (P : qstate -> Prop) (gs : list gate) (R : qstate -> Prop) : Prop :=
  forall s, P s -> exists s', run gs s = Some s' /\ R s'.

(** The state of basis bits given by a list (cells beyond it are 0). *)
Definition qst_of_list (l : list bool) : qstate := fun w => Bit (nth w l false).

(** The executable test of [fourier]. *)
Definition fourierb (s : qstate) (qs : list nat) (v : Z) : bool :=
  forallb (fun k =>
             match s (nth k qs 0) with
             | Ph p => even_int (p - get_angle k v)
             | Bit _ => false
             end) (seq 0 (List.length qs)).

(** The state given by a list of cells (cells beyond it are 0 bits). *)
Definition qst_of_cells (l : list cell) : qstate := fun w => nth w l (Bit false).

(** The register [reg] in Fourier space, resp. in the computational basis,
    holding [v], the ancilla [aux] as the bit [b], and all other cells as in
    [s0]. *)
Definition inF (reg : list nat) (aux : nat) (s0 : qstate) (v : Z) (b : bool)
  (s : qstate) : Prop :=
  fourier s reg v /\ s aux = Bit b /\ same_outside (aux :: reg) s0 s.

Definition inB (reg : list nat) (aux : nat) (s0 : qstate) (v : Z) (b : bool)
  (s : qstate) : Prop :=
  basis s reg v /\ s aux = Bit b /\ same_outside (aux :: reg) s0 s.

(** * Classical semantics: general facts *)

Lemma beq_refl s : beq s s.
Proof. intro; reflexivity. Qed.

Lemma beq_sym s1 s2 : beq s1 s2 -> beq s2 s1.
Proof. intros H w; symmetry; apply H. Qed.

Lemma beq_trans s1 s2 s3 : beq s1 s2 -> beq s2 s3 -> beq s1 s3.
Proof. intros H1 H2 w; rewrite H1; apply H2. Qed.

Lemma upd_eq s q b : upd s q b q = b.
Proof. unfold upd; now rewrite Nat.eqb_refl. Qed.

Lemma upd_neq s q b w : w <> q -> upd s q b w = s w.
Proof. unfold upd; intros H; apply Nat.eqb_neq in H; now rewrite H. Qed.

Lemma upd_ext s1 s2 q b : beq s1 s2 -> beq (upd s1 q b) (upd s2 q b).
Proof. intros H w; unfold upd; destruct (w =? q); auto. Qed.

Lemma forallb_ext_in {A} (f g : A -> bool) l :
  (forall x, In x l -> f x = g x) -> forallb f l = forallb g l.
Proof.
  induction l as [|x l IH]; simpl; intros H; auto.
  rewrite H by auto. rewrite IH; auto.
Qed.

Lemma exec1_ext g s1 s2 : beq s1 s2 -> beq (exec1 g s1) (exec1 g s2).
Proof.
  intros H; destruct g; simpl; try assumption;
    try (rewrite !H; now apply upd_ext).
  - rewrite H, (forallb_ext_in s1 s2) by (intros; apply H). now apply upd_ext.
  - rewrite !H. destruct (s2 c); auto. now apply upd_ext, upd_ext.
Qed.

Lemma exec_ext gs : forall s1 s2, beq s1 s2 -> beq (exec gs s1) (exec gs s2).
Proof.
  induction gs as [|g gs IH]; simpl; intros; auto.
  apply IH, exec1_ext; assumption.
Qed.

Lemma exec_app gs1 gs2 s : exec (gs1 ++ gs2) s = exec gs2 (exec gs1 s).
Proof. revert s; induction gs1; simpl; intros; auto. Qed.

Lemma exec_cons g gs s : exec (g :: gs) s = exec gs (exec1 g s).
Proof. reflexivity. Qed.

(** Chaining two specifications. *)
Lemma exec_app_spec gs1 gs2 s s1 s2 :
  beq (exec gs1 s) s1 -> beq (exec gs2 s1) s2 -> beq (exec (gs1 ++ gs2) s) s2.
Proof.
  intros H1 H2. rewrite exec_app.
  eapply beq_trans; [apply exec_ext, H1 | exact H2].
Qed.

(** ** Locality *)

Lemma gates_in_app k gs1 gs2 :
  gates_in k (gs1 ++ gs2) <-> gates_in k gs1 /\ gates_in k gs2.
Proof. apply Forall_app. Qed.

Lemma gates_in_flat_map k (body : nat -> list gate) l :
  (forall i, In i l -> gates_in k (body i)) -> gates_in k (flat_map body l).
Proof.
  induction l as [|x l IH]; simpl; intros H; [constructor|].
  apply gates_in_app; split; auto.
Qed.

Lemma gates_in_rev k gs : gates_in k gs -> gates_in k (rev gs).
Proof. apply Forall_rev. Qed.

Lemma gate_qubits_inverse g : gate_qubits (inverse_gate g) = gate_qubits g.
Proof. destruct g; reflexivity. Qed.

Lemma gates_in_inverse k gs : gates_in k gs -> gates_in k (inverse gs).
Proof.
  intros H. unfold inverse. apply gates_in_rev.
  unfold gates_in in *. rewrite Forall_map.
  eapply Forall_impl; [|exact H]. intros g Hg.
  unfold gate_in. now rewrite gate_qubits_inverse.
Qed.

Lemma gate_qubits_remap f g : gate_qubits (remap f g) = map f (gate_qubits g).
Proof. destruct g; simpl; auto. now rewrite map_app. Qed.

Lemma gates_in_mono k k' gs : k <= k' -> gates_in k gs -> gates_in k' gs.
Proof.
  intros Hk H. eapply Forall_impl; [|exact H].
  intros g Hg. eapply Forall_impl; [|exact Hg]. simpl; intros; lia.
Qed.

Lemma gates_in_append k k' sub qargs :
  gates_in k sub -> List.length qargs = k -> Forall (fun q => q < k') qargs ->
  gates_in k' (append sub qargs).
Proof.
  intros Hs Hl Hq. unfold append, gates_in. rewrite Forall_map.
  eapply Forall_impl; [|exact Hs]. intros g Hg.
  unfold gate_in in *. rewrite gate_qubits_remap, Forall_map.
  eapply Forall_impl; [|exact Hg]. simpl. intros j Hj.
  rewrite Forall_forall in Hq. apply Hq. unfold wire. apply nth_In. lia.
Qed.

Ltac inv_gate_in H :=
  unfold gate_in in H; simpl in H;
  repeat match goal with
         | H' : Forall _ (_ :: _) |- _ => inversion H' as [|? ? ? ?]; subst; clear H'
         | H' : Forall _ [] |- _ => clear H'
         end.

(** A gate whose qubits are below [k] leaves the qubits from [k] on alone. *)
Lemma exec1_frame k g s w : gate_in k g -> k <= w -> exec1 g s w = s w.
Proof.
  intros Hg Hw. destruct g; simpl; auto.
  - inv_gate_in Hg. apply upd_neq; lia.
  - inv_gate_in Hg. apply upd_neq; lia.
  - inv_gate_in Hg. apply upd_neq; lia.
  - unfold gate_in in Hg; simpl in Hg. apply Forall_app in Hg as [_ Hg].
    inv_gate_in Hg. apply upd_neq; lia.
  - inv_gate_in Hg. destruct (s c); auto. rewrite !upd_neq by lia. reflexivity.
Qed.

Lemma exec_frame k gs : forall s w, gates_in k gs -> k <= w -> exec gs s w = s w.
Proof.
  induction gs as [|g gs IH]; simpl; intros s w H Hw; auto.
  inversion H; subst. rewrite IH by assumption. eapply exec1_frame; eauto.
Qed.

(** ** Sub-circuits wired to a list of qubits *)

Section Remap.
Variable k : nat.
Variable f : nat -> nat.
Hypothesis f_inj : forall i j, i < k -> j < k -> f i = f j -> i = j.

Lemma forallb_map_comp (s : bstate) cs :
  forallb s (map f cs) = forallb (fun j => s (f j)) cs.
Proof. induction cs; simpl; congruence. Qed.

Lemma upd_remap_in (s : bstate) t b j :
  t < k -> j < k -> upd s (f t) b (f j) = upd (fun i => s (f i)) t b j.
Proof.
  intros Ht Hj. unfold upd.
  destruct (Nat.eqb_spec j t) as [->|Hne].
  - now rewrite Nat.eqb_refl.
  - destruct (Nat.eqb_spec (f j) (f t)) as [E|_]; auto.
    apply f_inj in E; auto; contradiction.
Qed.

Lemma exec1_remap_in g s j :
  gate_in k g -> j < k ->
  exec1 (remap f g) s (f j) = exec1 g (fun i => s (f i)) j.
Proof.
  intros Hg Hj. destruct g; simpl; auto.
  - inv_gate_in Hg. now apply upd_remap_in.
  - inv_gate_in Hg. now apply upd_remap_in.
  - inv_gate_in Hg. now apply upd_remap_in.
  - unfold gate_in in Hg; simpl in Hg. apply Forall_app in Hg as [_ Hg].
    inv_gate_in Hg. rewrite forallb_map_comp. now apply upd_remap_in.
  - inv_gate_in Hg. destruct (s (f c)); auto.
    rewrite upd_remap_in by assumption.
    unfold upd at 1 3. destruct (j =? b); auto.
    now apply upd_remap_in.
Qed.

Lemma exec1_remap_out g s w :
  gate_in k g -> (forall j, j < k -> w <> f j) -> exec1 (remap f g) s w = s w.
Proof.
  intros Hg Hw. destruct g; simpl; auto.
  - inv_gate_in Hg. apply upd_neq; auto.
  - inv_gate_in Hg. apply upd_neq; auto.
  - inv_gate_in Hg. apply upd_neq; auto.
  - unfold gate_in in Hg; simpl in Hg. apply Forall_app in Hg as [_ Hg].
    inv_gate_in Hg. apply upd_neq; auto.
  - inv_gate_in Hg. destruct (s (f c)); auto. rewrite !upd_neq; auto.
Qed.

(** The result of a gate on the qubits below [k] depends on those only. *)
Lemma exec1_local g s1 s2 :
  gate_in k g -> (forall j, j < k -> s1 j = s2 j) ->
  forall j, j < k -> exec1 g s1 j = exec1 g s2 j.
Proof.
  intros Hg H j Hj. destruct g; simpl; auto.
  - inv_gate_in Hg. unfold upd. rewrite !H by assumption. reflexivity.
  - inv_gate_in Hg. unfold upd. rewrite !H by assumption. reflexivity.
  - inv_gate_in Hg. unfold upd. rewrite !H by assumption. reflexivity.
  - unfold gate_in in Hg; simpl in Hg. apply Forall_app in Hg as [Hc Hg].
    inv_gate_in Hg. unfold upd. rewrite !H by assumption.
    rewrite (forallb_ext_in s1 s2); auto.
    intros x Hx. apply H. rewrite Forall_forall in Hc. now apply Hc.
  - inv_gate_in Hg. rewrite (H c) by assumption. destruct (s2 c); auto.
    unfold upd. rewrite !H by assumption. reflexivity.
Qed.

Lemma exec_local gs : forall s1 s2,
  gates_in k gs -> (forall j, j < k -> s1 j = s2 j) ->
  forall j, j < k -> exec gs s1 j = exec gs s2 j.
Proof.
  induction gs as [|g gs IH]; simpl; intros s1 s2 Hg H j Hj; auto.
  inversion Hg; subst. apply IH; auto.
  intros; now apply exec1_local.
Qed.

Lemma exec_remap_in gs : forall s j,
  gates_in k gs -> j < k ->
  exec (map (remap f) gs) s (f j) = exec gs (fun i => s (f i)) j.
Proof.
  induction gs as [|g gs IH]; simpl; intros s j Hg Hj; auto.
  inversion Hg; subst. rewrite IH by assumption.
  apply exec_local; auto.
  intros; now apply exec1_remap_in.
Qed.

Lemma exec_remap_out gs : forall s w,
  gates_in k gs -> (forall j, j < k -> w <> f j) ->
  exec (map (remap f) gs) s w = s w.
Proof.
  induction gs as [|g gs IH]; simpl; intros s w Hg Hw; auto.
  inversion Hg; subst. rewrite IH by assumption.
  now apply exec1_remap_out.
Qed.
End Remap.

Lemma index_of_Some w qs j : index_of w qs = Some j -> j < List.length qs /\ nth j qs 0 = w.
Proof.
  revert j; induction qs as [|q r IH]; simpl; intros j H; [discriminate|].
  destruct (Nat.eqb_spec w q) as [->|Hne].
  - injection H as <-. split; [lia|reflexivity].
  - destruct (index_of w r) as [i|]; [|discriminate].
    injection H as <-. destruct (IH i eq_refl). split; [lia|assumption].
Qed.

Lemma index_of_None w qs : index_of w qs = None -> ~ In w qs.
Proof.
  induction qs as [|q r IH]; simpl; intros H; [tauto|].
  destruct (Nat.eqb_spec w q) as [->|Hne]; [discriminate|].
  destruct (index_of w r); [discriminate|].
  intros [E|E]; [congruence|now apply IH].
Qed.

Lemma NoDup_nth_inj (qs : list nat) i j :
  NoDup qs -> i < List.length qs -> j < List.length qs -> nth i qs 0 = nth j qs 0 -> i = j.
Proof. intros H Hi Hj E. eapply NoDup_nth in H; eauto. Qed.

Lemma index_of_nth qs j :
  NoDup qs -> j < List.length qs -> index_of (nth j qs 0) qs = Some j.
Proof.
  intros Hnd Hj. destruct (index_of (nth j qs 0) qs) as [i|] eqn:E.
  - apply index_of_Some in E as [Hi E]. f_equal. eapply NoDup_nth_inj; eauto.
  - apply index_of_None in E. exfalso. apply E. now apply nth_In.
Qed.

(** The embedding lemma: a sub-circuit wired to pairwise different qubits acts
    on them as it does on its own qubits and leaves the other qubits alone. *)
Lemma exec_append sub qargs s :
  gates_in (List.length qargs) sub -> NoDup qargs ->
  beq (exec (append sub qargs) s) (scatter qargs (exec sub (gather qargs s)) s).
Proof.
  intros Hg Hnd w. unfold scatter, append.
  destruct (index_of w qargs) as [j|] eqn:E.
  - apply index_of_Some in E as [Hj <-].
    change (nth j qargs 0) with (wire qargs j).
    apply (exec_remap_in (List.length qargs) (wire qargs)); auto.
    unfold wire; intros; eapply NoDup_nth_inj; eauto.
  - apply index_of_None in E.
    apply (exec_remap_out (List.length qargs) (wire qargs)); auto.
    intros j Hj ->. apply E. unfold wire. now apply nth_In.
Qed.

Lemma scatter_ext qargs t1 t2 s1 s2 :
  (forall j, j < List.length qargs -> t1 j = t2 j) -> beq s1 s2 ->
  beq (scatter qargs t1 s1) (scatter qargs t2 s2).
Proof.
  intros Ht Hs w. unfold scatter.
  destruct (index_of w qargs) as [j|] eqn:E; auto.
  apply index_of_Some in E as [Hj _]. auto.
Qed.

Lemma scatter_gather qargs s : beq (scatter qargs (gather qargs s) s) s.
Proof.
  intros w. unfold scatter, gather, wire.
  destruct (index_of w qargs) as [j|] eqn:E; auto.
  apply index_of_Some in E as [_ E]. now rewrite E.
Qed.

Lemma scatter_out qargs t s w : ~ In w qargs -> scatter qargs t s w = s w.
Proof.
  intros H. unfold scatter.
  destruct (index_of w qargs) as [j|] eqn:E; auto.
  apply index_of_Some in E as [Hj E]. exfalso. apply H. rewrite <- E. now apply nth_In.
Qed.

Lemma scatter_in qargs t s j :
  NoDup qargs -> j < List.length qargs -> scatter qargs t s (wire qargs j) = t j.
Proof.
  intros Hnd Hj. unfold scatter, wire. now rewrite index_of_nth.
Qed.

Lemma scatter_upd qargs t s j b :
  NoDup qargs -> j < List.length qargs ->
  beq (scatter qargs (upd t j b) s) (upd (scatter qargs t s) (wire qargs j) b).
Proof.
  intros Hnd Hj w. unfold scatter, upd, wire.
  destruct (index_of w qargs) as [i|] eqn:E.
  - apply index_of_Some in E as [Hi E]. subst w.
    destruct (Nat.eqb_spec i j) as [->|Hne].
    + now rewrite Nat.eqb_refl.
    + destruct (Nat.eqb_spec (nth i qargs 0) (nth j qargs 0)) as [E|_]; auto.
      eapply NoDup_nth_inj in E; eauto. contradiction.
  - apply index_of_None in E.
    destruct (Nat.eqb_spec w (nth j qargs 0)) as [->|_]; auto.
    exfalso. apply E. now apply nth_In.
Qed.

(** ** Registers *)

Lemma set_reg_out qs : forall v s w, ~ In w qs -> set_reg qs v s w = s w.
Proof.
  induction qs as [|q r IH]; simpl; intros v s w H; auto.
  rewrite upd_neq by (intros ->; apply H; now left). apply IH. tauto.
Qed.

Lemma set_reg_ext qs : forall v s1 s2, beq s1 s2 -> beq (set_reg qs v s1) (set_reg qs v s2).
Proof.
  induction qs as [|q r IH]; simpl; intros v s1 s2 H; auto.
  apply upd_ext, IH, H.
Qed.

Lemma reg_val_ext qs s1 s2 :
  (forall w, In w qs -> s1 w = s2 w) -> reg_val s1 qs = reg_val s2 qs.
Proof.
  induction qs as [|q r IH]; simpl; intros H; auto.
  rewrite H by auto. rewrite IH; auto.
Qed.

Lemma p2_S n : p2 (S n) = (2 * p2 n)%Z.
Proof. unfold p2. rewrite Nat2Z.inj_succ, Z.pow_succ_r by lia. reflexivity. Qed.

Lemma p2_pos n : (0 < p2 n)%Z.
Proof. unfold p2. apply Z.pow_pos_nonneg; lia. Qed.

Lemma p2_0 : p2 0 = 1%Z.
Proof. reflexivity. Qed.

Lemma p2_add n m : p2 (n + m) = (p2 n * p2 m)%Z.
Proof. unfold p2. rewrite Nat2Z.inj_add, Z.pow_add_r by lia. reflexivity. Qed.

Lemma reg_val_bound s qs : (0 <= reg_val s qs < p2 (List.length qs))%Z.
Proof.
  induction qs as [|q r IH]; cbn [List.length reg_val].
  - rewrite p2_0. lia.
  - rewrite p2_S. destruct (s q); cbn [Z.b2z]; lia.
Qed.

Lemma b2z_odd_div v : (Z.b2z (Z.odd v) + 2 * (v / 2) = v)%Z.
Proof.
  rewrite (Z.div_mod v 2) at 3 by lia.
  rewrite Zmod_odd. destruct (Z.odd v); cbn [Z.b2z]; lia.
Qed.

Lemma reg_val_set_reg qs : forall v s,
  NoDup qs -> reg_val (set_reg qs v s) qs = (v mod p2 (List.length qs))%Z.
Proof.
  induction qs as [|q r IH]; intros v s Hnd.
  - simpl. rewrite p2_0. now rewrite Z.mod_1_r.
  - inversion Hnd; subst. cbn [reg_val set_reg]. rewrite upd_eq.
    rewrite (reg_val_ext r _ (set_reg r (v / 2) s)).
    2:{ intros w Hw. apply upd_neq. intros ->. contradiction. }
    rewrite IH by assumption. cbn [List.length]. rewrite p2_S.
    pose proof (p2_pos (List.length r)) as Hp.
    rewrite Z.rem_mul_r by lia.
    rewrite Zmod_odd. destruct (Z.odd v); cbn [Z.b2z]; lia.
Qed.

Lemma set_reg_reg_val qs : forall s, beq (set_reg qs (reg_val s qs) s) s.
Proof.
  induction qs as [|q r IH]; cbn [reg_val set_reg]; intros s w; auto.
  assert (Hodd : Z.odd (Z.b2z (s q) + 2 * reg_val s r) = s q).
  { rewrite Z.odd_add_mul_2. now destruct (s q). }
  assert (Hdiv : ((Z.b2z (s q) + 2 * reg_val s r) / 2 = reg_val s r)%Z).
  { rewrite Z.add_comm, Z.mul_comm, Z.div_add_l by lia.
    destruct (s q); cbn [Z.b2z]; rewrite ?Z.div_small by lia; lia. }
  rewrite Hodd, Hdiv. unfold upd.
  destruct (Nat.eqb_spec w q) as [->|]; auto. apply IH.
Qed.

Lemma odd_mod_2p v m : (0 < m)%Z -> Z.odd (v mod (2 * m)) = Z.odd v.
Proof.
  intros Hm. rewrite (Z.div_mod v (2 * m)) at 2 by lia.
  rewrite <- Z.mul_assoc, Z.add_comm, Z.odd_add_mul_2. reflexivity.
Qed.

Lemma div2_mod_2p v m : (0 < m)%Z -> ((v mod (2 * m)) / 2 = (v / 2) mod m)%Z.
Proof.
  intros Hm. rewrite Z.rem_mul_r by lia.
  rewrite (Z.add_comm (v mod 2)), (Z.mul_comm 2), Z.div_add_l by lia.
  rewrite (Z.div_small (v mod 2) 2) by (apply Z.mod_pos_bound; lia). lia.
Qed.

Lemma set_reg_mod qs : forall v s,
  beq (set_reg qs (v mod p2 (List.length qs)) s) (set_reg qs v s).
Proof.
  induction qs as [|q r IH]; intros v s; cbn [List.length set_reg].
  - apply beq_refl.
  - rewrite p2_S. pose proof (p2_pos (List.length r)) as Hp.
    rewrite odd_mod_2p, div2_mod_2p by assumption.
    apply upd_ext, IH.
Qed.

(** ** Registers seen through a wiring *)

Lemma reg_val_gather qargs s L :
  reg_val (gather qargs s) L = reg_val s (map (wire qargs) L).
Proof. induction L as [|l L IH]; simpl; [reflexivity|]. now rewrite IH. Qed.

Lemma scatter_set_reg qargs L : forall v t s,
  NoDup qargs -> Forall (fun j => j < List.length qargs) L ->
  beq (scatter qargs (set_reg L v t) s) (set_reg (map (wire qargs) L) v (scatter qargs t s)).
Proof.
  induction L as [|l L IH]; intros v t s Hnd HL; cbn [set_reg map].
  - apply beq_refl.
  - inversion HL; subst.
    eapply beq_trans; [apply scatter_upd; assumption|].
    apply upd_ext, IH; assumption.
Qed.

(** A local specification of the form "write [v] into register [L]" carried
    to the parent circuit. *)
Lemma append_set_reg sub qargs L (v : bstate -> Z) s :
  gates_in (List.length qargs) sub -> NoDup qargs ->
  Forall (fun j => j < List.length qargs) L ->
  (forall t, beq (exec sub t) (set_reg L (v t) t)) ->
  beq (exec (append sub qargs) s) (set_reg (map (wire qargs) L) (v (gather qargs s)) s).
Proof.
  intros Hg Hnd HL Hspec.
  eapply beq_trans; [apply exec_append; assumption|].
  eapply beq_trans; [apply scatter_ext; [intros; apply Hspec|apply beq_refl]|].
  eapply beq_trans; [apply scatter_set_reg; assumption|].
  apply set_reg_ext, scatter_gather.
Qed.

Lemma append_id sub qargs s :
  gates_in (List.length qargs) sub -> NoDup qargs ->
  (forall t, beq (exec sub t) t) ->
  beq (exec (append sub qargs) s) s.
Proof.
  intros Hg Hnd Hspec.
  eapply beq_trans; [apply exec_append; assumption|].
  eapply beq_trans; [apply scatter_ext; [intros; apply Hspec|apply beq_refl]|].
  apply scatter_gather.
Qed.

Lemma map_wire_seq_app_l l1 l2 a n :
  a + n <= List.length l1 ->
  map (wire (l1 ++ l2)) (seq a n) = map (wire l1) (seq a n).
Proof.
  intros H. apply map_ext_in. intros j Hj. apply in_seq in Hj.
  unfold wire. apply app_nth1. lia.
Qed.

Lemma map_wire_seq_app_r l1 l2 a n :
  map (wire (l1 ++ l2)) (seq (List.length l1 + a) n) = map (wire l2) (seq a n).
Proof.
  revert a. induction n as [|n IH]; intros a; cbn [seq map]; [reflexivity|].
  f_equal.
  - unfold wire. rewrite app_nth2 by lia. f_equal. lia.
  - rewrite <- IH. f_equal. f_equal. lia.
Qed.

Lemma map_wire_seq_all l : map (wire l) (seq 0 (List.length l)) = l.
Proof.
  induction l as [|x l IH]; cbn [List.length seq map]; [reflexivity|].
  f_equal. rewrite <- seq_shift, map_map. exact IH.
Qed.

Lemma map_wire_firstn l n :
  n <= List.length l -> map (wire l) (seq 0 n) = firstn n l.
Proof.
  intros H.
  assert (Hl : List.length (firstn n l) = n) by (rewrite length_firstn; lia).
  transitivity (map (wire (firstn n l ++ skipn n l)) (seq 0 (List.length (firstn n l)))).
  - rewrite firstn_skipn, Hl. reflexivity.
  - rewrite map_wire_seq_app_l by lia. apply map_wire_seq_all.
Qed.

Lemma map_wire_slice l a n :
  a + n <= List.length l -> map (wire l) (seq a n) = firstn n (skipn a l).
Proof.
  intros H.
  assert (Hl : List.length (firstn a l) = a) by (rewrite length_firstn; lia).
  transitivity (map (wire (firstn a l ++ skipn a l)) (seq (List.length (firstn a l) + 0) n)).
  - rewrite firstn_skipn, Hl, Nat.add_0_r. reflexivity.
  - rewrite map_wire_seq_app_r. apply map_wire_firstn. rewrite length_skipn. lia.
Qed.

(** ** Bits of register values *)

Lemma reg_val_seq s off n :
  reg_val s (seq off n) = val (fun i => s (off + i)) n.
Proof.
  revert off; induction n as [|n IH]; intros off; [reflexivity|].
  rewrite seq_S. cbn [val].
  assert (Happ : forall l1 l2, reg_val s (l1 ++ l2)
            = (reg_val s l1 + p2 (List.length l1) * reg_val s l2)%Z).
  { induction l1 as [|x l1 IH1]; intros l2; cbn [app reg_val List.length].
    - rewrite p2_0. lia.
    - rewrite IH1, p2_S. lia. }
  rewrite Happ, length_seq, IH. cbn [reg_val]. lia.
Qed.

Lemma reg_val_app s l1 l2 :
  reg_val s (l1 ++ l2) = (reg_val s l1 + p2 (List.length l1) * reg_val s l2)%Z.
Proof.
  induction l1 as [|x l1 IH1]; cbn [app reg_val List.length].
  - rewrite p2_0. lia.
  - rewrite IH1, p2_S. lia.
Qed.

Lemma val_bound f n : (0 <= val f n < p2 n)%Z.
Proof.
  induction n as [|n IH]; cbn [val].
  - rewrite p2_0. lia.
  - rewrite p2_S. destruct (f n); cbn [Z.b2z]; lia.
Qed.

Lemma val_ext f g n : (forall i, i < n -> f i = g i) -> val f n = val g n.
Proof.
  induction n as [|n IH]; intros H; cbn [val]; [reflexivity|].
  rewrite IH, H by (intros; auto). reflexivity.
Qed.

Lemma set_reg_nth qs : forall v s i,
  NoDup qs -> i < List.length qs -> set_reg qs v s (nth i qs 0) = Z.testbit v (Z.of_nat i).
Proof.
  induction qs as [|q r IH]; intros v s i Hnd Hi; cbn [List.length] in Hi; [lia|].
  inversion Hnd; subst. cbn [set_reg]. destruct i as [|i].
  - cbn [nth]. rewrite upd_eq. symmetry. apply Z.bit0_odd.
  - cbn [nth]. rewrite upd_neq.
    + rewrite IH by (auto; lia). rewrite Nat2Z.inj_succ.
      apply Z.div2_bits. lia.
    + intros E. apply H1. rewrite <- E. apply nth_In. lia.
Qed.

Lemma testbit_reg_val qs : forall s i,
  i < List.length qs -> Z.testbit (reg_val s qs) (Z.of_nat i) = s (nth i qs 0).
Proof.
  induction qs as [|q r IH]; intros s i Hi; cbn [List.length] in Hi; [lia|].
  cbn [reg_val]. destruct i as [|i]; cbn [nth].
  - rewrite Z.bit0_odd, Z.odd_add_mul_2. now destruct (s q).
  - rewrite Nat2Z.inj_succ.
    replace (Z.b2z (s q) + 2 * reg_val s r)%Z with (2 * reg_val s r + Z.b2z (s q))%Z by lia.
    rewrite Z.testbit_succ_r by lia. apply IH. lia.
Qed.

(** ** Undoing a circuit *)

Lemma exec1_inverse_gate g s : exec1 (inverse_gate g) s = exec1 g s.
Proof. destruct g; reflexivity. Qed.

Lemma existsb_eqb_false x l : existsb (Nat.eqb x) l = false -> ~ In x l.
Proof.
  intros H Hin. assert (existsb (Nat.eqb x) l = true).
  { apply existsb_exists. exists x. split; [assumption|apply Nat.eqb_refl]. }
  congruence.
Qed.

Lemma nodupb_NoDup l : nodupb l = true -> NoDup l.
Proof.
  induction l as [|x l IH]; cbn [nodupb]; intros H; [constructor|].
  apply andb_true_iff in H as [H1 H2]. apply negb_true_iff in H1.
  constructor; [now apply existsb_eqb_false|auto].
Qed.

Lemma NoDup_nodupb l : NoDup l -> nodupb l = true.
Proof.
  induction 1 as [|x l Hx Hl IH]; cbn [nodupb]; [reflexivity|].
  rewrite IH, andb_true_r. apply negb_true_iff.
  destruct (existsb (Nat.eqb x) l) eqn:E; [|reflexivity].
  apply existsb_exists in E as [y [Hy E]]. apply Nat.eqb_eq in E. subst. contradiction.
Qed.

Lemma exec1_involutive g s : gate_wf g -> beq (exec1 g (exec1 g s)) s.
Proof.
  unfold gate_wf. intros Hwf w. apply nodupb_NoDup in Hwf.
  destruct g; cbn [exec1 gate_qubits] in *; auto.
  - unfold upd. destruct (Nat.eqb_spec w q) as [->|]; auto.
    rewrite Nat.eqb_refl. apply negb_involutive.
  - inversion Hwf as [|? ? Hc _]; subst.
    assert (c <> t) by (intros ->; apply Hc; now left).
    unfold upd. destruct (Nat.eqb_spec w t) as [->|]; auto.
    rewrite Nat.eqb_refl. destruct (Nat.eqb_spec c t); [contradiction|].
    now rewrite xorb_assoc, xorb_nilpotent, xorb_false_r.
  - inversion Hwf as [|? ? Hc1 Hr]; subst. inversion Hr as [|? ? Hc2 _]; subst.
    assert (c1 <> t) by (intros ->; apply Hc1; right; now left).
    assert (c2 <> t) by (intros ->; apply Hc2; now left).
    unfold upd. destruct (Nat.eqb_spec w t) as [->|]; auto.
    rewrite Nat.eqb_refl.
    destruct (Nat.eqb_spec c1 t); [contradiction|].
    destruct (Nat.eqb_spec c2 t); [contradiction|].
    now rewrite xorb_assoc, xorb_nilpotent, xorb_false_r.
  - assert (Ht : ~ In t cs).
    { apply NoDup_remove_2 with (l' := []) in Hwf. now rewrite app_nil_r in Hwf. }
    unfold upd. destruct (Nat.eqb_spec w t) as [->|]; auto.
    rewrite Nat.eqb_refl.
    rewrite (forallb_ext_in (fun w0 => if w0 =? t then xorb (s t) (forallb s cs) else s w0) s).
    + now rewrite xorb_assoc, xorb_nilpotent, xorb_false_r.
    + intros x Hx. destruct (Nat.eqb_spec x t) as [->|]; [contradiction|reflexivity].
  - inversion Hwf as [|? ? Hc Hr]; subst.
    assert (c <> a) by (intros ->; apply Hc; now left).
    assert (c <> b) by (intros ->; apply Hc; right; now left).
    inversion Hr as [|? ? Ha _]; subst.
    assert (a <> b) by (intros ->; apply Ha; now left).
    destruct (s c) eqn:Ec; [|now rewrite Ec].
    rewrite !upd_neq by assumption. rewrite Ec.
    rewrite upd_eq. rewrite (upd_neq _ b _ a) by assumption. rewrite upd_eq.
    unfold upd. destruct (Nat.eqb_spec w b) as [->|]; auto.
    destruct (Nat.eqb_spec w a) as [->|]; auto.
Qed.

Lemma gates_wf_app gs1 gs2 : gates_wf (gs1 ++ gs2) <-> gates_wf gs1 /\ gates_wf gs2.
Proof. apply Forall_app. Qed.

(** Running a circuit of classical gates and then its [inverse] restores
    every qubit. *)
Lemma exec_inverse_after gs : forall s, gates_wf gs -> beq (exec (inverse gs) (exec gs s)) s.
Proof.
  induction gs as [|g gs IH]; intros s Hwf; [apply beq_refl|].
  inversion Hwf; subst. unfold inverse. cbn [map rev exec].
  rewrite exec_app. cbn [exec]. rewrite exec1_inverse_gate.
  eapply beq_trans; [apply exec1_ext; apply (IH (exec1 g s)); assumption|].
  now apply exec1_involutive.
Qed.

Lemma exec_after_inverse gs : forall s, gates_wf gs -> beq (exec gs (exec (inverse gs) s)) s.
Proof.
  induction gs as [|g gs IH]; intros s Hwf; [apply beq_refl|].
  inversion Hwf; subst. unfold inverse. cbn [map rev].
  rewrite exec_app. cbn [exec]. rewrite exec1_inverse_gate.
  eapply beq_trans; [apply exec_ext, exec1_involutive; assumption|].
  now apply IH.
Qed.

(** If the circuit sends [s0] to [s], its inverse sends [s] to [s0]. *)
Lemma exec_inverse_of gs s0 s :
  gates_wf gs -> beq (exec gs s0) s -> beq (exec (inverse gs) s) s0.
Proof.
  intros Hwf H. eapply beq_trans; [apply exec_ext, beq_sym, H|].
  now apply exec_inverse_after.
Qed.

(** * The Takahashi-Tani-Kunihiro adder *)

Ltac ifs :=
  repeat match goal with
    | |- context [Nat.eqb ?x ?y] => destruct (Nat.eqb_spec x y)
    | |- context [Nat.leb ?x ?y] => destruct (Nat.leb_spec x y)
    | |- context [Nat.ltb ?x ?y] => destruct (Nat.ltb_spec x y)
    end; cbn [andb orb negb]; subst; try lia.

Ltac btaut :=
  repeat match goal with
    | |- context [?f ?x] =>
        match type of (f x) with bool => is_var f; destruct (f x) eqn:? end
    end; try reflexivity; try discriminate.

Lemma mk2_ext n a1 b1 a2 b2 s1 s2 :
  (forall i, i < n -> a1 i = a2 i) -> (forall i, i < n -> b1 i = b2 i) -> beq s1 s2 ->
  beq (mk2 n a1 b1 s1) (mk2 n a2 b2 s2).
Proof.
  intros Ha Hb Hs w. unfold mk2. ifs; auto. apply Hb. lia.
Qed.

Lemma mk2_of_state n s : beq s (mk2 n (fun i => s i) (fun i => s (n + i)) s).
Proof. intros w. unfold mk2. ifs; auto. f_equal. lia. Qed.

Lemma mk2_a n a b s i : i < n -> mk2 n a b s i = a i.
Proof. intros. unfold mk2. ifs; auto. Qed.

Lemma mk2_b n a b s i : i < n -> mk2 n a b s (n + i) = b i.
Proof. intros. unfold mk2. ifs; auto. f_equal. lia. Qed.

Lemma mk2_out n a b s w : n + n <= w -> mk2 n a b s w = s w.
Proof. intros. unfold mk2. ifs; auto. Qed.

Lemma mk2_cx_ab n a b s i j :
  i < n -> j < n ->
  beq (exec1 (GCX i (n + j)) (mk2 n a b s)) (mk2 n a (upd b j (xorb (b j) (a i))) s).
Proof.
  intros Hi Hj w. cbn [exec1].
  rewrite (mk2_a n a b s i), (mk2_b n a b s j) by assumption.
  unfold upd, mk2. ifs; auto; f_equal; lia.
Qed.

Lemma mk2_cx_aa n a b s i j :
  i < n -> j < n ->
  beq (exec1 (GCX i j) (mk2 n a b s)) (mk2 n (upd a j (xorb (a j) (a i))) b s).
Proof.
  intros Hi Hj w. cbn [exec1].
  rewrite (mk2_a n a b s i), (mk2_a n a b s j) by assumption.
  unfold upd, mk2. ifs; auto.
Qed.

Lemma mk2_ccx n a b s i j k :
  i < n -> j < n -> k < n ->
  beq (exec1 (GCCX (n + i) j k) (mk2 n a b s))
      (mk2 n (upd a k (xorb (a k) (b i && a j))) b s).
Proof.
  intros Hi Hj Hk w. cbn [exec1].
  rewrite (mk2_a n a b s j), (mk2_a n a b s k), (mk2_b n a b s i) by assumption.
  unfold upd, mk2. ifs; auto.
Qed.

Lemma flat_map_seq_S {A} (body : nat -> list A) lo len :
  flat_map body (seq lo (S len)) = flat_map body (seq lo len) ++ body (lo + len).
Proof. rewrite seq_S, flat_map_app. cbn [flat_map]. now rewrite app_nil_r. Qed.

Lemma flat_map_rev_seq_S {A} (body : nat -> list A) lo len :
  flat_map body (rev (seq lo (S len))) = body (lo + len) ++ flat_map body (rev (seq lo len)).
Proof. rewrite seq_S, rev_app_distr. reflexivity. Qed.

Lemma maj_ripple a b c : xorb a ((xorb b a) && (xorb a c)) = maj a b c.
Proof. destruct a, b, c; reflexivity. Qed.

Section TTK.
Variable n : nat.
Variable s : bstate.

(** [cx(a_i, b_i)] for [i] in [lo, lo + t): the first and the last loop. *)
Lemma ttk_cx_ab lo t : forall a b,
  lo + t <= n ->
  beq (exec (flat_map (fun i => [GCX i (n + i)]) (seq lo t)) (mk2 n a b s))
      (mk2 n a (fun j => if (lo <=? j) && (j <? lo + t) then xorb (b j) (a j) else b j) s).
Proof.
  induction t as [|t IH]; intros a b Ht.
  - cbn [seq flat_map exec]. apply mk2_ext; auto using beq_refl.
    intros i Hi. ifs; auto.
  - rewrite flat_map_seq_S.
    eapply exec_app_spec; [apply IH; lia|].
    cbn [exec]. eapply beq_trans; [apply mk2_cx_ab; lia|].
    apply mk2_ext; auto using beq_refl.
    intros i Hi. unfold upd. ifs; auto.
Qed.

(** Second loop: [cx(a_i, a_(i+1))] for [i] from [t] down to [1]. *)
Lemma ttk_loop2 t : forall a b,
  2 + t <= n ->
  beq (exec (flat_map (fun i => [GCX i (i + 1)]) (rev (seq 1 t))) (mk2 n a b s))
      (mk2 n (fun j => if (2 <=? j) && (j <=? t + 1) then xorb (a j) (a (j - 1)) else a j)
         b s).
Proof.
  induction t as [|t IH]; intros a b Ht.
  - cbn [seq rev flat_map exec]. apply mk2_ext; auto using beq_refl.
    intros i Hi. ifs; auto.
  - rewrite flat_map_rev_seq_S. rewrite exec_app. cbn [exec].
    eapply beq_trans; [apply exec_ext, mk2_cx_aa; lia|].
    eapply beq_trans; [apply IH; lia|].
    apply mk2_ext; auto using beq_refl.
    intros i Hi. unfold upd. ifs; auto.
    replace (1 + t + 1 - 1) with (1 + t) by lia. reflexivity.
Qed.

Variables A B : nat -> bool.

Let c := carry A B.
Let a2 := fun j => if (2 <=? j) && (j <=? n - 1) then xorb (A j) (A (j - 1)) else A j.
Let b1 := fun j => if (1 <=? j) && (j <? n) then xorb (B j) (A j) else B j.

(** Third loop: the carries ripple upwards through the [a] register. *)
Lemma ttk_loop3 t :
  t + 1 <= n ->
  beq (exec (flat_map (fun i => [GCCX (n + i) i (i + 1)]) (seq 0 t)) (mk2 n a2 b1 s))
      (mk2 n (fun j => if j <=? t then xorb (A j) (c j) else a2 j) b1 s).
Proof.
  induction t as [|t IH]; intros Ht.
  - cbn [seq flat_map exec]. apply mk2_ext; auto using beq_refl.
    intros i Hi. subst a2 c. cbv beta. ifs; auto.
    replace i with 0 by lia. cbn [carry]. now rewrite xorb_false_r.
  - rewrite flat_map_seq_S.
    eapply exec_app_spec; [apply IH; lia|].
    cbn [exec]. cbn [Nat.add].
    eapply beq_trans; [apply mk2_ccx; lia|].
    apply mk2_ext; auto using beq_refl.
    intros i Hi. unfold upd. subst a2 b1 c. cbv beta.
    replace (t + 1) with (S t) by lia.
    destruct (Nat.eqb_spec i (S t)) as [->|Hne].
    + cbn [carry]. rewrite <- maj_ripple.
      destruct t as [|t].
      * cbn [carry]. ifs. cbn [andb]. rewrite xorb_false_r.
        destruct (A 0), (B 0), (A 1); reflexivity.
      * ifs. cbn [andb].
        replace (S (S t) - 1) with (S t) by lia.
        destruct (A (S (S t))), (A (S t)), (B (S t)), (carry A B (S t)); reflexivity.
    + ifs; auto.
Qed.

(** Fourth loop, from [t] down to [1]: the sum bits appear in [b] and the
    carries are removed from [a]. *)
Lemma ttk_loop4 t :
  t + 1 <= n ->
  beq (exec (flat_map (fun i => [GCX i (n + i); GCCX (n + (i - 1)) (i - 1) i])
               (rev (seq 1 t)))
         (mk2 n (fun j => if j <=? t then xorb (A j) (c j) else a2 j)
                (fun j => if j <=? t then b1 j else xorb (B j) (c j)) s))
      (mk2 n a2 (fun j => xorb (B j) (c j)) s).
Proof.
  induction t as [|t IH]; intros Ht.
  - cbn [seq rev flat_map exec]. apply mk2_ext; auto using beq_refl.
    + intros i Hi. subst a2 c. cbv beta. ifs; auto.
      replace i with 0 by lia. cbn [carry]. now rewrite xorb_false_r.
    + intros i Hi. subst b1 c. cbv beta. ifs; auto.
      replace i with 0 by lia. cbn [carry]. now rewrite xorb_false_r.
  - rewrite flat_map_rev_seq_S. rewrite exec_app. cbn [exec app].
    replace (1 + t - 1) with t by lia.
    eapply beq_trans; [apply exec_ext|apply IH; lia].
    eapply beq_trans; [apply exec1_ext, mk2_cx_ab; lia|].
    eapply beq_trans; [apply mk2_ccx; lia|].
    apply mk2_ext; auto using beq_refl.
    + intros i Hi. unfold upd. subst a2 b1 c. cbv beta.
      destruct (Nat.eqb_spec i (1 + t)) as [->|Hne].
      * cbn [Nat.add]. cbn [carry]. rewrite <- maj_ripple.
        destruct t as [|t].
        -- cbn [carry]. ifs. cbn [andb]. rewrite xorb_false_r.
           destruct (A 0), (B 0), (A 1); reflexivity.
        -- ifs. cbn [andb].
           replace (S (S t) - 1) with (S t) by lia.
           destruct (A (S (S t))), (A (S t)), (B (S t)), (carry A B (S t)); reflexivity.
      * ifs; auto.
    + intros i Hi. unfold upd. subst a2 b1 c. cbv beta.
      destruct (Nat.eqb_spec i (1 + t)) as [->|Hne].
      * ifs. cbn [andb].
        destruct (B (1 + t)), (A (1 + t)), (carry A B (1 + t)); reflexivity.
      * ifs; auto.
Qed.

(** Fifth loop: [cx(a_i, a_(i+1))] for [i] in [1, t]. *)
Lemma ttk_loop5 t : forall b,
  t + 2 <= n ->
  beq (exec (flat_map (fun i => [GCX i (i + 1)]) (seq 1 t)) (mk2 n a2 b s))
      (mk2 n (fun j => if j <=? t + 1 then A j else a2 j) b s).
Proof.
  induction t as [|t IH]; intros b Ht.
  - cbn [seq flat_map exec]. apply mk2_ext; auto using beq_refl.
    intros i Hi. subst a2. cbv beta. ifs; auto.
  - rewrite flat_map_seq_S.
    eapply exec_app_spec; [apply IH; lia|].
    cbn [exec]. eapply beq_trans; [apply mk2_cx_aa; lia|].
    apply mk2_ext; auto using beq_refl.
    intros i Hi. unfold upd. subst a2. cbv beta. ifs; auto.
    cbn [andb]. replace (1 + t + 1 - 1) with (1 + t) by lia.
    destruct (A (1 + t + 1)), (A (1 + t)); reflexivity.
Qed.
End TTK.

(** ** Well-formedness of generated loops *)

Lemma gates_wf_flat_map (body : nat -> list gate) l :
  (forall i, In i l -> gates_wf (body i)) -> gates_wf (flat_map body l).
Proof.
  induction l as [|x l IH]; cbn [flat_map]; intros H; [constructor|].
  apply gates_wf_app; split; [apply H; now left|apply IH; intros; apply H; now right].
Qed.

Lemma gates_wf_rev gs : gates_wf gs -> gates_wf (rev gs).
Proof. apply Forall_rev. Qed.

Lemma gates_wf_inverse gs : gates_wf gs -> gates_wf (inverse gs).
Proof.
  intros H. unfold inverse. apply gates_wf_rev.
  unfold gates_wf in *. rewrite Forall_map.
  eapply Forall_impl; [|exact H]. intros g Hg.
  unfold gate_wf. now rewrite gate_qubits_inverse.
Qed.

Lemma nodupb_map_inj (f : nat -> nat) k l :
  (forall i j, i < k -> j < k -> f i = f j -> i = j) ->
  Forall (fun q => q < k) l -> nodupb l = true -> nodupb (map f l) = true.
Proof.
  intros Hinj Hl Hnd. apply NoDup_nodupb. apply nodupb_NoDup in Hnd.
  induction Hnd as [|x l Hx Hnd IH]; cbn [map]; [constructor|].
  inversion Hl; subst. constructor; [|now apply IH].
  intros Hin. apply in_map_iff in Hin as [y [E Hy]].
  rewrite Forall_forall in H2. apply Hinj in E; auto. subst. contradiction.
Qed.

Lemma gates_wf_append sub qargs :
  gates_wf sub -> gates_in (List.length qargs) sub -> NoDup qargs ->
  gates_wf (append sub qargs).
Proof.
  intros Hwf Hin Hnd. unfold append, gates_wf. rewrite Forall_map.
  unfold gates_wf, gates_in in *. rewrite Forall_forall in *.
  intros g Hg. unfold gate_wf. rewrite gate_qubits_remap.
  apply nodupb_map_inj with (k := List.length qargs).
  - unfold wire. intros; eapply NoDup_nth_inj; eauto.
  - apply Hin, Hg.
  - apply Hwf, Hg.
Qed.

Ltac gate_in_tac :=
  unfold gate_in; cbn [gate_qubits app];
  repeat (apply Forall_cons; [lia|]); apply Forall_nil.

Ltac gate_wf_tac :=
  unfold gate_wf; cbn [gate_qubits app nodupb existsb];
  repeat rewrite (proj2 (Nat.eqb_neq _ _)) by lia; reflexivity.

Ltac loop_in_tac :=
  apply gates_in_flat_map; intros ? ?Hin;
  unfold reversed, range in Hin;
  try (match type of Hin with In _ (rev _) => apply in_rev in Hin end);
  apply in_seq in Hin;
  repeat (constructor; [gate_in_tac|]); try constructor.

Ltac loop_wf_tac :=
  apply gates_wf_flat_map; intros ? ?Hin;
  unfold reversed, range in Hin;
  try (match type of Hin with In _ (rev _) => apply in_rev in Hin end);
  apply in_seq in Hin;
  repeat (constructor; [gate_wf_tac|]); try constructor.

Ltac circ_in_tac :=
  repeat match goal with
    | |- gates_in _ (_ ++ _) => apply gates_in_app; split
    | |- gates_in _ [] => constructor
    | |- gates_in _ (flat_map _ _) => loop_in_tac
    | |- gates_in _ (_ :: _) => constructor; [gate_in_tac|]
    end.

Ltac circ_wf_tac :=
  repeat match goal with
    | |- gates_wf (_ ++ _) => apply gates_wf_app; split
    | |- gates_wf [] => constructor
    | |- gates_wf (flat_map _ _) => loop_wf_tac
    | |- gates_wf (_ :: _) => constructor; [gate_wf_tac|]
    end.

Lemma adder_ttk_gates_in n : gates_in (n + n) (data (adder_ttk n false)).
Proof. cbn [adder_ttk data]. circ_in_tac. Qed.

Lemma adder_ttk_gates_wf n : gates_wf (data (adder_ttk n false)).
Proof. cbn [adder_ttk data]. circ_wf_tac. Qed.

(** ** The adder on bits *)

Lemma adder_ttk_bits n A B s :
  beq (exec (data (adder_ttk n false)) (mk2 n A B s)) (mk2 n A (sum_bit A B) s).
Proof.
  destruct n as [|[|m]].
  - intros w. reflexivity.
  - cbn [adder_ttk data range reversed Nat.sub seq rev flat_map app exec].
    eapply beq_trans; [apply (mk2_cx_ab 1 A B s 0 0); lia|].
    apply mk2_ext; auto using beq_refl.
    intros i Hi. replace i with 0 by lia. unfold upd, sum_bit. cbn [Nat.eqb carry].
    rewrite xorb_false_r. apply xorb_comm.
  - set (n := S (S m)). cbn [adder_ttk data]. unfold range, reversed.
    cbn [app]. rewrite !Nat.sub_0_r.
    replace (n - 1 - 1) with m by (subst n; lia).
    replace (n - 1) with (S m) by (subst n; lia).
    eapply exec_app_spec; [apply (ttk_cx_ab n s 1 (S m)); subst n; lia|].
    eapply exec_app_spec; [apply (ttk_loop2 n s m); subst n; lia|].
    eapply exec_app_spec.
    { eapply beq_trans; [apply exec_ext|apply (ttk_loop3 n s A B (S m)); subst n; lia].
      apply mk2_ext; [| |apply beq_refl]; intros i Hi; cbv beta; subst n; ifs; auto. }
    eapply exec_app_spec.
    { eapply beq_trans; [apply exec_ext|apply (ttk_loop4 n s A B (S m)); subst n; lia].
      apply mk2_ext; [| |apply beq_refl]; intros i Hi; cbv beta; subst n; ifs; auto. }
    eapply exec_app_spec; [apply (ttk_loop5 n s A m); subst n; lia|].
    eapply beq_trans; [apply (ttk_cx_ab n s 0 n); lia|].
    apply mk2_ext; [| |apply beq_refl]; intros i Hi; cbv beta.
    + subst n. ifs; auto.
    + unfold sum_bit. subst n. ifs; auto.
      cbn [andb]. destruct (A i), (B i), (carry A B i); reflexivity.
Qed.

(** ** The adder on values *)

Lemma val_sum_carry a b n :
  (val a n + val b n = val (sum_bit a b) n + Z.b2z (carry a b n) * p2 n)%Z.
Proof.
  induction n as [|n IH]; cbn [val carry].
  - rewrite p2_0. cbn [Z.b2z]. lia.
  - rewrite p2_S. unfold sum_bit at 2.
    destruct (a n), (b n), (carry a b n); cbn [maj andb orb xorb Z.b2z] in *; lia.
Qed.

Lemma val_sum a b n : val (sum_bit a b) n = ((val a n + val b n) mod p2 n)%Z.
Proof.
  rewrite val_sum_carry. rewrite Z.mod_add by (pose proof (p2_pos n); lia).
  symmetry. apply Z.mod_small. apply val_bound.
Qed.

Lemma set_reg_seq off n v s w :
  set_reg (seq off n) v s w
  = if (off <=? w) && (w <? off + n) then Z.testbit v (Z.of_nat (w - off)) else s w.
Proof.
  destruct ((off <=? w) && (w <? off + n)) eqn:E.
  - apply andb_true_iff in E as [E1 E2].
    apply Nat.leb_le in E1. apply Nat.ltb_lt in E2.
    replace w with (nth (w - off) (seq off n) 0) at 1 by (rewrite seq_nth; lia).
    apply set_reg_nth; [apply seq_NoDup|rewrite length_seq; lia].
  - apply set_reg_out. intros Hin. apply in_seq in Hin.
    apply andb_false_iff in E as [E|E].
    + apply Nat.leb_gt in E. lia.
    + apply Nat.ltb_ge in E. lia.
Qed.

Lemma testbit_val f n j : j < n -> Z.testbit (val f n) (Z.of_nat j) = f j.
Proof.
  intros Hj.
  replace (val f n) with (reg_val f (seq 0 n))
    by (rewrite reg_val_seq; apply val_ext; reflexivity).
  rewrite testbit_reg_val by (rewrite length_seq; lia).
  rewrite seq_nth by lia. reflexivity.
Qed.

Lemma testbit_mod_p2 v n j : j < n -> Z.testbit (v mod p2 n) (Z.of_nat j) = Z.testbit v (Z.of_nat j).
Proof. intros Hj. unfold p2. apply Z.mod_pow2_bits_low. lia. Qed.

Lemma mk2_set_reg n a b s :
  (forall i, i < n -> a i = s i) ->
  beq (mk2 n a b s) (set_reg (seq n n) (val b n) s).
Proof.
  intros Ha w. rewrite set_reg_seq. unfold mk2. ifs; auto.
  - cbn [andb]. symmetry. apply testbit_val. lia.
Qed.

(** The adder computes [|a>|b> -> |a>|a + b mod 2^n>]. *)
Lemma adder_ttk_spec n s :
  beq (exec (data (adder_ttk n false)) s)
      (set_reg (seq n n) (reg_val s (seq 0 n) + reg_val s (seq n n)) s).
Proof.
  eapply beq_trans; [apply exec_ext, (mk2_of_state n)|].
  eapply beq_trans; [apply adder_ttk_bits|].
  eapply beq_trans; [apply mk2_set_reg; auto|].
  rewrite val_sum, !reg_val_seq.
  eapply beq_trans; [|apply (set_reg_mod (seq n n))].
  rewrite length_seq. apply beq_refl.
Qed.

(** Its inverse is the subtractor [|a>|b> -> |a>|b - a mod 2^n>]. *)
Lemma subtractor_spec n s :
  beq (exec (inverse (data (adder_ttk n false))) s)
      (set_reg (seq n n) (reg_val s (seq n n) - reg_val s (seq 0 n)) s).
Proof.
  apply exec_inverse_of; [apply adder_ttk_gates_wf|].
  eapply beq_trans; [apply adder_ttk_spec|].
  set (d := (reg_val s (seq n n) - reg_val s (seq 0 n))%Z).
  assert (Ha : reg_val (set_reg (seq n n) d s) (seq 0 n) = reg_val s (seq 0 n)).
  { apply reg_val_ext. intros w Hw. apply set_reg_out.
    intros Hin. apply in_seq in Hw, Hin. lia. }
  rewrite Ha, reg_val_set_reg by apply seq_NoDup. rewrite length_seq.
  intros w. rewrite !set_reg_seq.
  destruct ((n <=? w) && (w <? n + n)) eqn:E; [|reflexivity].
  apply andb_true_iff in E as [E1 E2].
  apply Nat.leb_le in E1. apply Nat.ltb_lt in E2.
  rewrite <- (testbit_mod_p2 _ n) by lia.
  rewrite Zplus_mod_idemp_r.
  replace (reg_val s (seq 0 n) + d)%Z with (reg_val s (seq n n)) by (subst d; lia).
  rewrite Z.mod_small.
  2:{ pose proof (reg_val_bound s (seq n n)) as Hb. now rewrite length_seq in Hb. }
  rewrite testbit_reg_val by (rewrite length_seq; lia).
  rewrite seq_nth by lia. f_equal. lia.
Qed.

(** * The borrowed-qubit incrementer *)

(** ** States described by a frame and a register value *)

Lemma reg_val_inj qs : forall s1 s2,
  reg_val s1 qs = reg_val s2 qs -> forall w, In w qs -> s1 w = s2 w.
Proof.
  induction qs as [|q r IH]; intros s1 s2 H w Hw; [contradiction|].
  cbn [reg_val] in H.
  assert (Hq : s1 q = s2 q).
  { destruct (s1 q), (s2 q); cbn [Z.b2z] in H; auto; lia. }
  destruct Hw as [<-|Hw]; [assumption|].
  apply IH; [|assumption]. rewrite Hq in H. lia.
Qed.

Lemma set_reg_intro qs v s s' :
  NoDup qs ->
  (forall w, ~ In w qs -> s' w = s w) ->
  reg_val s' qs = (v mod p2 (List.length qs))%Z ->
  beq s' (set_reg qs v s).
Proof.
  intros Hnd Hout Hval w.
  destruct (in_dec Nat.eq_dec w qs) as [Hin|Hnin].
  - apply (reg_val_inj qs); [|assumption].
    now rewrite reg_val_set_reg.
  - rewrite set_reg_out by assumption. auto.
Qed.

Lemma set_reg_elim qs v s s' :
  NoDup qs -> beq s' (set_reg qs v s) ->
  (forall w, ~ In w qs -> s' w = s w) /\ reg_val s' qs = (v mod p2 (List.length qs))%Z.
Proof.
  intros Hnd H. split.
  - intros w Hw. rewrite H. now apply set_reg_out.
  - rewrite (reg_val_ext qs s' (set_reg qs v s)) by (intros; apply H).
    now apply reg_val_set_reg.
Qed.

Lemma reg_val_frame qs s s' :
  (forall w, In w qs -> s' w = s w) -> reg_val s' qs = reg_val s qs.
Proof. apply reg_val_ext. Qed.

(** ** Complementing a register *)

Lemma exec_map_GX_out qs : forall s w, ~ In w qs -> exec (map GX qs) s w = s w.
Proof.
  induction qs as [|q r IH]; cbn [map exec exec1]; intros s w Hw; [reflexivity|].
  rewrite IH by (intros H; apply Hw; now right).
  apply upd_neq. intros ->. apply Hw. now left.
Qed.

Lemma exec_map_GX_val qs : forall s,
  NoDup qs ->
  reg_val (exec (map GX qs) s) qs = (p2 (List.length qs) - 1 - reg_val s qs)%Z.
Proof.
  induction qs as [|q r IH]; intros s Hnd; cbn [map exec exec1 reg_val List.length].
  - rewrite p2_0. lia.
  - inversion Hnd; subst. rewrite exec_map_GX_out by assumption. rewrite upd_eq.
    rewrite IH by assumption.
    rewrite (reg_val_ext r (upd s q (negb (s q))) s).
    2:{ intros w Hw. apply upd_neq. intros ->. contradiction. }
    rewrite p2_S. destruct (s q); cbn [negb Z.b2z]; lia.
Qed.

Lemma exec_map_GX qs s :
  NoDup qs ->
  beq (exec (map GX qs) s) (set_reg qs (p2 (List.length qs) - 1 - reg_val s qs) s).
Proof.
  intros Hnd. apply set_reg_intro; [assumption| |].
  - intros; now apply exec_map_GX_out.
  - rewrite exec_map_GX_val by assumption.
    symmetry. apply Z.mod_small. pose proof (reg_val_bound s qs). lia.
Qed.

(** ** The subtractor wired to two registers *)

Lemma subtractor_append m areg breg s :
  List.length areg = m -> List.length breg = m -> NoDup (areg ++ breg) ->
  beq (exec (append (inverse (data (adder_ttk m false))) (areg ++ breg)) s)
      (set_reg breg (reg_val s breg - reg_val s areg) s).
Proof.
  intros Ha Hb Hnd.
  eapply beq_trans.
  { apply (append_set_reg _ _ (seq m m)
             (fun t => (reg_val t (seq m m) - reg_val t (seq 0 m))%Z)).
    - rewrite length_app, Ha, Hb. apply gates_in_inverse, adder_ttk_gates_in.
    - assumption.
    - apply Forall_forall. intros j Hj. apply in_seq in Hj.
      rewrite length_app, Ha, Hb. lia.
    - intros t. apply subtractor_spec. }
  cbv beta. rewrite !reg_val_gather.
  assert (E1 : map (wire (areg ++ breg)) (seq m m) = breg).
  { replace (seq m m) with (seq (List.length areg + 0) (List.length breg))
      by (rewrite Ha, Hb, Nat.add_0_r; reflexivity).
    rewrite map_wire_seq_app_r. apply map_wire_seq_all. }
  assert (E2 : map (wire (areg ++ breg)) (seq 0 m) = areg).
  { rewrite map_wire_seq_app_l by lia. rewrite <- Ha. apply map_wire_seq_all. }
  rewrite E1, E2. apply beq_refl.
Qed.

Lemma NoDup_app_seq a n b m :
  a + n <= b \/ b + m <= a -> NoDup (seq a n ++ seq b m).
Proof.
  intros H. apply NoDup_app; try apply seq_NoDup.
  intros x Hx Hy. apply in_seq in Hx, Hy. lia.
Qed.

Lemma cinc_gates_in n : gates_in (1 + n + (n + 1)) (data (cinc n)).
Proof.
  cbn [cinc data].
  assert (Hsub : gates_in (1 + n + (n + 1))
            (append (inverse (data (adder_ttk (n + 1) false)))
               (seq (1 + n) (n + 1) ++ seq 0 1 ++ seq 1 n))).
  { apply gates_in_append with (k := (n + 1) + (n + 1)).
    - apply gates_in_inverse, adder_ttk_gates_in.
    - rewrite !length_app, !length_seq. lia.
    - apply Forall_forall. intros q Hq.
      rewrite !in_app_iff, !in_seq in Hq. lia. }
  assert (Hx : forall a m, a + m <= 1 + n + (n + 1) ->
            gates_in (1 + n + (n + 1)) (map GX (seq a m))).
  { intros a m H. unfold gates_in. rewrite Forall_map. apply Forall_forall.
    intros q Hq. apply in_seq in Hq. gate_in_tac. }
  repeat (apply gates_in_app; split); auto; apply Hx; lia.
Qed.

Lemma cinc_gates_wf n : gates_wf (data (cinc n)).
Proof.
  cbn [cinc data].
  assert (Hsub : gates_wf
            (append (inverse (data (adder_ttk (n + 1) false)))
               (seq (1 + n) (n + 1) ++ seq 0 1 ++ seq 1 n))).
  { apply gates_wf_append.
    - apply gates_wf_inverse, adder_ttk_gates_wf.
    - rewrite !length_app, !length_seq.
      replace (n + 1 + (1 + n)) with (n + 1 + (n + 1)) by lia.
      apply gates_in_inverse, adder_ttk_gates_in.
    - replace (seq 0 1 ++ seq 1 n) with (seq 0 (1 + n)) by (rewrite seq_app; reflexivity).
      apply NoDup_app_seq. lia. }
  assert (Hx : forall l, gates_wf (map GX l)).
  { intros l. unfold gates_wf. rewrite Forall_map. apply Forall_forall.
    intros q Hq. reflexivity. }
  repeat (apply gates_wf_app; split); auto.
Qed.

(** The incrementer adds the control bit to [x] and restores everything
    else, whatever the borrowed register holds. *)
Lemma cinc_spec n s :
  beq (exec (data (cinc n)) s)
      (set_reg (seq 1 n) (reg_val s (seq 1 n) + Z.b2z (s 0)) s).
Proof.
  cbn [cinc data].
  set (breg := seq (1 + n) (n + 1)).
  set (lx := seq 0 1 ++ seq 1 n).
  set (sub := append (inverse (data (adder_ttk (n + 1) false))) (breg ++ lx)).
  assert (Hlx : lx = 0 :: seq 1 n) by reflexivity.
  assert (Hnd : NoDup (breg ++ lx)).
  { subst breg lx. replace (seq 0 1 ++ seq 1 n) with (seq 0 (1 + n))
      by (rewrite seq_app; reflexivity).
    apply NoDup_app_seq. lia. }
  assert (Hndb : NoDup breg) by apply seq_NoDup.
  assert (Hndl : NoDup lx).
  { subst lx. replace (seq 0 1 ++ seq 1 n) with (seq 0 (1 + n))
      by (rewrite seq_app; reflexivity). apply seq_NoDup. }
  assert (Hlb : List.length breg = n + 1) by (subst breg; apply length_seq).
  assert (Hll : List.length lx = n + 1).
  { subst lx. rewrite length_app, !length_seq. lia. }
  assert (Hdisj : forall w, In w breg -> ~ In w lx).
  { subst breg lx. intros w Hw Hw'. rewrite in_app_iff in Hw'.
    rewrite !in_seq in *. lia. }
  assert (Hsub : forall t, beq (exec sub t) (set_reg lx (reg_val t lx - reg_val t breg) t)).
  { intros t. subst sub. apply subtractor_append; auto. }
  rewrite !exec_app.
  set (s1 := exec sub s).
  set (s2 := exec (map GX breg) s1).
  set (s3 := exec sub s2).
  set (s4 := exec (map GX breg) s3).
  destruct (set_reg_elim lx _ s s1 Hndl (Hsub s)) as [F1 V1].
  destruct (set_reg_elim breg _ s1 s2 Hndb (exec_map_GX breg s1 Hndb)) as [F2 V2].
  destruct (set_reg_elim lx _ s2 s3 Hndl (Hsub s2)) as [F3 V3].
  destruct (set_reg_elim breg _ s3 s4 Hndb (exec_map_GX breg s3 Hndb)) as [F4 V4].
  rewrite Hlb in V2, V4. rewrite Hll in V1, V3.
  set (M := p2 (n + 1)) in *.
  assert (HM : (0 < M)%Z) by apply p2_pos.
  set (G := reg_val s breg) in *.
  set (X := reg_val s lx) in *.
  assert (HG : (0 <= G < M)%Z).
  { pose proof (reg_val_bound s breg) as H. now rewrite Hlb in H. }
  assert (HX : (0 <= X < M)%Z).
  { pose proof (reg_val_bound s lx) as H. now rewrite Hll in H. }
  (* the borrowed register after each step *)
  assert (B1 : reg_val s1 breg = G).
  { apply reg_val_frame. intros w Hw. apply F1. now apply Hdisj. }
  rewrite B1 in V2.
  rewrite Z.mod_small in V2 by lia.
  assert (B3 : reg_val s3 breg = (M - 1 - G)%Z).
  { rewrite <- V2. apply reg_val_frame. intros w Hw. apply F3. now apply Hdisj. }
  rewrite B3 in V4.
  replace (M - 1 - (M - 1 - G))%Z with G in V4 by lia.
  rewrite Z.mod_small in V4 by lia.
  (* the logical register after each step *)
  assert (L2 : reg_val s2 lx = ((X - G) mod M)%Z).
  { rewrite <- V1. apply reg_val_frame. intros w Hw. apply F2.
    intros Hb. now apply (Hdisj w). }
  rewrite L2, V2 in V3.
  assert (L3 : reg_val s3 lx = ((X + 1) mod M)%Z).
  { rewrite V3, Zminus_mod_idemp_l.
    replace (X - G - (M - 1 - G))%Z with (X + 1 + (-1) * M)%Z by lia.
    now rewrite Z.mod_add by lia. }
  assert (L4 : reg_val s4 lx = ((X + 1) mod M)%Z).
  { rewrite <- L3. apply reg_val_frame. intros w Hw. apply F4.
    intros Hb. now apply (Hdisj w). }
  (* unfolding the logical register into control and x *)
  subst X. rewrite Hlx in L4, HX. cbn [reg_val] in HX, L4.
  set (x := reg_val s (seq 1 n)) in *.
  assert (Hx : (0 <= x < p2 n)%Z).
  { pose proof (reg_val_bound s (seq 1 n)) as H. now rewrite length_seq in H. }
  assert (HMn : M = (2 * p2 n)%Z).
  { subst M. replace (n + 1) with (S n) by lia. apply p2_S. }
  pose proof (reg_val_bound s4 (seq 1 n)) as Hx4. rewrite length_seq in Hx4.
  assert (Hc4 : s4 0 = negb (s 0) /\
                reg_val s4 (seq 1 n) = ((x + Z.b2z (s 0%nat)) mod p2 n)%Z).
  { destruct (s 0); cbn [Z.b2z negb] in *.
    - replace (1 + 2 * x + 1)%Z with (2 * (x + 1))%Z in L4 by lia.
      rewrite HMn, Zmult_mod_distr_l in L4.
      destruct (s4 0); cbn [Z.b2z] in L4; split; auto; lia.
    - rewrite Z.mod_small in L4 by lia.
      rewrite Z.add_0_r, (Z.mod_small x) by lia.
      destruct (s4 0); cbn [Z.b2z] in L4; split; auto; lia. }
  destruct Hc4 as [Hc4 Hv4].
  change (seq 0 1) with [0]. cbn [map exec exec1].
  apply set_reg_intro; [apply seq_NoDup| |].
  - intros w Hw. unfold upd.
    destruct (Nat.eqb_spec w 0) as [->|Hw0].
    + rewrite Hc4. apply negb_involutive.
    + destruct (in_dec Nat.eq_dec w breg) as [Hb|Hb].
      * apply (reg_val_inj breg); [|assumption]. now rewrite V4.
      * assert (Hl : ~ In w lx).
        { rewrite Hlx. intros [E|E]; [congruence|contradiction]. }
        rewrite F4, F3, F2, F1 by assumption. reflexivity.
  - rewrite length_seq. rewrite <- Hv4.
    apply reg_val_frame. intros w Hw. apply upd_neq.
    apply in_seq in Hw. lia.
Qed.

(** * The carry gate *)

Lemma exec1_upd_commute q b g s :
  gate_avoids q g -> beq (exec1 g (upd s q b)) (upd (exec1 g s) q b).
Proof.
  unfold gate_avoids. intros Hq w.
  destruct g; cbn [exec1 gate_qubits] in *; try reflexivity.
  - assert (q0 <> q) by (intros ->; apply Hq; now left).
    unfold upd. ifs; auto.
  - assert (c <> q) by (intros ->; apply Hq; now left).
    assert (t <> q) by (intros ->; apply Hq; right; now left).
    unfold upd. ifs; auto.
  - assert (c1 <> q) by (intros ->; apply Hq; now left).
    assert (c2 <> q) by (intros ->; apply Hq; right; now left).
    assert (t <> q) by (intros ->; apply Hq; right; right; now left).
    unfold upd. ifs; auto.
  - assert (t <> q) by (intros ->; apply Hq; apply in_or_app; right; now left).
    assert (Hcs : forallb (upd s q b) cs = forallb s cs).
    { apply forallb_ext_in. intros x Hx. apply upd_neq.
      intros ->. apply Hq. apply in_or_app. now left. }
    rewrite Hcs, (upd_neq s q b t) by assumption. unfold upd. ifs; auto.
  - assert (c <> q) by (intros ->; apply Hq; now left).
    assert (a <> q) by (intros ->; apply Hq; right; now left).
    assert (b0 <> q) by (intros ->; apply Hq; right; right; now left).
    rewrite (upd_neq s q b c) by assumption.
    destruct (s c); [|reflexivity].
    unfold upd. ifs; auto.
Qed.

(** A circuit commutes with a change of a qubit that it does not mention. *)
Lemma exec_upd_commute q b gs : forall s,
  Forall (gate_avoids q) gs -> beq (exec gs (upd s q b)) (upd (exec gs s) q b).
Proof.
  induction gs as [|g gs IH]; intros s H; cbn [exec]; [apply beq_refl|].
  inversion H; subst.
  eapply beq_trans; [apply exec_ext, exec1_upd_commute; assumption|].
  now apply IH.
Qed.

Lemma exec_avoid q gs : forall s, Forall (gate_avoids q) gs -> exec gs s q = s q.
Proof.
  induction gs as [|g gs IH]; intros s H; cbn [exec]; [reflexivity|].
  inversion H as [|? ? Hg Hgs]; subst. rewrite IH by assumption.
  unfold gate_avoids in Hg.
  destruct g; cbn [exec1 gate_qubits] in *; try reflexivity.
  - apply upd_neq. intros ->. apply Hg. now left.
  - apply upd_neq. intros ->. apply Hg. right. now left.
  - apply upd_neq. intros ->. apply Hg. right. right. now left.
  - apply upd_neq. intros ->. apply Hg. apply in_or_app. right. now left.
  - destruct (s c); [|reflexivity]. rewrite !upd_neq; auto.
    + intros ->. apply Hg. right. now left.
    + intros ->. apply Hg. right. right. now left.
Qed.

Lemma exec_rev_after gs : forall s, gates_wf gs -> beq (exec (rev gs) (exec gs s)) s.
Proof.
  induction gs as [|g gs IH]; intros s Hwf; [apply beq_refl|].
  inversion Hwf; subst. cbn [rev exec]. rewrite exec_app. cbn [exec].
  eapply beq_trans; [apply exec1_ext; apply (IH (exec1 g s)); assumption|].
  now apply exec1_involutive.
Qed.

Lemma rev_flat_map {A B} (f : A -> list B) l :
  rev (flat_map f l) = flat_map (fun x => rev (f x)) (rev l).
Proof.
  induction l as [|x l IH]; cbn [flat_map rev]; [reflexivity|].
  rewrite rev_app_distr, IH, flat_map_app. cbn [flat_map]. now rewrite app_nil_r.
Qed.

Section CarrySweepsSpec.
Variables off n : nat.
Variable c_bin : str.
Variable s : bstate.

Let ca := fun i => off + i.
Let cg := carry_greg ca (fun i => off + n + i).
Let K := str_bit c_bin.

Hypothesis Hz : chr_eq c_bin 0 "0" = negb (K 0).

Lemma mkc_ext a1 g1 a2 g2 s2 :
  (forall i, i < n -> a1 i = a2 i) -> (forall i, 1 <= i <= n - 2 -> g1 i = g2 i) ->
  beq s s2 -> beq (mkc off n a1 g1 s) (mkc off n a2 g2 s2).
Proof.
  intros Ha Hg Hs w. unfold mkc.
  ifs; cbn [andb]; auto; try (apply Ha; lia); try (apply Hg; lia).
Qed.

Lemma mkc_a a g i : i < n -> mkc off n a g s (ca i) = a i.
Proof. intros. unfold mkc, ca. ifs; cbn [andb]; auto. f_equal. lia. Qed.

Lemma mkc_g a g i : 1 <= i <= n - 2 -> mkc off n a g s (cg i) = g i.
Proof.
  intros. destruct i as [|j]; [lia|]. unfold mkc, cg, carry_greg.
  ifs; cbn [andb]; auto. f_equal. lia.
Qed.

Lemma mkc_g0 a g : 1 <= n -> mkc off n a g s (cg 0) = a 0.
Proof. intros. unfold cg, carry_greg. now apply mkc_a. Qed.

Lemma mkc_upd_a a g i b :
  i < n -> beq (upd (mkc off n a g s) (ca i) b) (mkc off n (upd a i b) g s).
Proof.
  intros Hi w. unfold upd, mkc, ca. ifs; cbn [andb]; auto.
Qed.

Lemma mkc_upd_g a g i b :
  1 <= i <= n - 2 -> beq (upd (mkc off n a g s) (cg i) b) (mkc off n a (upd g i b) s).
Proof.
  intros Hi w. destruct i as [|j]; [lia|]. unfold upd, mkc, cg, carry_greg.
  ifs; cbn [andb]; auto.
Qed.

Lemma mkc_cx a g i :
  1 <= i <= n - 2 ->
  beq (exec1 (GCX (ca i) (cg i)) (mkc off n a g s))
      (mkc off n a (upd g i (xorb (g i) (a i))) s).
Proof.
  intros Hi. cbn [exec1]. rewrite (mkc_a a g i), (mkc_g a g i) by lia.
  apply mkc_upd_g; lia.
Qed.

Lemma mkc_x a g i :
  i < n ->
  beq (exec1 (GX (ca i)) (mkc off n a g s)) (mkc off n (upd a i (negb (a i))) g s).
Proof.
  intros Hi. cbn [exec1]. rewrite (mkc_a a g i) by lia. apply mkc_upd_a; lia.
Qed.

Lemma mkc_ccx a g i :
  2 <= i <= n - 2 ->
  beq (exec1 (GCCX (cg (i - 1)) (ca i) (cg i)) (mkc off n a g s))
      (mkc off n a (upd g i (xorb (g i) (g (i - 1) && a i))) s).
Proof.
  intros Hi. cbn [exec1].
  rewrite (mkc_a a g i), (mkc_g a g i), (mkc_g a g (i - 1)) by lia.
  apply mkc_upd_g; lia.
Qed.

Lemma mkc_ccx1 a g :
  1 <= n - 2 ->
  beq (exec1 (GCCX (cg (1 - 1)) (ca 1) (cg 1)) (mkc off n a g s))
      (mkc off n a (upd g 1 (xorb (g 1) (a 0 && a 1))) s).
Proof.
  intros Hi. cbn [exec1 Nat.sub].
  rewrite (mkc_a a g 1), (mkc_g a g 1), (mkc_g0 a g) by lia.
  apply mkc_upd_g; lia.
Qed.

(** One step of the downward sweep. *)
Lemma carry_fwd_body_spec a g i :
  1 <= i <= n - 2 ->
  beq (exec (carry_fwd_body c_bin ca cg i) (mkc off n a g s))
      (mkc off n (upd a i (xorb (a i) (K i)))
         (upd g i (xorb (xorb (g i) (K i && a i))
                        (carry_in K a g i && xorb (a i) (K i)))) s).
Proof.
  intros Hi. unfold carry_fwd_body, carry_in. rewrite Hz.
  fold (str_bit c_bin i). fold K.
  destruct (Nat.eqb_spec i 1) as [->|Hne].
  - destruct (K 0) eqn:K0; cbn [negb andb]; destruct (K 1) eqn:K1; cbn [exec].
    + eapply beq_trans; [apply exec1_ext, exec1_ext, mkc_cx; lia|].
      eapply beq_trans; [apply exec1_ext, mkc_x; lia|].
      eapply beq_trans; [apply mkc_ccx1; lia|].
      apply mkc_ext; auto using beq_refl; intros j Hj; unfold upd; ifs; auto; btaut.
    + eapply beq_trans; [apply mkc_ccx1; lia|].
      apply mkc_ext; auto using beq_refl; intros j Hj; unfold upd; ifs; auto; btaut.
    + eapply beq_trans; [apply exec1_ext, mkc_cx; lia|].
      eapply beq_trans; [apply mkc_x; lia|].
      apply mkc_ext; auto using beq_refl; intros j Hj; unfold upd; ifs; auto; btaut.
    + apply mkc_ext; auto using beq_refl; intros j Hj; unfold upd; ifs; auto; btaut.
  - cbn [andb]. destruct (K i) eqn:Ki; cbn [exec].
    + eapply beq_trans; [apply exec1_ext, exec1_ext, mkc_cx; lia|].
      eapply beq_trans; [apply exec1_ext, mkc_x; lia|].
      eapply beq_trans; [apply mkc_ccx; lia|].
      apply mkc_ext; auto using beq_refl; intros j Hj; unfold upd; ifs; auto; btaut.
    + eapply beq_trans; [apply mkc_ccx; lia|].
      apply mkc_ext; auto using beq_refl; intros j Hj; unfold upd; ifs; auto; btaut.
Qed.
(** The downward sweep over positions [t .. 1]. *)
Lemma carry_fwd_sweep t : forall a g,
  t <= n - 2 ->
  beq (exec (flat_map (carry_fwd_body c_bin ca cg) (rev (seq 1 t))) (mkc off n a g s))
      (mkc off n
         (fun j => if (1 <=? j) && (j <=? t) then xorb (a j) (K j) else a j)
         (fun j => if (1 <=? j) && (j <=? t)
                   then xorb (xorb (g j) (K j && a j))
                             (carry_in K a g j && xorb (a j) (K j))
                   else g j) s).
Proof.
  induction t as [|t IH]; intros a g Ht.
  - cbn [seq rev flat_map exec].
    apply mkc_ext; auto using beq_refl; intros j Hj; ifs; auto.
  - rewrite flat_map_rev_seq_S, exec_app.
    eapply beq_trans; [apply exec_ext, carry_fwd_body_spec; lia|].
    eapply beq_trans; [apply IH; lia|].
    apply mkc_ext; auto using beq_refl; intros j Hj;
      unfold upd, carry_in; ifs; auto.
Qed.

(** The upward sweep over positions [1 .. t], after the downward sweep over
    the whole register: the borrowed qubits are toggled by the carries. *)
Lemma carry_mid_sweep a g t :
  t <= n - 2 ->
  beq (exec (flat_map (carry_mid_body ca cg) (seq 1 t))
         (mkc off n
            (fun j => if (1 <=? j) && (j <=? n - 2) then xorb (a j) (K j) else a j)
            (fun j => if (1 <=? j) && (j <=? n - 2)
                      then xorb (xorb (g j) (K j && a j))
                                (carry_in K a g j && xorb (a j) (K j))
                      else g j) s))
      (mkc off n
         (fun j => if (1 <=? j) && (j <=? n - 2) then xorb (a j) (K j) else a j)
         (fun j => if (1 <=? j) && (j <=? t) then xorb (g j) (carry a K (j + 1))
                   else if (1 <=? j) && (j <=? n - 2)
                   then xorb (xorb (g j) (K j && a j))
                             (carry_in K a g j && xorb (a j) (K j))
                   else g j) s).
Proof.
  induction t as [|t IH]; intros Ht.
  - cbn [seq flat_map exec].
    apply mkc_ext; auto using beq_refl; intros j Hj; ifs; auto.
  - rewrite flat_map_seq_S.
    eapply exec_app_spec; [apply IH; lia|].
    unfold carry_mid_body.
    destruct t as [|t].
    + cbn [Nat.add Nat.sub Nat.eqb exec].
      apply mkc_ext; auto using beq_refl; intros j Hj; unfold carry_in; ifs; auto.
      cbn [andb Nat.add carry]. unfold maj. btaut.
    + replace (1 + S t - 1 =? 0) with false by (symmetry; apply Nat.eqb_neq; lia).
      cbn [exec].
      eapply beq_trans; [apply mkc_ccx; lia|].
      apply mkc_ext; auto using beq_refl; intros j Hj; unfold upd, carry_in; ifs; auto;
        cbn [andb]; replace (1 + S t - 1) with (S t) by lia;
        replace (1 + S t + 1) with (S (S (S t))) by lia;
        replace (S t + 1) with (S (S t)) by lia;
        change (1 + S t) with (S (S t));
        change (carry a K (S (S (S t))))
          with (maj (a (S (S t))) (K (S (S t))) (carry a K (S (S t))));
        destruct (carry a K (S (S t))); unfold maj; btaut.
Qed.
End CarrySweepsSpec.

Lemma mkc_of_state off n s :
  beq s (mkc off n (fun i => s (off + i)) (fun j => s (off + n + (j - 1))) s).
Proof.
  intros w. unfold mkc. ifs; cbn [andb]; auto; f_equal; lia.
Qed.

Lemma rev_carry_fwd_body c_bin ca cg i :
  rev (carry_fwd_body c_bin ca cg i) = carry_bwd_body c_bin ca cg i.
Proof.
  unfold carry_fwd_body, carry_bwd_body.
  destruct ((i =? 1) && chr_eq c_bin 0 "0"); destruct (chr_eq c_bin i "1"); reflexivity.
Qed.

Lemma rev_carry_mid_body ca cg i :
  rev (carry_mid_body ca cg i) = carry_mid_body ca cg i.
Proof. unfold carry_mid_body. destruct (i - 1 =? 0); reflexivity. Qed.

Section CarryGate.
Variables off n : nat.
Variable c_bin : str.

Let ca := fun i => off + i.
Let cg := carry_greg ca (fun i => off + n + i).
Let K := str_bit c_bin.
Let out := off + (n - 1).

Hypothesis Hn : 3 <= n.
Hypothesis Hz : chr_eq c_bin 0 "0" = negb (K 0).

Let F := flat_map (carry_fwd_body c_bin ca cg) (rev (seq 1 (n - 2))).
Let M := flat_map (carry_mid_body ca cg) (seq 1 (n - 2)).
Let M' := flat_map (carry_mid_body ca cg) (rev (seq 1 (n - 2))).
Let Bk := flat_map (carry_bwd_body c_bin ca cg) (seq 1 (n - 2)).

Lemma carry_undo : M' ++ Bk = rev (F ++ M).
Proof.
  subst F M M' Bk. rewrite rev_app_distr, !rev_flat_map, rev_involutive.
  f_equal; apply flat_map_ext; intros i; symmetry.
  - apply rev_carry_mid_body.
  - apply rev_carry_fwd_body.
Qed.

Lemma carry_body_cases (P : list gate -> Prop) i :
  1 <= i <= n - 2 ->
  (forall gs, (forall g, In g gs ->
      g = GCX (ca i) (cg i) \/ g = GX (ca i) \/ g = GCCX (cg (i - 1)) (ca i) (cg i)) ->
    P gs) ->
  P (carry_fwd_body c_bin ca cg i) /\ P (carry_mid_body ca cg i).
Proof.
  intros Hi H. split; apply H; intros g Hg.
  - unfold carry_fwd_body in Hg.
    destruct ((i =? 1) && chr_eq c_bin 0 "0"); destruct (chr_eq c_bin i "1");
      cbn [In] in Hg; intuition auto.
  - unfold carry_mid_body in Hg. destruct (i - 1 =? 0); cbn [In] in Hg; intuition auto.
Qed.

Lemma carry_sweep_forall (P : gate -> Prop) :
  (forall i, 1 <= i <= n - 2 ->
     P (GCX (ca i) (cg i)) /\ P (GX (ca i)) /\ P (GCCX (cg (i - 1)) (ca i) (cg i))) ->
  Forall P (F ++ M).
Proof.
  intros H. subst F M. apply Forall_app; split;
    apply Forall_flat_map, Forall_forall; intros i Hi;
    rewrite <- ?in_rev in Hi; apply in_seq in Hi;
    destruct (H i) as [H1 [H2 H3]]; try lia;
    destruct (carry_body_cases (Forall P) i) as [Hf Hm]; try lia; auto;
    intros gs Hgs; apply Forall_forall; intros g Hg;
    destruct (Hgs g Hg) as [->|[->| ->]]; auto.
Qed.

Lemma carry_sweep_wf : gates_wf (F ++ M).
Proof.
  apply carry_sweep_forall. intros i Hi.
  destruct i as [|j]; [lia|]. replace (S j - 1) with j by lia.
  subst ca cg. unfold carry_greg.
  split; [|split]; try gate_wf_tac.
  destruct j as [|j]; gate_wf_tac.
Qed.

Lemma carry_sweep_avoids w :
  w < off \/ w = out \/ off + n + (n - 2) <= w ->
  Forall (gate_avoids w) (F ++ M).
Proof.
  intros Hw. apply carry_sweep_forall. intros i Hi.
  destruct i as [|j]; [lia|]. replace (S j - 1) with j by lia.
  subst ca cg out. unfold carry_greg, gate_avoids.
  split; [|split]; cbn [gate_qubits In]; try lia.
  destruct j as [|j]; lia.
Qed.

(** The sweeps toggle the last borrowed qubit by the carry out of the low
    [n - 1] positions and leave the qubits outside the gate alone. *)
Lemma carry_sweep_top s :
  exec (F ++ M) s (cg (n - 2))
  = xorb (s (cg (n - 2))) (carry (fun i => s (off + i)) K (n - 1)).
Proof.
  rewrite exec_app.
  pose proof (mkc_of_state off n s) as Hs.
  set (a := fun i => s (off + i)) in *.
  set (g := fun j => s (off + n + (j - 1))) in *.
  rewrite (exec_ext M _ _ (exec_ext F _ _ Hs) _).
  subst F M.
  rewrite (exec_ext _ _ _ (carry_fwd_sweep off n c_bin s Hz (n - 2) a g (le_n _)) _).
  rewrite (carry_mid_sweep off n c_bin s Hz a g (n - 2) (le_n _) _).
  fold ca cg. rewrite mkc_g by lia.
  replace ((1 <=? n - 2) && (n - 2 <=? n - 2)) with true
    by (symmetry; apply andb_true_iff; split; apply Nat.leb_le; lia).
  rewrite (Hs (cg (n - 2))). rewrite mkc_g by lia.
  replace (n - 2 + 1) with (n - 1) by lia. reflexivity.
Qed.

Variables Gt Gx : list gate.
Variable ctl : bstate -> bool.

Hypothesis HGt : forall st,
  beq (exec Gt st) (upd st out (xorb (st out) (ctl st && st (cg (n - 2))))).
Hypothesis HGx : forall st,
  beq (exec Gx st) (upd st out (xorb (st out) (ctl st && K (n - 1)))).
Hypothesis Hctl : forall s1 s2, (forall w, w < off -> s1 w = s2 w) -> ctl s1 = ctl s2.
Hypothesis Hctl_out : forall st b, ctl (upd st out b) = ctl st.

Lemma upd_upd (st : bstate) q b1 b2 : beq (upd (upd st q b1) q b2) (upd st q b2).
Proof. intros w. unfold upd. destruct (w =? q); reflexivity. Qed.

(** Compute the carry into the borrowed qubit, copy it to the output under
    the controls, and undo the computation. *)
Lemma carry_gate_generic s :
  beq (exec (Gt ++ F ++ M ++ Gt ++ Gx ++ M' ++ Bk) s)
      (upd s out (xorb (s out)
         (ctl s && xorb (carry (fun i => s (off + i)) K (n - 1)) (K (n - 1))))).
Proof.
  assert (Hout_g : cg (n - 2) <> out).
  { subst cg ca out. unfold carry_greg. destruct (n - 2) eqn:E; lia. }
  assert (Hav : Forall (gate_avoids out) (F ++ M))
    by (apply carry_sweep_avoids; auto).
  set (cy := carry (fun i => s (off + i)) K (n - 1)).
  set (o1 := xorb (s out) (ctl s && s (cg (n - 2)))).
  set (o4 := xorb (s out) (ctl s && xorb cy (K (n - 1)))).
  (* after the first toggle and the sweeps *)
  assert (H2 : beq (exec (F ++ M) (exec Gt s)) (upd (exec (F ++ M) s) out o1)).
  { eapply beq_trans; [apply exec_ext, HGt|]. now apply exec_upd_commute. }
  assert (Hc2 : ctl (exec (F ++ M) s) = ctl s).
  { apply Hctl. intros w Hw. apply exec_avoid. apply carry_sweep_avoids. auto. }
  (* after the second toggle and the flip *)
  assert (H4 : beq (exec Gx (exec Gt (exec (F ++ M) (exec Gt s))))
                   (upd (exec (F ++ M) s) out o4)).
  { eapply beq_trans; [apply exec_ext; eapply beq_trans; [apply exec_ext, H2|apply HGt]|].
    eapply beq_trans; [apply HGx|].
    rewrite !Hctl_out, Hc2. rewrite !upd_eq.
    rewrite (upd_neq _ out o1 (cg (n - 2))) by assumption.
    rewrite carry_sweep_top. fold cy.
    eapply beq_trans; [apply upd_ext, upd_upd|].
    eapply beq_trans; [apply upd_upd|].
    intros w. unfold upd. destruct (w =? out); [|reflexivity].
    subst o1 o4. destruct (s out), (ctl s), (s (cg (n - 2))), cy, (K (n - 1)); reflexivity. }
  replace (Gt ++ F ++ M ++ Gt ++ Gx ++ M' ++ Bk)
    with (Gt ++ (F ++ M) ++ Gt ++ Gx ++ (M' ++ Bk))
    by (rewrite <- !app_assoc; reflexivity).
  rewrite carry_undo.
  pose proof carry_sweep_wf as Hwf.
  set (U := F ++ M) in *.
  rewrite !exec_app.
  eapply beq_trans; [apply exec_ext, H4|].
  eapply beq_trans; [apply exec_upd_commute; now apply Forall_rev|].
  apply upd_ext. now apply exec_rev_after.
Qed.
End CarryGate.

(** * The controlled carry gates *)

Lemma carry_sweep_gates_in off n c_bin k :
  3 <= n -> off + n + (n - 2) <= k ->
  let ca := fun i => off + i in
  let cg := carry_greg ca (fun i => off + n + i) in
  gates_in k (flat_map (carry_fwd_body c_bin ca cg) (rev (seq 1 (n - 2)))
              ++ flat_map (carry_mid_body ca cg) (seq 1 (n - 2))).
Proof.
  intros Hn Hk ca cg.
  apply (carry_sweep_forall off n c_bin Hn (gate_in k)).
  intros i Hi. destruct i as [|j]; [lia|]. replace (S j - 1) with j by lia.
  subst ca cg. unfold carry_greg.
  split; [|split]; try gate_in_tac.
  destruct j as [|j]; gate_in_tac.
Qed.

Lemma c_carry_gate_data n c_bin :
  2 <= n ->
  let ca := fun i => 1 + i in
  let cg := carry_greg ca (fun i => 1 + n + i) in
  c_carry_gate n c_bin =
  Ok (mkCircuit [("control"%string, 1); ("a"%string, n); ("g"%string, n - 2)]
        ([GCCX 0 (cg (n - 2)) (ca (n - 1))]
         ++ flat_map (carry_fwd_body c_bin ca cg) (rev (seq 1 (n - 2)))
         ++ flat_map (carry_mid_body ca cg) (seq 1 (n - 2))
         ++ [GCCX 0 (cg (n - 2)) (ca (n - 1))]
         ++ (if chr_eq c_bin (n - 1) "1" then [GCX 0 (ca (n - 1))] else [])
         ++ flat_map (carry_mid_body ca cg) (rev (seq 1 (n - 2)))
         ++ flat_map (carry_bwd_body c_bin ca cg) (seq 1 (n - 2)))).
Proof.
  intros Hn ca cg. unfold c_carry_gate.
  destruct (Nat.ltb_spec n 2) as [H|H]; [lia|].
  unfold range, reversed. replace (n - 1 - 1) with (n - 2) by lia. reflexivity.
Qed.

Lemma cc_carry_gate_data n c_bin :
  2 <= n ->
  let ca := fun i => 2 + i in
  let cg := carry_greg ca (fun i => 2 + n + i) in
  cc_carry_gate n c_bin =
  Ok (mkCircuit [("control"%string, 2); ("a"%string, n); ("g"%string, n - 2)]
        ([GMCT [0; 1; cg (n - 2)] (ca (n - 1))]
         ++ flat_map (carry_fwd_body c_bin ca cg) (rev (seq 1 (n - 2)))
         ++ flat_map (carry_mid_body ca cg) (seq 1 (n - 2))
         ++ [GMCT [0; 1; cg (n - 2)] (ca (n - 1))]
         ++ (if chr_eq c_bin (n - 1) "1" then [GCCX 0 1 (ca (n - 1))] else [])
         ++ flat_map (carry_mid_body ca cg) (rev (seq 1 (n - 2)))
         ++ flat_map (carry_bwd_body c_bin ca cg) (seq 1 (n - 2)))).
Proof.
  intros Hn ca cg. unfold cc_carry_gate.
  destruct (Nat.ltb_spec n 2) as [H|H]; [lia|].
  unfold range, reversed. replace (n - 1 - 1) with (n - 2) by lia. reflexivity.
Qed.

(** The controlled carry gate on [n - 1] data qubits: the output qubit [n]
    is toggled, under the control, by the carry out of [a + c] and by the top
    digit of the constant; every other qubit, borrowed ones included, is
    restored. *)
Lemma c_carry_gate_spec n c_bin :
  3 <= n ->
  chr_eq c_bin 0 "0" = negb (str_bit c_bin 0) ->
  exists circ,
    c_carry_gate n c_bin = Ok circ /\
    gates_in (1 + n + (n - 2)) (data circ) /\
    forall s,
      beq (exec (data circ) s)
          (upd s n (xorb (s n)
             (s 0 && xorb (carry (fun i => s (1 + i)) (str_bit c_bin) (n - 1))
                          (str_bit c_bin (n - 1))))).
Proof.
  intros Hn Hz. eexists. split; [apply c_carry_gate_data; lia|]. cbn [data].
  split.
  - pose proof (carry_sweep_gates_in 1 n c_bin (1 + n + (n - 2)) Hn (le_n _)) as HU.
    cbv zeta in HU. apply gates_in_app in HU as [HF HM].
    assert (HU' : gates_in (1 + n + (n - 2))
              (flat_map (carry_mid_body (fun i => 1 + i)
                           (carry_greg (fun i => 1 + i) (fun i => 1 + n + i)))
                 (rev (seq 1 (n - 2)))
               ++ flat_map (carry_bwd_body c_bin (fun i => 1 + i)
                              (carry_greg (fun i => 1 + i) (fun i => 1 + n + i)))
                    (seq 1 (n - 2)))).
    { rewrite (carry_undo 1 n c_bin). apply gates_in_rev.
      apply gates_in_app. now split. }
    apply gates_in_app in HU' as [HM' HB].
    assert (Hg : gate_in (1 + n + (n - 2))
              (GCCX 0 (carry_greg (fun i => 1 + i) (fun i => 1 + n + i) (n - 2)) (1 + (n - 1)))).
    { unfold carry_greg. destruct (n - 2) eqn:E; gate_in_tac. }
    repeat (apply gates_in_app; split); auto.
    + constructor; [assumption|constructor].
    + constructor; [assumption|constructor].
    + destruct (chr_eq c_bin (n - 1) "1"); [|constructor].
      constructor; [gate_in_tac|constructor].
  - intros s.
    pose proof (carry_gate_generic 1 n c_bin Hn Hz
                  [GCCX 0 (carry_greg (fun i => 1 + i) (fun i => 1 + n + i) (n - 2)) (1 + (n - 1))]
                  (if chr_eq c_bin (n - 1) "1" then [GCX 0 (1 + (n - 1))] else [])
                  (fun st => st 0)) as H.
    cbv zeta in H.
    replace (1 + (n - 1)) with n in * by lia.
    apply H.
    + intros st w. cbn [exec exec1]. unfold upd.
      destruct (w =? n); [|reflexivity]. f_equal.
    + intros st w. fold (str_bit c_bin (n - 1)).
      destruct (str_bit c_bin (n - 1)); cbn [exec exec1]; unfold upd.
      * destruct (w =? n); [|reflexivity]. now rewrite andb_true_r.
      * destruct (Nat.eqb_spec w n) as [->|]; [|reflexivity].
        now rewrite andb_false_r, xorb_false_r.
    + intros s1 s2 Hs. apply Hs. lia.
    + intros st b. apply upd_neq. lia.
Qed.

Lemma cc_carry_gate_spec n c_bin :
  3 <= n ->
  chr_eq c_bin 0 "0" = negb (str_bit c_bin 0) ->
  exists circ,
    cc_carry_gate n c_bin = Ok circ /\
    gates_in (2 + n + (n - 2)) (data circ) /\
    forall s,
      beq (exec (data circ) s)
          (upd s (1 + n) (xorb (s (1 + n))
             ((s 0 && s 1) && xorb (carry (fun i => s (2 + i)) (str_bit c_bin) (n - 1))
                                   (str_bit c_bin (n - 1))))).
Proof.
  intros Hn Hz. eexists. split; [apply cc_carry_gate_data; lia|]. cbn [data].
  split.
  - pose proof (carry_sweep_gates_in 2 n c_bin (2 + n + (n - 2)) Hn (le_n _)) as HU.
    cbv zeta in HU. apply gates_in_app in HU as [HF HM].
    assert (HU' : gates_in (2 + n + (n - 2))
              (flat_map (carry_mid_body (fun i => 2 + i)
                           (carry_greg (fun i => 2 + i) (fun i => 2 + n + i)))
                 (rev (seq 1 (n - 2)))
               ++ flat_map (carry_bwd_body c_bin (fun i => 2 + i)
                              (carry_greg (fun i => 2 + i) (fun i => 2 + n + i)))
                    (seq 1 (n - 2)))).
    { rewrite (carry_undo 2 n c_bin). apply gates_in_rev.
      apply gates_in_app. now split. }
    apply gates_in_app in HU' as [HM' HB].
    assert (Hg : gate_in (2 + n + (n - 2))
              (GMCT [0; 1; carry_greg (fun i => 2 + i) (fun i => 2 + n + i) (n - 2)]
                 (2 + (n - 1)))).
    { unfold carry_greg. destruct (n - 2) eqn:E; gate_in_tac. }
    repeat (apply gates_in_app; split); auto.
    + constructor; [assumption|constructor].
    + constructor; [assumption|constructor].
    + destruct (chr_eq c_bin (n - 1) "1"); [|constructor].
      constructor; [gate_in_tac|constructor].
  - intros s.
    pose proof (carry_gate_generic 2 n c_bin Hn Hz
                  [GMCT [0; 1; carry_greg (fun i => 2 + i) (fun i => 2 + n + i) (n - 2)]
                     (2 + (n - 1))]
                  (if chr_eq c_bin (n - 1) "1" then [GCCX 0 1 (2 + (n - 1))] else [])
                  (fun st => st 0 && st 1)) as H.
    cbv zeta in H.
    replace (2 + (n - 1)) with (1 + n) in * by lia.
    apply H.
    + intros st w. cbn [exec exec1 forallb]. unfold upd.
      destruct (w =? 1 + n); [|reflexivity]. f_equal.
      now rewrite andb_true_r, andb_assoc.
    + intros st w. fold (str_bit c_bin (n - 1)).
      destruct (str_bit c_bin (n - 1)); cbn [exec exec1]; unfold upd.
      * destruct (w =? 1 + n); [|reflexivity]. now rewrite andb_true_r.
      * destruct (Nat.eqb_spec w (1 + n)) as [->|]; [|reflexivity].
        now rewrite andb_false_r, xorb_false_r.
    + intros s1 s2 Hs. rewrite !Hs by lia. reflexivity.
    + intros st b. rewrite !upd_neq by lia. reflexivity.
Qed.

(** * Binary representations *)

Lemma nth_error_repeat {A} (x : A) k i :
  nth_error (repeat x k) i = if i <? k then Some x else None.
Proof.
  revert i; induction k as [|k IH]; intros [|i]; cbn [repeat nth_error]; auto;
    try (rewrite IH; reflexivity).
Qed.

Lemma rev_repeat {A} (x : A) k : rev (repeat x k) = repeat x k.
Proof.
  induction k as [|k IH]; cbn [repeat rev]; [reflexivity|].
  rewrite IH. clear IH. induction k as [|k IH]; cbn [repeat app]; [reflexivity|].
  now rewrite IH.
Qed.

(** The digits of a positive number, least significant first, are its bits,
    and the bits beyond them are zero. *)
Lemma bin_pos_bits p : forall i,
  nth_error (rev (bin_pos p)) i
  = if i <? List.length (bin_pos p)
    then Some (digit (Z.testbit (Zpos p) (Z.of_nat i))) else None.
Proof.
  induction p as [p IH|p IH|]; intros i; cbn [bin_pos].
  - rewrite rev_app_distr, length_app. cbn [rev app List.length].
    destruct i as [|i]; cbn [nth_error].
    + replace (0 <? _) with true by (symmetry; apply Nat.ltb_lt; lia). reflexivity.
    + rewrite IH. replace (S i <? List.length (bin_pos p) + 1) with (i <? List.length (bin_pos p))
        by (destruct (Nat.ltb_spec i (List.length (bin_pos p)));
            symmetry; [apply Nat.ltb_lt|apply Nat.ltb_ge]; lia).
      destruct (i <? _); [|reflexivity]. do 2 f_equal.
      rewrite Nat2Z.inj_succ, Pos2Z.inj_xI. rewrite Z.testbit_odd_succ by lia. reflexivity.
  - rewrite rev_app_distr, length_app. cbn [rev app List.length].
    destruct i as [|i]; cbn [nth_error].
    + replace (0 <? _) with true by (symmetry; apply Nat.ltb_lt; lia). reflexivity.
    + rewrite IH. replace (S i <? List.length (bin_pos p) + 1) with (i <? List.length (bin_pos p))
        by (destruct (Nat.ltb_spec i (List.length (bin_pos p)));
            symmetry; [apply Nat.ltb_lt|apply Nat.ltb_ge]; lia).
      destruct (i <? _); [|reflexivity]. do 2 f_equal.
      rewrite Nat2Z.inj_succ, Pos2Z.inj_xO. rewrite Z.testbit_even_succ by lia. reflexivity.
  - destruct i as [|[|i]]; reflexivity.
Qed.

Lemma bin_pos_length_pos p : 1 <= List.length (bin_pos p).
Proof. destruct p; cbn [bin_pos]; rewrite ?length_app; cbn [List.length]; lia. Qed.

Lemma bin_pos_range p :
  (p2 (List.length (bin_pos p) - 1) <= Zpos p < p2 (List.length (bin_pos p)))%Z.
Proof.
  induction p as [p IH|p IH|]; cbn [bin_pos]; rewrite ?length_app; cbn [List.length].
  - pose proof (bin_pos_length_pos p).
    replace (List.length (bin_pos p) + 1 - 1) with (S (List.length (bin_pos p) - 1)) by lia.
    replace (List.length (bin_pos p) + 1) with (S (List.length (bin_pos p))) by lia.
    rewrite !p2_S, Pos2Z.inj_xI. lia.
  - pose proof (bin_pos_length_pos p).
    replace (List.length (bin_pos p) + 1 - 1) with (S (List.length (bin_pos p) - 1)) by lia.
    replace (List.length (bin_pos p) + 1) with (S (List.length (bin_pos p))) by lia.
    rewrite !p2_S, Pos2Z.inj_xO. lia.
  - cbn. lia.
Qed.

Lemma p2_mono a b : a <= b -> (p2 a <= p2 b)%Z.
Proof. intros H. unfold p2. apply Z.pow_le_mono_r; lia. Qed.

Lemma p2_lt_length p k : (Zpos p < p2 k)%Z -> List.length (bin_pos p) <= k.
Proof.
  intros H. pose proof (bin_pos_range p) as [H1 _].
  destruct (Nat.le_gt_cases (List.length (bin_pos p)) k) as [|Hgt]; [assumption|].
  pose proof (p2_mono k (List.length (bin_pos p) - 1) ltac:(lia)). lia.
Qed.

Lemma p2_le_length p k : (p2 k <= Zpos p)%Z -> k + 1 <= List.length (bin_pos p).
Proof.
  intros H. pose proof (bin_pos_range p) as [_ H2].
  destruct (Nat.le_gt_cases (k + 1) (List.length (bin_pos p))) as [|Hgt]; [assumption|].
  pose proof (p2_mono (List.length (bin_pos p)) k ltac:(lia)). lia.
Qed.

Lemma testbit_pos_high p i :
  List.length (bin_pos p) <= i -> Z.testbit (Zpos p) (Z.of_nat i) = false.
Proof.
  intros H. apply Z.bits_above_log2; [lia|].
  apply Z.log2_lt_pow2; [lia|].
  pose proof (bin_pos_range p) as [_ H2].
  pose proof (p2_mono _ _ H). unfold p2 in *. lia.
Qed.

Lemma binary_repr_length num width : width <= List.length (binary_repr num width).
Proof.
  destruct num as [|p|p]; cbn [binary_repr].
  - rewrite repeat_length. destruct (width =? 0) eqn:E; [apply Nat.eqb_eq in E|]; lia.
  - rewrite length_app, repeat_length. lia.
  - rewrite length_app, repeat_length. lia.
Qed.

(** Digit [i] of [binary_repr num width], counted from the right, is bit [i]
    of [num] in two's complement. *)
Lemma binary_repr_bits num width i :
  i < List.length (binary_repr num width) ->
  nth_error (rev (binary_repr num width)) i = Some (digit (Z.testbit num (Z.of_nat i))).
Proof.
  destruct num as [|p|p]; cbn [binary_repr]; intros Hi.
  - rewrite rev_repeat, nth_error_repeat. rewrite repeat_length in Hi.
    apply Nat.ltb_lt in Hi. rewrite Hi, Z.testbit_0_l. reflexivity.
  - rewrite rev_app_distr, rev_repeat.
    rewrite length_app, repeat_length in Hi.
    destruct (Nat.lt_ge_cases i (List.length (bin_pos p))) as [Hlt|Hge].
    + rewrite nth_error_app1 by (rewrite length_rev; lia).
      rewrite bin_pos_bits. apply Nat.ltb_lt in Hlt. now rewrite Hlt.
    + rewrite nth_error_app2 by (rewrite length_rev; lia).
      rewrite length_rev, nth_error_repeat.
      replace (i - _ <? _) with true by (symmetry; apply Nat.ltb_lt; lia).
      now rewrite testbit_pos_high.
  - set (len := List.length (bin_pos p)) in *.
    set (pw := if (2 ^ Z.of_nat (len - 1) =? Z.pos p)%Z then len - 1 else len) in *.
    set (tc := (2 ^ Z.of_nat (pw + 1) + Z.neg p)%Z) in *.
    pose proof (bin_pos_range p) as [Hlo Hhi]. fold len in Hlo, Hhi.
    pose proof (bin_pos_length_pos p) as Hlen. fold len in Hlen.
    assert (Hq : (Zpos p <= p2 pw)%Z).
    { subst pw. destruct (Z.eqb_spec (2 ^ Z.of_nat (len - 1)) (Z.pos p)) as [E|E].
      - unfold p2. lia.
      - lia. }
    assert (Hpw : p2 (pw + 1) = (2 * p2 pw)%Z).
    { replace (pw + 1) with (S pw) by lia. apply p2_S. }
    assert (Htc : (p2 pw <= tc < p2 (pw + 1))%Z).
    { subst tc. fold (p2 (pw + 1)). rewrite Hpw. pose proof (p2_pos pw). lia. }
    destruct tc as [|t|t] eqn:Etc; try (pose proof (p2_pos pw); lia).
    cbn [bin] in *.
    assert (Hlt : List.length (bin_pos t) = pw + 1).
    { apply Nat.le_antisymm; [apply p2_lt_length|apply p2_le_length]; lia. }
    rewrite rev_app_distr, rev_repeat.
    rewrite length_app, repeat_length in Hi.
    destruct (Nat.lt_ge_cases i (pw + 1)) as [Hlow|Hhigh].
    + rewrite nth_error_app1 by (rewrite length_rev; lia).
      rewrite bin_pos_bits. rewrite Hlt.
      replace (i <? pw + 1) with true by (symmetry; apply Nat.ltb_lt; lia).
      do 2 f_equal.
      rewrite <- (Z.mod_pow2_bits_low (Z.pos t) (Z.of_nat (pw + 1))) by lia.
      rewrite <- (Z.mod_pow2_bits_low (Z.neg p) (Z.of_nat (pw + 1))) by lia.
      f_equal. rewrite <- Etc. subst tc.
      rewrite Z.add_comm.
      rewrite <- (Z.mul_1_l (2 ^ Z.of_nat (pw + 1))) at 1.
      apply Z.mod_add. pose proof (p2_pos (pw + 1)). unfold p2 in *. lia.
    + rewrite nth_error_app2 by (rewrite length_rev; lia).
      rewrite length_rev, nth_error_repeat, Hlt.
      replace (i - (pw + 1) <? _) with true by (symmetry; apply Nat.ltb_lt; lia).
      assert (Hb : Z.testbit (Z.neg p) (Z.of_nat i) = true).
      { apply Z.bits_above_log2_neg; [lia|].
        destruct (Z.eq_dec (Z.pos p) 1) as [E1|E1].
        - rewrite <- Pos2Z.opp_pos, E1. cbn. lia.
        - apply Z.log2_lt_pow2; [lia|].
          pose proof (p2_mono pw i ltac:(lia)). unfold p2 in *. lia. }
      now rewrite Hb.
Qed.

Lemma chr_eq_digit s i b :
  nth_error s i = Some (digit b) ->
  chr_eq s i "1" = b /\ chr_eq s i "0" = negb b.
Proof. intros H. unfold chr_eq. rewrite H. destruct b; split; reflexivity. Qed.

Lemma nth_error_rev_skipn1 {A} (l : list A) i :
  i < List.length l - 1 -> nth_error (rev (skipn 1 l)) i = nth_error (rev l) i.
Proof.
  intros Hi. destruct l as [|x l]; [reflexivity|].
  cbn [skipn rev]. cbn [List.length] in Hi.
  rewrite nth_error_app1 by (rewrite length_rev; lia). reflexivity.
Qed.

(** The digit string built by [c_adder_hrs2]. *)
Lemma adder_digits n c i :
  i < n ->
  nth_error (rev (skipn 1 (binary_repr c (n + 1)))) i
  = Some (digit (Z.testbit c (Z.of_nat i))).
Proof.
  intros Hi. pose proof (binary_repr_length c (n + 1)) as Hl.
  rewrite nth_error_rev_skipn1 by lia.
  apply binary_repr_bits. lia.
Qed.

(** The digit string built by the comparators. *)
Lemma comp_digits n value i :
  i <= n ->
  nth_error (rev (binary_repr (0 - value) (n + 1))) i
  = Some (digit (Z.testbit (- value) (Z.of_nat i))).
Proof.
  intros Hi. pose proof (binary_repr_length (0 - value) (n + 1)) as Hl.
  rewrite binary_repr_bits by lia. reflexivity.
Qed.

(** * Building blocks of the divide-and-conquer adder *)

Lemma append_upd sub qargs out (f : bstate -> bool) s :
  gates_in (List.length qargs) sub -> NoDup qargs -> out < List.length qargs ->
  (forall t, beq (exec sub t) (upd t out (f t))) ->
  beq (exec (append sub qargs) s) (upd s (wire qargs out) (f (gather qargs s))).
Proof.
  intros Hg Hnd Hout Hspec.
  eapply beq_trans; [apply exec_append; assumption|].
  eapply beq_trans; [apply scatter_ext; [intros; apply Hspec|apply beq_refl]|].
  eapply beq_trans; [apply scatter_upd; assumption|].
  apply upd_ext, scatter_gather.
Qed.

Lemma gates_on_app P gs1 gs2 : gates_on P (gs1 ++ gs2) <-> gates_on P gs1 /\ gates_on P gs2.
Proof. apply Forall_app. Qed.

Lemma gates_on_append P k sub qargs :
  gates_in k sub -> List.length qargs = k -> Forall P qargs -> gates_on P (append sub qargs).
Proof.
  intros Hs Hl Hq. unfold append, gates_on. rewrite Forall_map.
  eapply Forall_impl; [|exact Hs]. intros g Hg.
  unfold gate_in in Hg. rewrite gate_qubits_remap, Forall_map.
  eapply Forall_impl; [|exact Hg]. cbv beta. intros j Hj.
  rewrite Forall_forall in Hq. apply Hq. unfold wire. apply nth_In. lia.
Qed.

Lemma gates_on_impl (P Q : nat -> Prop) gs :
  (forall q, P q -> Q q) -> gates_on P gs -> gates_on Q gs.
Proof.
  intros H Hg. eapply Forall_impl; [|exact Hg].
  intros g Hq. eapply Forall_impl; [|exact Hq]. auto.
Qed.

Lemma gates_on_in k gs : gates_on (fun q => q < k) gs <-> gates_in k gs.
Proof. reflexivity. Qed.

(** ** Slices of registers *)

Lemma In_firstn {A} (x : A) n l : In x (firstn n l) -> In x l.
Proof.
  revert l; induction n as [|n IH]; intros [|y l] H; cbn [firstn] in H; try contradiction.
  destruct H as [->|H]; [now left|right; auto].
Qed.

Lemma In_skipn {A} (x : A) n l : In x (skipn n l) -> In x l.
Proof.
  revert l; induction n as [|n IH]; intros [|y l] H; cbn [skipn] in H; auto.
  right. auto.
Qed.

Lemma NoDup_firstn_skipn {A} n (l : list A) :
  NoDup l -> NoDup (firstn n l) /\ NoDup (skipn n l).
Proof.
  intros H. rewrite <- (firstn_skipn n l) in H.
  split; [eapply NoDup_app_remove_r|eapply NoDup_app_remove_l]; eauto.
Qed.

(** ** Carries and sums *)

Lemma carry_div a b n : Z.b2z (carry a b n) = ((val a n + val b n) / p2 n)%Z.
Proof.
  rewrite val_sum_carry. pose proof (val_bound (sum_bit a b) n) as Hb.
  pose proof (p2_pos n).
  rewrite Z.div_add by lia. rewrite Z.div_small by lia. lia.
Qed.

Lemma carry_ext a1 b1 a2 b2 n :
  (forall i, i < n -> a1 i = a2 i) -> (forall i, i < n -> b1 i = b2 i) ->
  carry a1 b1 n = carry a2 b2 n.
Proof.
  induction n as [|n IH]; intros Ha Hb; cbn [carry]; [reflexivity|].
  rewrite IH, Ha, Hb by (intros; auto). reflexivity.
Qed.

Lemma reg_val_nth s qs : reg_val s qs = val (fun i => s (nth i qs 0)) (List.length qs).
Proof.
  rewrite <- (map_wire_seq_all qs) at 1.
  rewrite <- reg_val_gather. rewrite reg_val_seq. apply val_ext.
  intros i Hi. reflexivity.
Qed.

Lemma val_testbit f c n :
  (forall i, i < n -> f i = Z.testbit c (Z.of_nat i)) -> val f n = (c mod p2 n)%Z.
Proof.
  induction n as [|n IH]; intros H; cbn [val].
  - rewrite p2_0. now rewrite Z.mod_1_r.
  - rewrite IH by (intros; apply H; lia). rewrite H by lia.
    rewrite p2_S, (Z.mul_comm 2). pose proof (p2_pos n).
    rewrite Z.rem_mul_r by lia. rewrite Z.testbit_spec' by lia.
    fold (p2 n). lia.
Qed.

Lemma val_app_shift f n m :
  val f (n + m) = (val f n + p2 n * val (fun i => f (n + i)%nat) m)%Z.
Proof.
  induction m as [|m IH].
  - rewrite Nat.add_0_r. cbn [val]. lia.
  - replace (n + S m) with (S (n + m)) by lia. cbn [val].
    rewrite IH, p2_add. lia.
Qed.

(** ** Conditional complement of a register *)

Lemma exec_cx_fan c qs : forall s,
  ~ In c qs -> NoDup qs ->
  beq (exec (map (fun bit => GCX c bit) qs) s)
      (if s c then set_reg qs (p2 (List.length qs) - 1 - reg_val s qs) s else s).
Proof.
  intros s Hc Hnd.
  assert (Hout : forall l st w, ~ In w l ->
            exec (map (fun bit => GCX c bit) l) st w = st w).
  { induction l as [|q r IH]; intros st w Hw; cbn [map exec exec1]; [reflexivity|].
    rewrite IH by (intros H; apply Hw; now right).
    apply upd_neq. intros ->. apply Hw. now left. }
  destruct (s c) eqn:Ec.
  - apply set_reg_intro; [assumption| |].
    + intros w Hw. now apply Hout.
    + rewrite Z.mod_small by (pose proof (reg_val_bound s qs); lia).
      clear Hout. revert s Ec.
      induction qs as [|q r IH]; intros s Ec; cbn [map exec exec1 reg_val List.length].
      * rewrite p2_0. lia.
      * inversion Hnd; subst.
        assert (Hcq : c <> q) by (intros ->; apply Hc; now left).
        assert (Hcr : ~ In c r) by (intros H; apply Hc; now right).
        assert (Hq : exec (map (fun bit => GCX c bit) r)
                       (upd s q (xorb (s q) (s c))) q = negb (s q)).
        { clear IH. generalize (upd_eq s q (xorb (s q) (s c))).
          generalize (upd s q (xorb (s q) (s c))). intros st Hst.
          assert (Hst' : forall l st0, ~ In q l ->
                    exec (map (fun bit => GCX c bit) l) st0 q = st0 q).
          { induction l as [|x l IHl]; intros st0 Hx; cbn [map exec exec1]; [reflexivity|].
            rewrite IHl by (intros H; apply Hx; now right).
            apply upd_neq. intros ->. apply Hx. now left. }
          rewrite Hst' by assumption. rewrite Hst, Ec. now destruct (s q). }
        rewrite Hq.
        rewrite IH; auto.
        2:{ rewrite upd_neq by assumption. exact Ec. }
        rewrite (reg_val_ext r (upd s q (xorb (s q) (s c))) s).
        2:{ intros w Hw. apply upd_neq. intros ->. contradiction. }
        rewrite p2_S. destruct (s q); cbn [negb Z.b2z]; lia.
  - intros w. clear Hout. revert s Ec.
    induction qs as [|q r IH]; intros s Ec; cbn [map exec exec1]; [reflexivity|].
    inversion Hnd; subst.
    assert (Hcq : c <> q) by (intros ->; apply Hc; now left).
    rewrite IH; auto.
    + rewrite Ec, xorb_false_r. unfold upd. destruct (Nat.eqb_spec w q); subst; reflexivity.
    + intros H; apply Hc; now right.
    + rewrite upd_neq by assumption. exact Ec.
Qed.

(** * The divide-and-conquer adder *)

(** The incrementer wired to a control, a register and borrowed qubits. *)
Lemma cinc_append nh ctl xs bs s :
  List.length xs = nh -> List.length bs = nh + 1 -> NoDup ([ctl] ++ xs ++ bs) ->
  beq (exec (append (data (cinc nh)) ([ctl] ++ xs ++ bs)) s)
      (set_reg xs (reg_val s xs + Z.b2z (s ctl)) s).
Proof.
  intros Hx Hb Hnd.
  assert (Hlen : List.length ([ctl] ++ xs ++ bs) = 1 + nh + (nh + 1)).
  { rewrite !length_app, Hx, Hb. reflexivity. }
  eapply beq_trans.
  { apply (append_set_reg _ _ (seq 1 nh)
             (fun t => (reg_val t (seq 1 nh) + Z.b2z (t 0%nat))%Z)).
    - rewrite Hlen. apply cinc_gates_in.
    - assumption.
    - apply Forall_forall. intros j Hj. apply in_seq in Hj. rewrite Hlen. lia.
    - intros t. apply cinc_spec. }
  cbv beta. rewrite reg_val_gather.
  assert (E : map (wire ([ctl] ++ xs ++ bs)) (seq 1 nh) = xs).
  { change (seq 1 nh) with (seq (List.length [ctl] + 0) nh).
    rewrite map_wire_seq_app_r, map_wire_seq_app_l by lia.
    rewrite <- Hx. apply map_wire_seq_all. }
  rewrite E. apply beq_refl.
Qed.

Lemma nth_middle_app {A} (l1 l2 : list A) x d : nth (List.length l1) (l1 ++ x :: l2) d = x.
Proof. rewrite app_nth2 by lia. now rewrite Nat.sub_diag. Qed.

(** The controlled carry gate wired to a control, a register, an output
    qubit and borrowed qubits. *)
Lemma c_carry_append m kstr ctl xs o gsb circ s :
  3 <= m -> List.length xs = m - 1 -> List.length gsb = m - 2 ->
  NoDup ([ctl] ++ xs ++ [o] ++ gsb) ->
  c_carry_gate m kstr = Ok circ ->
  chr_eq kstr 0 "0" = negb (str_bit kstr 0) ->
  beq (exec (append (data circ) ([ctl] ++ xs ++ [o] ++ gsb)) s)
      (upd s o (xorb (s o)
         (s ctl && xorb (carry (fun i => s (nth i xs 0)) (str_bit kstr) (m - 1))
                        (str_bit kstr (m - 1))))).
Proof.
  intros Hm Hx Hg Hnd Hc Hz.
  destruct (c_carry_gate_spec m kstr Hm Hz) as [circ' [Hc' [Hin Hspec]]].
  rewrite Hc in Hc'. injection Hc' as <-.
  assert (Hlen : List.length ([ctl] ++ xs ++ [o] ++ gsb) = 1 + m + (m - 2)).
  { rewrite !length_app, Hx, Hg. cbn [List.length]. lia. }
  eapply beq_trans.
  { apply (append_upd _ _ m
             (fun t => xorb (t m)
                (t 0 && xorb (carry (fun i => t (1 + i)) (str_bit kstr) (m - 1))
                             (str_bit kstr (m - 1))))).
    - now rewrite Hlen.
    - assumption.
    - rewrite Hlen. lia.
    - exact Hspec. }
  assert (Ew : wire ([ctl] ++ xs ++ [o] ++ gsb) m = o).
  { unfold wire. cbn [app]. replace m with (S (List.length xs)) by lia.
    cbn [nth]. apply nth_middle_app. }
  rewrite Ew. unfold gather at 1 2. rewrite Ew.
  replace (wire ([ctl] ++ xs ++ [o] ++ gsb) 0) with ctl by reflexivity.
  rewrite (carry_ext (fun i => gather ([ctl] ++ xs ++ [o] ++ gsb) s (1 + i))
             (str_bit kstr) (fun i => s (nth i xs 0)) (str_bit kstr)); [apply beq_refl| |auto].
  intros i Hi. unfold gather, wire. cbn [app Nat.add nth].
  rewrite app_nth1 by lia. reflexivity.
Qed.

Lemma mod_cases a M :
  (0 <= a < 2 * M)%Z ->
  (a < M /\ a mod M = a)%Z \/ (M <= a /\ a mod M = a - M)%Z.
Proof.
  intros H. destruct (Z_lt_ge_dec a M) as [Hlt|Hge].
  - left. split; [assumption|]. apply Z.mod_small. lia.
  - right. split; [lia|].
    replace a with ((a - M) + 1 * M)%Z at 1 by lia.
    rewrite Z.mod_add by lia. apply Z.mod_small. lia.
Qed.

Lemma dnc_block_arith M H (g y : bool) :
  (0 <= H < M)%Z ->
  let H1 := ((H + Z.b2z g) mod M)%Z in
  let H2 := (if g then M - 1 - H1 else H1)%Z in
  let H4 := ((H2 + Z.b2z (xorb g y)) mod M)%Z in
  ((if g then M - 1 - H4 else H4) = (H + Z.b2z y) mod M)%Z.
Proof.
  intros HH H1 H2 H4.
  destruct (mod_cases (H + Z.b2z g) M) as [[A1 A2]|[A1 A2]];
    [destruct g; cbn [Z.b2z]; lia| |];
  destruct (mod_cases (H + Z.b2z y) M) as [[B1 B2]|[B1 B2]];
    try (destruct y; cbn [Z.b2z]; lia);
  rewrite B2; subst H4 H2 H1; rewrite A2;
  destruct g, y; cbn [Z.b2z xorb] in *;
  match goal with
  | |- context [(?a mod M)%Z] =>
      destruct (mod_cases a M) as [[C1 C2]|[C1 C2]]; [lia| |]; rewrite ?C2; lia
  end.
Qed.

Lemma set_reg_facts qs v s s' :
  NoDup qs -> beq s' (set_reg qs v s) ->
  (forall w, ~ In w qs -> s' w = s w) /\ reg_val s' qs = (v mod p2 (List.length qs))%Z.
Proof. apply set_reg_elim. Qed.

Lemma str_bit_firstn_app k nl i :
  i < nl -> nl <= List.length k ->
  str_bit (firstn nl k ++ ["0"%char]) i = str_bit k i.
Proof.
  intros Hi Hl. unfold str_bit, chr_eq.
  rewrite nth_error_app1 by (rewrite length_firstn; lia).
  rewrite nth_error_firstn.
  replace (i <? nl) with true by (symmetry; apply Nat.ltb_lt; lia). reflexivity.
Qed.

Lemma str_bit_firstn_app_top k nl :
  nl <= List.length k -> str_bit (firstn nl k ++ ["0"%char]) nl = false.
Proof.
  intros Hl. unfold str_bit, chr_eq.
  rewrite nth_error_app2 by (rewrite length_firstn; lia).
  rewrite length_firstn. replace (nl - Nat.min nl (List.length k)) with 0 by lia.
  reflexivity.
Qed.

Section Block.
Variables xl xh : list nat.
Variables o_b ctrl extra : nat.
Variable k : str.
Variable cgate : QuantumCircuit.

Let nl := List.length xl.
Let nh := List.length xh.
Let K := str_bit k.
Let bfi := if nl <? nh + 1 then xl ++ [extra] else xl.
Let inc := append (data (cinc nh)) ([o_b] ++ xh ++ bfi).
Let flips := map (fun bit => GCX o_b bit) xh.
Let cq := [ctrl] ++ xl ++ [o_b] ++ firstn (nl - 1) xh.
Let car := append (data cgate) cq.

Hypothesis Hnl : 2 <= nl.
Hypothesis Hnh1 : nl - 1 <= nh.
Hypothesis Hnh2 : nh <= nl.
Hypothesis Hnd : NoDup (ctrl :: o_b :: extra :: xl ++ xh).
Hypothesis Hk : nl <= List.length k.
Hypothesis Hz : chr_eq k 0 "0" = negb (K 0).
Hypothesis Hgate : c_carry_gate (nl + 1) (firstn nl k ++ ["0"%char]) = Ok cgate.

Lemma block_nodup_facts :
  NoDup xl /\ NoDup xh /\ ~ In o_b xh /\ ~ In o_b xl /\ ~ In ctrl xh /\ ~ In ctrl xl /\
  ctrl <> o_b /\ (forall w, In w xl -> ~ In w xh) /\
  NoDup ([o_b] ++ xh ++ bfi) /\ NoDup cq.
Proof.
  inversion Hnd as [|? ? Hc Hnd1]; subst.
  inversion Hnd1 as [|? ? Ho Hnd2]; subst.
  inversion Hnd2 as [|? ? He Hnd3]; subst.
  apply NoDup_app_remove_l in Hnd3 as Hndh.
  apply NoDup_app_remove_r in Hnd3 as Hndl.
  assert (Hdisj : forall w, In w xl -> ~ In w xh).
  { intros w Hwl Hwh. clear - Hnd3 Hwl Hwh.
    induction xl as [|x l IH]; [contradiction|].
    inversion Hnd3; subst. destruct Hwl as [->|Hwl].
    - apply H1. apply in_or_app. now right.
    - now apply IH. }
  repeat split; auto.
  - intros H. apply Ho. right. apply in_or_app. now right.
  - intros H. apply Ho. right. apply in_or_app. now left.
  - intros H. apply Hc. right. right. apply in_or_app. now right.
  - intros H. apply Hc. right. right. apply in_or_app. now left.
  - intros ->. apply Hc. now left.
  - cbn [app]. constructor.
    + intros H. apply in_app_or in H as [H|H].
      * apply Ho. right. apply in_or_app. now right.
      * subst bfi. destruct (nl <? nh + 1).
        -- apply in_app_or in H as [H|[H|[]]].
           ++ apply Ho. right. apply in_or_app. now left.
           ++ apply Ho. now left.
        -- apply Ho. right. apply in_or_app. now left.
    + apply NoDup_app; auto.
      * subst bfi. destruct (nl <? nh + 1); [|assumption].
        apply NoDup_app; auto.
        -- repeat constructor. intros [].
        -- intros x Hx [<-|[]]. apply He. apply in_or_app. now left.
      * intros x Hh Hb. subst bfi. destruct (nl <? nh + 1).
        -- apply in_app_or in Hb as [Hb|[<-|[]]].
           ++ now apply (Hdisj x).
           ++ apply He. apply in_or_app. now right.
        -- now apply (Hdisj x).
  - subst cq. cbn [app]. constructor.
    + intros H. apply in_app_or in H as [H|[H|H]].
      * apply Hc. right. right. apply in_or_app. now left.
      * apply Hc. subst. now left.
      * apply Hc. right. right. apply in_or_app. right. eapply In_firstn; eauto.
    + apply NoDup_app; auto.
      * constructor.
        -- intros H. apply Ho. right. apply in_or_app. right. eapply In_firstn; eauto.
        -- now apply NoDup_firstn_skipn.
      * intros x Hx [<-|H].
        -- apply Ho. right. apply in_or_app. now left.
        -- apply (Hdisj x); auto. eapply In_firstn; eauto.
Qed.

(** Increment, complement, carry, increment, carry, complement: the high
    half receives the carry out of the low half, under the control, and the
    toggle qubit and all borrowed qubits are restored. *)
Lemma dnc_block s :
  beq (exec (inc ++ flips ++ car ++ inc ++ car ++ flips) s)
      (set_reg xh (reg_val s xh
         + (if s ctrl then (reg_val s xl + val K nl) / p2 nl else 0)) s).
Proof.
  destruct block_nodup_facts as
    [Hndl [Hndh [Hoh [Hol [Hch [Hcl [Hco [Hdisj [Hndi Hndc]]]]]]]]].
  assert (Hbfi : List.length bfi = nh + 1).
  { subst bfi. destruct (Nat.ltb_spec nl (nh + 1)).
    - rewrite length_app. cbn [List.length]. fold nl. lia.
    - fold nl. lia. }
  assert (Hinc : forall t, beq (exec inc t) (set_reg xh (reg_val t xh + Z.b2z (t o_b)) t)).
  { intros t. subst inc. apply cinc_append; auto. }
  assert (Hfl : forall t, beq (exec flips t)
            (if t o_b then set_reg xh (p2 nh - 1 - reg_val t xh) t else t)).
  { intros t. subst flips. apply exec_cx_fan; auto. }
  set (cy := fun t : bstate => carry (fun i => t (nth i xl 0)) K nl).
  assert (Hcar : forall t, beq (exec car t) (upd t o_b (xorb (t o_b) (t ctrl && cy t)))).
  { intros t. subst car cq.
    eapply beq_trans.
    { apply (c_carry_append (nl + 1) (firstn nl k ++ ["0"%char]) ctrl xl o_b
               (firstn (nl - 1) xh) cgate t); auto; try lia.
      - rewrite length_firstn. fold nh. lia.
      - unfold str_bit at 1. unfold chr_eq.
        rewrite !nth_error_app1 by (rewrite length_firstn; lia).
        rewrite !nth_error_firstn.
        replace (0 <? nl) with true by (symmetry; apply Nat.ltb_lt; lia).
        exact Hz. }
    replace (nl + 1 - 1) with nl by lia.
    rewrite str_bit_firstn_app_top by assumption. rewrite xorb_false_r.
    subst cy. cbv beta.
    rewrite (carry_ext (fun i => t (nth i xl 0)) (str_bit (firstn nl k ++ ["0"%char]))
               (fun i => t (nth i xl 0)) K nl); auto using beq_refl.
    intros i Hi. now apply str_bit_firstn_app. }
  (* the carry only depends on the low half *)
  assert (Hcy : forall t1 t2, (forall w, In w xl -> t1 w = t2 w) -> cy t1 = cy t2).
  { intros t1 t2 H. subst cy. apply carry_ext; auto.
    intros i Hi. apply H. apply nth_In. fold nl. lia. }
  replace (inc ++ flips ++ car ++ inc ++ car ++ flips)
    with (inc ++ flips ++ car ++ inc ++ car ++ flips ++ []) by (now rewrite app_nil_r).
  rewrite !exec_app. cbn [exec].
  set (s1 := exec inc s).
  set (s2 := exec flips s1).
  set (s3 := exec car s2).
  set (s4 := exec inc s3).
  set (s5 := exec car s4).
  set (s6 := exec flips s5).
  set (g := s o_b). set (c := s ctrl).
  set (H := reg_val s xh). set (M := p2 nh).
  assert (HM : (0 <= H < M)%Z) by apply reg_val_bound.
  destruct (set_reg_facts xh _ s s1 Hndh (Hinc s)) as [F1 V1]. fold nh M g H in V1.
  assert (O1 : s1 o_b = g) by (apply F1; assumption).
  (* complement *)
  assert (F2 : forall w, ~ In w xh -> s2 w = s1 w).
  { intros w Hw. subst s2. rewrite (Hfl s1 w). destruct (s1 o_b); [|reflexivity].
    now apply set_reg_out. }
  assert (V2 : reg_val s2 xh = (if g then M - 1 - (H + Z.b2z g) mod M
                                else (H + Z.b2z g) mod M)%Z).
  { subst s2. rewrite (reg_val_ext xh _ _ (fun w _ => Hfl s1 w)). rewrite O1.
    destruct g; [|assumption].
    rewrite reg_val_set_reg by assumption. fold nh M. rewrite V1.
    apply Z.mod_small.
    pose proof (Z.mod_pos_bound (H + 1) M ltac:(lia)). cbn [Z.b2z]. lia. }
  (* first carry *)
  assert (F3 : forall w, w <> o_b -> s3 w = s2 w).
  { intros w Hw. subst s3. rewrite (Hcar s2 w). now apply upd_neq. }
  assert (L2 : forall w, In w xl -> s2 w = s w).
  { intros w Hw. rewrite F2, F1; auto; intros Hh; now apply (Hdisj w). }
  assert (O3 : s3 o_b = xorb g (c && cy s)).
  { subst s3. rewrite (Hcar s2 o_b), upd_eq.
    rewrite (F2 o_b), O1 by assumption.
    rewrite (F2 ctrl), (F1 ctrl) by assumption. fold c.
    rewrite (Hcy s2 s L2). reflexivity. }
  assert (V3 : reg_val s3 xh = reg_val s2 xh).
  { apply reg_val_frame. intros w Hw. apply F3. intros ->. contradiction. }
  (* second increment *)
  destruct (set_reg_facts xh _ s3 s4 Hndh (Hinc s3)) as [F4 V4]. fold nh M in V4.
  rewrite V3, V2, O3 in V4.
  assert (O4 : s4 o_b = xorb g (c && cy s)) by (rewrite F4, O3; auto).
  (* second carry *)
  assert (F5 : forall w, w <> o_b -> s5 w = s4 w).
  { intros w Hw. subst s5. rewrite (Hcar s4 w). now apply upd_neq. }
  assert (L4 : forall w, In w xl -> s4 w = s w).
  { intros w Hw.
    assert (~ In w xh) by (intros Hh; now apply (Hdisj w)).
    assert (w <> o_b) by (intros ->; contradiction).
    rewrite F4, F3, L2; auto. }
  assert (O5 : s5 o_b = g).
  { subst s5. rewrite (Hcar s4 o_b), upd_eq. rewrite O4.
    rewrite (F4 ctrl), (F3 ctrl), (F2 ctrl), (F1 ctrl) by auto. fold c.
    rewrite (Hcy s4 s L4). destruct g, c, (cy s); reflexivity. }
  assert (V5 : reg_val s5 xh = reg_val s4 xh).
  { apply reg_val_frame. intros w Hw. apply F5. intros ->. contradiction. }
  (* second complement *)
  assert (F6 : forall w, ~ In w xh -> s6 w = s5 w).
  { intros w Hw. subst s6. rewrite (Hfl s5 w). destruct (s5 o_b); [|reflexivity].
    now apply set_reg_out. }
  assert (V6 : reg_val s6 xh = ((H + Z.b2z (c && cy s)) mod M)%Z).
  { rewrite <- (dnc_block_arith M H g (c && cy s) HM).
    subst s6. rewrite (reg_val_ext xh _ _ (fun w _ => Hfl s5 w)). rewrite O5.
    destruct g.
    - rewrite reg_val_set_reg by assumption. fold nh M. rewrite V5, V4.
      apply Z.mod_small.
      match goal with |- context [(?a mod M)%Z] =>
        pose proof (Z.mod_pos_bound a M ltac:(lia)) end. lia.
    - rewrite V5, V4. reflexivity. }
  (* the carry as a quotient *)
  assert (Hq : Z.b2z (c && cy s)
               = (if c then (reg_val s xl + val K nl) / p2 nl else 0)%Z).
  { destruct c; cbn [andb]; [|reflexivity].
    subst cy. cbv beta. rewrite carry_div. f_equal. f_equal.
    symmetry. apply reg_val_nth. }
  apply set_reg_intro; [assumption| |].
  - intros w Hw. rewrite F6 by assumption.
    destruct (Nat.eq_dec w o_b) as [->|Hwo].
    + rewrite O5. reflexivity.
    + rewrite F5, F4, F3, F2, F1 by assumption. reflexivity.
  - fold nh M H c. rewrite V6, Hq. reflexivity.
Qed.
End Block.

Lemma gates_on_cons P g gs :
  Forall P (gate_qubits g) -> gates_on P gs -> gates_on P (g :: gs).
Proof. intros; now constructor. Qed.

Lemma split_mod_mul l h A B :
  (0 < A)%Z -> (0 < B)%Z ->
  ((l + A * h) mod (A * B) = l mod A + A * ((l / A + h) mod B))%Z.
Proof.
  intros HA HB. rewrite Z.rem_mul_r by lia.
  rewrite (Z.mul_comm A h), Z.mod_add, Z.div_add by lia. reflexivity.
Qed.

Lemma digits_length k n :
  (forall i, i < n -> exists b, nth_error k i = Some (digit b)) -> n <= List.length k.
Proof.
  intros H. destruct n as [|n]; [lia|].
  destruct (H n ltac:(lia)) as [b Hb].
  assert (nth_error k n <> None) by congruence.
  apply nth_error_Some in H0. lia.
Qed.

Lemma digits_zero k i b :
  nth_error k i = Some (digit b) -> chr_eq k i "0" = negb (str_bit k i).
Proof.
  intros H. unfold str_bit. destruct (chr_eq_digit k i b H) as [-> ->]. reflexivity.
Qed.

(** The base case on two qubits. *)
Lemma dnc_base2 x0 x1 ctrl k s :
  x0 <> x1 -> ctrl <> x0 -> ctrl <> x1 ->
  beq (exec ((if chr_eq k 0 "1" then [GCCX ctrl x0 x1] else [])
             ++ (if chr_eq k 0 "1" then [GCX ctrl x0] else [])
             ++ (if chr_eq k 1 "1" then [GCX ctrl x1] else [])) s)
      (set_reg [x0; x1]
         (reg_val s [x0; x1] + (if s ctrl then val (str_bit k) 2 else 0)) s).
Proof.
  intros H01 Hc0 Hc1.
  apply set_reg_intro.
  - repeat constructor; cbn [In]; intuition auto.
  - intros w Hw. cbn [In] in Hw.
    assert (w <> x0) by intuition auto. assert (w <> x1) by intuition auto.
    destruct (chr_eq k 0 "1"), (chr_eq k 1 "1"); cbn [app exec exec1];
      rewrite ?upd_neq by auto; reflexivity.
  - cbn [List.length val reg_val]. unfold str_bit.
    change (p2 2) with 4%Z. change (p2 1) with 2%Z. change (p2 0) with 1%Z.
    destruct (chr_eq k 0 "1"), (chr_eq k 1 "1"); cbn [app exec exec1];
      rewrite ?upd_eq; rewrite ?(upd_neq _ x1 _ x0) by auto;
      rewrite ?(upd_neq _ x0 _ x1) by auto;
      rewrite ?upd_eq; rewrite ?(upd_neq _ _ _ ctrl) by auto;
      rewrite ?upd_eq; rewrite ?(upd_neq _ x1 _ x0) by auto;
      rewrite ?(upd_neq _ x0 _ x1) by auto; rewrite ?upd_eq;
      rewrite ?(upd_neq _ _ _ ctrl) by auto;
      destruct (s ctrl), (s x0), (s x1); reflexivity.
Qed.

Lemma dnc_base1 x0 ctrl k s :
  ctrl <> x0 ->
  beq (exec (if chr_eq k 0 "1" then [GCX ctrl x0] else []) s)
      (set_reg [x0] (reg_val s [x0] + (if s ctrl then val (str_bit k) 1 else 0)) s).
Proof.
  intros Hc0. apply set_reg_intro.
  - repeat constructor. intros [].
  - intros w Hw. cbn [In] in Hw. assert (w <> x0) by intuition auto.
    destruct (chr_eq k 0 "1"); cbn [exec exec1]; rewrite ?upd_neq by auto; reflexivity.
  - cbn [List.length val reg_val]. unfold str_bit.
    change (p2 1) with 2%Z. change (p2 0) with 1%Z.
    destruct (chr_eq k 0 "1"); cbn [exec exec1]; rewrite ?upd_eq;
      destruct (s ctrl), (s x0); reflexivity.
Qed.

Ltac gates_on_tac :=
  repeat match goal with
    | |- gates_on _ (_ ++ _) => apply gates_on_app; split
    | |- gates_on _ [] => constructor
    | |- gates_on _ (_ :: _) =>
        apply gates_on_cons;
        [cbn [gate_qubits]; repeat (apply Forall_cons; [cbn [In]; auto 10|]); apply Forall_nil|]
    | |- gates_on _ (if ?b then _ else _) => destruct b
    end.

(** The recursive adder: under the control, the constant whose digits are
    [k] is added to the register modulo [2^n]; the toggle qubit and the
    extra borrowed qubit are restored. *)
Lemma dnc_spec : forall fuel n xreg o_b k ctrl extra,
  1 <= n -> n <= fuel -> List.length xreg = n ->
  NoDup (ctrl :: o_b :: extra :: xreg) ->
  (forall i, i < n -> exists b, nth_error k i = Some (digit b)) ->
  exists gs,
    c_divide_and_conquer_adder fuel n xreg o_b k ctrl extra = Ok gs /\
    gates_on (fun q => In q (ctrl :: o_b :: extra :: xreg)) gs /\
    forall s,
      beq (exec gs s)
          (set_reg xreg
             (reg_val s xreg + (if s ctrl then val (str_bit k) n else 0)) s).
Proof.
  induction fuel as [|f IH]; intros n xreg o_b k ctrl extra Hn Hf Hlen Hnd Hk; [lia|].
  cbn [c_divide_and_conquer_adder].
  assert (Hcx : ~ In ctrl xreg).
  { inversion Hnd; subst. intros H. apply H1. right. right. assumption. }
  assert (Hndx : NoDup xreg).
  { inversion Hnd as [|? ? _ H1]; subst. inversion H1 as [|? ? _ H2]; subst.
    now inversion H2. }
  destruct (Nat.eqb_spec n 2) as [E2|N2].
  - (* two qubits *)
    destruct xreg as [|x0 [|x1 [|? ?]]]; cbn [List.length] in Hlen; try lia.
    cbn [nth]. eexists. split; [reflexivity|].
    assert (H01 : x0 <> x1).
    { inversion Hndx; subst. intros ->. apply H1. now left. }
    assert (Hc0 : ctrl <> x0) by (intros ->; apply Hcx; now left).
    assert (Hc1 : ctrl <> x1) by (intros ->; apply Hcx; right; now left).
    split.
    + gates_on_tac.
    + intros s. rewrite E2. now apply dnc_base2.
  - destruct (Nat.eqb_spec n 1) as [E1|N1].
    + (* one qubit *)
      destruct xreg as [|x0 [|? ?]]; cbn [List.length] in Hlen; try lia.
      cbn [nth]. eexists. split; [reflexivity|].
      assert (Hc0 : ctrl <> x0) by (intros ->; apply Hcx; now left).
      split.
      * gates_on_tac.
      * intros s. rewrite E1. now apply dnc_base1.
    + (* the recursive case *)
      cbv zeta.
      set (nl := (n + 1) / 2).
      assert (Hnl : 2 <= nl /\ nl <= n - 1 /\ n - nl <= nl /\ nl - 1 <= n - nl).
      { subst nl. pose proof (Nat.div_mod_eq (n + 1) 2).
        pose proof (Nat.mod_upper_bound (n + 1) 2 ltac:(lia)). lia. }
      set (xl := firstn nl xreg). set (xh := skipn nl xreg).
      assert (Hxl : List.length xl = nl) by (subst xl; rewrite length_firstn; lia).
      assert (Hxh : List.length xh = n - nl) by (subst xh; rewrite length_skipn; lia).
      assert (Hx : xreg = xl ++ xh) by (subst xl xh; symmetry; apply firstn_skipn).
      pose proof (digits_length k n Hk) as Hkl.
      assert (Hz : chr_eq k 0 "0" = negb (str_bit k 0)).
      { destruct (Hk 0 ltac:(lia)) as [b Hb]. eapply digits_zero; eauto. }
      assert (Hz' : chr_eq (firstn nl k ++ ["0"%char]) 0 "0"
                    = negb (str_bit (firstn nl k ++ ["0"%char]) 0)).
      { unfold str_bit, chr_eq.
        rewrite !nth_error_app1 by (rewrite length_firstn; lia).
        rewrite !nth_error_firstn.
        replace (0 <? nl) with true by (symmetry; apply Nat.ltb_lt; lia).
        exact Hz. }
      destruct (c_carry_gate_spec (nl + 1) (firstn nl k ++ ["0"%char]) ltac:(lia) Hz')
        as [cgate [Hcg [Hcgin _]]].
      rewrite Hcg. cbn [bind].
      (* the two recursive calls *)
      assert (Hndl : NoDup (ctrl :: o_b :: extra :: xl)).
      { rewrite Hx in Hnd. clear - Hnd.
        change (ctrl :: o_b :: extra :: xl ++ xh)
          with ((ctrl :: o_b :: extra :: xl) ++ xh) in Hnd.
        eapply NoDup_app_remove_r; eauto. }
      assert (Hndh : NoDup (ctrl :: o_b :: extra :: xh)).
      { rewrite Hx in Hnd. clear - Hnd.
        inversion Hnd as [|? ? Hc H1]; subst. inversion H1 as [|? ? Ho H2]; subst.
        inversion H2 as [|? ? He H3]; subst.
        constructor; [|constructor; [|constructor]].
        - intros [E|[E|E]]; apply Hc; [now left|right; now left|].
          right. right. apply in_or_app. now right.
        - intros [E|E]; apply Ho; [now left|]. right. apply in_or_app. now right.
        - intros E. apply He. apply in_or_app. now right.
        - eapply NoDup_app_remove_l; eauto. }
      destruct (IH nl xl o_b (firstn nl k) ctrl extra) as [low [Hlow [Hlow_on Hlow_spec]]];
        try lia; auto.
      { intros i Hi. destruct (Hk i ltac:(lia)) as [b Hb]. exists b.
        rewrite nth_error_firstn.
        replace (i <? nl) with true by (symmetry; apply Nat.ltb_lt; lia). exact Hb. }
      assert (Hsl : slice xreg nl (nl + (n - nl)) = xh).
      { unfold slice. replace (nl + (n - nl) - nl) with (n - nl) by lia.
        fold xh. rewrite <- Hxh. apply firstn_all. }
      destruct (IH (n - nl) xh o_b (slice k nl (nl + (n - nl))) ctrl extra)
        as [high [Hhigh [Hhigh_on Hhigh_spec]]]; try lia; auto.
      { intros i Hi. destruct (Hk (nl + i) ltac:(lia)) as [b Hb]. exists b.
        unfold slice. rewrite nth_error_firstn.
        replace (i <? nl + (n - nl) - nl) with true by (symmetry; apply Nat.ltb_lt; lia).
        rewrite nth_error_skipn. exact Hb. }
      fold xl xh. rewrite Hlow. cbn [bind].
      rewrite Hsl, Hhigh. cbn [bind].
      eexists. split; [reflexivity|].
      assert (Hbfi : List.length (if List.length xl <? n - nl + 1
                                  then xl ++ [extra] else xl) = n - nl + 1).
      { rewrite Hxl. destruct (Nat.ltb_spec nl (n - nl + 1)).
        - rewrite length_app, Hxl. cbn [List.length]. lia.
        - lia. }
      assert (Hslb : slice xreg nl (nl + (nl - 1)) = firstn (nl - 1) xh).
      { unfold slice. replace (nl + (nl - 1) - nl) with (nl - 1) by lia. reflexivity. }
      rewrite Hslb.
      split.
      * (* the gates only touch the qubits they were given *)
        assert (Hsub : forall l, (forall q, In q l -> In q (ctrl :: o_b :: extra :: xreg)) ->
                  Forall (fun q => In q (ctrl :: o_b :: extra :: xreg)) l).
        { intros l H. now apply Forall_forall. }
        assert (Hinl : forall q, In q xl -> In q (ctrl :: o_b :: extra :: xreg)).
        { intros q Hq. right. right. right. rewrite Hx. apply in_or_app. now left. }
        assert (Hinh : forall q, In q xh -> In q (ctrl :: o_b :: extra :: xreg)).
        { intros q Hq. right. right. right. rewrite Hx. apply in_or_app. now right. }
        assert (Hinc : gates_on (fun q => In q (ctrl :: o_b :: extra :: xreg))
                  (append (data (cinc (n - nl)))
                     ([o_b] ++ xh ++ (if List.length xl <? n - nl + 1
                                      then xl ++ [extra] else xl)))).
        { apply gates_on_append with (k := 1 + (n - nl) + (n - nl + 1)).
          - apply cinc_gates_in.
          - rewrite !length_app, Hbfi, Hxh. reflexivity.
          - apply Hsub. intros q Hq. cbn [app] in Hq.
            destruct Hq as [<-|Hq]; [right; now left|].
            apply in_app_or in Hq as [Hq|Hq]; [now apply Hinh|].
            destruct (List.length xl <? n - nl + 1).
            + apply in_app_or in Hq as [Hq|[<-|[]]]; [now apply Hinl|].
              right. right. now left.
            + now apply Hinl. }
        assert (Hfl : gates_on (fun q => In q (ctrl :: o_b :: extra :: xreg))
                  (map (fun bit => GCX o_b bit) xh)).
        { unfold gates_on. rewrite Forall_map. apply Forall_forall. intros q Hq.
          cbn [gate_qubits]. apply Forall_cons; [right; now left|].
          apply Forall_cons; [now apply Hinh|]. apply Forall_nil. }
        assert (Hcar : gates_on (fun q => In q (ctrl :: o_b :: extra :: xreg))
                  (append (data cgate) ([ctrl] ++ xl ++ [o_b] ++ firstn (nl - 1) xh))).
        { apply gates_on_append with (k := 1 + (nl + 1) + (nl + 1 - 2)).
          - assumption.
          - rewrite !length_app, length_firstn, Hxl, Hxh. cbn [List.length]. lia.
          - apply Hsub. intros q Hq. cbn [app] in Hq.
            destruct Hq as [<-|Hq]; [now left|].
            apply in_app_or in Hq as [Hq|[<-|Hq]]; [now apply Hinl|right; now left|].
            apply Hinh. eapply In_firstn; eauto. }
        repeat (apply gates_on_app; split); auto.
        -- eapply gates_on_impl; [|exact Hlow_on]. cbn [In]. intros q Hq.
           destruct Hq as [?|[?|[?|Hq]]]; auto. now apply Hinl.
        -- eapply gates_on_impl; [|exact Hhigh_on]. cbn [In]. intros q Hq.
           destruct Hq as [?|[?|[?|Hq]]]; auto. now apply Hinh.
      * intros s.
        match goal with
        | |- beq (exec (?a ++ ?b ++ ?c ++ ?d ++ ?e ++ ?g ++ low ++ high) s) _ =>
            replace (a ++ b ++ c ++ d ++ e ++ g ++ low ++ high)
              with ((a ++ b ++ c ++ d ++ e ++ g) ++ low ++ high)
              by (rewrite <- !app_assoc; reflexivity);
            set (blk := a ++ b ++ c ++ d ++ e ++ g)
        end.
        rewrite !exec_app.
        set (s1 := exec blk s).
        set (s2 := exec low s1). set (s3 := exec high s2).
        destruct Hnl as [Hnl1 [Hnl2 [Hnl3 Hnl4]]].
        assert (HB : beq s1
                  (set_reg xh (reg_val s xh
                     + (if s ctrl then (reg_val s xl + val (str_bit k) nl) / p2 nl
                        else 0)) s)).
        { pose proof (dnc_block xl xh o_b ctrl extra k cgate) as HB.
          rewrite Hxl, Hxh in HB. subst s1 blk. rewrite Hxl. apply HB; auto; try lia.
          rewrite <- Hx. assumption. }
        assert (Hndxl : NoDup xl) by (apply (NoDup_firstn_skipn nl xreg Hndx)).
        assert (Hndxh : NoDup xh) by (apply (NoDup_firstn_skipn nl xreg Hndx)).
        assert (Hdisj : forall w, In w xl -> ~ In w xh).
        { intros w Hwl Hwh. rewrite Hx in Hndx. clear - Hndx Hwl Hwh.
          induction xl as [|x l IHl]; [contradiction|].
          inversion Hndx; subst. destruct Hwl as [->|Hwl].
          - apply H1. apply in_or_app. now right.
          - now apply IHl. }
        assert (Hcl : ~ In ctrl xl).
        { intros H. apply Hcx. rewrite Hx. apply in_or_app. now left. }
        assert (Hch : ~ In ctrl xh).
        { intros H. apply Hcx. rewrite Hx. apply in_or_app. now right. }
        destruct (set_reg_facts xh _ s s1 Hndxh HB) as [F1 V1].
        destruct (set_reg_facts xl _ s1 s2 Hndxl (Hlow_spec s1)) as [F2 V2].
        destruct (set_reg_facts xh _ s2 s3 Hndxh (Hhigh_spec s2)) as [F3 V3].
        rewrite Hxl in V2. rewrite Hxh in V1, V3.
        set (c := s ctrl) in *.
        assert (C1 : s1 ctrl = c) by (apply F1; assumption).
        assert (C2 : s2 ctrl = c) by (rewrite F2; assumption).
        rewrite C1 in V2. rewrite C2 in V3.
        assert (L1 : reg_val s1 xl = reg_val s xl).
        { apply reg_val_frame. intros w Hw. apply F1. now apply Hdisj. }
        assert (H2 : reg_val s2 xh = reg_val s1 xh).
        { apply reg_val_frame. intros w Hw. apply F2. intros Hl. now apply (Hdisj w). }
        assert (L3 : reg_val s3 xl = reg_val s2 xl).
        { apply reg_val_frame. intros w Hw. apply F3. now apply Hdisj. }
        rewrite L1 in V2. rewrite H2, V1 in V3.
        (* the digits of the two halves *)
        assert (Kl : val (str_bit (firstn nl k)) nl = val (str_bit k) nl).
        { apply val_ext. intros i Hi. unfold str_bit, chr_eq.
          rewrite nth_error_firstn.
          replace (i <? nl) with true by (symmetry; apply Nat.ltb_lt; lia). reflexivity. }
        assert (Kh : val (str_bit (slice k nl (nl + (n - nl)))) (n - nl)
                     = val (fun i => str_bit k (nl + i)) (n - nl)).
        { apply val_ext. intros i Hi. unfold str_bit, chr_eq, slice.
          rewrite nth_error_firstn.
          replace (i <? nl + (n - nl) - nl) with true by (symmetry; apply Nat.ltb_lt; lia).
          rewrite nth_error_skipn. reflexivity. }
        assert (Kn : val (str_bit k) n
                     = (val (str_bit k) nl
                        + p2 nl * val (fun i => str_bit k (nl + i)) (n - nl))%Z).
        { replace n with (nl + (n - nl)) at 1 by lia. apply val_app_shift. }
        rewrite Kl in V2. rewrite Kh in V3.
        set (kl := val (str_bit k) nl) in *.
        set (kh := val (fun i => str_bit k (nl + i)) (n - nl)) in *.
        set (L := reg_val s xl) in *. set (H := reg_val s xh) in *.
        assert (HL : (0 <= L < p2 nl)%Z).
        { pose proof (reg_val_bound s xl) as Hb. now rewrite Hxl in Hb. }
        pose proof (p2_pos nl) as HA. pose proof (p2_pos (n - nl)) as HBp.
        apply set_reg_intro; [assumption| |].
        -- intros w Hw.
           assert (Hwl : ~ In w xl)
             by (intros Hin; apply Hw; rewrite Hx; apply in_or_app; now left).
           assert (Hwh : ~ In w xh)
             by (intros Hin; apply Hw; rewrite Hx; apply in_or_app; now right).
           subst s3 s2. rewrite F3, F2, F1 by assumption. reflexivity.
        -- rewrite Hlen.
           assert (RX : forall st, reg_val st xreg
                          = (reg_val st xl + p2 nl * reg_val st xh)%Z).
           { intros st. rewrite <- Hxl, <- reg_val_app, <- Hx. reflexivity. }
           rewrite !RX. fold L H.
           rewrite L3, V2, V3, Kn.
           replace (p2 n) with (p2 nl * p2 (n - nl))%Z
             by (rewrite <- p2_add; f_equal; lia).
           destruct c.
           ++ replace (L + p2 nl * H + (kl + p2 nl * kh))%Z
                with ((L + kl) + p2 nl * (H + kh))%Z by lia.
              rewrite split_mod_mul by lia.
              f_equal. f_equal. rewrite Zplus_mod_idemp_l. f_equal. lia.
           ++ rewrite !Z.add_0_r.
              rewrite split_mod_mul by lia.
              rewrite (Z.div_small L) by lia.
              f_equal. f_equal. rewrite Z.mod_mod by lia. reflexivity.
Qed.

(** * The controlled constant adder *)

Lemma set_reg_cong qs v1 v2 s :
  (v1 mod p2 (List.length qs) = v2 mod p2 (List.length qs))%Z ->
  beq (set_reg qs v1 s) (set_reg qs v2 s).
Proof.
  intros H. eapply beq_trans; [apply beq_sym, set_reg_mod|].
  rewrite H. apply set_reg_mod.
Qed.

Lemma c_adder_hrs2_spec n c :
  1 <= n ->
  exists circ,
    c_adder_hrs2 n c = Ok circ /\
    gates_in (1 + n + 2) (data circ) /\
    forall s,
      beq (exec (data circ) s)
          (set_reg (seq 1 n) (reg_val s (seq 1 n) + (if s 0 then c else 0)) s).
Proof.
  intros Hn. unfold c_adder_hrs2.
  change (seq (1 + n) 2) with [S n; S (S n)]. cbn [nth].
  set (k := rev (skipn 1 (binary_repr c (n + 1)))).
  destruct (dnc_spec (S n) n (seq 1 n) (S n) k 0 (S (S n))) as [gs [Hgs [Hon Hspec]]];
    try lia.
  - apply length_seq.
  - constructor; [cbn [In]; rewrite in_seq; lia|].
    constructor; [cbn [In]; rewrite in_seq; lia|].
    constructor; [rewrite in_seq; lia|]. apply seq_NoDup.
  - intros i Hi. eexists. subst k. apply adder_digits. exact Hi.
  - rewrite Hgs. cbn [bind]. eexists. split; [reflexivity|]. cbn [data]. split.
    + apply gates_on_in. eapply gates_on_impl; [|exact Hon].
      cbn [In]. intros q [<-|[<-|[<-|Hq]]]; try lia. apply in_seq in Hq. lia.
    + intros s. eapply beq_trans; [apply Hspec|].
      apply set_reg_cong. rewrite length_seq.
      destruct (s 0); [|reflexivity].
      rewrite (val_testbit (str_bit k) c n).
      * now rewrite Zplus_mod_idemp_r.
      * intros i Hi. subst k. unfold str_bit.
        destruct (chr_eq_digit _ _ _ (adder_digits n c i Hi)) as [E _]. exact E.
Qed.

(** The adder wired to a control, a register and two borrowed qubits. *)
Lemma c_adder_hrs2_append n c circ ctl xs b0 b1 s :
  1 <= n -> c_adder_hrs2 n c = Ok circ ->
  List.length xs = n -> NoDup ([ctl] ++ xs ++ [b0; b1]) ->
  beq (exec (append (data circ) ([ctl] ++ xs ++ [b0; b1])) s)
      (set_reg xs (reg_val s xs + (if s ctl then c else 0)) s).
Proof.
  intros Hn Hc Hx Hnd.
  destruct (c_adder_hrs2_spec n c Hn) as [circ' [Hc' [Hin Hspec]]].
  rewrite Hc in Hc'. injection Hc' as <-.
  assert (Hlen : List.length ([ctl] ++ xs ++ [b0; b1]) = 1 + n + 2).
  { rewrite !length_app, Hx. reflexivity. }
  eapply beq_trans.
  { apply (append_set_reg _ _ (seq 1 n)
             (fun t => (reg_val t (seq 1 n) + (if t 0%nat then c else 0))%Z)).
    - now rewrite Hlen.
    - assumption.
    - apply Forall_forall. intros j Hj. apply in_seq in Hj. rewrite Hlen. lia.
    - exact Hspec. }
  cbv beta. rewrite reg_val_gather.
  assert (E : map (wire ([ctl] ++ xs ++ [b0; b1])) (seq 1 n) = xs).
  { change (seq 1 n) with (seq (List.length [ctl] + 0) n).
    rewrite map_wire_seq_app_r, map_wire_seq_app_l by lia.
    rewrite <- Hx. apply map_wire_seq_all. }
  rewrite E. apply beq_refl.
Qed.

(** * The comparators *)

Lemma append_seq_id k sub : gates_in k sub -> append sub (seq 0 k) = sub.
Proof.
  intros H. unfold append. rewrite <- (map_id sub) at 2.
  apply map_ext_in. intros g Hg.
  unfold gates_in in H. rewrite Forall_forall in H. specialize (H g Hg).
  assert (Hw : forall j, j < k -> wire (seq 0 k) j = j).
  { intros j Hj. unfold wire. rewrite seq_nth by assumption. reflexivity. }
  assert (Hm : forall l, Forall (fun q => q < k) l -> map (wire (seq 0 k)) l = l).
  { induction l as [|x l IH]; intros Hl; [reflexivity|].
    inversion Hl; subst. cbn [map]. rewrite Hw, IH by assumption. reflexivity. }
  unfold gate_in in H.
  destruct g; cbn [remap gate_qubits] in *;
    repeat match goal with
      | H : Forall _ (_ :: _) |- _ => inversion H; subst; clear H
      end; rewrite ?Hw by assumption; try reflexivity.
  - apply Forall_app in H as [H1 H2]. inversion H2; subst.
    rewrite Hm, Hw by assumption. reflexivity.
  - rewrite Hm by assumption. reflexivity.
  - rewrite Hm by assumption. reflexivity.
Qed.

(** The comparison bit produced by the carry of [x + (-value)]. *)
Lemma comp_bit x value n (cb : bool) :
  (0 <= x < p2 n)%Z -> (0 <= value <= p2 n)%Z ->
  Z.b2z cb = ((x + (- value) mod p2 n) / p2 n)%Z ->
  xorb cb (Z.testbit (- value) (Z.of_nat n)) = (x <? value)%Z.
Proof.
  intros Hx Hv Hcb. pose proof (p2_pos n) as Hp.
  assert (Ht : Z.b2z (Z.testbit (- value) (Z.of_nat n)) = ((- value) / p2 n mod 2)%Z).
  { apply Z.testbit_spec'. lia. }
  destruct (Z.eq_dec value 0) as [->|Hv0].
  - cbn [Z.opp] in *. rewrite Z.mod_0_l in Hcb by lia.
    rewrite Z.add_0_r, Z.div_small in Hcb by lia.
    rewrite Z.div_0_l in Ht by lia. cbn in Ht.
    destruct cb, (Z.testbit 0 (Z.of_nat n)); cbn [Z.b2z] in *; try lia.
    cbn [xorb]. symmetry. apply Z.ltb_ge. lia.
  - assert (Hd : ((- value) / p2 n = -1)%Z).
    { symmetry. apply (Z.div_unique (- value) (p2 n) (-1) (p2 n - value)); lia. }
    rewrite Hd in Ht. cbn in Ht.
    destruct (Z.eq_dec value (p2 n)) as [->|Hvn].
    + assert (Hm : ((- p2 n) mod p2 n = 0)%Z).
      { symmetry. apply (Z.mod_unique (- p2 n) (p2 n) (-1) 0); lia. }
      rewrite Hm, Z.add_0_r, Z.div_small in Hcb by lia.
      destruct cb, (Z.testbit (- p2 n) (Z.of_nat n)); cbn [Z.b2z] in *; try lia.
      cbn [xorb]. symmetry. apply Z.ltb_lt. lia.
    + assert (Hm : ((- value) mod p2 n = p2 n - value)%Z).
      { symmetry. apply (Z.mod_unique (- value) (p2 n) (-1) (p2 n - value)); lia. }
      rewrite Hm in Hcb.
      destruct (Z.ltb_spec x value) as [Hlt|Hge].
      * rewrite Z.div_small in Hcb by lia.
        destruct cb, (Z.testbit (- value) (Z.of_nat n)); cbn [Z.b2z] in *; try lia.
        reflexivity.
      * assert (Hq : ((x + (p2 n - value)) / p2 n = 1)%Z).
        { symmetry. apply (Z.div_unique _ (p2 n) 1 (x - value)); lia. }
        rewrite Hq in Hcb.
        destruct cb, (Z.testbit (- value) (Z.of_nat n)); cbn [Z.b2z] in *; try lia.
        reflexivity.
Qed.

Lemma comp_str_facts n value :
  let k := rev (binary_repr (0 - value) (n + 1)) in
  (forall i, i <= n -> str_bit k i = Z.testbit (- value) (Z.of_nat i)) /\
  chr_eq k 0 "0" = negb (str_bit k 0).
Proof.
  intros k. split.
  - intros i Hi. unfold str_bit.
    destruct (chr_eq_digit _ _ _ (comp_digits n value i Hi)) as [E _]. exact E.
  - eapply digits_zero. apply (comp_digits n value 0). lia.
Qed.

Lemma comp_toggle n value (xs : list nat) (s : bstate) :
  List.length xs = n -> (0 <= value <= p2 n)%Z ->
  let k := rev (binary_repr (0 - value) (n + 1)) in
  xorb (carry (fun i => s (nth i xs 0)) (str_bit k) n) (str_bit k n)
  = (reg_val s xs <? value)%Z.
Proof.
  intros Hx Hv k. destruct (comp_str_facts n value) as [Hk _]. fold k in Hk.
  rewrite (Hk n) by lia.
  apply comp_bit; auto.
  - pose proof (reg_val_bound s xs) as Hb. now rewrite Hx in Hb.
  - rewrite carry_div. f_equal. f_equal.
    + rewrite reg_val_nth, Hx. reflexivity.
    + apply val_testbit. intros i Hi. apply Hk. lia.
Qed.

(** * The comparators as circuits *)

Lemma cc_carry_append m kstr c0 c1 xs o gsb circ s :
  3 <= m -> List.length xs = m - 1 -> List.length gsb = m - 2 ->
  NoDup ([c0; c1] ++ xs ++ [o] ++ gsb) ->
  cc_carry_gate m kstr = Ok circ ->
  chr_eq kstr 0 "0" = negb (str_bit kstr 0) ->
  beq (exec (append (data circ) ([c0; c1] ++ xs ++ [o] ++ gsb)) s)
      (upd s o (xorb (s o)
         ((s c0 && s c1)
          && xorb (carry (fun i => s (nth i xs 0)) (str_bit kstr) (m - 1))
                  (str_bit kstr (m - 1))))).
Proof.
  intros Hm Hx Hg Hnd Hc Hz.
  destruct (cc_carry_gate_spec m kstr Hm Hz) as [circ' [Hc' [Hin Hspec]]].
  rewrite Hc in Hc'. injection Hc' as <-.
  assert (Hlen : List.length ([c0; c1] ++ xs ++ [o] ++ gsb) = 2 + m + (m - 2)).
  { rewrite !length_app, Hx, Hg. cbn [List.length]. lia. }
  eapply beq_trans.
  { apply (append_upd _ _ (1 + m)
             (fun t => xorb (t (1 + m))
                ((t 0 && t 1) && xorb (carry (fun i => t (2 + i)) (str_bit kstr) (m - 1))
                             (str_bit kstr (m - 1))))).
    - now rewrite Hlen.
    - assumption.
    - rewrite Hlen. lia.
    - exact Hspec. }
  assert (Ew : wire ([c0; c1] ++ xs ++ [o] ++ gsb) (1 + m) = o).
  { unfold wire. cbn [app]. replace (1 + m) with (S (S (List.length xs))) by lia.
    cbn [nth]. apply nth_middle_app. }
  rewrite Ew. unfold gather at 1 2 3. rewrite Ew.
  replace (wire ([c0; c1] ++ xs ++ [o] ++ gsb) 0) with c0 by reflexivity.
  replace (wire ([c0; c1] ++ xs ++ [o] ++ gsb) 1) with c1 by reflexivity.
  rewrite (carry_ext (fun i => gather ([c0; c1] ++ xs ++ [o] ++ gsb) s (2 + i))
             (str_bit kstr) (fun i => s (nth i xs 0)) (str_bit kstr)); [apply beq_refl| |auto].
  intros i Hi. unfold gather, wire. cbn [app Nat.add nth].
  rewrite app_nth1 by lia. reflexivity.
Qed.

Lemma NoDup_comp_qargs off n :
  1 <= n ->
  NoDup (seq off 1 ++ seq (off + 1) n ++ [off + 1 + n + (n - 1)] ++ seq (off + 1 + n) (n - 1)).
Proof.
  intros Hn. apply NoDup_app; [apply seq_NoDup| |].
  - apply NoDup_app; [apply seq_NoDup| |].
    + apply NoDup_app; [repeat constructor; intros []|apply seq_NoDup|].
      intros x [<-|[]] H. apply in_seq in H. lia.
    + intros x Hx H. apply in_seq in Hx. apply in_app_or in H as [[<-|[]]|H]; [lia|].
      apply in_seq in H. lia.
  - intros x Hx H. apply in_seq in Hx.
    apply in_app_or in H as [H|H]; [apply in_seq in H; lia|].
    apply in_app_or in H as [[<-|[]]|H]; [lia|]. apply in_seq in H. lia.
Qed.

(** The controlled comparator toggles the result qubit when the control is
    set and the register is below [value]. *)
Lemma c_comp_spec n value :
  2 <= n -> (0 <= value <= p2 n)%Z ->
  exists circ,
    c_comp n value = Ok circ /\
    gates_in (1 + n + (n - 1) + 1) (data circ) /\
    forall s,
      beq (exec (data circ) s)
          (upd s (1 + n + (n - 1))
             (xorb (s (1 + n + (n - 1)))
                   (s 0 && (reg_val s (seq 1 n) <? value)%Z))).
Proof.
  intros Hn Hv. unfold c_comp.
  destruct (Nat.eqb_spec n 0) as [?|_]; [lia|].
  set (k := rev (binary_repr (0 - value) (n + 1))).
  destruct (comp_str_facts n value) as [Hk Hz]. fold k in Hk, Hz.
  destruct (c_carry_gate_spec (n + 1) k ltac:(lia) Hz) as [cg [Hcg [Hin _]]].
  rewrite Hcg. cbn [bind]. eexists. split; [reflexivity|]. cbn [data].
  pose proof (NoDup_comp_qargs 0 n ltac:(lia)) as Hnd. cbn [Nat.add] in Hnd.
  split.
  - apply gates_in_append with (k := 1 + (n + 1) + (n + 1 - 2)).
    + assumption.
    + rewrite !length_app, !length_seq. lia.
    + apply Forall_forall. intros q Hq.
      rewrite !in_app_iff, !in_seq in Hq. lia.
  - intros s.
    change (seq (1 + n + (n - 1)) 1) with [1 + n + (n - 1)].
    change (seq 0 1) with [0].
    eapply beq_trans.
    { apply (c_carry_append (n + 1) k 0 (seq 1 n) (1 + n + (n - 1)) (seq (1 + n) (n - 1)) cg s);
        auto; try lia; rewrite length_seq; lia. }
    replace (n + 1 - 1) with n by lia.
    pose proof (comp_toggle n value (seq 1 n) s (length_seq _ _) Hv) as E.
    cbv zeta in E. fold k in E. rewrite E.
    apply beq_refl.
Qed.

Lemma cc_comp_spec n value :
  2 <= n -> (0 <= value <= p2 n)%Z ->
  exists circ,
    cc_comp n value = Ok circ /\
    gates_in (2 + n + (n - 1) + 1) (data circ) /\
    forall s,
      beq (exec (data circ) s)
          (upd s (2 + n + (n - 1))
             (xorb (s (2 + n + (n - 1)))
                   ((s 0 && s 1) && (reg_val s (seq 2 n) <? value)%Z))).
Proof.
  intros Hn Hv. unfold cc_comp.
  destruct (Nat.eqb_spec n 0) as [?|_]; [lia|].
  set (k := rev (binary_repr (0 - value) (n + 1))).
  destruct (comp_str_facts n value) as [Hk Hz]. fold k in Hk, Hz.
  destruct (cc_carry_gate_spec (n + 1) k ltac:(lia) Hz) as [cg [Hcg [Hin _]]].
  rewrite Hcg. cbn [bind]. eexists. split; [reflexivity|]. cbn [data].
  pose proof (NoDup_comp_qargs 1 n ltac:(lia)) as Hnd. cbn [Nat.add] in Hnd.
  assert (Hnd2 : NoDup ([0; 1] ++ seq 2 n ++ [2 + n + (n - 1)] ++ seq (2 + n) (n - 1))).
  { constructor; [|exact Hnd].
    cbn [app In]. rewrite !in_app_iff, !in_seq. cbn [In]. rewrite in_seq. lia. }
  split.
  - apply gates_in_append with (k := 2 + (n + 1) + (n + 1 - 2)).
    + assumption.
    + rewrite !length_app, !length_seq. lia.
    + apply Forall_forall. intros q Hq.
      rewrite !in_app_iff, !in_seq in Hq. lia.
  - intros s.
    change (seq (2 + n + (n - 1)) 1) with [2 + n + (n - 1)].
    change (seq 0 2) with [0; 1].
    eapply beq_trans.
    { apply (cc_carry_append (n + 1) k 0 1 (seq 2 n) (2 + n + (n - 1))
               (seq (2 + n) (n - 1)) cg s);
        auto; try lia; rewrite length_seq; lia. }
    replace (n + 1 - 1) with n by lia.
    pose proof (comp_toggle n value (seq 2 n) s (length_seq _ _) Hv) as E.
    cbv zeta in E. fold k in E. rewrite E.
    apply beq_refl.
Qed.

(** * The modular adder *)

Section ModAdd.
Variable n : nat.
Variables a N : Z.
Variable xs : list nat.
Variable m : nat.
Variable ctl : bstate -> bool.
Variables CMP1 ADD1 FLIP ADD2 CMP2 : list gate.

Hypothesis Hxs : List.length xs = n.
Hypothesis Hnd : NoDup xs.
Hypothesis Hm : ~ In m xs.
Hypothesis Ha : (0 <= a < N)%Z.
Hypothesis HN : (N <= p2 n)%Z.
Hypothesis Hctl : forall t1 t2,
  (forall w, w <> m -> ~ In w xs -> t1 w = t2 w) -> ctl t1 = ctl t2.
Hypothesis HC1 : forall t,
  beq (exec CMP1 t) (upd t m (xorb (t m) (ctl t && (reg_val t xs <? N - a)%Z))).
Hypothesis HA1 : forall t,
  beq (exec ADD1 t) (set_reg xs (reg_val t xs + (if t m then a else 0)) t).
Hypothesis HF : forall t, beq (exec FLIP t) (upd t m (xorb (t m) (ctl t))).
Hypothesis HA2 : forall t,
  beq (exec ADD2 t) (set_reg xs (reg_val t xs + (if t m then a - N else 0)) t).
Hypothesis HC2 : forall t,
  beq (exec CMP2 t) (upd t m (xorb (t m) (ctl t && (reg_val t xs <? a)%Z))).

(** Compare, add, flip, subtract, compare: the register receives
    [(b + a) mod N] under the control, and the sign qubit returns to 0. *)
Lemma modadd_generic s :
  s m = false -> (reg_val s xs < N)%Z ->
  beq (exec (CMP1 ++ ADD1 ++ FLIP ++ ADD2 ++ CMP2) s)
      (set_reg xs (if ctl s then (reg_val s xs + a) mod N else reg_val s xs) s).
Proof.
  intros Hm0 Hb.
  replace (CMP1 ++ ADD1 ++ FLIP ++ ADD2 ++ CMP2)
    with (CMP1 ++ ADD1 ++ FLIP ++ ADD2 ++ CMP2 ++ []) by (now rewrite app_nil_r).
  rewrite !exec_app. cbn [exec].
  set (s1 := exec CMP1 s). set (s2 := exec ADD1 s1). set (s3 := exec FLIP s2).
  set (s4 := exec ADD2 s3). set (s5 := exec CMP2 s4).
  set (b := reg_val s xs) in *. set (c := ctl s).
  assert (Hb0 : (0 <= b < p2 n)%Z).
  { pose proof (reg_val_bound s xs) as H. rewrite Hxs in H. exact H. }
  pose proof (p2_pos n) as Hp.
  (* first comparison *)
  assert (F1 : forall w, w <> m -> s1 w = s w).
  { intros w Hw. subst s1. rewrite (HC1 s w). now apply upd_neq. }
  assert (M1 : s1 m = (c && (b <? N - a)%Z)).
  { subst s1. rewrite (HC1 s m), upd_eq, Hm0. reflexivity. }
  assert (B1 : reg_val s1 xs = b).
  { apply reg_val_frame. intros w Hw. apply F1. intros ->. contradiction. }
  (* conditional addition *)
  destruct (set_reg_facts xs _ s1 s2 Hnd (HA1 s1)) as [F2 V2].
  rewrite Hxs, B1, M1 in V2.
  assert (M2 : s2 m = (c && (b <? N - a)%Z)) by (rewrite F2, M1; auto).
  assert (C2 : ctl s2 = c).
  { apply Hctl. intros w Hw1 Hw2. rewrite F2, F1; auto. }
  (* flip *)
  assert (F3 : forall w, w <> m -> s3 w = s2 w).
  { intros w Hw. subst s3. rewrite (HF s2 w). now apply upd_neq. }
  assert (M3 : s3 m = xorb (c && (b <? N - a)%Z) c).
  { subst s3. rewrite (HF s2 m), upd_eq, M2, C2. reflexivity. }
  assert (B3 : reg_val s3 xs = reg_val s2 xs).
  { apply reg_val_frame. intros w Hw. apply F3. intros ->. contradiction. }
  (* conditional subtraction *)
  destruct (set_reg_facts xs _ s3 s4 Hnd (HA2 s3)) as [F4 V4].
  rewrite Hxs, B3, V2, M3 in V4.
  assert (M4 : s4 m = xorb (c && (b <? N - a)%Z) c) by (rewrite F4, M3; auto).
  assert (C4 : ctl s4 = c).
  { apply Hctl. intros w Hw1 Hw2. rewrite F4, F3, F2, F1; auto. }
  (* second comparison *)
  assert (F5 : forall w, w <> m -> s5 w = s4 w).
  { intros w Hw. subst s5. rewrite (HC2 s4 w). now apply upd_neq. }
  assert (M5 : s5 m = xorb (xorb (c && (b <? N - a)%Z) c) (c && (reg_val s4 xs <? a)%Z)).
  { subst s5. rewrite (HC2 s4 m), upd_eq, M4, C4. reflexivity. }
  assert (B5 : reg_val s5 xs = reg_val s4 xs).
  { apply reg_val_frame. intros w Hw. apply F5. intros ->. contradiction. }
  (* the value after the subtraction *)
  assert (V : reg_val s4 xs = (if c then (b + a) mod N else b)%Z
              /\ s5 m = false).
  { rewrite M5, V4. clear M5 V4.
    destruct c; cbn [andb xorb].
    - destruct (Z.ltb_spec b (N - a)) as [Hlt|Hge]; cbn [xorb].
      + rewrite Z.add_0_r, (Z.mod_small (b + a) (p2 n)) by lia.
        rewrite Z.mod_small by lia. rewrite (Z.mod_small (b + a) N) by lia.
        split; [reflexivity|]. apply Z.ltb_ge. lia.
      + rewrite Z.add_0_r, (Z.mod_small b (p2 n)) by lia.
        rewrite (Z.mod_small (b + (a - N)) (p2 n)) by lia.
        destruct (mod_cases (b + a) N) as [[A1 A2]|[A1 A2]]; try lia.
        rewrite A2. split; [lia|].
        replace (b + (a - N) <? a)%Z with true by (symmetry; apply Z.ltb_lt; lia).
        reflexivity.
    - rewrite !Z.add_0_r, Z.mod_mod, Z.mod_small by lia. split; reflexivity. }
  destruct V as [V M5'].
  apply set_reg_intro; [assumption| |].
  - intros w Hw. destruct (Nat.eq_dec w m) as [->|Hwm].
    + now rewrite M5', Hm0.
    + subst s5 s4 s3 s2 s1. rewrite F5, F4, F3, F2, F1 by assumption. reflexivity.
  - rewrite B5, V, Hxs. symmetry. apply Z.mod_small.
    destruct c; [|lia].
    pose proof (Z.mod_pos_bound (b + a) N ltac:(lia)). lia.
Qed.
End ModAdd.

(** * The HRS modular adders *)

Lemma reg_get_seq a k i : i < k -> reg_get (seq a k) i = Ok (a + i).
Proof.
  intros H. unfold reg_get.
  rewrite (nth_error_nth' _ 0) by (rewrite length_seq; lia).
  now rewrite seq_nth.
Qed.

Lemma reg_get_short a k i : k <= i -> reg_get (seq a k) i = Raise IndexError.
Proof.
  intros H. unfold reg_get.
  replace (nth_error (seq a k) i) with (@None nat); [reflexivity|].
  symmetry. apply nth_error_None. rewrite length_seq. lia.
Qed.

Lemma c_modadd_qargs n :
  [0] ++ seq 1 n ++ seq (1 + n) (n - 1) ++ [1 + n + (n - 1)] = seq 0 (1 + n + (n - 1) + 1).
Proof.
  rewrite (seq_app (1 + n + (n - 1)) 1), (seq_app (1 + n) (n - 1)), (seq_app 1 n).
  cbn [Nat.add seq app]. now rewrite <- !app_assoc.
Qed.

Lemma cc_modadd_qargs n :
  seq 0 2 ++ seq 2 n ++ seq (2 + n) (n - 1) ++ [2 + n + (n - 1)]
  = seq 0 (2 + n + (n - 1) + 1).
Proof.
  rewrite (seq_app (2 + n + (n - 1)) 1), (seq_app (2 + n) (n - 1)), (seq_app 2 n).
  cbn [Nat.add seq app]. now rewrite <- !app_assoc.
Qed.

Lemma NoDup_adder_qargs m a n g0 g1 :
  ~ (a <= m < a + n) -> ~ (a <= g0 < a + n) -> ~ (a <= g1 < a + n) ->
  m <> g0 -> m <> g1 -> g0 <> g1 ->
  NoDup ([m] ++ seq a n ++ [g0; g1]).
Proof.
  intros H1 H2 H3 H4 H5 H6. cbn [app]. constructor.
  - rewrite in_app_iff, in_seq. cbn [In]. lia.
  - apply NoDup_app; [apply seq_NoDup| |].
    + constructor; [cbn [In]; lia|]. constructor; [intros []|constructor].
    + intros x Hx. apply in_seq in Hx. cbn [In]. lia.
Qed.

Lemma c_carry_add_mod_hrs_spec n a N :
  3 <= n -> (0 <= a < N)%Z -> (N <= p2 n)%Z ->
  exists circ,
    c_carry_add_mod_hrs n a N = Ok circ /\
    gates_in (1 + n + (n - 1) + 1) (data circ) /\
    forall s,
      s (1 + n + (n - 1)) = false -> (reg_val s (seq 1 n) < N)%Z ->
      beq (exec (data circ) s)
          (set_reg (seq 1 n)
             (if s 0 then (reg_val s (seq 1 n) + a) mod N else reg_val s (seq 1 n)) s).
Proof.
  intros Hn Ha HN. unfold c_carry_add_mod_hrs.
  destruct (Nat.eqb_spec n 0) as [?|_]; [lia|].
  destruct (c_comp_spec n (N - a) ltac:(lia) ltac:(lia)) as [cmp1 [E1 [I1 S1]]].
  destruct (c_comp_spec n a ltac:(lia) ltac:(lia)) as [cmp2 [E2 [I2 S2]]].
  destruct (c_adder_hrs2_spec n a ltac:(lia)) as [add1 [E3 [I3 _]]].
  destruct (c_adder_hrs2_spec n (a - N) ltac:(lia)) as [add2 [E4 [I4 _]]].
  rewrite E1, E2, E3, E4, !reg_get_seq by lia. cbn [bind].
  eexists. split; [reflexivity|]. cbn [data].
  rewrite c_modadd_qargs, !append_seq_id by assumption.
  replace (1 + n + 0) with (1 + n) by lia.
  assert (Hq : Forall (fun q => q < 1 + n + (n - 1) + 1)
                 ([1 + n + (n - 1)] ++ seq 1 n ++ [1 + n; 1 + n + 1])).
  { apply Forall_forall. intros q Hq. rewrite !in_app_iff, in_seq in Hq.
    cbn [In] in Hq. lia. }
  assert (Hl : List.length ([1 + n + (n - 1)] ++ seq 1 n ++ [1 + n; 1 + n + 1]) = 1 + n + 2).
  { rewrite !length_app, length_seq. reflexivity. }
  assert (Hnd : NoDup ([1 + n + (n - 1)] ++ seq 1 n ++ [1 + n; 1 + n + 1])).
  { apply NoDup_adder_qargs; lia. }
  split.
  - rewrite !gates_in_app. repeat split; auto.
    + apply gates_in_append with (k := 1 + n + 2); auto; now rewrite Hl.
    + constructor; [cbn [gate_in]; repeat (apply Forall_cons; [lia|]); apply Forall_nil
                   |constructor].
    + apply gates_in_append with (k := 1 + n + 2); auto; now rewrite Hl.
  - intros s Hm0 Hb.
    apply (modadd_generic n a N (seq 1 n) (1 + n + (n - 1)) (fun t => t 0)); auto.
    + apply length_seq.
    + apply seq_NoDup.
    + rewrite in_seq. lia.
    + intros t1 t2 H. apply H; [lia|]. rewrite in_seq. lia.
    + intros t. apply (c_adder_hrs2_append n); auto; [lia|apply length_seq].
    + intros t w. cbn [exec exec1]. reflexivity.
    + intros t. apply (c_adder_hrs2_append n); auto; [lia|apply length_seq].
Qed.

(** The gate list ends with the second comparator. *)
Lemma c_carry_add_mod_hrs_shape n a N :
  3 <= n -> (0 <= a < N)%Z -> (N <= p2 n)%Z ->
  exists circ pre cmp,
    c_carry_add_mod_hrs n a N = Ok circ /\
    qregs circ = [("c"%string, 1); ("b"%string, n); ("g"%string, n - 1);
                  ("msb"%string, 1)] /\
    c_comp n a = Ok cmp /\ data circ = pre ++ data cmp.
Proof.
  intros Hn Ha HN. unfold c_carry_add_mod_hrs.
  destruct (Nat.eqb_spec n 0) as [?|_]; [lia|].
  destruct (c_comp_spec n (N - a) ltac:(lia) ltac:(lia)) as [cmp1 [E1 [I1 S1]]].
  destruct (c_comp_spec n a ltac:(lia) ltac:(lia)) as [cmp2 [E2 [I2 S2]]].
  destruct (c_adder_hrs2_spec n a ltac:(lia)) as [add1 [E3 [I3 _]]].
  destruct (c_adder_hrs2_spec n (a - N) ltac:(lia)) as [add2 [E4 [I4 _]]].
  rewrite E1, E2, E3, E4, !reg_get_seq by lia. cbn [bind].
  eexists. eexists. exists cmp2. split; [reflexivity|]. cbn [data qregs].
  split; [reflexivity|]. split; [reflexivity|].
  rewrite c_modadd_qargs, (append_seq_id _ (data cmp2)) by assumption.
  rewrite !app_assoc. reflexivity.
Qed.

Lemma cc_carry_add_mod_hrs_spec n a N :
  3 <= n -> (0 <= a < N)%Z -> (N <= p2 n)%Z ->
  exists circ,
    cc_carry_add_mod_hrs n a N = Ok circ /\
    gates_in (2 + n + (n - 1) + 1) (data circ) /\
    forall s,
      s (2 + n + (n - 1)) = false -> (reg_val s (seq 2 n) < N)%Z ->
      beq (exec (data circ) s)
          (set_reg (seq 2 n)
             (if s 0 && s 1 then (reg_val s (seq 2 n) + a) mod N
              else reg_val s (seq 2 n)) s).
Proof.
  intros Hn Ha HN. unfold cc_carry_add_mod_hrs.
  destruct (Nat.eqb_spec n 0) as [?|_]; [lia|].
  destruct (cc_comp_spec n (N - a) ltac:(lia) ltac:(lia)) as [cmp1 [E1 [I1 S1]]].
  destruct (cc_comp_spec n a ltac:(lia) ltac:(lia)) as [cmp2 [E2 [I2 S2]]].
  destruct (c_adder_hrs2_spec n a ltac:(lia)) as [add1 [E3 [I3 _]]].
  destruct (c_adder_hrs2_spec n (a - N) ltac:(lia)) as [add2 [E4 [I4 _]]].
  rewrite E1, E2, E3, E4, !reg_get_seq by lia. cbn [bind].
  eexists. split; [reflexivity|]. cbn [data].
  rewrite cc_modadd_qargs, !append_seq_id by assumption.
  replace (2 + n + 0) with (2 + n) by lia.
  change (nth 0 (seq 0 2) 0) with 0. change (nth 1 (seq 0 2) 0) with 1.
  assert (Hq : Forall (fun q => q < 2 + n + (n - 1) + 1)
                 ([2 + n + (n - 1)] ++ seq 2 n ++ [2 + n; 2 + n + 1])).
  { apply Forall_forall. intros q Hq. rewrite !in_app_iff, in_seq in Hq.
    cbn [In] in Hq. lia. }
  assert (Hl : List.length ([2 + n + (n - 1)] ++ seq 2 n ++ [2 + n; 2 + n + 1]) = 1 + n + 2).
  { rewrite !length_app, length_seq. reflexivity. }
  assert (Hnd : NoDup ([2 + n + (n - 1)] ++ seq 2 n ++ [2 + n; 2 + n + 1])).
  { apply NoDup_adder_qargs; lia. }
  split.
  - rewrite !gates_in_app. repeat split; auto.
    + apply gates_in_append with (k := 1 + n + 2); auto; now rewrite Hl.
    + constructor; [cbn [gate_in]; repeat (apply Forall_cons; [lia|]); apply Forall_nil
                   |constructor].
    + apply gates_in_append with (k := 1 + n + 2); auto; now rewrite Hl.
  - intros s Hm0 Hb.
    apply (modadd_generic n a N (seq 2 n) (2 + n + (n - 1)) (fun t => t 0 && t 1)); auto.
    + apply length_seq.
    + apply seq_NoDup.
    + rewrite in_seq. lia.
    + intros t1 t2 H. rewrite !H; auto; try lia; rewrite in_seq; lia.
    + intros t. apply (c_adder_hrs2_append n); auto; [lia|apply length_seq].
    + intros t w. cbn [exec exec1]. reflexivity.
    + intros t. apply (c_adder_hrs2_append n); auto; [lia|apply length_seq].
Qed.

(** The constructions fail on registers that are too short: the sign-bit
    adder borrows the cells [g[0]] and [g[1]] of an [(n-1)]-cell register. *)
Lemma c_carry_add_mod_hrs_short a N :
  c_carry_add_mod_hrs 2 a N = Raise IndexError.
Proof.
  unfold c_carry_add_mod_hrs. cbn [Nat.eqb].
  destruct (c_comp 2 (N - a)) as [cmp1|e] eqn:E1.
  2:{ exfalso. revert E1. unfold c_comp. cbn [Nat.eqb].
      destruct (c_carry_gate (2 + 1) _) eqn:E; [discriminate|].
      revert E. unfold c_carry_gate. cbn. discriminate. }
  cbn [bind].
  destruct (c_adder_hrs2_spec 2 a ltac:(lia)) as [add1 [-> _]].
  cbn [bind]. rewrite reg_get_seq by (cbn; lia). cbn [bind].
  rewrite reg_get_short by (cbn; lia). reflexivity.
Qed.

(** * The modular inverse *)

Lemma In_zrange x N : In x (zrange N) <-> (0 <= x < N)%Z.
Proof.
  unfold zrange. rewrite in_map_iff. split.
  - intros [k [<- Hk]]. apply in_seq in Hk. lia.
  - intros H. exists (Z.to_nat x). split; [lia|]. apply in_seq. lia.
Qed.

Lemma pow_inv_ok a N :
  (1 <= N)%Z -> Z.gcd a N = 1%Z ->
  exists x, pow_inv a N = Ok x /\ (0 <= x < N)%Z /\ ((a * x) mod N = 1 mod N)%Z.
Proof.
  intros HN Hg. unfold pow_inv.
  destruct (find _ (zrange N)) as [x|] eqn:E.
  - apply find_some in E as [Hin Hx]. exists x.
    split; [reflexivity|]. split; [now apply In_zrange|]. now apply Z.eqb_eq.
  - exfalso.
    destruct (Z.gcd_bezout a N 1 Hg) as [u [v Huv]].
    pose proof (find_none _ _ E (u mod N)%Z) as Hn.
    assert (Hin : In (u mod N)%Z (zrange N)).
    { apply In_zrange. apply Z.mod_pos_bound. lia. }
    specialize (Hn Hin). apply Z.eqb_neq in Hn. apply Hn.
    rewrite Z.mul_mod_idemp_r by lia.
    replace (a * u)%Z with (1 + (- v) * N)%Z by lia.
    now rewrite Z.mod_add by lia.
Qed.

Lemma pow_inv_fail a N :
  (1 <= N)%Z -> Z.gcd a N <> 1%Z -> pow_inv a N = Raise ValueError.
Proof.
  intros HN Hg. unfold pow_inv.
  destruct (find _ (zrange N)) as [x|] eqn:E; [|reflexivity].
  exfalso. apply find_some in E as [Hin Hx]. apply Z.eqb_eq in Hx.
  apply Hg.
  assert (HN2 : (N = 1 \/ 2 <= N)%Z) by lia.
  destruct HN2 as [->|HN2]; [apply Z.gcd_1_r|].
  rewrite (Z.mod_small 1 N) in Hx by lia.
  pose proof (Z.div_mod (a * x) N ltac:(lia)) as Hd. rewrite Hx in Hd.
  pose proof (Z.gcd_nonneg a N) as Hp.
  destruct (Z.gcd_divide_l a N) as [ka Hka].
  destruct (Z.gcd_divide_r a N) as [kn Hkn].
  assert (Hdiv : (Z.gcd a N | 1)%Z).
  { exists (ka * x - kn * ((a * x) / N))%Z.
    rewrite Z.mul_sub_distr_r.
    replace (ka * x * Z.gcd a N)%Z with (a * x)%Z by (rewrite Hka at 1; ring).
    replace (kn * (a * x / N) * Z.gcd a N)%Z with (N * (a * x / N))%Z
      by (rewrite Hkn at 1; ring).
    lia. }
  apply Z.divide_1_r_nonneg in Hdiv; assumption.
Qed.

Lemma gcd_mod_l a N : (1 <= N)%Z -> Z.gcd (a mod N) N = Z.gcd a N.
Proof.
  intros _. apply Z.gcd_mod_l.
Qed.

Lemma gcd_pow_l a N k : (0 <= k)%Z -> Z.gcd a N = 1%Z -> Z.gcd (a ^ k) N = 1%Z.
Proof.
  intros Hk Hg. now apply Z.coprime_pow_l.
Qed.

(** * Loops whose body can raise *)

Lemma for_each_ok l body (g : nat -> list gate) :
  (forall i, In i l -> body i = Ok (g i)) ->
  for_each l body = Ok (flat_map g l).
Proof.
  induction l as [|i l IH]; intros H; cbn [for_each flat_map]; [reflexivity|].
  rewrite (H i) by (now left). cbn [bind].
  rewrite IH by (intros; apply H; now right). reflexivity.
Qed.

Lemma for_each_raise l body i r e :
  l = i :: r -> body i = Raise e -> for_each l body = Raise e.
Proof. intros -> H. cbn [for_each]. now rewrite H. Qed.

Lemma filter_seq_remove a n i :
  i < n ->
  filter (fun q => negb (q =? a + i)) (seq a n) = seq a i ++ seq (a + i + 1) (n - 1 - i).
Proof.
  intros Hi.
  replace n with (i + S (n - 1 - i)) at 1 by lia.
  rewrite seq_app, filter_app. cbn [seq filter]. rewrite Nat.eqb_refl. cbn [negb].
  f_equal.
  - apply forallb_filter_id. apply forallb_forall. intros x Hx.
    apply in_seq in Hx. apply negb_true_iff, Nat.eqb_neq. lia.
  - replace (S (a + i)) with (a + i + 1) by lia.
    apply forallb_filter_id. apply forallb_forall. intros x Hx.
    apply in_seq in Hx. apply negb_true_iff, Nat.eqb_neq. lia.
Qed.

(** * The HRS multiplier *)

(** The doubly controlled modular adder wired to two controls, a register,
    borrowed qubits and a sign qubit. *)
Lemma cc_modadd_append n a N adder c0 c1 xs gs m s :
  3 <= n -> (0 <= a < N)%Z -> (N <= p2 n)%Z ->
  cc_carry_add_mod_hrs n a N = Ok adder ->
  List.length xs = n -> List.length gs = n - 1 ->
  NoDup ([c0; c1] ++ xs ++ gs ++ [m]) ->
  s m = false -> (reg_val s xs < N)%Z ->
  beq (exec (append (data adder) ([c0; c1] ++ xs ++ gs ++ [m])) s)
      (set_reg xs (if s c0 && s c1 then (reg_val s xs + a) mod N else reg_val s xs) s).
Proof.
  intros Hn Ha HN Hc Hx Hg Hnd Hm Hb.
  destruct (cc_carry_add_mod_hrs_spec n a N Hn Ha HN) as [circ' [Hc' [Hin Hspec]]].
  rewrite Hc in Hc'. injection Hc' as <-.
  set (qargs := [c0; c1] ++ xs ++ gs ++ [m]) in *.
  assert (Hlen : List.length qargs = 2 + n + (n - 1) + 1).
  { unfold qargs. rewrite !length_app, Hx, Hg. cbn [List.length]. lia. }
  assert (E : map (wire qargs) (seq 2 n) = xs).
  { unfold qargs. change (seq 2 n) with (seq (List.length [c0; c1] + 0) n).
    rewrite map_wire_seq_app_r, map_wire_seq_app_l by lia.
    rewrite <- Hx. apply map_wire_seq_all. }
  assert (Em : wire qargs (2 + n + (n - 1)) = m).
  { unfold wire, qargs. rewrite !app_assoc.
    replace (2 + n + (n - 1)) with (List.length (([c0; c1] ++ xs) ++ gs))
      by (rewrite !length_app, Hx, Hg; cbn [List.length]; lia).
    apply nth_middle_app. }
  set (t := gather qargs s).
  assert (Ht : reg_val t (seq 2 n) = reg_val s xs).
  { unfold t. now rewrite reg_val_gather, E. }
  assert (Htm : t (2 + n + (n - 1)) = false).
  { unfold t, gather. now rewrite Em. }
  eapply beq_trans; [apply exec_append; [now rewrite Hlen|assumption]|].
  eapply beq_trans.
  { apply scatter_ext; [|apply beq_refl]. intros j _.
    apply (Hspec t); [exact Htm|]. now rewrite Ht. }
  eapply beq_trans.
  { apply scatter_set_reg; [assumption|].
    apply Forall_forall. intros j Hj. apply in_seq in Hj. rewrite Hlen. lia. }
  rewrite E, Ht.
  replace (t 0) with (s c0) by reflexivity.
  replace (t 1) with (s c1) by reflexivity.
  apply set_reg_ext, scatter_gather.
Qed.

Lemma set_reg_twice qs u v s :
  NoDup qs -> beq (set_reg qs v (set_reg qs u s)) (set_reg qs v s).
Proof.
  intros Hnd. apply set_reg_intro; [assumption| |].
  - intros w Hw. now rewrite !set_reg_out.
  - now apply reg_val_set_reg.
Qed.

(** One step of the shift-and-add accumulation. *)
Lemma mul_step_arith r a N v (b : bool) k :
  (0 < N)%Z ->
  (((r + a * v) mod N + (a * 2 ^ Z.of_nat k) mod N) mod N
   = (r + a * (v + 1 * p2 k)) mod N)%Z.
Proof.
  intros HN. unfold p2.
  rewrite Z.add_mod_idemp_l, Z.add_mod_idemp_r by lia.
  f_equal. ring.
Qed.

(** The wiring of the [i]-th adder of the multiplier. *)
Lemma mult_qargs_facts n i :
  3 <= n -> i < n ->
  let xi := nth i (seq 1 n) 0 in
  let bq := filter (fun qubit => negb (qubit =? xi)) (seq 1 n) in
  xi = 1 + i /\ List.length bq = n - 1 /\
  NoDup ([0; xi] ++ seq (1 + n) n ++ bq ++ seq (1 + n + n) 1) /\
  Forall (fun q => q < 1 + n + n + 1) ([0; xi] ++ seq (1 + n) n ++ bq ++ seq (1 + n + n) 1).
Proof.
  intros Hn Hi xi bq.
  assert (Exi : xi = 1 + i) by (unfold xi; now rewrite seq_nth).
  assert (Ebq : bq = seq 1 i ++ seq (1 + i + 1) (n - 1 - i)).
  { unfold bq. rewrite Exi. now apply filter_seq_remove. }
  split; [exact Exi|]. split.
  { rewrite Ebq, length_app, !length_seq. lia. }
  rewrite Ebq, Exi. split.
  - cbn [app]. constructor.
    { cbn [In]. rewrite !in_app_iff, !in_seq. lia. }
    constructor.
    { rewrite !in_app_iff, !in_seq. lia. }
    apply NoDup_app; [apply seq_NoDup| |].
    + apply NoDup_app; [|apply seq_NoDup|].
      * apply NoDup_app; [apply seq_NoDup|apply seq_NoDup|].
        intros x Hx Hy. apply in_seq in Hx. apply in_seq in Hy. lia.
      * intros x Hx Hy. apply in_app_iff in Hx. rewrite !in_seq in Hx.
        apply in_seq in Hy. lia.
    + intros x Hx Hy. apply in_seq in Hx.
      rewrite !in_app_iff, !in_seq in Hy. lia.
  - apply Forall_forall. intros q Hq. cbn [app In] in Hq.
    rewrite !in_app_iff, !in_seq in Hq. lia.
Qed.

Lemma c_mult_hrs_partial_data n a N :
  3 <= n -> (1 <= N <= p2 n)%Z ->
  c_mult_hrs_partial n a N
  = Ok (mkCircuit
          [("c"%string, 1); ("x"%string, n); ("res"%string, n); ("anc"%string, 1)]
          (flat_map (hrs_mult_step n a N) (seq 0 n))).
Proof.
  intros Hn HN. unfold c_mult_hrs_partial, range.
  rewrite (for_each_ok _ _ (hrs_mult_step n a N)).
  - rewrite Nat.sub_0_r. reflexivity.
  - intros i Hi. unfold hrs_mult_step.
    destruct (cc_carry_add_mod_hrs_spec n ((a * 2 ^ Z.of_nat i) mod N) N Hn)
      as [adder [E _]]; [apply Z.mod_pos_bound; lia|lia|].
    rewrite E. reflexivity.
Qed.

Lemma hrs_mult_step_in n a N i :
  3 <= n -> (1 <= N <= p2 n)%Z -> i < n ->
  gates_in (1 + n + n + 1) (hrs_mult_step n a N i).
Proof.
  intros Hn HN Hi. unfold hrs_mult_step.
  destruct (cc_carry_add_mod_hrs_spec n ((a * 2 ^ Z.of_nat i) mod N) N Hn)
    as [adder [E [Hin _]]]; [apply Z.mod_pos_bound; lia|lia|].
  rewrite E. cbn [get_data].
  destruct (mult_qargs_facts n i Hn Hi) as [Exi [Hl [Hnd Hq]]].
  eapply gates_in_append; [exact Hin| |exact Hq].
  rewrite !length_app, Hl, !length_seq. cbn [List.length]. lia.
Qed.

Lemma hrs_mult_step_spec n a N i s :
  3 <= n -> (1 <= N <= p2 n)%Z -> i < n ->
  s (1 + n + n) = false -> (reg_val s (seq (1 + n) n) < N)%Z ->
  beq (exec (hrs_mult_step n a N i) s)
      (set_reg (seq (1 + n) n)
         (if s 0 && s (1 + i)
          then (reg_val s (seq (1 + n) n) + (a * 2 ^ Z.of_nat i) mod N) mod N
          else reg_val s (seq (1 + n) n)) s).
Proof.
  intros Hn HN Hi Hm Hb. unfold hrs_mult_step.
  destruct (cc_carry_add_mod_hrs_spec n ((a * 2 ^ Z.of_nat i) mod N) N Hn)
    as [adder [E _]]; [apply Z.mod_pos_bound; lia|lia|].
  rewrite E. cbn [get_data].
  destruct (mult_qargs_facts n i Hn Hi) as [Exi [Hl [Hnd Hq]]].
  rewrite <- Exi.
  change (seq (1 + n + n) 1) with [1 + n + n] in *.
  apply (cc_modadd_append n ((a * 2 ^ Z.of_nat i) mod N) N); auto.
  - apply Z.mod_pos_bound. lia.
  - lia.
  - apply length_seq.
Qed.

Lemma hrs_mult_loop n a N k : forall s,
  3 <= n -> (1 <= N <= p2 n)%Z -> k <= n ->
  s (1 + n + n) = false -> (reg_val s (seq (1 + n) n) < N)%Z ->
  beq (exec (flat_map (hrs_mult_step n a N) (seq 0 k)) s)
      (set_reg (seq (1 + n) n)
         (if s 0
          then (reg_val s (seq (1 + n) n) + a * val (fun i => s (1 + i)) k) mod N
          else reg_val s (seq (1 + n) n)) s).
Proof.
  intros s Hn HN. revert s.
  induction k as [|k IH]; intros s Hk Hm Hb.
  - cbn [seq flat_map exec val]. rewrite Z.mul_0_r, Z.add_0_r.
    pose proof (reg_val_bound s (seq (1 + n) n)) as B.
    rewrite Z.mod_small by lia.
    destruct (s 0); apply beq_sym, set_reg_reg_val.
  - rewrite flat_map_seq_S, exec_app. change (0 + k) with k.
    set (res := seq (1 + n) n) in *.
    set (r := reg_val s res) in *.
    set (vk := if s 0 then ((r + a * val (fun i => s (1 + i)%nat) k) mod N)%Z else r).
    assert (Hr : (0 <= r < p2 n)%Z).
    { pose proof (reg_val_bound s res) as B.
      replace (List.length res) with n in B by (unfold res; now rewrite length_seq).
      exact B. }
    assert (Hvk : (0 <= vk < N)%Z).
    { unfold vk. destruct (s 0); [apply Z.mod_pos_bound; lia|lia]. }
    assert (Hres : NoDup res) by apply seq_NoDup.
    specialize (IH s ltac:(lia) Hm Hb). fold vk in IH.
    destruct (set_reg_facts res vk s _ Hres IH) as [F V].
    replace (List.length res) with n in V by (unfold res; now rewrite length_seq).
    rewrite Z.mod_small in V by lia.
    set (sk := exec (flat_map (hrs_mult_step n a N) (seq 0 k)) s) in *.
    assert (Fm : sk (1 + n + n) = false).
    { rewrite F; [exact Hm|]. unfold res. rewrite in_seq. lia. }
    eapply beq_trans.
    { apply (hrs_mult_step_spec n a N k sk); auto. fold res. rewrite V. lia. }
    fold res. rewrite V.
    rewrite !F by (unfold res; rewrite in_seq; lia).
    apply set_reg_intro; [assumption| |].
    + intros w Hw. rewrite set_reg_out by assumption. now apply F.
    + rewrite reg_val_set_reg by assumption. f_equal.
      unfold vk. cbn [val]. change (S k) with (1 + k).
      destruct (s 0); cbn [andb]; [|now destruct (s (1 + k))].
      destruct (s (1 + k)); cbn [Z.b2z].
      * apply mul_step_arith; [exact true|lia].
      * f_equal. ring.
Qed.

(** The out-of-place multiplier adds [a * x] to the result register. *)
Lemma c_mult_hrs_partial_spec n a N :
  3 <= n -> (1 <= N <= p2 n)%Z ->
  exists circ,
    c_mult_hrs_partial n a N = Ok circ /\
    gates_in (1 + n + n + 1) (data circ) /\
    forall s,
      s (1 + n + n) = false -> (reg_val s (seq (1 + n) n) < N)%Z ->
      beq (exec (data circ) s)
          (set_reg (seq (1 + n) n)
             (if s 0
              then (reg_val s (seq (1 + n) n) + a * reg_val s (seq 1 n)) mod N
              else reg_val s (seq (1 + n) n)) s).
Proof.
  intros Hn HN. eexists. split; [apply c_mult_hrs_partial_data; assumption|].
  cbn [data]. split.
  - apply gates_in_flat_map. intros i Hi. apply in_seq in Hi.
    apply hrs_mult_step_in; auto; lia.
  - intros s Hm Hb. rewrite (reg_val_seq s 1 n).
    apply hrs_mult_loop; auto.
Qed.

(** * The in-place HRS multiplier *)

(** The controlled swap of two adjacent [n]-qubit registers at offset 1. *)
Lemma cswap_loop n k : forall s,
  k <= n ->
  beq (exec (flat_map (fun i => [GCSWAP 0 (nth i (seq 1 n) 0) (nth i (seq (1 + n) n) 0)])
               (seq 0 k)) s)
      (fun w =>
         if s 0 then
           if (1 <=? w) && (w <? 1 + k) then s (w + n)
           else if (1 + n <=? w) && (w <? 1 + n + k) then s (w - n)
           else s w
         else s w).
Proof.
  induction k as [|k IH]; intros s Hk.
  - cbn [seq flat_map exec]. intros w.
    destruct (s 0); [|reflexivity]. ifs; auto.
  - rewrite flat_map_seq_S, exec_app. change (0 + k) with k.
    rewrite !seq_nth by lia.
    set (sk := exec _ s). cbn [exec exec1].
    assert (Hsk : forall w, sk w = _) by (intros w; apply (IH s ltac:(lia) w)).
    intros w. rewrite (Hsk 0).
    destruct (s 0) eqn:Es0.
    + replace ((1 <=? 0) && (0 <? 1 + k)) with false by reflexivity.
      replace ((1 + n <=? 0) && (0 <? 1 + n + k)) with false by reflexivity.
      unfold upd. rewrite !Hsk.
      ifs; auto; f_equal; lia.
    + apply Hsk.
Qed.

Lemma cswap_regs n s :
  let s' := exec (flat_map (fun i => [GCSWAP 0 (nth i (seq 1 n) 0)
                                        (nth i (seq (1 + n) n) 0)]) (seq 0 n)) s in
  (forall w, ~ In w (seq 1 n) -> ~ In w (seq (1 + n) n) -> s' w = s w) /\
  reg_val s' (seq 1 n)
  = (if s 0 then reg_val s (seq (1 + n) n) else reg_val s (seq 1 n)) /\
  reg_val s' (seq (1 + n) n)
  = (if s 0 then reg_val s (seq 1 n) else reg_val s (seq (1 + n) n)).
Proof.
  intros s'.
  assert (H : forall w, s' w = _) by (intros w; apply (cswap_loop n n s (le_n n) w)).
  split; [|split].
  - intros w H1 H2. rewrite H. rewrite in_seq in H1, H2.
    destruct (s 0); [|reflexivity]. ifs; auto.
  - rewrite !reg_val_seq. destruct (s 0) eqn:E.
    + apply val_ext. intros i Hi. rewrite H. ifs. f_equal. lia.
    + apply val_ext. intros i Hi. now rewrite H.
  - rewrite !reg_val_seq. destruct (s 0) eqn:E.
    + apply val_ext. intros i Hi. rewrite H. ifs. f_equal. lia.
    + apply val_ext. intros i Hi. now rewrite H.
Qed.

Lemma cswap_gates_in n :
  gates_in (1 + n + n + 1)
    (flat_map (fun i => [GCSWAP 0 (nth i (seq 1 n) 0) (nth i (seq (1 + n) n) 0)])
       (seq 0 n)).
Proof.
  apply gates_in_flat_map. intros i Hi. apply in_seq in Hi.
  rewrite !seq_nth by lia.
  constructor; [|constructor]. unfold gate_in. cbn [gate_qubits].
  repeat (apply Forall_cons; [lia|]). apply Forall_nil.
Qed.

(** Adding [(N - a^-1)] times the product brings the old value back to 0. *)
Lemma inv_cancel a ai x N :
  (0 < N)%Z -> ((a * ai) mod N = 1 mod N)%Z ->
  ((x + (N - ai) * ((a * x) mod N)) mod N = 0)%Z.
Proof.
  intros HN Hinv.
  replace (x + (N - ai) * ((a * x) mod N))%Z
    with (x - ai * ((a * x) mod N) + ((a * x) mod N) * N)%Z by ring.
  rewrite Z.mod_add by lia.
  rewrite Zminus_mod, Z.mul_mod_idemp_r by lia.
  replace (ai * (a * x))%Z with ((a * ai) * x)%Z by ring.
  rewrite <- (Z.mul_mod_idemp_l (a * ai)) by lia.
  rewrite Hinv, Z.mul_mod_idemp_l, Z.mul_1_l by lia.
  rewrite Z.sub_diag. now apply Z.mod_0_l; lia.
Qed.

(** The in-place multiplier: with the result register and the ancilla at 0
    and [x < N], the register [x] receives [a * x mod N] under the control;
    the result register and the ancilla end at 0. *)
Lemma c_mult_hrs_spec n a N :
  3 <= n -> (1 <= N <= p2 n)%Z -> Z.gcd a N = 1%Z ->
  exists circ,
    c_mult_hrs n a N = Ok circ /\
    qregs circ = [("c"%string, 1); ("x"%string, n); ("res"%string, n); ("anc"%string, 1)] /\
    gates_in (1 + n + n + 1) (data circ) /\
    forall s,
      s (1 + n + n) = false -> reg_val s (seq (1 + n) n) = 0%Z ->
      (reg_val s (seq 1 n) < N)%Z ->
      beq (exec (data circ) s)
          (set_reg (seq 1 n)
             (if s 0 then (a * reg_val s (seq 1 n)) mod N else reg_val s (seq 1 n)) s).
Proof.
  intros Hn HN Hg. unfold c_mult_hrs.
  destruct (c_mult_hrs_partial_spec n a N Hn HN) as [p1 [E1 [I1 S1]]].
  destruct (pow_inv_ok a N ltac:(lia) Hg) as [ai [Ei [Hai Hinv]]].
  destruct (c_mult_hrs_partial_spec n (N - ai) N Hn HN) as [p2' [E2 [I2 S2]]].
  rewrite E1. cbn [bind]. rewrite Ei. cbn [bind]. rewrite E2. cbn [bind]. eexists. split; [reflexivity|]. cbn [data qregs].
  split; [reflexivity|].
  rewrite !append_seq_id by assumption. unfold range. rewrite Nat.sub_0_r.
  set (swaps := flat_map _ (seq 0 n)).
  split.
  { rewrite !gates_in_app. repeat split; auto. apply cswap_gates_in. }
  intros s Hm Hr Hx.
  rewrite !exec_app.
  set (xr := seq 1 n) in *. set (rr := seq (1 + n) n) in *.
  assert (Nx : NoDup xr) by apply seq_NoDup.
  assert (Nr : NoDup rr) by apply seq_NoDup.
  assert (Lx : List.length xr = n) by apply length_seq.
  assert (Lr : List.length rr = n) by apply length_seq.
  assert (Dxr : forall w, In w xr -> ~ In w rr).
  { intros w. unfold xr, rr. rewrite !in_seq. lia. }
  assert (Dm : ~ In (1 + n + n) xr /\ ~ In (1 + n + n) rr /\ ~ In 0 xr /\ ~ In 0 rr).
  { unfold xr, rr. rewrite !in_seq. lia. }
  destruct Dm as [Dm1 [Dm2 [D01 D02]]].
  set (x := reg_val s xr) in *.
  assert (Bx : (0 <= x < p2 n)%Z).
  { pose proof (reg_val_bound s xr) as B. now rewrite Lx in B. }
  (* first multiplication *)
  set (s1 := exec (data p1) s).
  destruct (set_reg_facts rr _ s s1 Nr (S1 s Hm ltac:(fold rr; lia))) as [F1 V1].
  fold rr xr in V1. fold x in V1. rewrite Hr, Lr, Z.add_0_l in V1.
  assert (X1 : reg_val s1 xr = x).
  { apply reg_val_frame. intros w Hw. apply F1. now apply Dxr. }
  assert (C1 : s1 0 = s 0) by (now apply F1).
  assert (R1 : reg_val s1 rr = if s 0 then ((a * x) mod N)%Z else 0%Z).
  { rewrite V1. destruct (s 0); [|reflexivity].
    apply Z.mod_small. pose proof (Z.mod_pos_bound (a * x) N ltac:(lia)). lia. }
  (* swap *)
  set (s2 := exec swaps s1).
  destruct (cswap_regs n s1) as [F2 [X2 R2]].
  change (exec _ s1) with s2 in F2, X2, R2. fold xr rr in F2, X2, R2.
  rewrite C1, R1, X1 in X2, R2.
  assert (C2 : s2 0 = s 0) by (rewrite F2, C1; auto).
  assert (M2 : s2 (1 + n + n) = false) by (rewrite F2, F1; auto).
  assert (X2' : reg_val s2 xr = if s 0 then ((a * x) mod N)%Z else x)
    by (rewrite X2; now destruct (s 0)).
  assert (R2' : reg_val s2 rr = if s 0 then x else 0%Z)
    by (rewrite R2; now destruct (s 0)).
  (* second multiplication *)
  set (s3 := exec (data p2') s2).
  assert (Hb2 : (reg_val s2 rr < N)%Z) by (rewrite R2'; destruct (s 0); lia).
  destruct (set_reg_facts rr _ s2 s3 Nr (S2 s2 M2 Hb2)) as [F3 V3].
  fold rr xr in V3. rewrite C2, X2', R2', Lr in V3.
  assert (R3 : reg_val s3 rr = 0%Z).
  { rewrite V3. destruct (s 0).
    - rewrite inv_cancel by (assumption || lia). reflexivity.
    - reflexivity. }
  assert (X3 : reg_val s3 xr = if s 0 then ((a * x) mod N)%Z else x).
  { rewrite <- X2'. apply reg_val_frame. intros w Hw. apply F3. now apply Dxr. }
  apply set_reg_intro; [assumption| |].
  - intros w Hw. destruct (in_dec Nat.eq_dec w rr) as [Hwr|Hwr].
    + apply (reg_val_inj rr); [|assumption]. now rewrite R3, Hr.
    + fold s1 s2 s3. rewrite F3, F2, F1 by assumption. reflexivity.
  - fold s1 s2 s3. rewrite X3, Lx. symmetry. apply Z.mod_small.
    destruct (s 0); [|lia].
    pose proof (Z.mod_pos_bound (a * x) N ltac:(lia)). lia.
Qed.

(** * The HRS modular exponentiation *)

(** A sub-circuit whose specification has a precondition. *)
Lemma append_set_reg_cond sub qargs L (P : bstate -> Prop) (v : bstate -> Z) s :
  gates_in (List.length qargs) sub -> NoDup qargs ->
  Forall (fun j => j < List.length qargs) L ->
  (forall t, P t -> beq (exec sub t) (set_reg L (v t) t)) ->
  P (gather qargs s) ->
  beq (exec (append sub qargs) s) (set_reg (map (wire qargs) L) (v (gather qargs s)) s).
Proof.
  intros Hg Hnd HL Hspec HP.
  eapply beq_trans; [apply exec_append; assumption|].
  eapply beq_trans; [apply scatter_ext; [intros; apply Hspec; exact HP|apply beq_refl]|].
  eapply beq_trans; [apply scatter_set_reg; assumption|].
  apply set_reg_ext, scatter_gather.
Qed.

(** The multiplier wired to a control, a register, a result register and an
    ancilla. *)
Lemma c_mult_hrs_append n a N circ c xs rs m s :
  3 <= n -> (1 <= N <= p2 n)%Z -> Z.gcd a N = 1%Z ->
  c_mult_hrs n a N = Ok circ ->
  List.length xs = n -> List.length rs = n ->
  NoDup ([c] ++ xs ++ rs ++ [m]) ->
  s m = false -> reg_val s rs = 0%Z -> (reg_val s xs < N)%Z ->
  beq (exec (append (data circ) ([c] ++ xs ++ rs ++ [m])) s)
      (set_reg xs (if s c then (a * reg_val s xs) mod N else reg_val s xs) s).
Proof.
  intros Hn HN Hg Hc Hx Hr Hnd Hm Hr0 Hb.
  destruct (c_mult_hrs_spec n a N Hn HN Hg) as [circ' [Hc' [_ [Hin Hspec]]]].
  rewrite Hc in Hc'. injection Hc' as <-.
  set (qargs := [c] ++ xs ++ rs ++ [m]) in *.
  assert (Hlen : List.length qargs = 1 + n + n + 1).
  { unfold qargs. rewrite !length_app, Hx, Hr. cbn [List.length]. lia. }
  assert (E : map (wire qargs) (seq 1 n) = xs).
  { unfold qargs. change (seq 1 n) with (seq (List.length [c] + 0) n).
    rewrite map_wire_seq_app_r, map_wire_seq_app_l by lia.
    rewrite <- Hx. apply map_wire_seq_all. }
  assert (E2 : map (wire qargs) (seq (1 + n) n) = rs).
  { unfold qargs. rewrite app_assoc.
    replace (seq (1 + n) n) with (seq (List.length ([c] ++ xs) + 0) n)
      by (rewrite length_app, Hx; cbn [List.length]; f_equal; lia).
    rewrite map_wire_seq_app_r, map_wire_seq_app_l by lia.
    rewrite <- Hr. apply map_wire_seq_all. }
  assert (Em : wire qargs (1 + n + n) = m).
  { unfold wire, qargs. rewrite !app_assoc.
    replace (1 + n + n) with (List.length (([c] ++ xs) ++ rs))
      by (rewrite !length_app, Hx, Hr; cbn [List.length]; lia).
    apply nth_middle_app. }
  eapply beq_trans.
  { apply (append_set_reg_cond _ qargs (seq 1 n)
             (fun t => t (1 + n + n) = false /\ reg_val t (seq (1 + n) n) = 0%Z
                       /\ (reg_val t (seq 1 n) < N)%Z)
             (fun t => if t 0 then ((a * reg_val t (seq 1 n)) mod N)%Z
                       else reg_val t (seq 1 n))).
    - now rewrite Hlen.
    - assumption.
    - apply Forall_forall. intros j Hj. apply in_seq in Hj. rewrite Hlen. lia.
    - intros t [H1 [H2 H3]]. now apply Hspec.
    - rewrite !reg_val_gather, E, E2. unfold gather. rewrite Em. auto. }
  cbv beta. rewrite reg_val_gather, E.
  replace (gather qargs s 0) with (s c) by reflexivity.
  apply beq_refl.
Qed.

(** Square-and-multiply: one more exponent bit. *)
Lemma exp_step_arith a y v N k :
  (0 < N)%Z -> (0 <= v)%Z ->
  ((((a ^ (2 ^ Z.of_nat k)) mod N) * ((y * a ^ v) mod N)) mod N
   = (y * a ^ (v + 1 * p2 k)) mod N)%Z.
Proof.
  intros HN Hv. unfold p2.
  rewrite Z.mul_mod_idemp_l, Z.mul_mod_idemp_r by lia.
  rewrite Z.mul_1_l, Z.pow_add_r by lia.
  f_equal. ring.
Qed.

Lemma hrs_exp_qargs ntop n i :
  i < ntop ->
  [nth i (seq 0 ntop) 0] ++ seq ntop (2 * n + 1)
  = [i] ++ seq ntop n ++ seq (ntop + n) n ++ [ntop + n + n].
Proof.
  intros Hi. rewrite seq_nth by lia.
  replace (2 * n + 1) with (n + (n + 1)) by lia.
  rewrite !seq_app. reflexivity.
Qed.

Lemma hrs_exp_nodup ntop n i :
  i < ntop -> NoDup ([i] ++ seq ntop n ++ seq (ntop + n) n ++ [ntop + n + n]).
Proof.
  intros Hi. cbn [app]. constructor.
  { rewrite !in_app_iff, !in_seq. cbn [In]. lia. }
  apply NoDup_app; [apply seq_NoDup| |].
  - apply NoDup_app; [apply seq_NoDup|repeat constructor; intros []|].
    intros x Hx [<-|[]]. apply in_seq in Hx. lia.
  - intros x Hx Hy. apply in_seq in Hx. rewrite in_app_iff, in_seq in Hy.
    cbn [In] in Hy. lia.
Qed.

Lemma gcd_exp_const a N i :
  (1 <= N)%Z -> Z.gcd a N = 1%Z -> Z.gcd ((a ^ (2 ^ Z.of_nat i)) mod N) N = 1%Z.
Proof.
  intros HN Hg. rewrite gcd_mod_l by assumption.
  apply gcd_pow_l; [|assumption]. apply Z.pow_nonneg. lia.
Qed.

Lemma hrs_exp_step_spec ntop n a N i s :
  3 <= n -> (1 <= N <= p2 n)%Z -> Z.gcd a N = 1%Z -> i < ntop ->
  s (ntop + n + n) = false -> reg_val s (seq (ntop + n) n) = 0%Z ->
  (reg_val s (seq ntop n) < N)%Z ->
  beq (exec (hrs_exp_step ntop n a N i) s)
      (set_reg (seq ntop n)
         (if s i then (((a ^ (2 ^ Z.of_nat i)) mod N) * reg_val s (seq ntop n)) mod N
          else reg_val s (seq ntop n)) s).
Proof.
  intros Hn HN Hg Hi Hm Hr Hb. unfold hrs_exp_step.
  pose proof (gcd_exp_const a N i ltac:(lia) Hg) as Hg'.
  destruct (c_mult_hrs_spec n _ N Hn HN Hg') as [circ [E _]].
  rewrite E. cbn [get_data]. rewrite hrs_exp_qargs by assumption.
  apply (c_mult_hrs_append n _ N); auto using length_seq, hrs_exp_nodup.
Qed.

Lemma hrs_exp_step_in ntop n a N i :
  3 <= n -> (1 <= N <= p2 n)%Z -> Z.gcd a N = 1%Z -> i < ntop ->
  gates_in (ntop + (2 * n + 1)) (hrs_exp_step ntop n a N i).
Proof.
  intros Hn HN Hg Hi. unfold hrs_exp_step.
  pose proof (gcd_exp_const a N i ltac:(lia) Hg) as Hg'.
  destruct (c_mult_hrs_spec n _ N Hn HN Hg') as [circ [E [_ [Hin _]]]].
  rewrite E. cbn [get_data].
  eapply gates_in_append; [exact Hin| |].
  - rewrite length_app, length_seq. cbn [List.length]. lia.
  - apply Forall_forall. intros q Hq. rewrite seq_nth in Hq by lia.
    rewrite in_app_iff, in_seq in Hq. cbn [In] in Hq. lia.
Qed.

Lemma hrs_exp_loop ntop n a N k : forall s,
  3 <= n -> (1 <= N <= p2 n)%Z -> Z.gcd a N = 1%Z -> k <= ntop ->
  s (ntop + n + n) = false -> reg_val s (seq (ntop + n) n) = 0%Z ->
  (reg_val s (seq ntop n) < N)%Z ->
  beq (exec (flat_map (hrs_exp_step ntop n a N) (seq 0 k)) s)
      (set_reg (seq ntop n)
         ((reg_val s (seq ntop n) * a ^ val (fun i => s i) k) mod N) s).
Proof.
  intros s Hn HN Hg. revert s.
  induction k as [|k IH]; intros s Hk Hm Hr Hb.
  - cbn [seq flat_map exec val]. rewrite Z.pow_0_r, Z.mul_1_r.
    pose proof (reg_val_bound s (seq ntop n)) as B.
    rewrite Z.mod_small by lia. apply beq_sym, set_reg_reg_val.
  - rewrite flat_map_seq_S, exec_app. change (0 + k) with k.
    set (acc := seq ntop n) in *. set (rr := seq (ntop + n) n) in *.
    set (y := reg_val s acc) in *.
    set (vk := ((y * a ^ val (fun i => s i) k) mod N)%Z).
    assert (Hvk : (0 <= vk < N)%Z) by (apply Z.mod_pos_bound; lia).
    assert (Nacc : NoDup acc) by apply seq_NoDup.
    assert (Lacc : List.length acc = n) by apply length_seq.
    specialize (IH s ltac:(lia) Hm Hr Hb). fold vk in IH.
    destruct (set_reg_facts acc vk s _ Nacc IH) as [F V].
    rewrite Lacc, Z.mod_small in V by lia.
    set (sk := exec (flat_map (hrs_exp_step ntop n a N) (seq 0 k)) s) in *.
    assert (Fm : sk (ntop + n + n) = false).
    { rewrite F; [exact Hm|]. unfold acc. rewrite in_seq. lia. }
    assert (Fr : reg_val sk rr = 0%Z).
    { rewrite <- Hr. apply reg_val_frame. intros w Hw. apply F.
      unfold rr in Hw. unfold acc. rewrite in_seq in *. lia. }
    eapply beq_trans.
    { apply (hrs_exp_step_spec ntop n a N k sk); auto. fold acc. rewrite V. lia. }
    fold acc. rewrite V.
    rewrite F by (unfold acc; rewrite in_seq; lia).
    apply set_reg_intro; [assumption| |].
    + intros w Hw. rewrite set_reg_out by assumption. now apply F.
    + rewrite reg_val_set_reg by assumption. f_equal.
      unfold vk. cbn [val].
      pose proof (val_bound (fun i => s i) k) as Bv.
      destruct (s k); cbn [Z.b2z].
      * apply exp_step_arith; lia.
      * f_equal. f_equal. f_equal. ring.
Qed.

(** The exponentiation tower multiplies the accumulator by [a^e mod N]. *)
Lemma mod_exp_hrs_spec ntop n a N :
  3 <= n -> (1 <= N <= p2 n)%Z -> Z.gcd a N = 1%Z ->
  exists circ,
    mod_exp_hrs ntop n a N = Ok circ /\
    qregs circ = [("top"%string, ntop); ("bot"%string, 2 * n + 1)] /\
    gates_in (ntop + (2 * n + 1)) (data circ) /\
    forall s,
      s (ntop + n + n) = false -> reg_val s (seq (ntop + n) n) = 0%Z ->
      (reg_val s (seq ntop n) < N)%Z ->
      beq (exec (data circ) s)
          (set_reg (seq ntop n)
             ((reg_val s (seq ntop n) * a ^ reg_val s (seq 0 ntop)) mod N) s).
Proof.
  intros Hn HN Hg. unfold mod_exp_hrs, range.
  rewrite (for_each_ok _ _ (hrs_exp_step ntop n a N)).
  - cbn [bind]. eexists. split; [reflexivity|]. cbn [qregs data].
    split; [reflexivity|]. rewrite Nat.sub_0_r. split.
    + apply gates_in_flat_map. intros i Hi. apply in_seq in Hi.
      apply hrs_exp_step_in; auto; lia.
    + intros s Hm Hr Hb. rewrite (reg_val_seq s 0 ntop).
      rewrite (val_ext (fun i => s (0 + i)) (fun i => s i)) by reflexivity.
      apply hrs_exp_loop; auto.
  - intros i Hi. apply in_seq in Hi. unfold hrs_exp_step.
    pose proof (gcd_exp_const a N i ltac:(lia) Hg) as Hg'.
    destruct (c_mult_hrs_spec n _ N Hn HN Hg') as [circ [E _]].
    rewrite E. reflexivity.
Qed.

(** * The uncontrolled carry gate and the constant as a list of bits *)

Lemma carry_gate_data n c_bin :
  2 <= n ->
  let ca := fun i => 0 + i in
  let cg := carry_greg ca (fun i => 0 + n + i) in
  carry_gate n c_bin =
  Ok (mkCircuit [("a"%string, n); ("g"%string, n - 2)]
        ([GCX (cg (n - 2)) (ca (n - 1))]
         ++ flat_map (carry_fwd_body c_bin ca cg) (rev (seq 1 (n - 2)))
         ++ flat_map (carry_mid_body ca cg) (seq 1 (n - 2))
         ++ [GCX (cg (n - 2)) (ca (n - 1))]
         ++ (if chr_eq c_bin (n - 1) "1" then [GX (ca (n - 1))] else [])
         ++ flat_map (carry_mid_body ca cg) (rev (seq 1 (n - 2)))
         ++ flat_map (carry_bwd_body c_bin ca cg) (seq 1 (n - 2)))).
Proof.
  intros Hn ca cg. unfold carry_gate.
  destruct (Nat.ltb_spec n 2) as [H|H]; [lia|].
  unfold range, reversed. replace (n - 1 - 1) with (n - 2) by lia. reflexivity.
Qed.

Lemma carry_gate_spec n c_bin :
  3 <= n ->
  chr_eq c_bin 0 "0" = negb (str_bit c_bin 0) ->
  exists circ,
    carry_gate n c_bin = Ok circ /\
    forall s,
      beq (exec (data circ) s)
          (upd s (n - 1) (xorb (s (n - 1))
             (xorb (carry (fun i => s i) (str_bit c_bin) (n - 1))
                   (str_bit c_bin (n - 1))))).
Proof.
  intros Hn Hz. eexists. split; [apply carry_gate_data; lia|]. cbn [data].
  intros s.
  pose proof (carry_gate_generic 0 n c_bin Hn Hz
                [GCX (carry_greg (fun i => 0 + i) (fun i => 0 + n + i) (n - 2)) (0 + (n - 1))]
                (if chr_eq c_bin (n - 1) "1" then [GX (0 + (n - 1))] else [])
                (fun st => true)) as H.
  cbv zeta in H. cbn [andb] in H.
  change (0 + (n - 1)) with (n - 1) in *.
  eapply beq_trans; [apply H|].
  - intros st w. cbn [exec exec1]. unfold upd.
    destruct (w =? n - 1); reflexivity.
  - intros st w. fold (str_bit c_bin (n - 1)).
    destruct (str_bit c_bin (n - 1)); cbn [exec exec1]; unfold upd.
    + destruct (w =? n - 1); [|reflexivity]. now destruct (st (n - 1)).
    + destruct (Nat.eqb_spec w (n - 1)) as [->|]; [|reflexivity].
      now rewrite xorb_false_r.
  - reflexivity.
  - reflexivity.
  - apply beq_refl.
Qed.

(** The strings of binary digits. *)
Lemma nth_error_map_digit ks i :
  i < List.length ks -> nth_error (map digit ks) i = Some (digit (nth i ks false)).
Proof.
  intros Hi. rewrite nth_error_map, (nth_error_nth' ks false) by assumption. reflexivity.
Qed.

Lemma str_bit_map_digit ks i : str_bit (map digit ks) i = nth i ks false.
Proof.
  unfold str_bit. destruct (Nat.lt_ge_cases i (List.length ks)) as [H|H].
  - destruct (chr_eq_digit _ _ _ (nth_error_map_digit ks i H)) as [E _]. exact E.
  - unfold chr_eq. rewrite nth_overflow by assumption.
    replace (nth_error (map digit ks) i) with (@None ascii); [reflexivity|].
    symmetry. apply nth_error_None. now rewrite length_map.
Qed.

Lemma map_digit_zero ks :
  1 <= List.length ks ->
  chr_eq (map digit ks) 0 "0" = negb (str_bit (map digit ks) 0).
Proof. intros H. eapply digits_zero. now apply nth_error_map_digit. Qed.

Lemma val_of_bits_val ks :
  val_of_bits ks = val (fun i => nth i ks false) (List.length ks).
Proof.
  induction ks as [|b ks IH]; [reflexivity|].
  cbn [val_of_bits List.length]. rewrite IH.
  change (S (List.length ks)) with (1 + List.length ks).
  rewrite val_app_shift. cbn [val nth]. rewrite p2_0.
  change (p2 1) with 2%Z. cbn [Nat.add]. lia.
Qed.

(** The toggle of the carry gates is the top bit of the sum of the data
    value and the constant. *)
Lemma carry_top_bit (a K : nat -> bool) m :
  xorb (carry a K m) (K m) = Z.testbit (val a m + val K (S m)) (Z.of_nat m).
Proof.
  set (a' := fun i => if i <? m then a i else false).
  assert (Ea : val a' (S m) = val a m).
  { cbn [val]. unfold a' at 2. rewrite Nat.ltb_irrefl. cbn [Z.b2z].
    rewrite Z.mul_0_l, Z.add_0_r. apply val_ext. intros i Hi. unfold a'.
    destruct (Nat.ltb_spec i m); [reflexivity|lia]. }
  rewrite <- Ea, <- (testbit_mod_p2 _ (S m)) by lia.
  rewrite <- val_sum, testbit_val by lia.
  unfold sum_bit. unfold a' at 1. rewrite Nat.ltb_irrefl. cbn [xorb].
  rewrite xorb_comm. f_equal. apply carry_ext; [|reflexivity].
  intros i Hi. unfold a'. destruct (Nat.ltb_spec i m); [reflexivity|lia].
Qed.

(** * Wirings and failures of the HRS constructors *)

Lemma c_comp_qregs n value circ :
  c_comp n value = Ok circ ->
  qregs circ = [("c"%string, 1); ("in"%string, n); ("b"%string, n - 1); ("res"%string, 1)].
Proof.
  unfold c_comp. destruct (n =? 0); [discriminate|].
  destruct (c_carry_gate _ _); cbn [bind]; [|discriminate].
  intros E. injection E as <-. reflexivity.
Qed.

Lemma cc_comp_qregs n value circ :
  cc_comp n value = Ok circ ->
  qregs circ = [("c"%string, 2); ("in"%string, n); ("b"%string, n - 1); ("res"%string, 1)].
Proof.
  unfold cc_comp. destruct (n =? 0); [discriminate|].
  destruct (cc_carry_gate _ _); cbn [bind]; [|discriminate].
  intros E. injection E as <-. reflexivity.
Qed.

Lemma cc_carry_add_mod_hrs_qregs n a N circ :
  cc_carry_add_mod_hrs n a N = Ok circ ->
  qregs circ = [("c"%string, 2); ("b"%string, n); ("g"%string, n - 1); ("msb"%string, 1)].
Proof.
  unfold cc_carry_add_mod_hrs. destruct (n =? 0); [discriminate|].
  destruct (cc_comp n (N - a)); cbn [bind]; [|discriminate].
  destruct (c_adder_hrs2 n a); cbn [bind]; [|discriminate].
  destruct (reg_get _ 0); cbn [bind]; [|discriminate].
  destruct (reg_get _ 1); cbn [bind]; [|discriminate].
  destruct (c_adder_hrs2 n (a - N)); cbn [bind]; [|discriminate].
  destruct (cc_comp n a); cbn [bind]; [|discriminate].
  intros E. injection E as <-. reflexivity.
Qed.

Lemma c_mult_hrs_partial_qregs n a N circ :
  c_mult_hrs_partial n a N = Ok circ ->
  qregs circ = [("c"%string, 1); ("x"%string, n); ("res"%string, n); ("anc"%string, 1)].
Proof.
  unfold c_mult_hrs_partial. destruct (for_each _ _); cbn [bind]; [|discriminate].
  intros E. injection E as <-. reflexivity.
Qed.

(** The doubly controlled modular adder on a 2-cell register. *)
Lemma cc_carry_add_mod_hrs_short a N :
  cc_carry_add_mod_hrs 2 a N = Raise IndexError.
Proof.
  unfold cc_carry_add_mod_hrs. cbn [Nat.eqb].
  assert (E1 : exists cmp1, cc_comp 2 (N - a) = Ok cmp1).
  { unfold cc_comp. cbn [Nat.eqb]. rewrite cc_carry_gate_data by (cbn; lia).
    cbv zeta. cbn [bind]. eexists. reflexivity. }
  destruct E1 as [cmp1 ->]. cbn [bind].
  destruct (c_adder_hrs2_spec 2 a ltac:(lia)) as [add1 [-> _]].
  cbn [bind]. rewrite reg_get_seq by (cbn; lia). cbn [bind].
  rewrite reg_get_short by (cbn; lia). reflexivity.
Qed.

(** A constant that is not invertible makes the multiplier fail in
    [pow(a, -1, N)], after the first half has been built. *)
Lemma c_mult_hrs_fail n a N :
  3 <= n -> (1 <= N <= p2 n)%Z -> Z.gcd a N <> 1%Z ->
  c_mult_hrs n a N = Raise ValueError.
Proof.
  intros Hn HN Hg. unfold c_mult_hrs.
  destruct (c_mult_hrs_partial_spec n a N Hn HN) as [p1 [E1 _]].
  rewrite E1. cbn [bind]. rewrite pow_inv_fail by (assumption || lia). reflexivity.
Qed.

Lemma pow_2_0 a : (a ^ (2 ^ Z.of_nat 0) = a)%Z.
Proof. cbn [Z.of_nat]. rewrite Z.pow_0_r. apply Z.pow_1_r. Qed.

Lemma mod_exp_hrs_fail ntop n a N :
  1 <= ntop -> 3 <= n -> (1 <= N <= p2 n)%Z -> Z.gcd a N <> 1%Z ->
  mod_exp_hrs ntop n a N = Raise ValueError.
Proof.
  intros Ht Hn HN Hg. unfold mod_exp_hrs, range.
  destruct ntop as [|k]; [lia|]. rewrite Nat.sub_0_r.
  rewrite (for_each_raise (seq 0 (S k)) _ 0 (seq 1 k) ValueError); [reflexivity|reflexivity|].
  rewrite pow_2_0, c_mult_hrs_fail; auto.
  rewrite gcd_mod_l by lia. assumption.
Qed.

(** * Construction of the Fourier-space multipliers *)

Lemma gcd_pow2_odd p k :
  (1 <= k)%Z -> (Z.gcd p (2 ^ k) = 1%Z <-> Z.odd p = true).
Proof.
  intros Hk. split.
  - intros Hg. destruct (Z.odd p) eqn:E; [reflexivity|exfalso].
    rewrite <- Z.negb_even in E. apply negb_false_iff, Z.even_spec in E.
    destruct E as [q ->].
    assert (Hd : (2 | Z.gcd (2 * q) (2 ^ k))%Z).
    { apply Z.gcd_greatest.
      - exists q. ring.
      - exists (2 ^ (k - 1))%Z. replace k with (Z.succ (k - 1)) at 1 by lia.
        rewrite Z.pow_succ_r by lia. ring. }
    rewrite Hg in Hd. apply Z.divide_1_r_nonneg in Hd; lia.
  - intros Ho. apply Z.coprime_pow_r; [lia|].
    pose proof (Z.gcd_nonneg p 2) as Hn.
    destruct (Z.gcd_divide_r p 2) as [q Hq].
    destruct (Z.gcd_divide_l p 2) as [r Hr].
    assert (Hle : (Z.gcd p 2 <= 2)%Z).
    { apply Z.divide_pos_le; [lia|]. exists q. exact Hq. }
    assert (Hc : (Z.gcd p 2 = 1 \/ Z.gcd p 2 = 2)%Z).
    { assert (Z.gcd p 2 <> 0)%Z by (intros E0; rewrite E0 in Hq; lia). lia. }
    destruct Hc as [Hc|Hc]; [exact Hc|exfalso].
    rewrite Hc in Hr. rewrite Hr, Z.mul_comm, Z.odd_mul in Ho. discriminate.
Qed.

Lemma mult_mod_N_c_ok log2c a N size :
  (1 <= N)%Z -> Z.gcd a N = 1%Z ->
  exists circ,
    mult_mod_N_c log2c a N (Some size) = Ok circ /\
    qregs circ = [("c"%string, 1); ("x"%string, size); ("b"%string, size + 1);
                  ("anc"%string, 1)].
Proof.
  intros HN Hg. unfold mult_mod_N_c.
  destruct (pow_inv_ok a N HN Hg) as [ai [-> _]]. cbn [bind].
  eexists. split; reflexivity.
Qed.

Lemma mult_mod_N_c_fail log2c a N size :
  (1 <= N)%Z -> Z.gcd a N <> 1%Z -> mult_mod_N_c log2c a N size = Raise ValueError.
Proof.
  intros HN Hg. unfold mult_mod_N_c. now rewrite pow_inv_fail.
Qed.

Lemma mod_exp_brg_fail log2c n a N :
  1 <= n -> (1 <= N)%Z -> Z.gcd a N <> 1%Z ->
  mod_exp_brg log2c n a N = Raise ValueError.
Proof.
  intros Hn HN Hg. unfold mod_exp_brg, range.
  destruct n as [|k]; [lia|]. rewrite Nat.sub_0_r.
  rewrite (for_each_raise (seq 0 (S k)) _ 0 (seq 1 k) ValueError); [reflexivity|reflexivity|].
  rewrite pow_2_0, mult_mod_N_c_fail; auto.
  now rewrite gcd_mod_l.
Qed.

Lemma mult_montgomery_partial_c_ok n ym p :
  Z.odd p = true ->
  exists circ,
    mult_montgomery_partial_c n ym p = Ok circ /\
    qregs circ = [("ctrl"%string, 1); ("smallreg"%string, n);
                  ("bigreg"%string, n + n + 1)].
Proof.
  intros Ho. unfold mult_montgomery_partial_c.
  assert (Hg : Z.gcd p (2 ^ Z.of_nat (n + 1)) = 1%Z) by (apply gcd_pow2_odd; [lia|exact Ho]).
  destruct (pow_inv_ok p (2 ^ Z.of_nat (n + 1)) ltac:(lia) Hg) as [pi [-> _]].
  cbn [bind]. eexists. split; reflexivity.
Qed.

Lemma mult_montgomery_partial_c_fail n ym p :
  Z.odd p = false -> mult_montgomery_partial_c n ym p = Raise ValueError.
Proof.
  intros Ho. unfold mult_montgomery_partial_c.
  rewrite pow_inv_fail; [reflexivity|lia|].
  intros Hg. apply gcd_pow2_odd in Hg; [congruence|lia].
Qed.

Lemma mult_montgomery_c_ok n y p :
  (1 <= p)%Z -> Z.odd p = true -> Z.gcd y p = 1%Z ->
  exists circ,
    mult_montgomery_c n y p = Ok circ /\
    qregs circ = [("ctrl"%string, 1); ("smallreg"%string, n);
                  ("bigreg"%string, n + n + 1)].
Proof.
  intros Hp Ho Hg. unfold mult_montgomery_c.
  destruct (mult_montgomery_partial_c_ok n ((y * 2 ^ Z.of_nat n) mod p) p Ho) as [c1 [-> _]].
  cbn [bind].
  destruct (pow_inv_ok y p Hp Hg) as [yi [-> _]]. cbn [bind].
  destruct (mult_montgomery_partial_c_ok n ((yi * 2 ^ Z.of_nat n) mod p) p Ho) as [c2 [-> _]].
  cbn [bind]. eexists. split; reflexivity.
Qed.

Lemma mult_montgomery_c_fail n y p :
  (1 <= p)%Z -> Z.odd p = false \/ Z.gcd y p <> 1%Z ->
  mult_montgomery_c n y p = Raise ValueError.
Proof.
  intros Hp H. unfold mult_montgomery_c.
  destruct (Z.odd p) eqn:Ho.
  - destruct H as [H|H]; [discriminate|].
    destruct (mult_montgomery_partial_c_ok n ((y * 2 ^ Z.of_nat n) mod p) p Ho)
      as [c1 [-> _]].
    cbn [bind]. now rewrite pow_inv_fail.
  - now rewrite mult_montgomery_partial_c_fail.
Qed.

Lemma mod_exp_montgomery_fail n a p :
  1 <= n -> (1 <= p)%Z -> Z.odd p = false \/ Z.gcd a p <> 1%Z ->
  mod_exp_montgomery n a p = Raise ValueError.
Proof.
  intros Hn Hp H. unfold mod_exp_montgomery, range.
  destruct n as [|k]; [lia|]. rewrite Nat.sub_0_r.
  rewrite (for_each_raise (seq 0 (S k)) _ 0 (seq 1 k) ValueError); [reflexivity|reflexivity|].
  rewrite pow_2_0, mult_montgomery_c_fail; auto.
  destruct H as [H|H]; [now left|right]. now rewrite gcd_mod_l.
Qed.

Lemma mod_exp_montgomery_ok n a p :
  (1 <= p)%Z -> Z.odd p = true -> Z.gcd a p = 1%Z ->
  exists circ,
    mod_exp_montgomery n a p = Ok circ /\
    qregs circ = [("top"%string, n); ("bot"%string, 3 * n + 1)].
Proof.
  intros Hp Ho Hg. unfold mod_exp_montgomery.
  rewrite (for_each_ok _ _
             (fun i => append (get_data (mult_montgomery_c n ((a ^ (2 ^ Z.of_nat i)) mod p) p))
                         ([nth i (seq 0 n) 0] ++ seq n (3 * n + 1)))).
  - cbn [bind]. eexists. split; reflexivity.
  - intros i _.
    destruct (mult_montgomery_c_ok n ((a ^ (2 ^ Z.of_nat i)) mod p) p Hp Ho
                (gcd_exp_const a p i Hp Hg)) as [c [-> _]].
    reflexivity.
Qed.


(** * Preparing an input and finding the order of an element *)

Lemma exec_x_mask (b : nat -> bool) k : forall s w,
  exec (flat_map (fun i => if b i then [GX i] else []) (seq 0 k)) s w
  = if w <? k then xorb (s w) (b w) else s w.
Proof.
  induction k as [|k IH]; intros s w.
  - reflexivity.
  - rewrite flat_map_seq_S, exec_app. change (0 + k) with k.
    set (sk := exec _ s).
    assert (Hsk : forall v, sk v = if v <? k then xorb (s v) (b v) else s v)
      by (intros v; apply IH).
    destruct (b k) eqn:Eb; cbn [exec exec1].
    + unfold upd. destruct (Nat.eqb_spec w k) as [->|Hw].
      * rewrite Hsk, Nat.ltb_irrefl, Eb.
        replace (k <? S k) with true by (symmetry; apply Nat.ltb_lt; lia).
        now destruct (s k).
      * rewrite Hsk. destruct (Nat.ltb_spec w k), (Nat.ltb_spec w (S k)); auto; lia.
    + rewrite Hsk. destruct (Nat.ltb_spec w k), (Nat.ltb_spec w (S k)); auto; try lia.
      replace w with k by lia. rewrite Eb. now destruct (s k).
Qed.

Lemma set_input_bits n v s w :
  exec (data (set_input n v)) s w
  = if w <? n then xorb (s w) (Z.testbit v (Z.of_nat w)) else s w.
Proof.
  cbn [set_input data]. unfold range. rewrite Nat.sub_0_r.
  rewrite (exec_x_mask (fun i => chr_eq (rev (binary_repr v n)) i "1")).
  destruct (Nat.ltb_spec w n) as [Hw|Hw]; [|reflexivity].
  f_equal.
  pose proof (binary_repr_length v n) as Hl.
  destruct (chr_eq_digit _ _ _ (binary_repr_bits v n w ltac:(lia))) as [E _].
  exact E.
Qed.

(** ** The first element of an increasing range that passes a test *)

Lemma find_range_first (f : Z -> bool) k : forall a r,
  find f (map Z.of_nat (seq a k)) = Some r ->
  (Z.of_nat a <= r < Z.of_nat (a + k))%Z /\ f r = true /\
  forall x, (Z.of_nat a <= x < r)%Z -> f x = false.
Proof.
  induction k as [|k IH]; intros a r H; [discriminate|].
  cbn [seq map find] in H. destruct (f (Z.of_nat a)) eqn:E.
  - injection H as <-. split; [lia|]. split; [exact E|]. intros x Hx. lia.
  - apply IH in H as [H1 [H2 H3]]. split; [lia|]. split; [exact H2|].
    intros x Hx. destruct (Z.eq_dec x (Z.of_nat a)) as [->|Hne]; [exact E|].
    apply H3. lia.
Qed.

Lemma find_range_none (f : Z -> bool) k a :
  find f (map Z.of_nat (seq a k)) = None ->
  forall x, (Z.of_nat a <= x < Z.of_nat (a + k))%Z -> f x = false.
Proof.
  intros H x Hx. apply (find_none _ _ H).
  apply in_map_iff. exists (Z.to_nat x). split; [lia|]. apply in_seq. lia.
Qed.

Lemma pow_mod_one b p q :
  (2 <= p)%Z -> (0 <= q)%Z -> (b mod p = 1)%Z -> ((b ^ q) mod p = 1)%Z.
Proof.
  intros Hp Hq Hb. revert q Hq. apply natlike_ind.
  - rewrite Z.pow_0_r. apply Z.mod_small. lia.
  - intros q Hq IH. rewrite Z.pow_succ_r, Z.mul_mod, Hb, IH by lia.
    apply Z.mod_small. lia.
Qed.

Lemma get_order_spec g p r :
  get_order g p = Some r ->
  (1 <= r < p)%Z /\ ((g ^ r) mod p = 1)%Z /\
  forall x, (1 <= x < r)%Z -> ((g ^ x) mod p <> 1)%Z.
Proof.
  unfold get_order, range. intros H.
  apply find_range_first in H as [H1 [H2 H3]].
  split; [lia|]. split; [now apply Z.eqb_eq|].
  intros x Hx. apply Z.eqb_neq, H3. lia.
Qed.

(** The returned exponent is the multiplicative order. *)
Lemma get_order_divides g p r x :
  get_order g p = Some r -> (0 <= x)%Z ->
  ((g ^ x) mod p = 1)%Z <-> (r | x)%Z.
Proof.
  intros H Hx. destruct (get_order_spec g p r H) as [Hr [H1 Hmin]].
  assert (Hp : (2 <= p)%Z) by lia.
  assert (Hsplit : ((g ^ x) mod p = (g ^ (x mod r)) mod p)%Z).
  { rewrite (Z.div_mod x r) at 1 by lia.
    pose proof (Z.mod_pos_bound x r ltac:(lia)).
    pose proof (Z.div_pos x r ltac:(lia) ltac:(lia)).
    rewrite Z.pow_add_r, Z.pow_mul_r by lia.
    rewrite <- Z.mul_mod_idemp_l by lia.
    rewrite (pow_mod_one (g ^ r) p (x / r)) by (assumption || lia).
    now rewrite Z.mul_1_l. }
  pose proof (Z.mod_pos_bound x r ltac:(lia)) as Hb.
  split.
  - intros Hone. apply Z.mod_divide; [lia|].
    destruct (Z.eq_dec (x mod r) 0) as [E|E]; [exact E|exfalso].
    apply (Hmin (x mod r)%Z); [lia|]. now rewrite <- Hsplit.
  - intros Hd. apply Z.mod_divide in Hd; [|lia].
    rewrite Hsplit, Hd, Z.pow_0_r. apply Z.mod_small. lia.
Qed.

Lemma get_order_none g p :
  get_order g p = None <-> forall x, (1 <= x < p)%Z -> ((g ^ x) mod p <> 1)%Z.
Proof.
  unfold get_order, range. split.
  - intros H x Hx. apply Z.eqb_neq.
    apply (find_range_none _ _ _ H). lia.
  - intros H. destruct (find _ _) as [r|] eqn:E; [|reflexivity].
    apply find_range_first in E as [H1 [H2 _]].
    apply Z.eqb_eq in H2. exfalso. apply (H r); [lia|assumption].
Qed.

Lemma get_order_not_unit g p :
  (2 <= p)%Z -> Z.gcd g p <> 1%Z -> get_order g p = None.
Proof.
  intros Hp Hg. apply get_order_none. intros x Hx Hone. apply Hg.
  assert (Hc : Z.gcd (g ^ x) p = 1%Z).
  { rewrite <- gcd_mod_l, Hone by lia. apply Z.gcd_1_l. }
  pose proof (Z.gcd_nonneg g p) as Hn.
  destruct (Z.gcd_divide_l g p) as [u Hu].
  destruct (Z.gcd_divide_r g p) as [v Hv].
  assert (Hd : (Z.gcd g p | Z.gcd (g ^ x) p)%Z).
  { apply Z.gcd_greatest; [|exists v; exact Hv].
    replace x with (Z.succ (x - 1)) by lia. rewrite Z.pow_succ_r by lia.
    exists (u * g ^ (x - 1))%Z. rewrite Hu at 1. ring. }
  rewrite Hc in Hd. apply Z.divide_1_r_nonneg in Hd; assumption.
Qed.

(** * Running circuits on bits and phases *)

Lemma run_app gs1 gs2 s :
  run (gs1 ++ gs2) s = match run gs1 s with Some s' => run gs2 s' | None => None end.
Proof.
  revert s. induction gs1 as [|g gs1 IH]; intros s; cbn [app run]; [reflexivity|].
  destruct (run1 g s); [apply IH|reflexivity].
Qed.

Lemma runs_seq P R T gs1 gs2 :
  runs P gs1 R -> runs R gs2 T -> runs P (gs1 ++ gs2) T.
Proof.
  intros H1 H2 s Hs. destruct (H1 s Hs) as [s1 [E1 R1]].
  destruct (H2 s1 R1) as [s2 [E2 T2]]. exists s2.
  rewrite run_app, E1. auto.
Qed.

Lemma runs_weaken (P P' R R' : qstate -> Prop) gs :
  (forall s, P' s -> P s) -> (forall s, R s -> R' s) -> runs P gs R -> runs P' gs R'.
Proof.
  intros HP HR H s Hs. destruct (H s (HP s Hs)) as [s' [E Hs']]. eauto.
Qed.

Lemma runs_nil (P : qstate -> Prop) : runs P [] P.
Proof. intros s Hs. exists s. auto. Qed.

Lemma qupd_eq s q c : qupd s q c q = c.
Proof. unfold qupd. now rewrite Nat.eqb_refl. Qed.

Lemma qupd_neq s q c w : w <> q -> qupd s q c w = s w.
Proof. unfold qupd. intros H. apply Nat.eqb_neq in H. now rewrite H. Qed.

(** ** Phases up to a full turn *)

Lemma peq_refl p q : (p == q)%Q -> peq p q.
Proof. intros H. exists 0%Z. rewrite H. cbn. ring. Qed.

Lemma peq_sym p q : peq p q -> peq q p.
Proof.
  intros [m H]. exists (- m)%Z.
  replace (2 * - m)%Z with (- (2 * m))%Z by ring. rewrite inject_Z_opp, <- H. ring.
Qed.

Lemma peq_trans p q r : peq p q -> peq q r -> peq p r.
Proof.
  intros [m H] [k K]. exists (m + k)%Z.
  replace (2 * (m + k))%Z with (2 * m + 2 * k)%Z by ring.
  rewrite inject_Z_plus, <- H, <- K. ring.
Qed.

Lemma peq_add p q t u : peq p q -> (t == u)%Q -> peq (p + t) (q + u).
Proof. intros [m H] E. exists m. rewrite <- H, E. ring. Qed.

Lemma peq_add2 p q t u : peq p q -> peq t u -> peq (p + t) (q + u).
Proof.
  intros [m H] [k K]. exists (m + k)%Z.
  replace (2 * (m + k))%Z with (2 * m + 2 * k)%Z by ring.
  rewrite inject_Z_plus, <- H, <- K. ring.
Qed.

Lemma peq_Qred p q : peq p q -> peq (Qred p) q.
Proof. intros [m H]. exists m. now rewrite Qred_correct. Qed.

Lemma peq_even p m : peq (p + inject_Z (2 * m)) p.
Proof. exists m. ring. Qed.

Lemma inject_p2_nz k : ~ (inject_Z (p2 k) == 0)%Q.
Proof.
  pose proof (p2_pos k) as H. unfold Qeq. cbn. lia.
Qed.

Lemma get_angle_add k a b : (get_angle k (a + b) == get_angle k a + get_angle k b)%Q.
Proof.
  unfold get_angle. rewrite inject_Z_plus. field. apply inject_p2_nz.
Qed.

Lemma get_angle_mul k f b : (get_angle k (f * b) == inject_Z f * get_angle k b)%Q.
Proof.
  unfold get_angle. rewrite inject_Z_mult. field. apply inject_p2_nz.
Qed.

(** A multiple of [2^n] does not change the phases of an [n]-qubit
    register. *)
Lemma get_angle_period k n v j :
  k < n -> peq (get_angle k (v + j * p2 n)) (get_angle k v).
Proof.
  intros Hk. exists (j * p2 (n - k - 1))%Z.
  rewrite get_angle_add. unfold get_angle.
  replace (p2 n) with (p2 k * (2 * p2 (n - k - 1)))%Z.
  - rewrite !inject_Z_mult. field. apply inject_p2_nz.
  - rewrite <- p2_S, <- p2_add. f_equal. lia.
Qed.

Lemma get_angle_mod k n v :
  k < n -> peq (get_angle k (v mod p2 n)) (get_angle k v).
Proof.
  intros Hk. pose proof (p2_pos n) as Hp.
  replace (v mod p2 n)%Z with (v + (- (v / p2 n)) * p2 n)%Z.
  - now apply get_angle_period.
  - rewrite (Z.div_mod v (p2 n)) at 1 by lia. ring.
Qed.

Lemma fourier_mod s qs v :
  fourier s qs (v mod p2 (List.length qs)) <-> fourier s qs v.
Proof.
  unfold fourier. split; intros H k Hk; specialize (H k Hk);
    destruct (s (nth k qs 0)); cbn [is_phase] in *; try contradiction.
  - eapply peq_trans; [exact H|]. now apply get_angle_mod.
  - eapply peq_trans; [exact H|]. now apply peq_sym, get_angle_mod.
Qed.

(** * The Fourier transform and its inverse *)

Lemma testbit_S_div2 v k : Z.testbit v (Z.of_nat (S k)) = Z.testbit (v / 2) (Z.of_nat k).
Proof.
  rewrite Nat2Z.inj_succ. symmetry. apply Z.div2_bits. lia.
Qed.

Lemma basis_cons s q r v :
  basis s (q :: r) v -> s q = Bit (Z.odd v) /\ basis s r (v / 2).
Proof.
  intros H. split.
  - specialize (H 0 ltac:(cbn; lia)). cbn [nth] in H. now rewrite Z.bit0_odd in H.
  - intros k Hk. specialize (H (S k) ltac:(cbn [List.length]; lia)).
    cbn [nth] in H. now rewrite testbit_S_div2 in H.
Qed.

Lemma all_bits_basis qs : forall s v,
  basis s qs v ->
  exists bs, all_bits s qs = Some bs /\ val_of_bits bs = (v mod p2 (List.length qs))%Z.
Proof.
  induction qs as [|q r IH]; intros s v H.
  - exists []. split; [reflexivity|]. cbn [List.length val_of_bits].
    rewrite p2_0. now rewrite Z.mod_1_r.
  - apply basis_cons in H as [Hq Hr].
    destruct (IH s _ Hr) as [bs [E V]].
    exists (Z.odd v :: bs). cbn [all_bits]. rewrite Hq, E.
    split; [reflexivity|]. cbn [val_of_bits List.length]. rewrite V, p2_S.
    pose proof (p2_pos (List.length r)) as Hp.
    rewrite <- (odd_mod_2p v (p2 (List.length r))) by lia.
    rewrite <- div2_mod_2p by lia. apply b2z_odd_div.
Qed.

Lemma set_cells_spec qs f : forall s i,
  NoDup qs ->
  (forall k, k < List.length qs -> set_cells s qs f i (nth k qs 0) = f (i + k))
  /\ (forall w, ~ In w qs -> set_cells s qs f i w = s w).
Proof.
  induction qs as [|q r IH]; intros s i Hnd.
  - split; [cbn; lia|reflexivity].
  - inversion Hnd as [|? ? Hq Hr]; subst.
    destruct (IH (qupd s q (f i)) (S i) Hr) as [A B]. cbn [set_cells]. split.
    + intros k Hk. destruct k as [|k]; cbn [nth].
      * rewrite B by assumption. rewrite qupd_eq. f_equal. lia.
      * rewrite A by (cbn [List.length] in Hk; lia). f_equal. lia.
    + intros w Hw. rewrite B by (intros Hin; apply Hw; now right).
      apply qupd_neq. intros ->. apply Hw. now left.
Qed.

Lemma run1_nodup g s :
  nodupb (gate_qubits g) = true ->
  run1 g s = match g with
             | GQFT qs => qft s qs
             | GIQFT qs => iqft s qs
             | _ => run1 g s
             end.
Proof.
  intros H. destruct g; try reflexivity; unfold run1; now rewrite H.
Qed.

(** The transform of a register of bits. *)
Lemma qft_spec qs s v :
  NoDup qs -> basis s qs v ->
  exists s', run1 (GQFT qs) s = Some s' /\ fourier s' qs v /\ same_outside qs s s'.
Proof.
  intros Hnd Hb. rewrite run1_nodup by (now apply NoDup_nodupb).
  unfold qft. destruct (all_bits_basis qs s v Hb) as [bs [-> V]].
  eexists. split; [reflexivity|].
  destruct (set_cells_spec qs (fun k => Ph (get_angle k (val_of_bits bs))) s 0 Hnd)
    as [A B].
  split.
  - intros k Hk. rewrite A by assumption. cbn [Nat.add is_phase].
    rewrite V. now apply get_angle_mod.
  - intros w Hw. now apply B.
Qed.

Lemma all_phs_cells qs : forall s,
  (forall k, k < List.length qs -> exists p, s (nth k qs 0) = Ph p) ->
  exists phs, all_phs s qs = Some phs /\ List.length phs = List.length qs /\
    forall k, k < List.length qs -> s (nth k qs 0) = Ph (nth k phs 0%Q).
Proof.
  induction qs as [|q r IH]; intros s H.
  - exists []. repeat split. cbn. lia.
  - destruct (H 0 ltac:(cbn; lia)) as [p Hp]. cbn [nth] in Hp.
    destruct (IH s) as [phs [E [L C]]].
    { intros k Hk. apply (H (S k)). cbn [List.length]. lia. }
    exists (p :: phs). cbn [all_phs]. rewrite Hp, E.
    split; [reflexivity|]. split; [cbn [List.length]; lia|].
    intros k Hk. destruct k as [|k]; cbn [nth]; [exact Hp|].
    apply C. cbn [List.length] in Hk. lia.
Qed.

Lemma floor_inject q z : (q == inject_Z z)%Q -> (Qnum q / Zpos (Qden q))%Z = z.
Proof.
  unfold Qeq. cbn. intros H. rewrite Z.mul_1_r in H. rewrite H.
  apply Z.div_mul. lia.
Qed.

Lemma even_int_true q m : (q == inject_Z (2 * m))%Q -> even_int q = true.
Proof.
  intros H. unfold even_int, parity_of. rewrite (floor_inject q _ H).
  assert (E : Qeq_bool (inject_Z (2 * m)) q = true) by (apply Qeq_bool_iff; now symmetry).
  rewrite E, Z.odd_mul. reflexivity.
Qed.

Lemma parity_of_int q z : (q == inject_Z z)%Q -> parity_of q = Some (Z.odd z).
Proof.
  intros H. unfold parity_of. rewrite (floor_inject q _ H).
  assert (E : Qeq_bool (inject_Z z) q = true) by (apply Qeq_bool_iff; now symmetry).
  now rewrite E.
Qed.

Lemma fourier_cells s qs v :
  fourier s qs v -> forall k, k < List.length qs -> exists p, s (nth k qs 0) = Ph p.
Proof.
  intros H k Hk. specialize (H k Hk).
  destruct (s (nth k qs 0)) as [b|p]; [contradiction|eauto].
Qed.

(** The inverse transform of a register in the Fourier state of [v]. *)
Lemma iqft_spec qs s v :
  NoDup qs -> fourier s qs v ->
  exists s', run1 (GIQFT qs) s = Some s' /\ basis s' qs v /\ same_outside qs s s'.
Proof.
  intros Hnd Hf. rewrite run1_nodup by (now apply NoDup_nodupb).
  unfold iqft.
  destruct (all_phs_cells qs s (fourier_cells s qs v Hf)) as [phs [-> [L C]]].
  set (n := List.length qs) in *.
  set (sc := (nth (n - 1) phs 0 * inject_Z (p2 (n - 1)))%Q).
  set (v0 := ((Qnum sc / Zpos (Qden sc)) mod p2 n)%Z).
  assert (Hv0 : v0 = (v mod p2 n)%Z).
  { destruct (Nat.eq_dec n 0) as [E0|E0].
    - unfold v0. rewrite E0, p2_0, !Z.mod_1_r. reflexivity.
    - pose proof (Hf (n - 1) ltac:(lia)) as H. rewrite C in H by lia.
      destruct H as [m Hm]. cbn beta in Hm.
      assert (Hsc : (sc == inject_Z (v + m * p2 n))%Q).
      { unfold sc.
        assert (Hp : (nth (n - 1) phs 0%Q == get_angle (n - 1) v + inject_Z (2 * m))%Q)
          by (rewrite <- Hm; ring).
        rewrite Hp. unfold get_angle.
        replace (p2 n) with (2 * p2 (n - 1))%Z
          by (rewrite <- p2_S; f_equal; lia).
        rewrite inject_Z_plus, !inject_Z_mult. field. apply inject_p2_nz. }
      unfold v0. rewrite (floor_inject sc _ Hsc).
      apply Z.mod_add. pose proof (p2_pos n). lia. }
  assert (Hall : forallb (fun k => even_int (nth k phs 0%Q - get_angle k v0)%Q) (seq 0 n)
                 = true).
  { apply forallb_forall. intros k Hk. apply in_seq in Hk.
    pose proof (Hf k ltac:(lia)) as H. rewrite C in H by lia. cbn [is_phase] in H.
    assert (H' : peq (nth k phs 0%Q) (get_angle k v0)).
    { eapply peq_trans; [exact H|]. rewrite Hv0. apply peq_sym, get_angle_mod. lia. }
    destruct H' as [m Hm]. now apply (even_int_true _ m). }
  fold n sc. fold v0. rewrite Hall.
  eexists. split; [reflexivity|].
  destruct (set_cells_spec qs (fun k => Bit (Z.testbit v0 (Z.of_nat k))) s 0 Hnd) as [A B].
  split.
  - intros k Hk. rewrite A by assumption. cbn [Nat.add]. f_equal.
    rewrite Hv0. apply testbit_mod_p2. exact Hk.
  - intros w Hw. now apply B.
Qed.

(** * Rotating the qubits of a Fourier register one by one *)

Lemma nth_NoDup_neq (qs : list nat) i j :
  NoDup qs -> i < List.length qs -> j < List.length qs -> i <> j ->
  nth i qs 0 <> nth j qs 0.
Proof.
  intros Hnd Hi Hj Hij E. apply Hij. eapply NoDup_nth; eauto.
Qed.

Section PhaseLoop.
Variable qs : list nat.
Variable body : nat -> list gate.
Variable ths : nat -> Q.
Variable P : qstate -> Prop.
Variable cond : bool.

Hypothesis Hnd : NoDup qs.
Hypothesis HP : forall s s', P s -> same_outside qs s s' -> P s'.
Hypothesis Hbody : forall k s p,
  k < List.length qs -> P s -> s (nth k qs 0) = Ph p ->
  exists s' p',
    run (body k) s = Some s' /\ s' (nth k qs 0) = Ph p' /\
    (p' == p + (if cond then ths k else 0))%Q /\
    forall w, w <> nth k qs 0 -> s' w = s w.

Lemma phase_loop j : forall s,
  j <= List.length qs -> P s ->
  (forall k, k < List.length qs -> exists p, s (nth k qs 0) = Ph p) ->
  exists s',
    run (flat_map body (seq 0 j)) s = Some s' /\ P s' /\
    (forall k p, k < j -> s (nth k qs 0) = Ph p ->
       exists p', s' (nth k qs 0) = Ph p' /\ (p' == p + (if cond then ths k else 0))%Q) /\
    (forall k, j <= k < List.length qs -> s' (nth k qs 0) = s (nth k qs 0)) /\
    same_outside qs s s'.
Proof.
  induction j as [|j IH]; intros s Hj Ps Hc.
  - exists s. cbn [seq flat_map run]. repeat split; auto. intros; lia.
  - destruct (IH s ltac:(lia) Ps Hc) as [s1 [E1 [P1 [A1 [B1 F1]]]]].
    destruct (Hc j ltac:(lia)) as [pj Hpj].
    assert (Hs1j : s1 (nth j qs 0) = Ph pj) by (rewrite B1 by lia; exact Hpj).
    destruct (Hbody j s1 pj ltac:(lia) P1 Hs1j) as [s2 [p' [E2 [C2 [Q2 F2]]]]].
    exists s2. rewrite flat_map_seq_S, run_app, E1. change (0 + j) with j.
    split; [exact E2|]. split.
    { apply (HP s1); [exact P1|]. intros w Hw. apply F2.
      intros ->. apply Hw. apply nth_In. lia. }
    split; [|split].
    + intros k p Hk Hp. destruct (Nat.eq_dec k j) as [->|Hkj].
      * exists p'. split; [exact C2|]. rewrite Hpj in Hp. injection Hp as <-. exact Q2.
      * destruct (A1 k p ltac:(lia) Hp) as [p1 [D1 D2]].
        exists p1. split; [|exact D2].
        rewrite F2; [exact D1|]. apply nth_NoDup_neq; auto; lia.
    + intros k Hk. rewrite F2 by (apply nth_NoDup_neq; auto; lia).
      apply B1. lia.
    + intros w Hw. rewrite F2; [now apply F1|].
      intros ->. apply Hw. apply nth_In. lia.
Qed.

(** On a register in the Fourier state of [v], rotations by the angles of
    [c] add [c]. *)
Lemma phase_loop_fourier f c v s :
  (forall k, k < List.length qs -> peq (ths k) (inject_Z f * get_angle k c)) ->
  P s -> fourier s qs v ->
  exists s',
    run (flat_map body (seq 0 (List.length qs))) s = Some s' /\ P s' /\
    fourier s' qs (if cond then v + f * c else v) /\ same_outside qs s s'.
Proof.
  intros Hth Ps Hf.
  destruct (phase_loop (List.length qs) s (le_n _) Ps (fourier_cells s qs v Hf))
    as [s' [E [P' [A [_ F]]]]].
  exists s'. split; [exact E|]. split; [exact P'|]. split; [|exact F].
  intros k Hk. pose proof (Hf k Hk) as H.
  destruct (s (nth k qs 0)) as [b|p] eqn:Ec; [contradiction|].
  destruct (A k p Hk Ec) as [p1 [-> Hp1]]. cbn [is_phase] in *.
  destruct cond.
  - eapply peq_trans; [apply peq_refl, Hp1|].
    eapply peq_trans; [apply (peq_add2 p _ (ths k) (inject_Z f * get_angle k c) H), Hth;
                       exact Hk|].
    apply peq_refl. rewrite get_angle_add, get_angle_mul. reflexivity.
  - eapply peq_trans; [apply peq_refl, Hp1|].
    eapply peq_trans; [|exact H]. apply peq_refl. ring.
Qed.
End PhaseLoop.

(** * The Draper adders *)

Lemma append_flat_map (f : nat -> list gate) l q :
  append (flat_map f l) q = flat_map (fun i => append (f i) q) l.
Proof.
  unfold append. induction l as [|x l IH]; cbn [flat_map map]; [reflexivity|].
  now rewrite map_app, IH.
Qed.

Lemma add_phase_ph s q p th :
  s q = Ph p -> add_phase s q th = qupd s q (Ph (Qred (p + th))).
Proof. intros H. unfold add_phase. now rewrite H. Qed.

Lemma run_gp th q s p :
  s q = Ph p ->
  exists s' p',
    run [GP th q] s = Some s' /\ s' q = Ph p' /\ (p' == p + th)%Q /\
    forall w, w <> q -> s' w = s w.
Proof.
  intros H. exists (qupd s q (Ph (Qred (p + th)))), (Qred (p + th)).
  cbn [run]. unfold run1. cbn [gate_qubits nodupb existsb negb andb].
  rewrite (add_phase_ph s q p th H).
  split; [reflexivity|]. split; [apply qupd_eq|]. split; [apply Qred_correct|].
  intros w Hw. now apply qupd_neq.
Qed.

Lemma nodupb_pair a b : a <> b -> nodupb [a; b] = true.
Proof.
  intros H. cbn [nodupb existsb]. apply Nat.eqb_neq in H. now rewrite H.
Qed.

Lemma run_gcp th c q s (cb : bool) p :
  c <> q -> s c = Bit cb -> s q = Ph p ->
  exists s' p',
    run [GCP th c q] s = Some s' /\ s' q = Ph p' /\
    (p' == p + (if cb then th else 0))%Q /\
    forall w, w <> q -> s' w = s w.
Proof.
  intros Hcq Hc Hq. cbn [run]. unfold run1. cbn [gate_qubits].
  rewrite (nodupb_pair c q Hcq). cbn [negb]. rewrite Hc, Hq.
  destruct cb.
  - rewrite (add_phase_ph s q p th Hq).
    exists (qupd s q (Ph (Qred (p + th)))), (Qred (p + th)).
    split; [reflexivity|]. split; [apply qupd_eq|]. split; [apply Qred_correct|].
    intros w Hw. now apply qupd_neq.
  - exists s, p. split; [reflexivity|]. split; [exact Hq|]. split; [ring|]. auto.
Qed.

(** The phase adder on the wires [qs]. *)
Lemma phi_add_builtin_run n b f qs s v :
  List.length qs = n -> NoDup qs -> fourier s qs v ->
  exists s',
    run (append (data (phi_add_builtin n b f)) qs) s = Some s' /\
    fourier s' qs (v + f * b) /\ same_outside qs s s'.
Proof.
  intros Hl Hnd Hf. cbn [phi_add_builtin data]. unfold range.
  rewrite append_flat_map, Nat.sub_0_r, <- Hl.
  destruct (phase_loop_fourier qs
              (fun k => append [GP (inject_Z f * get_angle k b) k] qs)
              (fun k => (inject_Z f * get_angle k b)%Q)
              (fun _ => True) true Hnd) with (f := f) (c := b) (v := v) (s := s)
    as [s' [E [_ [F O]]]]; auto.
  - intros k s0 p Hk _ Hp. cbn [append map remap]. now apply run_gp.
  - intros k Hk. now apply peq_refl.
  - exists s'. auto.
Qed.

(** The controlled phase adder on the wires [c :: qs]. *)
Lemma phi_addition_controlled_run n b f c qs s v (cb : bool) :
  List.length qs = n -> NoDup (c :: qs) -> s c = Bit cb -> fourier s qs v ->
  exists s',
    run (append (data (phi_addition_controlled n b f)) (c :: qs)) s = Some s' /\
    fourier s' qs (if cb then v + f * b else v) /\ same_outside qs s s'.
Proof.
  intros Hl Hnd Hc Hf. inversion Hnd as [|? ? Hcq Hq]; subst.
  unfold phi_addition_controlled. cbn [phi_addition_controlled_ignorebits data].
  unfold range. rewrite append_flat_map, Nat.sub_0_r.
  destruct (phase_loop_fourier qs
              (fun k => append (if k <? 0 then []
                                else [GCP (inject_Z f * get_angle k b) 0 (1 + (k - 0))])
                          (c :: qs))
              (fun k => (inject_Z f * get_angle k b)%Q)
              (fun s0 => s0 c = Bit cb) cb Hq) with (f := f) (c := b) (v := v) (s := s)
    as [s' [E [_ [F O]]]]; auto.
  - intros s0 s1 H0 H1. rewrite H1; assumption.
  - intros k s0 p Hk H0 Hp. rewrite Nat.sub_0_r. cbn [Nat.ltb Nat.leb append map remap].
    unfold wire. cbn [nth Nat.add].
    apply run_gcp; auto. intros ->. apply Hcq. apply nth_In. exact Hk.
  - intros k Hk. now apply peq_refl.
  - exists s'. auto.
Qed.

Lemma run_cons g r s s1 : run [g] s = Some s1 -> run (g :: r) s = run r s1.
Proof.
  cbn [run]. destruct (run1 g s); [|discriminate]. intros H. now injection H as ->.
Qed.

Lemma run_gcx c t s (cb tb : bool) :
  c <> t -> s c = Bit cb -> s t = Bit tb ->
  exists s',
    run [GCX c t] s = Some s' /\ s' t = Bit (xorb tb cb) /\
    forall w, w <> t -> s' w = s w.
Proof.
  intros Hct Hc Ht. cbn [run]. unfold run1. cbn [gate_qubits].
  rewrite (nodupb_pair c t Hct). cbn [negb]. rewrite Hc.
  destruct cb.
  - unfold flip. rewrite Ht. eexists. split; [reflexivity|].
    split; [rewrite qupd_eq; now destruct tb|]. intros w Hw. now apply qupd_neq.
  - exists s. split; [reflexivity|]. split; [now rewrite Ht, xorb_false_r|]. auto.
Qed.

(** The doubly controlled phase gate built from five gates. *)
Lemma run_ccp th c0 c1 q s (b0 b1 : bool) p :
  c0 <> c1 -> c0 <> q -> c1 <> q ->
  s c0 = Bit b0 -> s c1 = Bit b1 -> s q = Ph p ->
  exists s' p',
    run (append (data (ccp th)) [c0; c1; q]) s = Some s' /\ s' q = Ph p' /\
    (p' == p + (if b0 && b1 then th else 0))%Q /\
    forall w, w <> q -> s' w = s w.
Proof.
  intros H01 H0q H1q E0 E1 Eq.
  cbn [ccp data append map remap]. unfold wire. cbn [nth].
  destruct (run_gcp (th / 2) c1 q s b1 p H1q E1 Eq) as [s1 [p1 [R1 [Q1 [V1 F1]]]]].
  destruct (run_gcx c0 c1 s1 b0 b1 H01) as [s2 [R2 [Q2 F2]]];
    [rewrite F1; auto|rewrite F1; auto|].
  destruct (run_gcp (- th / 2) c1 q s2 (xorb b1 b0) p1 H1q Q2) as [s3 [p3 [R3 [Q3 [V3 F3]]]]];
    [rewrite F2; auto|].
  destruct (run_gcx c0 c1 s3 b0 (xorb b1 b0) H01) as [s4 [R4 [Q4 F4]]];
    [rewrite F3, F2, F1; auto|rewrite F3; auto|].
  destruct (run_gcp (th / 2) c0 q s4 b0 p3 H0q) as [s5 [p5 [R5 [Q5 [V5 F5]]]]];
    [rewrite F4, F3, F2, F1; auto|rewrite F4; auto|].
  exists s5, p5.
  rewrite (run_cons _ _ _ _ R1), (run_cons _ _ _ _ R2), (run_cons _ _ _ _ R3),
    (run_cons _ _ _ _ R4).
  split; [exact R5|]. split; [exact Q5|]. split.
  - rewrite V5, V3, V1. destruct b0, b1; cbn [xorb andb]; field.
  - intros w Hw. rewrite F5 by assumption.
    destruct (Nat.eq_dec w c1) as [->|Hw1].
    + rewrite Q4, E1. f_equal. now destruct b0, b1.
    + rewrite F4, F3, F2, F1 by assumption. reflexivity.
Qed.

(** The doubly controlled phase adder on the wires [c0 :: c1 :: qs]. *)
Lemma phi_addition_cc_run n b f c0 c1 qs s v (b0 b1 : bool) :
  List.length qs = n -> NoDup (c0 :: c1 :: qs) ->
  s c0 = Bit b0 -> s c1 = Bit b1 -> fourier s qs v ->
  exists s',
    run (append (data (phi_addition_cc n b f)) ([c0; c1] ++ qs)) s = Some s' /\
    fourier s' qs (if b0 && b1 then v + f * b else v) /\ same_outside qs s s'.
Proof.
  intros Hl Hnd E0 E1 Hf.
  inversion Hnd as [|? ? H0 Hnd1]; subst. inversion Hnd1 as [|? ? H1 Hq]; subst.
  cbn [phi_addition_cc data]. unfold range.
  rewrite append_flat_map, Nat.sub_0_r.
  destruct (phase_loop_fourier qs
              (fun k => append (append (data (ccp (inject_Z f * get_angle k b)))
                                  (seq 0 2 ++ [2 + k])) ([c0; c1] ++ qs))
              (fun k => (inject_Z f * get_angle k b)%Q)
              (fun s0 => s0 c0 = Bit b0 /\ s0 c1 = Bit b1) (b0 && b1) Hq)
    with (f := f) (c := b) (v := v) (s := s)
    as [s' [E [_ [F O]]]]; auto.
  - intros s0 s1 [A0 A1] H. rewrite !H; auto. intros Hin. apply H0. now right.
  - intros k s0 p Hk [A0 A1] Hp.
    assert (Hin : In (nth k qs 0) qs) by (apply nth_In; exact Hk).
    destruct (run_ccp (inject_Z f * get_angle k b) c0 c1 (nth k qs 0) s0 b0 b1 p)
      as [s1 [p1 [R [C [V Fr]]]]]; auto.
    + intros ->. apply H0. now left.
    + intros ->. apply H0. now right.
    + intros ->. now apply H1.
    + exists s1, p1. split; [exact R|]. auto.
  - intros k Hk. now apply peq_refl.
  - exists s'. auto.
Qed.

(** * Reading registers; the Draper adder on basis states *)

Lemma even_int_inv q : even_int q = true -> exists m : Z, (q == inject_Z (2 * m))%Q.
Proof.
  unfold even_int, parity_of.
  destruct (Qeq_bool _ q) eqn:E; [|discriminate].
  destruct (Z.odd _) eqn:O; [discriminate|]. intros _.
  apply Qeq_bool_iff in E.
  rewrite <- Z.negb_even in O. apply negb_false_iff, Z.even_spec in O.
  destruct O as [m Hm]. exists m. rewrite <- Hm. now symmetry.
Qed.

Lemma fourierb_iff s qs v : fourierb s qs v = true <-> fourier s qs v.
Proof.
  unfold fourierb, fourier. rewrite forallb_forall. split.
  - intros H k Hk. specialize (H k ltac:(apply in_seq; lia)).
    destruct (s (nth k qs 0)) as [b|p]; [discriminate|].
    cbn [is_phase]. now apply even_int_inv.
  - intros H k Hk. apply in_seq in Hk. specialize (H k ltac:(lia)).
    destruct (s (nth k qs 0)) as [b|p]; [contradiction|].
    destruct H as [m Hm]. now apply (even_int_true _ m).
Qed.

Lemma all_bits_cells qs : forall s bs,
  all_bits s qs = Some bs ->
  List.length bs = List.length qs /\
  forall k, k < List.length qs -> s (nth k qs 0) = Bit (nth k bs false).
Proof.
  induction qs as [|q r IH]; intros s bs H; cbn [all_bits] in H.
  - injection H as <-. split; [reflexivity|]. cbn. lia.
  - destruct (s q) as [b|] eqn:Eq; [|discriminate].
    destruct (all_bits s r) as [bs'|] eqn:Er; [|discriminate].
    injection H as <-. destruct (IH s bs' Er) as [L C].
    split; [cbn [List.length]; lia|].
    intros k Hk. destruct k as [|k]; cbn [nth]; [exact Eq|].
    apply C. cbn [List.length] in Hk. lia.
Qed.

Lemma testbit_val_of_bits bs : forall k,
  Z.testbit (val_of_bits bs) (Z.of_nat k) = nth k bs false.
Proof.
  induction bs as [|b bs IH]; intros k; cbn [val_of_bits].
  - rewrite Z.testbit_0_l. now destruct k.
  - destruct k as [|k]; cbn [nth].
    + rewrite Z.bit0_odd, Z.odd_add_mul_2. now destruct b.
    + rewrite testbit_S_div2, <- IH. f_equal.
      rewrite Z.add_comm, Z.mul_comm, Z.div_add_l by lia.
      destruct b; cbn [Z.b2z];
        [change (1 / 2)%Z with 0%Z|change (0 / 2)%Z with 0%Z]; lia.
Qed.

Lemma val_of_bits_bound bs : (0 <= val_of_bits bs < p2 (List.length bs))%Z.
Proof.
  induction bs as [|b bs IH]; cbn [val_of_bits List.length].
  - rewrite p2_0. lia.
  - rewrite p2_S. destruct b; cbn [Z.b2z]; lia.
Qed.

Lemma read_val_basis s qs x :
  read_val s qs = Some x -> basis s qs x /\ (0 <= x < p2 (List.length qs))%Z.
Proof.
  unfold read_val. destruct (all_bits s qs) as [bs|] eqn:E; [|discriminate].
  intros H. injection H as <-. destruct (all_bits_cells qs s bs E) as [L C].
  split.
  - intros k Hk. rewrite C by assumption. now rewrite testbit_val_of_bits.
  - rewrite <- L. apply val_of_bits_bound.
Qed.

Lemma basis_read_val s qs v :
  basis s qs v -> read_val s qs = Some (v mod p2 (List.length qs))%Z.
Proof.
  intros H. unfold read_val. destruct (all_bits_basis qs s v H) as [bs [-> V]].
  now rewrite V.
Qed.

Lemma append_QFT n qs : List.length qs = n -> append (QFT n) qs = [GQFT qs].
Proof.
  intros <-. unfold QFT. cbn [append map remap]. now rewrite map_wire_seq_all.
Qed.

Lemma append_IQFT n qs : List.length qs = n -> append (inverse (QFT n)) qs = [GIQFT qs].
Proof.
  intros <-. unfold QFT, inverse. cbn [append map rev app inverse_gate remap].
  now rewrite map_wire_seq_all.
Qed.

Lemma run_single g s : run [g] s = run1 g s.
Proof. cbn [run]. now destruct (run1 g s). Qed.

Lemma same_outside_trans qs s0 s1 s2 :
  same_outside qs s0 s1 -> same_outside qs s1 s2 -> same_outside qs s0 s2.
Proof. intros H1 H2 w Hw. rewrite H2, H1; auto. Qed.

(** [add_draper]: transform, rotate, transform back. *)
Lemma add_draper_run n b f s x :
  basis s (seq 0 n) x ->
  exists s',
    run (data (add_draper n b f)) s = Some s' /\
    basis s' (seq 0 n) (x + f * b) /\ same_outside (seq 0 n) s s'.
Proof.
  intros Hb. cbn [add_draper data].
  rewrite append_QFT, append_IQFT by apply length_seq.
  destruct (qft_spec (seq 0 n) s x (seq_NoDup n 0) Hb) as [s1 [R1 [F1 O1]]].
  destruct (phi_add_builtin_run n b f (seq 0 n) s1 x (length_seq n 0) (seq_NoDup n 0) F1)
    as [s2 [R2 [F2 O2]]].
  destruct (iqft_spec (seq 0 n) s2 _ (seq_NoDup n 0) F2) as [s3 [R3 [F3 O3]]].
  exists s3. rewrite run_app, run_single, R1, run_app, R2, run_single.
  split; [exact R3|]. split; [exact F3|].
  eapply same_outside_trans; [|exact O3]. eapply same_outside_trans; eauto.
Qed.

(** * The Beauregard modular adder *)

(** The top bit of an [m+1]-bit two's-complement number is its sign. *)
Lemma sign_bit v m :
  (- p2 m <= v < p2 m)%Z -> Z.testbit v (Z.of_nat m) = (v <? 0)%Z.
Proof.
  intros Hv. pose proof (p2_pos m) as Hp.
  assert (Ht : Z.b2z (Z.testbit v (Z.of_nat m)) = ((v / p2 m) mod 2)%Z).
  { apply Z.testbit_spec'. lia. }
  destruct (Z.ltb_spec v 0) as [Hneg|Hpos].
  - replace (v / p2 m)%Z with (-1)%Z in Ht.
    + destruct (Z.testbit v (Z.of_nat m)); [reflexivity|discriminate].
    + apply Z.div_unique with (r := (v + p2 m)%Z); lia.
  - rewrite Z.div_small in Ht by lia.
    destruct (Z.testbit v (Z.of_nat m)); [discriminate|reflexivity].
Qed.

Section RegisterSteps.
Variable n : nat.
Variable reg : list nat.
Variable aux : nat.
Variable s0 : qstate.

Hypothesis Hlen : List.length reg = n.
Hypothesis Hnd : NoDup (aux :: reg).

Lemma reg_nodup : NoDup reg.
Proof. now inversion Hnd. Qed.

Lemma aux_fresh : ~ In aux reg.
Proof. now inversion Hnd. Qed.

Lemma outside_step s s' :
  same_outside reg s s' -> same_outside (aux :: reg) s0 s ->
  same_outside (aux :: reg) s0 s'.
Proof.
  intros H1 H2 w Hw. rewrite H1; [now apply H2|].
  intros Hin. apply Hw. now right.
Qed.

Lemma step_add c f v b :
  runs (inF reg aux s0 v b) (append (data (phi_add_builtin n c f)) reg) (inF reg aux s0 (v + f * c) b).
Proof.
  intros s [Hf [Ha Ho]]. unfold inF, inB.
  destruct (phi_add_builtin_run n c f reg s v Hlen reg_nodup Hf) as [s' [R [F O]]].
  exists s'. split; [exact R|]. split; [exact F|]. split.
  - rewrite O; [assumption|apply aux_fresh].
  - now apply (outside_step s).
Qed.

Lemma step_cadd c f v b :
  runs (inF reg aux s0 v b) (append (data (phi_addition_controlled n c f)) ([aux] ++ reg))
       (inF reg aux s0 (if b then v + f * c else v) b).
Proof.
  intros s [Hf [Ha Ho]]. unfold inF, inB.
  destruct (phi_addition_controlled_run n c f aux reg s v b Hlen Hnd Ha Hf)
    as [s' [R [F O]]].
  exists s'. split; [exact R|]. split; [exact F|]. split.
  - rewrite O; [assumption|apply aux_fresh].
  - now apply (outside_step s).
Qed.

Lemma step_iqft v b : runs (inF reg aux s0 v b) (append (inverse (QFT n)) reg) (inB reg aux s0 v b).
Proof.
  intros s [Hf [Ha Ho]]. unfold inF, inB. rewrite append_IQFT, run_single by assumption.
  destruct (iqft_spec reg s v reg_nodup Hf) as [s' [R [F O]]].
  exists s'. split; [exact R|]. split; [exact F|]. split.
  - rewrite O; [assumption|apply aux_fresh].
  - now apply (outside_step s).
Qed.

Lemma step_qft v b : runs (inB reg aux s0 v b) (append (QFT n) reg) (inF reg aux s0 v b).
Proof.
  intros s [Hf [Ha Ho]]. unfold inF, inB. rewrite append_QFT, run_single by assumption.
  destruct (qft_spec reg s v reg_nodup Hf) as [s' [R [F O]]].
  exists s'. split; [exact R|]. split; [exact F|]. split.
  - rewrite O; [assumption|apply aux_fresh].
  - now apply (outside_step s).
Qed.

Hypothesis Hn : 1 <= n.

Let msb := nth (n - 1) reg 0.

Lemma msb_in_reg : In msb reg.
Proof. apply nth_In. lia. Qed.

Lemma msb_not_aux : msb <> aux.
Proof. intros E. apply aux_fresh. rewrite <- E. exact msb_in_reg. Qed.

(** Copying the top bit of the register to the ancilla. *)
Lemma step_cx v b :
  runs (inB reg aux s0 v b) [GCX msb aux] (inB reg aux s0 v (xorb b (Z.testbit v (Z.of_nat (n - 1))))).
Proof.
  intros s [Hf [Ha Ho]]. unfold inF, inB.
  pose proof (Hf (n - 1) ltac:(lia)) as Hm. fold msb in Hm.
  destruct (run_gcx msb aux s _ b msb_not_aux Hm Ha) as [s' [R [Q F]]].
  exists s'. split; [exact R|]. split; [|split].
  - intros k Hk. rewrite F; [now apply Hf|].
    intros E. apply aux_fresh. rewrite <- E. apply nth_In. exact Hk.
  - exact Q.
  - intros w Hw. rewrite F; [now apply Ho|]. intros ->. apply Hw. now left.
Qed.

Lemma run_gx q s (b : bool) :
  s q = Bit b ->
  exists s', run [GX q] s = Some s' /\ s' q = Bit (negb b) /\
             forall w, w <> q -> s' w = s w.
Proof.
  intros H. cbn [run]. unfold run1. cbn [gate_qubits nodupb existsb negb andb].
  unfold flip. rewrite H. eexists. split; [reflexivity|].
  split; [apply qupd_eq|]. intros w Hw. now apply qupd_neq.
Qed.

(** Copying the complement of the top bit to the ancilla. *)
Lemma step_xcx v b :
  runs (inB reg aux s0 v b) ([GX msb] ++ [GCX msb aux] ++ [GX msb])
       (inB reg aux s0 v (xorb b (negb (Z.testbit v (Z.of_nat (n - 1)))))).
Proof.
  intros s [Hf [Ha Ho]]. unfold inF, inB.
  pose proof (Hf (n - 1) ltac:(lia)) as Hm. fold msb in Hm.
  destruct (run_gx msb s _ Hm) as [s1 [R1 [Q1 F1]]].
  assert (Ham : aux <> msb) by (intros E; now apply msb_not_aux).
  destruct (run_gcx msb aux s1 _ b msb_not_aux Q1) as [s2 [R2 [Q2 F2]]];
    [rewrite F1; auto|].
  destruct (run_gx msb s2 (negb (Z.testbit v (Z.of_nat (n - 1))))) as [s3 [R3 [Q3 F3]]];
    [rewrite F2; auto|].
  exists s3. rewrite run_app, R1, run_app, R2. split; [exact R3|].
  split; [|split].
  - intros k Hk. destruct (Nat.eq_dec (nth k reg 0) msb) as [E|E].
    + rewrite E, Q3, negb_involutive.
      assert (k = n - 1); [|now subst].
      apply (proj1 (NoDup_nth reg 0) reg_nodup); [lia|lia|exact E].
    + rewrite F3, F2, F1; auto.
      intros E'. apply aux_fresh. rewrite <- E'. apply nth_In. exact Hk.
  - rewrite F3, Q2 by auto. reflexivity.
  - intros w Hw.
    assert (w <> msb) by (intros E; apply Hw; right; rewrite E; apply msb_in_reg).
    assert (w <> aux) by (intros ->; apply Hw; now left).
    rewrite F3, F2, F1 by assumption. now apply Ho.
Qed.
End RegisterSteps.

(** * The modular adder in Fourier space *)

Section BrgModAdd.
Variable n : nat.
Variable reg : list nat.
Variable aux : nat.
Variable s0 : qstate.
Variables N yc : Z.
Variables ADDY SUBY : list gate.

Hypothesis Hlen : List.length reg = n.
Hypothesis Hnd : NoDup (aux :: reg).
Hypothesis Hn : 1 <= n.
Hypothesis Hy : (0 <= yc < N)%Z.
Hypothesis HN : (N <= p2 (n - 1))%Z.
Hypothesis HADD : forall v b,
  runs (inF reg aux s0 v b) ADDY (inF reg aux s0 (v + yc) b).
Hypothesis HSUB : forall v b,
  runs (inF reg aux s0 v b) SUBY (inF reg aux s0 (v - yc) b).

Let msb := nth (n - 1) reg 0.

(** Add, subtract [N], look at the sign, add [N] back if negative,
    subtract, look at the sign again to clear the ancilla, add. *)
Lemma brg_mod_add a :
  (0 <= a < N)%Z ->
  runs (inF reg aux s0 a false)
    (ADDY
     ++ append (data (phi_add_builtin n N (-1))) reg
     ++ append (inverse (QFT n)) reg
     ++ [GCX msb aux]
     ++ append (QFT n) reg
     ++ append (data (phi_addition_controlled n N 1)) ([aux] ++ reg)
     ++ SUBY
     ++ append (inverse (QFT n)) reg
     ++ [GX msb] ++ [GCX msb aux] ++ [GX msb]
     ++ append (QFT n) reg
     ++ ADDY)
    (inF reg aux s0 ((a + yc) mod N) false).
Proof.
  intros Ha.
  set (v2 := (a + yc + -1 * N)%Z).
  set (b3 := xorb false (Z.testbit v2 (Z.of_nat (n - 1)))).
  set (v4 := if b3 then (v2 + 1 * N)%Z else v2).
  set (v5 := (v4 - yc)%Z).
  set (b6 := xorb b3 (negb (Z.testbit v5 (Z.of_nat (n - 1))))).
  assert (E3 : b3 = (v2 <? 0)%Z).
  { unfold b3. rewrite xorb_false_l. apply sign_bit. unfold v2. lia. }
  assert (E4 : v4 = ((a + yc) mod N)%Z).
  { unfold v4. rewrite E3. unfold v2.
    destruct (Z.ltb_spec (a + yc + -1 * N) 0).
    - rewrite Z.mod_small by lia. lia.
    - destruct (mod_cases (a + yc) N) as [[A B]|[A B]]; lia. }
  assert (E5 : Z.testbit v5 (Z.of_nat (n - 1)) = negb b3).
  { rewrite sign_bit.
    - rewrite E3. unfold v5, v4. rewrite E3. unfold v2.
      destruct (Z.ltb_spec (a + yc + -1 * N) 0); cbn [negb].
      + apply Z.ltb_ge. lia.
      + apply Z.ltb_lt. lia.
    - unfold v5. rewrite E4.
      pose proof (Z.mod_pos_bound (a + yc) N ltac:(lia)). lia. }
  assert (E6 : b6 = false).
  { unfold b6. rewrite E5, negb_involutive. apply xorb_nilpotent. }
  assert (E7 : (v5 + yc = (a + yc) mod N)%Z) by (unfold v5; lia).
  set (gs := ADDY ++ _).
  assert (H : runs (inF reg aux s0 a false) gs (inF reg aux s0 (v5 + yc) b6));
    [unfold gs|rewrite E7, E6 in H; exact H].
  eapply runs_seq; [apply HADD|].
  eapply runs_seq; [apply (step_add n reg aux s0 Hlen Hnd N (-1))|]. fold v2.
  eapply runs_seq; [apply (step_iqft n reg aux s0 Hlen Hnd)|].
  eapply runs_seq; [apply (step_cx n reg aux s0 Hlen Hnd Hn)|]. fold b3.
  eapply runs_seq; [apply (step_qft n reg aux s0 Hlen Hnd)|].
  eapply runs_seq; [apply (step_cadd n reg aux s0 Hlen Hnd N 1)|]. fold v4.
  eapply runs_seq; [apply HSUB|]. fold v5.
  eapply runs_seq; [apply (step_iqft n reg aux s0 Hlen Hnd)|].
  change ([GX msb] ++ [GCX msb aux] ++ [GX msb] ++ append (QFT n) reg ++ ADDY)
    with (([GX msb] ++ [GCX msb aux] ++ [GX msb]) ++ append (QFT n) reg ++ ADDY).
  eapply runs_seq; [apply (step_xcx n reg aux s0 Hlen Hnd Hn)|]. fold b6.
  eapply runs_seq; [apply (step_qft n reg aux s0 Hlen Hnd)|].
  apply HADD.
Qed.
End BrgModAdd.

Lemma NoDup_aux_seq off n : NoDup ((off + n) :: seq off n).
Proof.
  constructor; [|apply seq_NoDup]. rewrite in_seq. lia.
Qed.

(** [phi_add_mod_N]: the register (cells [0..n-1]) goes from the Fourier
    state of [a] to that of [(a + y) mod N]; the ancilla (cell [n]) starts
    and ends at 0. *)
Lemma phi_add_mod_N_run n y N a s0 :
  1 <= n -> (0 <= y < N)%Z -> (N <= p2 (n - 1))%Z -> (0 <= a < N)%Z ->
  runs (inF (seq 0 n) n s0 a false) (data (phi_add_mod_N n y N))
       (inF (seq 0 n) n s0 ((a + y) mod N) false).
Proof.
  intros Hn Hy HN Ha. cbn [phi_add_mod_N data].
  pose proof (NoDup_aux_seq 0 n) as Hnd. cbn [Nat.add] in Hnd.
  apply (brg_mod_add n (seq 0 n) n s0 N y); auto using length_seq.
  - intros v b. replace (v + y)%Z with (v + 1 * y)%Z by lia.
    apply step_add; auto using length_seq.
  - intros v b. replace (v - y)%Z with (v + -1 * y)%Z by lia.
    apply step_add; auto using length_seq.
Qed.

Lemma step_ccadd n reg aux s0 c0 c1 (b0 b1 : bool) c f v b :
  List.length reg = n -> NoDup (aux :: reg) -> NoDup (c0 :: c1 :: reg) ->
  c0 <> aux -> c1 <> aux -> s0 c0 = Bit b0 -> s0 c1 = Bit b1 ->
  runs (inF reg aux s0 v b)
       (append (data (phi_addition_cc n c f)) ([c0; c1] ++ reg))
       (inF reg aux s0 (if b0 && b1 then v + f * c else v) b).
Proof.
  intros Hlen Hnd Hndc H0a H1a E0 E1 s [Hf [Ha Ho]].
  assert (Hc0 : ~ In c0 (aux :: reg)).
  { inversion Hndc as [|? ? A B]; subst. intros [E|E]; [congruence|].
    apply A. now right. }
  assert (Hc1 : ~ In c1 (aux :: reg)).
  { inversion Hndc as [|? ? A B]; subst. inversion B as [|? ? C D]; subst.
    intros [E|E]; [congruence|]. now apply C. }
  destruct (phi_addition_cc_run n c f c0 c1 reg s v b0 b1 Hlen Hndc)
    as [s' [R [F O]]]; auto.
  - rewrite Ho; assumption.
  - rewrite Ho; assumption.
  - exists s'. split; [exact R|]. split; [exact F|]. split.
    + rewrite O; [assumption|]. now inversion Hnd.
    + now apply (outside_step reg aux s0 s).
Qed.

(** [phi_add_mod_N_cc]: the same under two controls (cells 0 and 1); the
    register is cells [2..n+1] and the ancilla cell [n+2]. *)
Lemma phi_add_mod_N_cc_run n y N a s0 (b0 b1 : bool) :
  1 <= n -> (0 <= y < N)%Z -> (N <= p2 (n - 1))%Z -> (0 <= a < N)%Z ->
  s0 0 = Bit b0 -> s0 1 = Bit b1 ->
  runs (inF (seq 2 n) (2 + n) s0 a false) (data (phi_add_mod_N_cc n y N))
       (inF (seq 2 n) (2 + n) s0 (if b0 && b1 then (a + y) mod N else a) false).
Proof.
  intros Hn Hy HN Ha E0 E1. cbn [phi_add_mod_N_cc data].
  pose proof (NoDup_aux_seq 2 n) as Hnd.
  assert (Hndc : NoDup (0 :: 1 :: seq 2 n)).
  { change (0 :: 1 :: seq 2 n) with (seq 0 (S (S n))). apply seq_NoDup. }
  set (yc := if b0 && b1 then y else 0%Z).
  assert (Er : (if b0 && b1 then (a + y) mod N else a)%Z = ((a + yc) mod N)%Z).
  { unfold yc. destruct (b0 && b1); [reflexivity|].
    rewrite Z.add_0_r, Z.mod_small; lia. }
  rewrite Er. change (seq 0 2) with [0; 1].
  apply (brg_mod_add n (seq 2 n) (2 + n) s0 N yc); auto using length_seq.
  - unfold yc. destruct (b0 && b1); lia.
  - intros v b.
    replace (v + yc)%Z with (if b0 && b1 then v + 1 * y else v)%Z
      by (unfold yc; destruct (b0 && b1); lia).
    apply step_ccadd; auto using length_seq; lia.
  - intros v b.
    replace (v - yc)%Z with (if b0 && b1 then v + -1 * y else v)%Z
      by (unfold yc; destruct (b0 && b1); lia).
    apply step_ccadd; auto using length_seq; lia.
Qed.

(** * The adder with one rotation per bit of the constant *)

(** The rotations applied to qubit [k] for the bits [0 .. m-1] of the
    constant add up to [factor * (b mod 2^m) * pi / 2^k]. *)
Lemma run_bit_rotations (bits : nat -> bool) f k q m : forall s p,
  m <= k + 1 -> s q = Ph p ->
  exists s' p',
    run (flat_map (fun i =>
           if bits i
           then [GP (inject_Z f * 2 / inject_Z (2 ^ Z.of_nat (k - i + 1))) q]
           else []) (seq 0 m)) s = Some s' /\
    s' q = Ph p' /\
    (p' == p + inject_Z f * get_angle k (val bits m))%Q /\
    forall w, w <> q -> s' w = s w.
Proof.
  induction m as [|m IH]; intros s p Hm Hq.
  - exists s, p. cbn [seq flat_map run val]. repeat split; auto.
    unfold get_angle. cbn. field. apply inject_p2_nz.
  - destruct (IH s p ltac:(lia) Hq) as [s1 [p1 [R1 [Q1 [V1 F1]]]]].
    rewrite flat_map_seq_S, run_app, R1. change (0 + m) with m. cbn [val].
    destruct (bits m).
    + destruct (run_gp (inject_Z f * 2 / inject_Z (2 ^ Z.of_nat (k - m + 1))) q s1 p1 Q1)
        as [s2 [p2' [R2 [Q2 [V2 F2]]]]].
      exists s2, p2'. split; [exact R2|]. split; [exact Q2|]. split.
      * rewrite V2, V1. cbn [Z.b2z]. rewrite Z.mul_1_l, get_angle_add.
        unfold get_angle.
        replace (2 ^ Z.of_nat (k - m + 1))%Z with (2 * p2 (k - m))%Z
          by (rewrite <- p2_S; unfold p2; do 2 f_equal; lia).
        replace (p2 k) with (p2 m * p2 (k - m))%Z
          by (rewrite <- p2_add; f_equal; lia).
        rewrite !inject_Z_mult. field.
        split; apply inject_p2_nz.
      * intros w Hw. rewrite F2, F1; auto.
    + exists s1, p1. split; [reflexivity|]. split; [exact Q1|]. split.
      * rewrite V1. cbn [Z.b2z]. rewrite Z.mul_0_l, Z.add_0_r. reflexivity.
      * exact F1.
Qed.

Lemma angle_low_bits k b :
  peq (get_angle k (b mod p2 (k + 1))) (get_angle k b).
Proof. apply get_angle_mod. lia. Qed.

Lemma phi_add_builtin_singlegates_run n b f s v :
  fourier s (seq 0 n) v ->
  exists s',
    run (data (phi_add_builtin_singlegates n b f)) s = Some s' /\
    fourier s' (seq 0 n) (v + f * b) /\ same_outside (seq 0 n) s s'.
Proof.
  intros Hf. cbn [phi_add_builtin_singlegates data]. unfold range.
  rewrite Nat.sub_0_r.
  set (bits := fun i => chr_eq (rev (binary_repr b n)) i "1").
  assert (Hbits : forall i, i < n -> bits i = Z.testbit b (Z.of_nat i)).
  { intros i Hi. unfold bits. pose proof (binary_repr_length b n) as Hl.
    now destruct (chr_eq_digit _ _ _ (binary_repr_bits b n i ltac:(lia))) as [E _]. }
  destruct (phase_loop_fourier (seq 0 n)
              (fun k => flat_map (fun i =>
                   if bits i
                   then [GP (inject_Z f * 2 / inject_Z (2 ^ Z.of_nat (k - i + 1))) k]
                   else []) (seq 0 (k + 1 - 0)))
              (fun k => (inject_Z f * get_angle k (val bits (k + 1)))%Q)
              (fun _ => True) true (seq_NoDup n 0)) with (f := f) (c := b) (v := v) (s := s)
    as [s' [E [_ [F O]]]]; auto.
  - intros k s1 p Hk _ Hp. rewrite length_seq in Hk.
    rewrite seq_nth in * by assumption. cbn [Nat.add] in *.
    rewrite Nat.sub_0_r. now apply run_bit_rotations.
  - intros k Hk. rewrite length_seq in Hk.
    rewrite (val_testbit bits b (k + 1)) by (intros i Hi; apply Hbits; lia).
    destruct (angle_low_bits k b) as [m Hm]. exists (f * m)%Z.
    replace (2 * (f * m))%Z with (f * (2 * m))%Z by ring.
    rewrite inject_Z_mult, <- Hm. ring.
  - rewrite length_seq in E. exists s'. auto.
Qed.

(** ** The circuits use their own wires only *)

Lemma phi_add_builtin_in n b f : gates_in n (data (phi_add_builtin n b f)).
Proof.
  cbn [phi_add_builtin data]. apply gates_in_flat_map. intros k Hk.
  unfold range in Hk. apply in_seq in Hk.
  constructor; [|constructor]. unfold gate_in. cbn [gate_qubits].
  repeat (apply Forall_cons; [lia|]). apply Forall_nil.
Qed.

Lemma phi_addition_controlled_in n b f :
  gates_in (1 + n) (data (phi_addition_controlled n b f)).
Proof.
  unfold phi_addition_controlled. cbn [phi_addition_controlled_ignorebits data].
  apply gates_in_flat_map. intros k Hk. unfold range in Hk. apply in_seq in Hk.
  cbn [Nat.ltb Nat.leb]. constructor; [|constructor]. unfold gate_in. cbn [gate_qubits].
  repeat (apply Forall_cons; [lia|]). apply Forall_nil.
Qed.

Lemma phi_addition_cc_in n b f : gates_in (2 + n) (data (phi_addition_cc n b f)).
Proof.
  cbn [phi_addition_cc data]. apply gates_in_flat_map. intros k Hk.
  unfold range in Hk. apply in_seq in Hk.
  cbn [ccp data append map remap seq app]. unfold wire. cbn [nth].
  repeat (constructor; [unfold gate_in; cbn [gate_qubits];
                        repeat (apply Forall_cons; [lia|]); apply Forall_nil|]).
  constructor.
Qed.

Lemma seq_cons_id n : 0 :: seq 1 n = seq 0 (1 + n).
Proof. reflexivity. Qed.

Lemma same_outside_refl qs s : same_outside qs s s.
Proof. intros w _. reflexivity. Qed.

(** * The claims *)

(** C9: the borrowed-ancilla incrementer [cinc n] has the wiring control,
    [x] ([n] cells), borrowed ([n+1] cells); on every basis state it keeps
    the control cell, replaces the register value [x] by [(x + c) mod 2^n]
    where [c] is the control, and leaves every borrowed cell (indeed every
    other cell) with the content it had, whatever that content was.  The
    statement holds for every [n], in particular for [n >= 1]. *)
Theorem C9_cinc_increments_and_restores (n : nat) (s : bstate) :
  qregs (cinc n) = [("control"%string, 1); ("x"%string, n); ("borrowed"%string, n + 1)]
  /\ exec (data (cinc n)) s 0 = s 0
  /\ reg_val (exec (data (cinc n)) s) (seq 1 n)
     = ((reg_val s (seq 1 n) + Z.b2z (s 0%nat)) mod 2 ^ Z.of_nat n)%Z
  /\ (forall i, i < n + 1 -> exec (data (cinc n)) s (1 + n + i) = s (1 + n + i))
  /\ (forall w, 1 + n + (n + 1) <= w -> exec (data (cinc n)) s w = s w).
Proof.
  destruct (set_reg_facts (seq 1 n) _ s _ (seq_NoDup n 1) (cinc_spec n s)) as [F V].
  rewrite length_seq in V.
  split; [reflexivity|]. split; [|split; [exact V|split]].
  - apply F. rewrite in_seq. lia.
  - intros i Hi. apply F. rewrite in_seq. lia.
  - intros w Hw. apply F. rewrite in_seq. lia.
Qed.

(** C10: for [n >= 1] and every integer constant [c], positive or negative,
    [c_adder_hrs2 n c] is constructed; the digit string it hands to the
    divide-and-conquer adder holds the [n] low two's-complement bits of [c];
    with the control set the register value [x] becomes [(x + c) mod 2^n],
    with the control clear it stays [x]; the control and both borrowed cells
    keep their content in either case. *)
Theorem C10_c_adder_hrs2_adds_constant (n : nat) (c : Z) (s : bstate) :
  1 <= n ->
  exists circ,
    c_adder_hrs2 n c = Ok circ
    /\ qregs circ = [("c"%string, 1); ("x"%string, n); ("o_b"%string, 2)]
    /\ (forall i, i < n ->
          nth_error (rev (skipn 1 (binary_repr c (n + 1)))) i
          = Some (digit (Z.testbit (c mod 2 ^ Z.of_nat n) (Z.of_nat i))))
    /\ (s 0 = true ->
          reg_val (exec (data circ) s) (seq 1 n)
          = ((reg_val s (seq 1 n) + c) mod 2 ^ Z.of_nat n)%Z)
    /\ (s 0 = false ->
          reg_val (exec (data circ) s) (seq 1 n) = reg_val s (seq 1 n))
    /\ exec (data circ) s 0 = s 0
    /\ exec (data circ) s (1 + n) = s (1 + n)
    /\ exec (data circ) s (1 + n + 1) = s (1 + n + 1).
Proof.
  intros Hn.
  destruct (c_adder_hrs2_spec n c Hn) as [circ [Hc [Hin Hs]]].
  exists circ. split; [exact Hc|].
  destruct (set_reg_facts (seq 1 n) _ s _ (seq_NoDup n 1) (Hs s)) as [F V].
  rewrite length_seq in V.
  split.
  { revert Hc. unfold c_adder_hrs2.
    destruct (c_divide_and_conquer_adder _ _ _ _ _ _ _); cbn [bind]; [|discriminate].
    intros H. injection H as <-. reflexivity. }
  split.
  { intros i Hi. rewrite adder_digits by assumption. f_equal. f_equal.
    change (2 ^ Z.of_nat n)%Z with (p2 n). now rewrite testbit_mod_p2. }
  split; [|split; [|split; [|split]]].
  - intros H1. rewrite V, H1. reflexivity.
  - intros H0. rewrite V, H0, Z.add_0_r.
    apply Z.mod_small. pose proof (reg_val_bound s (seq 1 n)) as B.
    rewrite length_seq in B. exact B.
  - apply F. rewrite in_seq. lia.
  - apply F. rewrite in_seq. lia.
  - apply F. rewrite in_seq. lia.
Qed.

Lemma C10_witness :
  exists circ,
    c_adder_hrs2 3 (-3) = Ok circ
    /\ qregs circ = [("c"%string, 1); ("x"%string, 3); ("o_b"%string, 2)]
    /\ (forall i, i < 3 ->
          nth_error (rev (skipn 1 (binary_repr (-3) (3 + 1)))) i
          = Some (digit (Z.testbit ((-3) mod 2 ^ Z.of_nat 3) (Z.of_nat i))))
    /\ (st_of_list [true; false; true; false; true; true] 0 = true ->
          reg_val (exec (data circ) (st_of_list [true; false; true; false; true; true]))
            (seq 1 3)
          = ((reg_val (st_of_list [true; false; true; false; true; true]) (seq 1 3) + -3)
               mod 2 ^ Z.of_nat 3)%Z)
    /\ (st_of_list [true; false; true; false; true; true] 0 = false ->
          reg_val (exec (data circ) (st_of_list [true; false; true; false; true; true]))
            (seq 1 3)
          = reg_val (st_of_list [true; false; true; false; true; true]) (seq 1 3))
    /\ exec (data circ) (st_of_list [true; false; true; false; true; true]) 0
       = st_of_list [true; false; true; false; true; true] 0
    /\ exec (data circ) (st_of_list [true; false; true; false; true; true]) (1 + 3)
       = st_of_list [true; false; true; false; true; true] (1 + 3)
    /\ exec (data circ) (st_of_list [true; false; true; false; true; true]) (1 + 3 + 1)
       = st_of_list [true; false; true; false; true; true] (1 + 3 + 1).
Proof.
  apply (C10_c_adder_hrs2_adds_constant 3 (-3)
           (st_of_list [true; false; true; false; true; true])).
  lia.
Defined.

(** C3: the HRS controlled modular adder is not constructed on two cells.
    At [n = 2], [a = 1], [N = 3] (so [0 < a < N] and [N] fits in [n] bits)
    the borrowed register [g] has [n - 1 = 1] cell, the adder on the sign
    bit is wired to [g[0]] and [g[1]], and the constructor raises
    [IndexError]: no operation is returned, and so none that leaves
    [(b + a) mod N] in the register. *)
Lemma C3_c_carry_add_mod_hrs_fails_on_two_cells :
  c_carry_add_mod_hrs 2 1 3 = Raise IndexError
  /\ ~ (exists circ,
          c_carry_add_mod_hrs 2 1 3 = Ok circ
          /\ forall s, s 0 = true -> s (1 + 2 + (2 - 1)) = false ->
               (reg_val s (seq 1 2) < 3)%Z ->
               reg_val (exec (data circ) s) (seq 1 2)
               = ((reg_val s (seq 1 2) + 1) mod 3)%Z).
Proof.
  split; [apply c_carry_add_mod_hrs_short|].
  intros [circ [E _]]. rewrite c_carry_add_mod_hrs_short in E. discriminate.
Qed.









(** * Further properties of the HRS backend *)

(** X1: for [n >= 1], without the overflow qubit, [adder_ttk n] maps the
    registers [a] (qubits [0..n-1]) and [b] (qubits [n..2n-1]) to [a] and
    [(a + b) mod 2^n] on every basis state; no other qubit changes. *)
Theorem X1_adder_ttk_adds_in_place (n : nat) (s : bstate) :
  1 <= n ->
  reg_val (exec (data (adder_ttk n false)) s) (seq n n)
  = ((reg_val s (seq 0 n) + reg_val s (seq n n)) mod 2 ^ Z.of_nat n)%Z
  /\ reg_val (exec (data (adder_ttk n false)) s) (seq 0 n) = reg_val s (seq 0 n)
  /\ (forall w, ~ (n <= w < n + n) -> exec (data (adder_ttk n false)) s w = s w).
Proof.
  intros _.
  destruct (set_reg_facts (seq n n) _ s _ (seq_NoDup n n) (adder_ttk_spec n s)) as [F V].
  rewrite length_seq in V. split; [exact V|]. split.
  - apply reg_val_frame. intros w Hw. apply F. rewrite in_seq in *. lia.
  - intros w Hw. apply F. rewrite in_seq. lia.
Qed.

Lemma X1_witness :
  reg_val (exec (data (adder_ttk 3 false))
             (st_of_list [true; true; false; true; false; true])) (seq 3 3)
  = ((reg_val (st_of_list [true; true; false; true; false; true]) (seq 0 3)
      + reg_val (st_of_list [true; true; false; true; false; true]) (seq 3 3))
       mod 2 ^ Z.of_nat 3)%Z
  /\ reg_val (exec (data (adder_ttk 3 false))
                (st_of_list [true; true; false; true; false; true])) (seq 0 3)
     = reg_val (st_of_list [true; true; false; true; false; true]) (seq 0 3)
  /\ (forall w, ~ (3 <= w < 3 + 3) ->
        exec (data (adder_ttk 3 false))
          (st_of_list [true; true; false; true; false; true]) w
        = st_of_list [true; true; false; true; false; true] w).
Proof.
  apply (X1_adder_ttk_adds_in_place 3 (st_of_list [true; true; false; true; false; true])).
  lia.
Defined.

(** X2: for [n >= 1], the inverse of [adder_ttk n] (the subtractor that
    [cinc] appends) maps [a], [b] to [a], [(b - a) mod 2^n], and undoes the
    adder on every basis state. *)
Theorem X2_adder_ttk_inverse_subtracts (n : nat) (s : bstate) :
  1 <= n ->
  reg_val (exec (inverse (data (adder_ttk n false))) s) (seq n n)
  = ((reg_val s (seq n n) - reg_val s (seq 0 n)) mod 2 ^ Z.of_nat n)%Z
  /\ (forall w, ~ (n <= w < n + n) ->
        exec (inverse (data (adder_ttk n false))) s w = s w)
  /\ (forall w, exec (inverse (data (adder_ttk n false)))
                  (exec (data (adder_ttk n false)) s) w = s w).
Proof.
  intros _.
  destruct (set_reg_facts (seq n n) _ s _ (seq_NoDup n n) (subtractor_spec n s)) as [F V].
  rewrite length_seq in V. split; [exact V|]. split.
  - intros w Hw. apply F. rewrite in_seq. lia.
  - apply exec_inverse_after, adder_ttk_gates_wf.
Qed.

Lemma X2_witness :
  reg_val (exec (inverse (data (adder_ttk 3 false)))
             (st_of_list [true; true; false; true; false; true])) (seq 3 3)
  = ((reg_val (st_of_list [true; true; false; true; false; true]) (seq 3 3)
      - reg_val (st_of_list [true; true; false; true; false; true]) (seq 0 3))
       mod 2 ^ Z.of_nat 3)%Z
  /\ (forall w, ~ (3 <= w < 3 + 3) ->
        exec (inverse (data (adder_ttk 3 false)))
          (st_of_list [true; true; false; true; false; true]) w
        = st_of_list [true; true; false; true; false; true] w)
  /\ (forall w, exec (inverse (data (adder_ttk 3 false)))
                  (exec (data (adder_ttk 3 false))
                     (st_of_list [true; true; false; true; false; true])) w
                = st_of_list [true; true; false; true; false; true] w).
Proof.
  apply (X2_adder_ttk_inverse_subtracts 3
           (st_of_list [true; true; false; true; false; true])).
  lia.
Defined.

(** X3: for [n >= 3] and a constant given by its [n] binary digits (least
    significant first), [carry_gate] toggles qubit [n-1] by bit [n-1] of the
    sum of the constant and the value held on qubits [0..n-2]; every other
    qubit, the [n-2] borrowed ones included, ends as it started. *)
Theorem X3_carry_gate_top_bit (n : nat) (ks : list bool) (s : bstate) :
  3 <= n -> List.length ks = n ->
  exists circ,
    carry_gate n (map digit ks) = Ok circ
    /\ qregs circ = [("a"%string, n); ("g"%string, n - 2)]
    /\ exec (data circ) s (n - 1)
       = xorb (s (n - 1))
           (Z.testbit (reg_val s (seq 0 (n - 1)) + val_of_bits ks) (Z.of_nat (n - 1)))
    /\ (forall w, w <> n - 1 -> exec (data circ) s w = s w).
Proof.
  intros Hn Hk.
  destruct (carry_gate_spec n (map digit ks) Hn (map_digit_zero ks ltac:(lia)))
    as [circ [E H]].
  exists circ. split; [exact E|]. split.
  { rewrite carry_gate_data in E by lia. cbv zeta in E. injection E as <-. reflexivity. }
  split.
  - rewrite (H s), upd_eq. f_equal.
    replace (S (n - 1)) with (List.length ks) in * by lia.
    rewrite val_of_bits_val, reg_val_seq.
    rewrite (carry_top_bit (fun i => s i) (str_bit (map digit ks)) (n - 1)).
    replace (S (n - 1)) with (List.length ks) by lia.
    f_equal. f_equal. apply val_ext. intros i _. apply str_bit_map_digit.
  - intros w Hw. rewrite (H s). now apply upd_neq.
Qed.

Lemma X3_witness :
  exists circ,
    carry_gate 3 (map digit [true; true; false]) = Ok circ
    /\ qregs circ = [("a"%string, 3); ("g"%string, 3 - 2)]
    /\ exec (data circ) (st_of_list [true; true; false; true]) (3 - 1)
       = xorb (st_of_list [true; true; false; true] (3 - 1))
           (Z.testbit (reg_val (st_of_list [true; true; false; true]) (seq 0 (3 - 1))
                       + val_of_bits [true; true; false]) (Z.of_nat (3 - 1)))
    /\ (forall w, w <> 3 - 1 ->
          exec (data circ) (st_of_list [true; true; false; true]) w
          = st_of_list [true; true; false; true] w).
Proof.
  apply (X3_carry_gate_top_bit 3 [true; true; false] (st_of_list [true; true; false; true])).
  - lia.
  - reflexivity.
Defined.

(** X4: for [n >= 3], [c_carry_gate] has the wiring control, [a] ([n]
    cells), [g] ([n-2] borrowed cells) and toggles the top cell of [a] by
    bit [n-1] of (data value + constant) exactly when the control is set;
    the control, the data cells and the borrowed cells end as they
    started. *)
Theorem X4_c_carry_gate_top_bit (n : nat) (ks : list bool) (s : bstate) :
  3 <= n -> List.length ks = n ->
  exists circ,
    c_carry_gate n (map digit ks) = Ok circ
    /\ qregs circ = [("control"%string, 1); ("a"%string, n); ("g"%string, n - 2)]
    /\ exec (data circ) s n
       = xorb (s n)
           (s 0 && Z.testbit (reg_val s (seq 1 (n - 1)) + val_of_bits ks)
                     (Z.of_nat (n - 1)))
    /\ (forall w, w <> n -> exec (data circ) s w = s w).
Proof.
  intros Hn Hk.
  destruct (c_carry_gate_spec n (map digit ks) Hn (map_digit_zero ks ltac:(lia)))
    as [circ [E [_ H]]].
  exists circ. split; [exact E|]. split.
  { rewrite c_carry_gate_data in E by lia. cbv zeta in E. injection E as <-. reflexivity. }
  split.
  - rewrite (H s), upd_eq. f_equal. f_equal.
    rewrite val_of_bits_val, reg_val_seq.
    rewrite (carry_top_bit (fun i => s (1 + i)) (str_bit (map digit ks)) (n - 1)).
    replace (S (n - 1)) with (List.length ks) by lia.
    f_equal. f_equal. apply val_ext. intros i _. apply str_bit_map_digit.
  - intros w Hw. rewrite (H s). now apply upd_neq.
Qed.

Lemma X4_witness :
  exists circ,
    c_carry_gate 3 (map digit [true; true; false]) = Ok circ
    /\ qregs circ = [("control"%string, 1); ("a"%string, 3); ("g"%string, 3 - 2)]
    /\ exec (data circ) (st_of_list [true; true; true; false; true]) 3
       = xorb (st_of_list [true; true; true; false; true] 3)
           (st_of_list [true; true; true; false; true] 0
            && Z.testbit (reg_val (st_of_list [true; true; true; false; true])
                            (seq 1 (3 - 1))
                          + val_of_bits [true; true; false]) (Z.of_nat (3 - 1)))
    /\ (forall w, w <> 3 ->
          exec (data circ) (st_of_list [true; true; true; false; true]) w
          = st_of_list [true; true; true; false; true] w).
Proof.
  apply (X4_c_carry_gate_top_bit 3 [true; true; false]
           (st_of_list [true; true; true; false; true])).
  - lia.
  - reflexivity.
Defined.

(** X5: the doubly controlled carry gate does the same when both controls
    are set and nothing otherwise. *)
Theorem X5_cc_carry_gate_top_bit (n : nat) (ks : list bool) (s : bstate) :
  3 <= n -> List.length ks = n ->
  exists circ,
    cc_carry_gate n (map digit ks) = Ok circ
    /\ qregs circ = [("control"%string, 2); ("a"%string, n); ("g"%string, n - 2)]
    /\ exec (data circ) s (1 + n)
       = xorb (s (1 + n))
           ((s 0 && s 1)
            && Z.testbit (reg_val s (seq 2 (n - 1)) + val_of_bits ks) (Z.of_nat (n - 1)))
    /\ (forall w, w <> 1 + n -> exec (data circ) s w = s w).
Proof.
  intros Hn Hk.
  destruct (cc_carry_gate_spec n (map digit ks) Hn (map_digit_zero ks ltac:(lia)))
    as [circ [E [_ H]]].
  exists circ. split; [exact E|]. split.
  { rewrite cc_carry_gate_data in E by lia. cbv zeta in E. injection E as <-. reflexivity. }
  split.
  - rewrite (H s), upd_eq. f_equal. f_equal.
    rewrite val_of_bits_val, reg_val_seq.
    rewrite (carry_top_bit (fun i => s (2 + i)) (str_bit (map digit ks)) (n - 1)).
    replace (S (n - 1)) with (List.length ks) by lia.
    f_equal. f_equal. apply val_ext. intros i _. apply str_bit_map_digit.
  - intros w Hw. rewrite (H s). now apply upd_neq.
Qed.

Lemma X5_witness :
  exists circ,
    cc_carry_gate 3 (map digit [true; true; false]) = Ok circ
    /\ qregs circ = [("control"%string, 2); ("a"%string, 3); ("g"%string, 3 - 2)]
    /\ exec (data circ) (st_of_list [true; true; true; true; false; true]) (1 + 3)
       = xorb (st_of_list [true; true; true; true; false; true] (1 + 3))
           ((st_of_list [true; true; true; true; false; true] 0
             && st_of_list [true; true; true; true; false; true] 1)
            && Z.testbit (reg_val (st_of_list [true; true; true; true; false; true])
                            (seq 2 (3 - 1))
                          + val_of_bits [true; true; false]) (Z.of_nat (3 - 1)))
    /\ (forall w, w <> 1 + 3 ->
          exec (data circ) (st_of_list [true; true; true; true; false; true]) w
          = st_of_list [true; true; true; true; false; true] w).
Proof.
  apply (X5_cc_carry_gate_top_bit 3 [true; true; false]
           (st_of_list [true; true; true; true; false; true])).
  - lia.
  - reflexivity.
Defined.

(** X6: for [n >= 2] and [0 <= value <= 2^n], [c_comp n value] has the
    wiring control, [in] ([n] cells), [b] ([n-1] borrowed cells), [res]; it
    toggles [res] exactly when the control is set and the register value is
    below [value], and changes no other cell. *)
Theorem X6_c_comp_compares (n : nat) (value : Z) (s : bstate) :
  2 <= n -> (0 <= value <= 2 ^ Z.of_nat n)%Z ->
  exists circ,
    c_comp n value = Ok circ
    /\ qregs circ = [("c"%string, 1); ("in"%string, n); ("b"%string, n - 1);
                     ("res"%string, 1)]
    /\ exec (data circ) s (1 + n + (n - 1))
       = xorb (s (1 + n + (n - 1))) (s 0 && (reg_val s (seq 1 n) <? value)%Z)
    /\ (forall w, w <> 1 + n + (n - 1) -> exec (data circ) s w = s w).
Proof.
  intros Hn Hv.
  destruct (c_comp_spec n value Hn Hv) as [circ [E [_ H]]].
  exists circ. split; [exact E|]. split; [now apply (c_comp_qregs n value)|].
  split.
  - rewrite (H s). apply upd_eq.
  - intros w Hw. rewrite (H s). now apply upd_neq.
Qed.

Lemma X6_witness :
  exists circ,
    c_comp 2 3 = Ok circ
    /\ qregs circ = [("c"%string, 1); ("in"%string, 2); ("b"%string, 2 - 1);
                     ("res"%string, 1)]
    /\ exec (data circ) (st_of_list [true; false; true; true; false]) (1 + 2 + (2 - 1))
       = xorb (st_of_list [true; false; true; true; false] (1 + 2 + (2 - 1)))
           (st_of_list [true; false; true; true; false] 0
            && (reg_val (st_of_list [true; false; true; true; false]) (seq 1 2) <? 3)%Z)
    /\ (forall w, w <> 1 + 2 + (2 - 1) ->
          exec (data circ) (st_of_list [true; false; true; true; false]) w
          = st_of_list [true; false; true; true; false] w).
Proof.
  apply (X6_c_comp_compares 2 3 (st_of_list [true; false; true; true; false])).
  - lia.
  - cbn. lia.
Defined.

(** X7: the doubly controlled comparator toggles [res] exactly when both
    controls are set and the register value is below [value]. *)
Theorem X7_cc_comp_compares (n : nat) (value : Z) (s : bstate) :
  2 <= n -> (0 <= value <= 2 ^ Z.of_nat n)%Z ->
  exists circ,
    cc_comp n value = Ok circ
    /\ qregs circ = [("c"%string, 2); ("in"%string, n); ("b"%string, n - 1);
                     ("res"%string, 1)]
    /\ exec (data circ) s (2 + n + (n - 1))
       = xorb (s (2 + n + (n - 1)))
           ((s 0 && s 1) && (reg_val s (seq 2 n) <? value)%Z)
    /\ (forall w, w <> 2 + n + (n - 1) -> exec (data circ) s w = s w).
Proof.
  intros Hn Hv.
  destruct (cc_comp_spec n value Hn Hv) as [circ [E [_ H]]].
  exists circ. split; [exact E|]. split; [now apply (cc_comp_qregs n value)|].
  split.
  - rewrite (H s). apply upd_eq.
  - intros w Hw. rewrite (H s). now apply upd_neq.
Qed.

Lemma X7_witness :
  exists circ,
    cc_comp 2 3 = Ok circ
    /\ qregs circ = [("c"%string, 2); ("in"%string, 2); ("b"%string, 2 - 1);
                     ("res"%string, 1)]
    /\ exec (data circ) (st_of_list [true; true; false; true; true; false])
         (2 + 2 + (2 - 1))
       = xorb (st_of_list [true; true; false; true; true; false] (2 + 2 + (2 - 1)))
           ((st_of_list [true; true; false; true; true; false] 0
             && st_of_list [true; true; false; true; true; false] 1)
            && (reg_val (st_of_list [true; true; false; true; true; false]) (seq 2 2)
                <? 3)%Z)
    /\ (forall w, w <> 2 + 2 + (2 - 1) ->
          exec (data circ) (st_of_list [true; true; false; true; true; false]) w
          = st_of_list [true; true; false; true; true; false] w).
Proof.
  apply (X7_cc_comp_compares 2 3 (st_of_list [true; true; false; true; true; false])).
  - lia.
  - cbn. lia.
Defined.

(** X8: for [n >= 3], [0 <= a < N <= 2^n], the doubly controlled modular
    adder, run with the sign ancilla at 0 on a register value [b < N], leaves
    [(b + a) mod N] in the register when both controls are set and [b]
    otherwise; the controls, the [n-1] borrowed cells and the sign ancilla
    end as they started. *)
Theorem X8_cc_carry_add_mod_hrs_adds_mod_N (n : nat) (a N : Z) (s : bstate) :
  3 <= n -> (0 <= a < N)%Z -> (N <= 2 ^ Z.of_nat n)%Z ->
  s (2 + n + (n - 1)) = false -> (reg_val s (seq 2 n) < N)%Z ->
  exists circ,
    cc_carry_add_mod_hrs n a N = Ok circ
    /\ qregs circ = [("c"%string, 2); ("b"%string, n); ("g"%string, n - 1);
                     ("msb"%string, 1)]
    /\ reg_val (exec (data circ) s) (seq 2 n)
       = (if s 0 && s 1 then ((reg_val s (seq 2 n) + a) mod N)%Z
          else reg_val s (seq 2 n))
    /\ (forall w, ~ (2 <= w < 2 + n) -> exec (data circ) s w = s w).
Proof.
  intros Hn Ha HN Hm Hb. change (2 ^ Z.of_nat n)%Z with (p2 n) in HN.
  destruct (cc_carry_add_mod_hrs_spec n a N Hn Ha HN) as [circ [E [_ H]]].
  exists circ. split; [exact E|]. split; [now apply (cc_carry_add_mod_hrs_qregs n a N)|].
  destruct (set_reg_facts (seq 2 n) _ s _ (seq_NoDup n 2) (H s Hm Hb)) as [F V].
  rewrite length_seq in V. split.
  - rewrite V. apply Z.mod_small.
    pose proof (reg_val_bound s (seq 2 n)) as B. rewrite length_seq in B.
    destruct (s 0 && s 1); [|lia].
    pose proof (Z.mod_pos_bound (reg_val s (seq 2 n) + a) N ltac:(lia)). lia.
  - intros w Hw. apply F. rewrite in_seq. lia.
Qed.

Lemma X8_witness :
  exists circ,
    cc_carry_add_mod_hrs 3 4 5 = Ok circ
    /\ qregs circ = [("c"%string, 2); ("b"%string, 3); ("g"%string, 3 - 1);
                     ("msb"%string, 1)]
    /\ reg_val (exec (data circ)
                  (st_of_list [true; true; true; true; false; true; false; false]))
         (seq 2 3)
       = (if st_of_list [true; true; true; true; false; true; false; false] 0
             && st_of_list [true; true; true; true; false; true; false; false] 1
          then ((reg_val (st_of_list [true; true; true; true; false; true; false; false])
                   (seq 2 3) + 4) mod 5)%Z
          else reg_val (st_of_list [true; true; true; true; false; true; false; false])
                 (seq 2 3))
    /\ (forall w, ~ (2 <= w < 2 + 3) ->
          exec (data circ)
            (st_of_list [true; true; true; true; false; true; false; false]) w
          = st_of_list [true; true; true; true; false; true; false; false] w).
Proof.
  apply (X8_cc_carry_add_mod_hrs_adds_mod_N 3 4 5
           (st_of_list [true; true; true; true; false; true; false; false])).
  - lia.
  - lia.
  - cbn. lia.
  - reflexivity.
  - vm_compute. reflexivity.
Defined.

(** X9: with its control clear, the controlled modular adder changes no
    qubit at all (for [n >= 3], [0 <= a < N <= 2^n], sign ancilla 0 and a
    register value below [N]). *)
Theorem X9_c_carry_add_mod_hrs_control_off (n : nat) (a N : Z) (s : bstate) :
  3 <= n -> (0 <= a < N)%Z -> (N <= 2 ^ Z.of_nat n)%Z ->
  s 0 = false -> s (1 + n + (n - 1)) = false -> (reg_val s (seq 1 n) < N)%Z ->
  exists circ,
    c_carry_add_mod_hrs n a N = Ok circ
    /\ forall w, exec (data circ) s w = s w.
Proof.
  intros Hn Ha HN Hc Hm Hb. change (2 ^ Z.of_nat n)%Z with (p2 n) in HN.
  destruct (c_carry_add_mod_hrs_spec n a N Hn Ha HN) as [circ [E [_ H]]].
  exists circ. split; [exact E|]. intros w.
  rewrite (H s Hm Hb w), Hc. apply set_reg_reg_val.
Qed.

Lemma X9_witness :
  exists circ,
    c_carry_add_mod_hrs 3 2 5 = Ok circ
    /\ forall w, exec (data circ) (st_of_list [false; false; false; true; true; false]) w
                 = st_of_list [false; false; false; true; true; false] w.
Proof.
  apply (X9_c_carry_add_mod_hrs_control_off 3 2 5
           (st_of_list [false; false; false; true; true; false])).
  - lia.
  - lia.
  - cbn. lia.
  - reflexivity.
  - reflexivity.
  - vm_compute. reflexivity.
Defined.

(** X28: for [n >= 3], [0 <= a < N] and [N <= 2^n] the HRS controlled
    modular adder is constructed with the wiring control, [b] ([n] cells),
    [g] ([n-1] borrowed cells), sign ancilla; its gate list ends with the
    second comparator (no flip follows it); and on every basis state with
    the control set, the sign ancilla 0 and a register value [b < N] it
    leaves [(b + a) mod N] in the register, every borrowed cell and the
    control as they were, and the sign ancilla 0. *)
Theorem X28_c_carry_add_mod_hrs_adds_mod_N (n : nat) (a N : Z) (s : bstate) :
  3 <= n -> (0 <= a < N)%Z -> (N <= 2 ^ Z.of_nat n)%Z ->
  s 0 = true -> s (1 + n + (n - 1)) = false -> (reg_val s (seq 1 n) < N)%Z ->
  exists circ,
    c_carry_add_mod_hrs n a N = Ok circ
    /\ qregs circ = [("c"%string, 1); ("b"%string, n); ("g"%string, n - 1);
                     ("msb"%string, 1)]
    /\ (exists pre cmp, c_comp n a = Ok cmp /\ data circ = pre ++ data cmp)
    /\ reg_val (exec (data circ) s) (seq 1 n) = ((reg_val s (seq 1 n) + a) mod N)%Z
    /\ (forall i, i < n - 1 -> exec (data circ) s (1 + n + i) = s (1 + n + i))
    /\ exec (data circ) s (1 + n + (n - 1)) = false
    /\ exec (data circ) s 0 = true.
Proof.
  intros Hn Ha HN Hc Hm Hb. change (2 ^ Z.of_nat n)%Z with (p2 n) in HN.
  destruct (c_carry_add_mod_hrs_spec n a N Hn Ha HN) as [circ [E [Hin Hs]]].
  exists circ. split; [exact E|].
  destruct (set_reg_facts (seq 1 n) _ s _ (seq_NoDup n 1) (Hs s Hm Hb)) as [F V].
  rewrite length_seq, Hc in V.
  destruct (c_carry_add_mod_hrs_shape n a N Hn Ha HN)
    as [circ' [pre [cmp [E' [Hq [Hcmp Hd]]]]]].
  rewrite E in E'. injection E' as <-.
  split; [exact Hq|]. split; [exists pre, cmp; split; assumption|].
  split.
  { rewrite V. apply Z.mod_small.
    assert (0 <= (reg_val s (seq 1 n) + a) mod N < N)%Z by (apply Z.mod_pos_bound; lia).
    lia. }
  split; [|split].
  - intros i Hi. apply F. rewrite in_seq. lia.
  - rewrite F, Hm; [reflexivity|]. rewrite in_seq. lia.
  - rewrite F, Hc; [reflexivity|]. rewrite in_seq. lia.
Qed.

Lemma X28_witness :
  exists circ,
    c_carry_add_mod_hrs 3 2 5 = Ok circ
    /\ qregs circ = [("c"%string, 1); ("b"%string, 3); ("g"%string, 3 - 1);
                     ("msb"%string, 1)]
    /\ (exists pre cmp, c_comp 3 2 = Ok cmp /\ data circ = pre ++ data cmp)
    /\ reg_val (exec (data circ) (st_of_list [true; false; false; true; true; false]))
         (seq 1 3)
       = ((reg_val (st_of_list [true; false; false; true; true; false]) (seq 1 3) + 2)
            mod 5)%Z
    /\ (forall i, i < 3 - 1 ->
          exec (data circ) (st_of_list [true; false; false; true; true; false]) (1 + 3 + i)
          = st_of_list [true; false; false; true; true; false] (1 + 3 + i))
    /\ exec (data circ) (st_of_list [true; false; false; true; true; false])
         (1 + 3 + (3 - 1)) = false
    /\ exec (data circ) (st_of_list [true; false; false; true; true; false]) 0 = true.
Proof.
  apply (X28_c_carry_add_mod_hrs_adds_mod_N 3 2 5
           (st_of_list [true; false; false; true; true; false])).
  - lia.
  - lia.
  - vm_compute. discriminate.
  - reflexivity.
  - reflexivity.
  - vm_compute. reflexivity.
Defined.

(** X10: on a 2-cell register both modular adders fail for every constant
    and modulus: the adder on the sign bit asks for the cells [g[0]] and
    [g[1]] of a borrowed register that has a single cell. *)
Theorem X10_modular_adders_need_three_cells (a N : Z) :
  c_carry_add_mod_hrs 2 a N = Raise IndexError
  /\ cc_carry_add_mod_hrs 2 a N = Raise IndexError.
Proof.
  split; [apply c_carry_add_mod_hrs_short|apply cc_carry_add_mod_hrs_short].
Qed.

(** X11: for [n >= 3] and [1 <= N <= 2^n], the out-of-place multiplier
    [c_mult_hrs_partial n a N] (wiring control, [x], [res], ancilla), run
    with the ancilla at 0 and a result value [r < N], leaves
    [(r + a * x) mod N] in [res] when the control is set and [r] otherwise;
    the control, the register [x] (which lends its cells to the adders) and
    the ancilla end as they started. *)
Theorem X11_c_mult_hrs_partial_accumulates (n : nat) (a N : Z) (s : bstate) :
  3 <= n -> (1 <= N <= 2 ^ Z.of_nat n)%Z ->
  s (1 + n + n) = false -> (reg_val s (seq (1 + n) n) < N)%Z ->
  exists circ,
    c_mult_hrs_partial n a N = Ok circ
    /\ qregs circ = [("c"%string, 1); ("x"%string, n); ("res"%string, n);
                     ("anc"%string, 1)]
    /\ reg_val (exec (data circ) s) (seq (1 + n) n)
       = (if s 0 then ((reg_val s (seq (1 + n) n) + a * reg_val s (seq 1 n)) mod N)%Z
          else reg_val s (seq (1 + n) n))
    /\ (forall w, ~ (1 + n <= w < 1 + n + n) -> exec (data circ) s w = s w).
Proof.
  intros Hn HN Hm Hb. change (2 ^ Z.of_nat n)%Z with (p2 n) in HN.
  destruct (c_mult_hrs_partial_spec n a N Hn HN) as [circ [E [_ H]]].
  exists circ. split; [exact E|]. split; [now apply (c_mult_hrs_partial_qregs n a N)|].
  destruct (set_reg_facts (seq (1 + n) n) _ s _ (seq_NoDup n (1 + n)) (H s Hm Hb))
    as [F V].
  rewrite length_seq in V. split.
  - rewrite V. apply Z.mod_small.
    pose proof (reg_val_bound s (seq (1 + n) n)) as B. rewrite length_seq in B.
    destruct (s 0); [|lia].
    pose proof (Z.mod_pos_bound (reg_val s (seq (1 + n) n) + a * reg_val s (seq 1 n)) N
                  ltac:(lia)). lia.
  - intros w Hw. apply F. rewrite in_seq. lia.
Qed.

Lemma X11_witness :
  exists circ,
    c_mult_hrs_partial 3 3 5 = Ok circ
    /\ qregs circ = [("c"%string, 1); ("x"%string, 3); ("res"%string, 3);
                     ("anc"%string, 1)]
    /\ reg_val (exec (data circ)
                  (st_of_list [true; false; true; true; false; true; false; false]))
         (seq (1 + 3) 3)
       = (if st_of_list [true; false; true; true; false; true; false; false] 0
          then ((reg_val (st_of_list [true; false; true; true; false; true; false; false])
                   (seq (1 + 3) 3)
                 + 3 * reg_val (st_of_list [true; false; true; true; false; true; false;
                                             false]) (seq 1 3)) mod 5)%Z
          else reg_val (st_of_list [true; false; true; true; false; true; false; false])
                 (seq (1 + 3) 3))
    /\ (forall w, ~ (1 + 3 <= w < 1 + 3 + 3) ->
          exec (data circ)
            (st_of_list [true; false; true; true; false; true; false; false]) w
          = st_of_list [true; false; true; true; false; true; false; false] w).
Proof.
  apply (X11_c_mult_hrs_partial_accumulates 3 3 5
           (st_of_list [true; false; true; true; false; true; false; false])).
  - lia.
  - cbn. lia.
  - reflexivity.
  - vm_compute. reflexivity.
Defined.

(** X12: for [n >= 3], [1 <= N <= 2^n] and [a] coprime to [N], the in-place
    multiplier [c_mult_hrs n a N], run with the result register and the
    ancilla at 0 on a value [x < N], leaves [a * x mod N] in [x] when the
    control is set and [x] otherwise; the control stays, and the result
    register and the ancilla are 0 again. *)
Theorem X12_c_mult_hrs_multiplies_in_place (n : nat) (a N : Z) (s : bstate) :
  3 <= n -> (1 <= N <= 2 ^ Z.of_nat n)%Z -> Z.gcd a N = 1%Z ->
  s (1 + n + n) = false -> reg_val s (seq (1 + n) n) = 0%Z ->
  (reg_val s (seq 1 n) < N)%Z ->
  exists circ,
    c_mult_hrs n a N = Ok circ
    /\ qregs circ = [("c"%string, 1); ("x"%string, n); ("res"%string, n);
                     ("anc"%string, 1)]
    /\ reg_val (exec (data circ) s) (seq 1 n)
       = (if s 0 then ((a * reg_val s (seq 1 n)) mod N)%Z else reg_val s (seq 1 n))
    /\ reg_val (exec (data circ) s) (seq (1 + n) n) = 0%Z
    /\ exec (data circ) s (1 + n + n) = false
    /\ exec (data circ) s 0 = s 0.
Proof.
  intros Hn HN Hg Hm Hr Hb. change (2 ^ Z.of_nat n)%Z with (p2 n) in HN.
  destruct (c_mult_hrs_spec n a N Hn HN Hg) as [circ [E [Hq [_ H]]]].
  exists circ. split; [exact E|]. split; [exact Hq|].
  destruct (set_reg_facts (seq 1 n) _ s _ (seq_NoDup n 1) (H s Hm Hr Hb)) as [F V].
  rewrite length_seq in V. split; [|split; [|split]].
  - rewrite V. apply Z.mod_small.
    pose proof (reg_val_bound s (seq 1 n)) as B. rewrite length_seq in B.
    destruct (s 0); [|lia].
    pose proof (Z.mod_pos_bound (a * reg_val s (seq 1 n)) N ltac:(lia)). lia.
  - rewrite <- Hr. apply reg_val_frame. intros w Hw. apply F.
    rewrite in_seq in *. lia.
  - rewrite F; [exact Hm|]. rewrite in_seq. lia.
  - apply F. rewrite in_seq. lia.
Qed.

Lemma X12_witness :
  exists circ,
    c_mult_hrs 3 3 5 = Ok circ
    /\ qregs circ = [("c"%string, 1); ("x"%string, 3); ("res"%string, 3);
                     ("anc"%string, 1)]
    /\ reg_val (exec (data circ) (st_of_list [true; false; false; true])) (seq 1 3)
       = (if st_of_list [true; false; false; true] 0
          then ((3 * reg_val (st_of_list [true; false; false; true]) (seq 1 3)) mod 5)%Z
          else reg_val (st_of_list [true; false; false; true]) (seq 1 3))
    /\ reg_val (exec (data circ) (st_of_list [true; false; false; true])) (seq (1 + 3) 3)
       = 0%Z
    /\ exec (data circ) (st_of_list [true; false; false; true]) (1 + 3 + 3) = false
    /\ exec (data circ) (st_of_list [true; false; false; true]) 0
       = st_of_list [true; false; false; true] 0.
Proof.
  apply (X12_c_mult_hrs_multiplies_in_place 3 3 5 (st_of_list [true; false; false; true])).
  - lia.
  - cbn. lia.
  - reflexivity.
  - reflexivity.
  - reflexivity.
  - vm_compute. reflexivity.
Defined.

(** X13: for [n >= 3] and [1 <= N <= 2^n], a constant that is not coprime
    to [N] makes [c_mult_hrs] raise [ValueError] (from [pow(a, -1, N)]). *)
Theorem X13_c_mult_hrs_rejects_non_invertible (n : nat) (a N : Z) :
  3 <= n -> (1 <= N <= 2 ^ Z.of_nat n)%Z -> Z.gcd a N <> 1%Z ->
  c_mult_hrs n a N = Raise ValueError.
Proof. intros Hn HN Hg. now apply c_mult_hrs_fail. Qed.

Lemma X13_witness : c_mult_hrs 3 2 4 = Raise ValueError.
Proof.
  apply (X13_c_mult_hrs_rejects_non_invertible 3 2 4).
  - lia.
  - cbn. lia.
  - vm_compute. discriminate.
Defined.

(** X14: for [ntop >= 1], [n >= 3], [1 <= N <= 2^n] and [a] coprime to [N],
    [mod_exp_hrs ntop n a N] has the wiring [top] ([ntop] cells), [bot]
    ([2n+1] cells); run with the upper [n+1] cells of [bot] at 0 and a value
    [y < N] in its lower [n] cells, it leaves [y * a^e mod N] there, where
    [e] is the value of [top], and changes no other cell. *)
Theorem X14_mod_exp_hrs_exponentiates (ntop n : nat) (a N : Z) (s : bstate) :
  1 <= ntop -> 3 <= n -> (1 <= N <= 2 ^ Z.of_nat n)%Z -> Z.gcd a N = 1%Z ->
  (forall i, i < n + 1 -> s (ntop + n + i) = false) ->
  (reg_val s (seq ntop n) < N)%Z ->
  exists circ,
    mod_exp_hrs ntop n a N = Ok circ
    /\ qregs circ = [("top"%string, ntop); ("bot"%string, 2 * n + 1)]
    /\ reg_val (exec (data circ) s) (seq ntop n)
       = ((reg_val s (seq ntop n) * a ^ reg_val s (seq 0 ntop)) mod N)%Z
    /\ (forall w, ~ (ntop <= w < ntop + n) -> exec (data circ) s w = s w).
Proof.
  intros _ Hn HN Hg Hz Hb. change (2 ^ Z.of_nat n)%Z with (p2 n) in HN.
  destruct (mod_exp_hrs_spec ntop n a N Hn HN Hg) as [circ [E [Hq [_ H]]]].
  exists circ. split; [exact E|]. split; [exact Hq|].
  assert (Hm : s (ntop + n + n) = false) by (apply Hz; lia).
  assert (Hr : reg_val s (seq (ntop + n) n) = 0%Z).
  { rewrite reg_val_seq.
    rewrite (val_ext _ (fun _ => false)) by (intros i Hi; apply Hz; lia).
    clear. induction n as [|n IH]; cbn [val Z.b2z]; [reflexivity|]. rewrite IH. lia. }
  destruct (set_reg_facts (seq ntop n) _ s _ (seq_NoDup n ntop) (H s Hm Hr Hb)) as [F V].
  rewrite length_seq in V. split.
  - rewrite V. apply Z.mod_small.
    pose proof (Z.mod_pos_bound (reg_val s (seq ntop n) * a ^ reg_val s (seq 0 ntop)) N
                  ltac:(lia)). lia.
  - intros w Hw. apply F. rewrite in_seq. lia.
Qed.

Lemma X14_witness :
  exists circ,
    mod_exp_hrs 2 3 2 5 = Ok circ
    /\ qregs circ = [("top"%string, 2); ("bot"%string, 2 * 3 + 1)]
    /\ reg_val (exec (data circ) (st_of_list [true; true; true; false; false]))
         (seq 2 3)
       = ((reg_val (st_of_list [true; true; true; false; false]) (seq 2 3)
           * 2 ^ reg_val (st_of_list [true; true; true; false; false]) (seq 0 2)) mod 5)%Z
    /\ (forall w, ~ (2 <= w < 2 + 3) ->
          exec (data circ) (st_of_list [true; true; true; false; false]) w
          = st_of_list [true; true; true; false; false] w).
Proof.
  apply (X14_mod_exp_hrs_exponentiates 2 3 2 5
           (st_of_list [true; true; true; false; false])).
  - lia.
  - lia.
  - cbn. lia.
  - reflexivity.
  - intros i Hi. do 4 (destruct i as [|i]; [reflexivity|]). lia.
  - vm_compute. reflexivity.
Defined.

(** X15: with at least one exponent cell, [n >= 3] and [1 <= N <= 2^n], a
    base that is not coprime to [N] makes [mod_exp_hrs] raise [ValueError]:
    the first multiplier, for [a^(2^0) mod N], already fails. *)
Theorem X15_mod_exp_hrs_rejects_non_invertible (ntop n : nat) (a N : Z) :
  1 <= ntop -> 3 <= n -> (1 <= N <= 2 ^ Z.of_nat n)%Z -> Z.gcd a N <> 1%Z ->
  mod_exp_hrs ntop n a N = Raise ValueError.
Proof. intros Ht Hn HN Hg. now apply mod_exp_hrs_fail. Qed.

Lemma X15_witness : mod_exp_hrs 2 3 2 4 = Raise ValueError.
Proof.
  apply (X15_mod_exp_hrs_rejects_non_invertible 2 3 2 4).
  - lia.
  - lia.
  - cbn. lia.
  - vm_compute. discriminate.
Defined.

(** * Construction of the Fourier-space backends *)

(** The constructors of this section compute their rotation angles as
    doubles before anything else can fail, and the conversion raises
    OverflowError from 1024 cells or 1024 bits on.  The statements keep
    below that: the widest register has at most 1023 cells and the modulus
    at most 1001 bits. *)

(** X16: for a modulus [1 <= N <= 2^1000] and a requested width
    [1 <= size <= 1022] (the widest register, [b], then has at most 1023
    cells), [mult_mod_N_c a N size] either returns a circuit with the
    wiring [c] (1), [x] ([size]), [b] ([size+1]), [anc] (1), when [a] is
    coprime to [N], or raises [ValueError], when it is not; the requested
    width is never compared with the modulus.  The width computed from the
    modulus, [log2c], is not used when a width is requested. *)
Theorem X16_mult_mod_N_c_construction (log2c : Z -> nat) (a N : Z) (size : nat) :
  (1 <= N <= 2 ^ 1000)%Z -> 1 <= size <= 1022 ->
  (Z.gcd a N = 1%Z
   /\ exists circ,
        mult_mod_N_c log2c a N (Some size) = Ok circ
        /\ qregs circ = [("c"%string, 1); ("x"%string, size); ("b"%string, size + 1);
                         ("anc"%string, 1)])
  \/ (Z.gcd a N <> 1%Z /\ mult_mod_N_c log2c a N (Some size) = Raise ValueError).
Proof.
  intros [HN _] _. destruct (Z.eq_dec (Z.gcd a N) 1) as [Hg|Hg].
  - left. split; [exact Hg|]. now apply mult_mod_N_c_ok.
  - right. split; [exact Hg|]. now apply mult_mod_N_c_fail.
Qed.

Lemma X16_witness :
  (Z.gcd 3 7 = 1%Z
   /\ exists circ,
        mult_mod_N_c ceil_log2 3 7 (Some 2) = Ok circ
        /\ qregs circ = [("c"%string, 1); ("x"%string, 2); ("b"%string, 2 + 1);
                         ("anc"%string, 1)])
  \/ (Z.gcd 3 7 <> 1%Z /\ mult_mod_N_c ceil_log2 3 7 (Some 2) = Raise ValueError).
Proof.
  apply (X16_mult_mod_N_c_construction ceil_log2 3 7 2).
  - split; [lia|]. vm_compute. discriminate.
  - lia.
Defined.

(** X17: with at least one exponent cell, [2 <= N <= 2^1000] and a
    computed width [log2c N] of at most 1022 (which the floating-point
    logarithm of such an [N] cannot exceed), [mod_exp_brg n a N] raises
    [ValueError] whenever [a] is not coprime to [N]: its first multiplier
    already fails. *)
Theorem X17_mod_exp_brg_rejects_non_invertible (log2c : Z -> nat) (n : nat) (a N : Z) :
  1 <= n -> (2 <= N <= 2 ^ 1000)%Z -> log2c N <= 1022 -> Z.gcd a N <> 1%Z ->
  mod_exp_brg log2c n a N = Raise ValueError.
Proof. intros Hn HN _ Hg. apply mod_exp_brg_fail; auto. lia. Qed.

Lemma X17_witness : mod_exp_brg ceil_log2 2 2 4 = Raise ValueError.
Proof.
  apply (X17_mod_exp_brg_rejects_non_invertible ceil_log2 2 2 4).
  - lia.
  - split; [lia|]. vm_compute. discriminate.
  - vm_compute. lia.
  - vm_compute. discriminate.
Defined.

(** X18: for [1 <= n <= 511] (the widest register, [bigreg], then has at
    most 1023 cells) and [1 <= p <= 2^1000], [mult_montgomery_c n y p]
    returns a circuit with the wiring [ctrl] (1), [smallreg] ([n]),
    [bigreg] ([2n+1]) exactly when [p] is odd and [y] is coprime to [p];
    for an even [p] or a [y] that is not coprime to [p] it raises
    [ValueError]. *)
Theorem X18_mult_montgomery_c_construction (n : nat) (y p : Z) :
  1 <= n <= 511 -> (1 <= p <= 2 ^ 1000)%Z ->
  (Z.odd p = true /\ Z.gcd y p = 1%Z
   /\ exists circ,
        mult_montgomery_c n y p = Ok circ
        /\ qregs circ = [("ctrl"%string, 1); ("smallreg"%string, n);
                         ("bigreg"%string, n + n + 1)])
  \/ ((Z.odd p = false \/ Z.gcd y p <> 1%Z)
      /\ mult_montgomery_c n y p = Raise ValueError).
Proof.
  intros _ [Hp _]. destruct (Z.odd p) eqn:Ho.
  - destruct (Z.eq_dec (Z.gcd y p) 1) as [Hg|Hg].
    + left. split; [reflexivity|]. split; [exact Hg|]. now apply mult_montgomery_c_ok.
    + right. split; [now right|]. apply mult_montgomery_c_fail; auto.
  - right. split; [now left|]. apply mult_montgomery_c_fail; auto.
Qed.

Lemma X18_witness :
  (Z.odd 7 = true /\ Z.gcd 3 7 = 1%Z
   /\ exists circ,
        mult_montgomery_c 3 3 7 = Ok circ
        /\ qregs circ = [("ctrl"%string, 1); ("smallreg"%string, 3);
                         ("bigreg"%string, 3 + 3 + 1)])
  \/ ((Z.odd 7 = false \/ Z.gcd 3 7 <> 1%Z)
      /\ mult_montgomery_c 3 3 7 = Raise ValueError).
Proof.
  apply (X18_mult_montgomery_c_construction 3 3 7).
  - lia.
  - split; [lia|]. vm_compute. discriminate.
Defined.

(** X19: for [1 <= n <= 511] and [1 <= p <= 2^1000],
    [mod_exp_montgomery n a p] returns a circuit with the wiring [top]
    ([n]), [bot] ([3n+1]) when [p] is odd and [a] is coprime to [p], and
    raises [ValueError] otherwise. *)
Theorem X19_mod_exp_montgomery_construction (n : nat) (a p : Z) :
  1 <= n <= 511 -> (1 <= p <= 2 ^ 1000)%Z ->
  (Z.odd p = true /\ Z.gcd a p = 1%Z
   /\ exists circ,
        mod_exp_montgomery n a p = Ok circ
        /\ qregs circ = [("top"%string, n); ("bot"%string, 3 * n + 1)])
  \/ ((Z.odd p = false \/ Z.gcd a p <> 1%Z)
      /\ mod_exp_montgomery n a p = Raise ValueError).
Proof.
  intros [Hn _] [Hp _]. destruct (Z.odd p) eqn:Ho.
  - destruct (Z.eq_dec (Z.gcd a p) 1) as [Hg|Hg].
    + left. split; [reflexivity|]. split; [exact Hg|]. now apply mod_exp_montgomery_ok.
    + right. split; [now right|]. apply mod_exp_montgomery_fail; auto.
  - right. split; [now left|]. apply mod_exp_montgomery_fail; auto.
Qed.

Lemma X19_witness :
  (Z.odd 5 = true /\ Z.gcd 2 5 = 1%Z
   /\ exists circ,
        mod_exp_montgomery 3 2 5 = Ok circ
        /\ qregs circ = [("top"%string, 3); ("bot"%string, 3 * 3 + 1)])
  \/ ((Z.odd 5 = false \/ Z.gcd 2 5 <> 1%Z)
      /\ mod_exp_montgomery 3 2 5 = Raise ValueError).
Proof.
  apply (X19_mod_exp_montgomery_construction 3 2 5).
  - lia.
  - split; [lia|]. vm_compute. discriminate.
Defined.

(** * The helpers around the circuits *)

(** X20: for [n >= 1], [set_input n v] applied to a register of zeros
    leaves [v mod 2^n] in it (the low [n] bits of [v], in two's complement
    for a negative [v]), least significant bit first, and touches no other
    cell. *)
Theorem X20_set_input_prepares_value (n : nat) (v : Z) (s : bstate) :
  1 <= n -> (forall i, i < n -> s i = false) ->
  reg_val (exec (data (set_input n v)) s) (seq 0 n) = (v mod 2 ^ Z.of_nat n)%Z
  /\ (forall w, n <= w -> exec (data (set_input n v)) s w = s w).
Proof.
  intros _ Hz. split.
  - rewrite reg_val_seq. apply val_testbit. intros i Hi.
    cbn [Nat.add]. rewrite set_input_bits.
    destruct (Nat.ltb_spec i n); [|lia]. now rewrite Hz.
  - intros w Hw. rewrite set_input_bits.
    destruct (Nat.ltb_spec w n); [lia|reflexivity].
Qed.

Lemma X20_witness :
  reg_val (exec (data (set_input 3 (-3))) (st_of_list [])) (seq 0 3)
  = ((-3) mod 2 ^ Z.of_nat 3)%Z
  /\ (forall w, 3 <= w -> exec (data (set_input 3 (-3))) (st_of_list []) w
                          = st_of_list [] w).
Proof.
  apply (X20_set_input_prepares_value 3 (-3) (st_of_list [])).
  - lia.
  - intros i _. unfold st_of_list. now destruct i.
Defined.

(** X21: when [get_order g p] returns [r], then [1 <= r < p], and for
    every [x >= 0], [g^x mod p = 1] exactly when [r] divides [x]: [r] is the
    multiplicative order of [g] modulo [p]. *)
Theorem X21_get_order_is_the_order (g p r x : Z) :
  get_order g p = Some r -> (0 <= x)%Z ->
  (1 <= r < p)%Z /\ (((g ^ x) mod p = 1)%Z <-> (r | x)%Z).
Proof.
  intros H Hx. split.
  - now destruct (get_order_spec g p r H).
  - now apply get_order_divides.
Qed.

Lemma X21_witness :
  (1 <= 3 < 7)%Z /\ (((2 ^ 6) mod 7 = 1)%Z <-> (3 | 6)%Z).
Proof.
  apply (X21_get_order_is_the_order 2 7 3 6).
  - vm_compute. reflexivity.
  - lia.
Defined.

(** X22: [get_order g p] returns [None] exactly when no exponent in
    [1, p) gives 1; this is the case whenever [p >= 2] and [g] is not
    coprime to [p]. *)
Theorem X22_get_order_none (g p : Z) :
  (get_order g p = None <-> forall x, (1 <= x < p)%Z -> ((g ^ x) mod p <> 1)%Z)
  /\ ((2 <= p)%Z /\ Z.gcd g p <> 1%Z -> get_order g p = None).
Proof.
  split; [apply get_order_none|].
  intros [Hp Hg]. now apply get_order_not_unit.
Qed.

(** * The Fourier-space adders *)

(** X23: [ccp theta], run with its two controls as basis bits and its
    target in a phase state, turns the target by [theta] exactly when both
    controls are set; the controls end as they started. *)
Theorem X23_ccp_turns_under_both_controls (th : Q) (s : qstate) (b0 b1 : bool) (p : Q) :
  s 0 = Bit b0 -> s 1 = Bit b1 -> s 2 = Ph p ->
  exists s' p',
    run (data (ccp th)) s = Some s'
    /\ s' 2 = Ph p'
    /\ (p' == p + (if b0 && b1 then th else 0))%Q
    /\ (forall w, w <> 2 -> s' w = s w).
Proof.
  intros E0 E1 E2.
  apply (run_ccp th 0 1 2 s b0 b1 p); auto.
Qed.

Lemma X23_witness :
  exists s' p',
    run (data (ccp (1 # 2))) (qst_of_cells [Bit true; Bit true; Ph (1 # 4)]) = Some s'
    /\ s' 2 = Ph p'
    /\ (p' == (1 # 4) + (if true && true then 1 # 2 else 0))%Q
    /\ (forall w, w <> 2 -> s' w = qst_of_cells [Bit true; Bit true; Ph (1 # 4)] w).
Proof.
  apply (X23_ccp_turns_under_both_controls (1 # 2)
           (qst_of_cells [Bit true; Bit true; Ph (1 # 4)]) true true (1 # 4)).
  - reflexivity.
  - reflexivity.
  - reflexivity.
Defined.

(** The rotation angles of the adders are doubles in the source and exact
    multiples of [pi / 2^k] in [get_angle].  The statements below are about
    the exact angles, and they keep to registers of at most 1000 cells,
    constants below [2^32] in absolute value and the factors [-1], [0] and
    [1] (the only ones the repository uses): there no conversion to a
    double overflows, and each double is within [pi * 2^-20] of the exact
    angle it stands for. *)

(** X24: for [1 <= n <= 1000], [|b| < 2^32] and [|factor| <= 1], and with
    the rotations taken at their exact angles: on a register in the Fourier
    state of [v] (qubit [k] in the phase [v * pi / 2^k], up to full turns),
    [phi_add_builtin n b factor] leaves the Fourier state of
    [v + factor * b] and touches no other cell; so does
    [phi_add_builtin_singlegates n b factor], which applies one rotation
    per set bit of the constant. *)
Theorem X24_phi_add_builtin_adds (n : nat) (b f v : Z) (s : qstate) :
  1 <= n <= 1000 -> (Z.abs b < 2 ^ 32)%Z -> (Z.abs f <= 1)%Z ->
  fourierb s (seq 0 n) v = true ->
  (exists s',
     run (data (phi_add_builtin n b f)) s = Some s'
     /\ fourierb s' (seq 0 n) (v + f * b) = true
     /\ (forall w, n <= w -> s' w = s w))
  /\ (exists s',
        run (data (phi_add_builtin_singlegates n b f)) s = Some s'
        /\ fourierb s' (seq 0 n) (v + f * b) = true
        /\ (forall w, n <= w -> s' w = s w)).
Proof.
  intros _ _ _ Hf. apply fourierb_iff in Hf. split.
  - destruct (phi_add_builtin_run n b f (seq 0 n) s v (length_seq n 0) (seq_NoDup n 0) Hf)
      as [s' [R [F O]]].
    rewrite append_seq_id in R by apply phi_add_builtin_in.
    exists s'. split; [exact R|]. split; [now apply fourierb_iff|].
    intros w Hw. apply O. rewrite in_seq. lia.
  - destruct (phi_add_builtin_singlegates_run n b f s v Hf) as [s' [R [F O]]].
    exists s'. split; [exact R|]. split; [now apply fourierb_iff|].
    intros w Hw. apply O. rewrite in_seq. lia.
Qed.

Lemma X24_witness :
  (exists s',
     run (data (phi_add_builtin 2 3 1)) (qst_of_cells [Ph 2; Ph 1]) = Some s'
     /\ fourierb s' (seq 0 2) (2 + 1 * 3) = true
     /\ (forall w, 2 <= w -> s' w = qst_of_cells [Ph 2; Ph 1] w))
  /\ (exists s',
        run (data (phi_add_builtin_singlegates 2 3 1)) (qst_of_cells [Ph 2; Ph 1])
        = Some s'
        /\ fourierb s' (seq 0 2) (2 + 1 * 3) = true
        /\ (forall w, 2 <= w -> s' w = qst_of_cells [Ph 2; Ph 1] w)).
Proof.
  apply (X24_phi_add_builtin_adds 2 3 1 2 (qst_of_cells [Ph 2; Ph 1])).
  - lia.
  - vm_compute. reflexivity.
  - vm_compute. discriminate.
  - vm_compute. reflexivity.
Defined.

(** X25: for [1 <= n <= 1000], [|b| < 2^32] and [|factor| <= 1], and with
    the rotations taken at their exact angles, [add_draper n b factor] maps
    a register of basis bits holding [x] to the basis bits of
    [(x + factor * b) mod 2^n] and touches no other cell. *)
Theorem X25_add_draper_adds_mod_2n (n : nat) (b f x : Z) (s : qstate) :
  1 <= n <= 1000 -> (Z.abs b < 2 ^ 32)%Z -> (Z.abs f <= 1)%Z ->
  read_val s (seq 0 n) = Some x ->
  exists s',
    run (data (add_draper n b f)) s = Some s'
    /\ read_val s' (seq 0 n) = Some ((x + f * b) mod 2 ^ Z.of_nat n)%Z
    /\ (forall w, n <= w -> s' w = s w).
Proof.
  intros _ _ _ Hx. apply read_val_basis in Hx as [Hb _].
  destruct (add_draper_run n b f s x Hb) as [s' [R [B O]]].
  exists s'. split; [exact R|]. split.
  - rewrite (basis_read_val s' (seq 0 n) _ B), length_seq. reflexivity.
  - intros w Hw. apply O. rewrite in_seq. lia.
Qed.

Lemma X25_witness :
  exists s',
    run (data (add_draper 3 5 1)) (qst_of_list [false; true; true]) = Some s'
    /\ read_val s' (seq 0 3) = Some ((6 + 1 * 5) mod 2 ^ Z.of_nat 3)%Z
    /\ (forall w, 3 <= w -> s' w = qst_of_list [false; true; true] w).
Proof.
  apply (X25_add_draper_adds_mod_2n 3 5 1 6 (qst_of_list [false; true; true])).
  - lia.
  - vm_compute. reflexivity.
  - vm_compute. discriminate.
  - reflexivity.
Defined.

(** X26: for [1 <= n <= 1000], [|b| < 2^32] and [|factor| <= 1], and with
    the rotations taken at their exact angles,
    [phi_addition_controlled n b factor], run with its control as a basis
    bit and its register in the Fourier state of [v], leaves the Fourier
    state of [v + factor * b] when the control is set and of [v] otherwise;
    the control and all other cells stay. *)
Theorem X26_phi_addition_controlled_adds (n : nat) (b f v : Z) (s : qstate) (c : bool) :
  1 <= n <= 1000 -> (Z.abs b < 2 ^ 32)%Z -> (Z.abs f <= 1)%Z ->
  s 0 = Bit c -> fourierb s (seq 1 n) v = true ->
  exists s',
    run (data (phi_addition_controlled n b f)) s = Some s'
    /\ fourierb s' (seq 1 n) (if c then v + f * b else v) = true
    /\ (forall w, ~ (1 <= w < 1 + n) -> s' w = s w).
Proof.
  intros _ _ _ Hc Hf. apply fourierb_iff in Hf.
  assert (Hnd : NoDup (0 :: seq 1 n)) by (rewrite seq_cons_id; apply seq_NoDup).
  destruct (phi_addition_controlled_run n b f 0 (seq 1 n) s v c (length_seq n 1) Hnd Hc Hf)
    as [s' [R [F O]]].
  rewrite seq_cons_id, append_seq_id in R by apply phi_addition_controlled_in.
  exists s'. split; [exact R|]. split; [now apply fourierb_iff|].
  intros w Hw. apply O. rewrite in_seq. lia.
Qed.

Lemma X26_witness :
  exists s',
    run (data (phi_addition_controlled 2 3 1)) (qst_of_cells [Bit true; Ph 2; Ph 1])
    = Some s'
    /\ fourierb s' (seq 1 2) (if true then 2 + 1 * 3 else 2) = true
    /\ (forall w, ~ (1 <= w < 1 + 2) -> s' w = qst_of_cells [Bit true; Ph 2; Ph 1] w).
Proof.
  apply (X26_phi_addition_controlled_adds 2 3 1 2
           (qst_of_cells [Bit true; Ph 2; Ph 1]) true).
  - lia.
  - vm_compute. reflexivity.
  - vm_compute. discriminate.
  - reflexivity.
  - vm_compute. reflexivity.
Defined.

(** X27: for [1 <= n <= 1000], [|b| < 2^32] and [|factor| <= 1], and with
    the rotations taken at their exact angles, [phi_addition_cc n b factor]
    adds [factor * b] to a register in Fourier space exactly when both of
    its controls (basis bits) are set; the controls and all other cells
    stay. *)
Theorem X27_phi_addition_cc_adds (n : nat) (b f v : Z) (s : qstate) (b0 b1 : bool) :
  1 <= n <= 1000 -> (Z.abs b < 2 ^ 32)%Z -> (Z.abs f <= 1)%Z ->
  s 0 = Bit b0 -> s 1 = Bit b1 -> fourierb s (seq 2 n) v = true ->
  exists s',
    run (data (phi_addition_cc n b f)) s = Some s'
    /\ fourierb s' (seq 2 n) (if b0 && b1 then v + f * b else v) = true
    /\ (forall w, ~ (2 <= w < 2 + n) -> s' w = s w).
Proof.
  intros _ _ _ E0 E1 Hf. apply fourierb_iff in Hf.
  assert (Hnd : NoDup (0 :: 1 :: seq 2 n)).
  { change (0 :: 1 :: seq 2 n) with (seq 0 (2 + n)). apply seq_NoDup. }
  destruct (phi_addition_cc_run n b f 0 1 (seq 2 n) s v b0 b1 (length_seq n 2) Hnd E0 E1 Hf)
    as [s' [R [F O]]].
  change ([0; 1] ++ seq 2 n) with (seq 0 (2 + n)) in R.
  rewrite append_seq_id in R by apply phi_addition_cc_in.
  exists s'. split; [exact R|]. split; [now apply fourierb_iff|].
  intros w Hw. apply O. rewrite in_seq. lia.
Qed.

Lemma X27_witness :
  exists s',
    run (data (phi_addition_cc 2 3 1)) (qst_of_cells [Bit true; Bit true; Ph 2; Ph 1])
    = Some s'
    /\ fourierb s' (seq 2 2) (if true && true then 2 + 1 * 3 else 2) = true
    /\ (forall w, ~ (2 <= w < 2 + 2) ->
          s' w = qst_of_cells [Bit true; Bit true; Ph 2; Ph 1] w).
Proof.
  apply (X27_phi_addition_cc_adds 2 3 1 2
           (qst_of_cells [Bit true; Bit true; Ph 2; Ph 1]) true true).
  - lia.
  - vm_compute. reflexivity.
  - vm_compute. discriminate.
  - reflexivity.
  - reflexivity.
  - vm_compute. reflexivity.
Defined.

(** X29: for [1 <= n <= 1000], [0 <= y < N], [N <= 2^(n-1)], [N <= 2^32]
    and [0 <= a < N], and with the rotations taken at their exact angles,
    [phi_add_mod_N n y N], run on the Fourier state of [a] with the ancilla
    at 0, leaves the Fourier state of [(a + y) mod N] and the ancilla at 0
    again; no other cell changes. *)
Theorem X29_phi_add_mod_N_adds_mod_N (n : nat) (y N a : Z) (s : qstate) :
  1 <= n <= 1000 -> (0 <= y < N)%Z -> (N <= 2 ^ Z.of_nat (n - 1))%Z ->
  (N <= 2 ^ 32)%Z -> (0 <= a < N)%Z ->
  fourierb s (seq 0 n) a = true -> s n = Bit false ->
  exists s',
    run (data (phi_add_mod_N n y N)) s = Some s'
    /\ fourierb s' (seq 0 n) ((a + y) mod N) = true
    /\ s' n = Bit false
    /\ (forall w, n < w -> s' w = s w).
Proof.
  intros [Hn _] Hy HN _ Ha Hf Hx. apply fourierb_iff in Hf.
  destruct (phi_add_mod_N_run n y N a s Hn Hy HN Ha s) as [s' [R [F [A O]]]].
  { split; [exact Hf|]. split; [exact Hx|]. apply same_outside_refl. }
  exists s'. split; [exact R|]. split; [now apply fourierb_iff|].
  split; [exact A|]. intros w Hw. apply O. cbn [In]. rewrite in_seq. lia.
Qed.

Lemma X29_witness :
  exists s',
    run (data (phi_add_mod_N 4 5 7)) (qst_of_cells [Ph 4; Ph 2; Ph 1; Ph (1 # 2)])
    = Some s'
    /\ fourierb s' (seq 0 4) ((4 + 5) mod 7) = true
    /\ s' 4 = Bit false
    /\ (forall w, 4 < w -> s' w = qst_of_cells [Ph 4; Ph 2; Ph 1; Ph (1 # 2)] w).
Proof.
  apply (X29_phi_add_mod_N_adds_mod_N 4 5 7 4
           (qst_of_cells [Ph 4; Ph 2; Ph 1; Ph (1 # 2)])).
  - lia.
  - lia.
  - cbn. lia.
  - vm_compute. discriminate.
  - lia.
  - vm_compute. reflexivity.
  - reflexivity.
Defined.

(** X30: under the same conditions the doubly controlled
    [phi_add_mod_N_cc n y N] ([1 <= n <= 1000], [0 <= y < N],
    [N <= 2^(n-1)], [N <= 2^32], [0 <= a < N], rotations at their exact
    angles) leaves the Fourier state of [(a + y) mod N] when both controls
    are set and of [a] otherwise; the ancilla is 0 again and the controls
    and all other cells stay. *)
Theorem X30_phi_add_mod_N_cc_adds_mod_N (n : nat) (y N a : Z) (s : qstate)
  (b0 b1 : bool) :
  1 <= n <= 1000 -> (0 <= y < N)%Z -> (N <= 2 ^ Z.of_nat (n - 1))%Z ->
  (N <= 2 ^ 32)%Z -> (0 <= a < N)%Z ->
  s 0 = Bit b0 -> s 1 = Bit b1 ->
  fourierb s (seq 2 n) a = true -> s (2 + n) = Bit false ->
  exists s',
    run (data (phi_add_mod_N_cc n y N)) s = Some s'
    /\ fourierb s' (seq 2 n) (if b0 && b1 then (a + y) mod N else a) = true
    /\ s' (2 + n) = Bit false
    /\ (forall w, ~ (2 <= w <= 2 + n) -> s' w = s w).
Proof.
  intros [Hn _] Hy HN _ Ha E0 E1 Hf Hx. apply fourierb_iff in Hf.
  destruct (phi_add_mod_N_cc_run n y N a s b0 b1 Hn Hy HN Ha E0 E1 s)
    as [s' [R [F [A O]]]].
  { split; [exact Hf|]. split; [exact Hx|]. apply same_outside_refl. }
  exists s'. split; [exact R|]. split; [now apply fourierb_iff|].
  split; [exact A|]. intros w Hw. apply O. cbn [In]. rewrite in_seq. lia.
Qed.

Lemma X30_witness :
  exists s',
    run (data (phi_add_mod_N_cc 4 5 7))
      (qst_of_cells [Bit true; Bit true; Ph 4; Ph 2; Ph 1; Ph (1 # 2)]) = Some s'
    /\ fourierb s' (seq 2 4) (if true && true then (4 + 5) mod 7 else 4) = true
    /\ s' (2 + 4) = Bit false
    /\ (forall w, ~ (2 <= w <= 2 + 4) ->
          s' w = qst_of_cells [Bit true; Bit true; Ph 4; Ph 2; Ph 1; Ph (1 # 2)] w).
Proof.
  apply (X30_phi_add_mod_N_cc_adds_mod_N 4 5 7 4
           (qst_of_cells [Bit true; Bit true; Ph 4; Ph 2; Ph 1; Ph (1 # 2)]) true true).
  - lia.
  - lia.
  - cbn. lia.
  - vm_compute. discriminate.
  - lia.
  - reflexivity.
  - reflexivity.
  - vm_compute. reflexivity.
  - reflexivity.
Defined.
